(** * 3Dto2D: the cloth-flattening pipeline, embedded and verified

    A shallow embedding of the geometric core of the 3D-to-2D cloth
    flattener (seam extraction, flood segmentation with kerf, vertex
    welding, topology repair, mass-spring relaxation, shelf packing),
    followed by the properties of the specification that were checked
    against it.  The file has five parts: the program, module by module;
    the predicates of the statements and the invariants of the proofs;
    the meshes and patterns of the examples; the properties of the
    specification; further properties of the modules, read off the code.

    Conventions.
    - A JavaScript number is an IEEE-754 binary64 value: Rocq's primitive
      [float].  A [Float32Array] cell holds the binary32 rounding of what
      is stored in it ([JSNum.fround]).
    - A JavaScript [Map] or [Set] whose iteration order is observed is an
      insertion-ordered list; edge keys of the form [a_b] are pairs.
    - A [while] loop over a work list is a function recursive on a fuel
      that bounds the number of its iterations. *)

From Stdlib Require Import List Arith ZArith QArith Lia Lqa Bool Floats.
From Stdlib Require Import Permutation Sorted.
Import ListNotations.

Close Scope Q_scope.
Close Scope float_scope.
Open Scope nat_scope.

Set Warnings "-inexact-float".

(* ================================================================= *)
(** ** JavaScript numbers *)

Module JSNum.

Definition num := float.

(** [Math.fround]: rounding of a binary64 value to binary32 (24 bits
    of precision, maximal exponent 128), the conversion a store into
    a [Float32Array] performs. *)
Definition fround (x : float) : float :=
  match Prim2SF x with
  | S754_finite s m e =>
      SF2Prim (binary_normalize 24 128 (cond_Zopp s (Zpos m)) e s)
  | _ => x
  end.

(** Truthiness of a number: [0], [-0] and [NaN] are falsy. *)
Definition truthy (x : float) : bool :=
  negb (PrimFloat.is_nan x || PrimFloat.is_zero x).

(** [x || d] on numbers. *)
Definition orElse (x d : float) : float := if truthy x then x else d.

Definition ofNat (n : nat) : float :=
  PrimFloat.of_uint63 (Uint63.of_Z (Z.of_nat n)).

(** [a > b], [a < b], [a <= b], [a >= b] (all false on NaN). *)
Definition gt (a b : float) : bool := PrimFloat.ltb b a.
Definition lt (a b : float) : bool := PrimFloat.ltb a b.
Definition le (a b : float) : bool := PrimFloat.leb a b.
Definition ge (a b : float) : bool := PrimFloat.leb b a.

(** [Number.isFinite]. *)
Definition isFinite (x : float) : bool :=
  negb (PrimFloat.is_nan x || PrimFloat.is_infinity x).


End JSNum.

(* ================================================================= *)
(** ** Work-list traversals

  Every graph traversal of the sources has one shape: a [visited] set,
  a [queue] array, and a loop that takes a node from the queue
  ([queue.shift()] or [queue.pop()]), records it, and pushes each
  neighbour that is not yet visited after marking it. *)

Module Worklist.

Definition mem (x : nat) (l : list nat) : bool := existsb (Nat.eqb x) l.

Record State := mkState {
  visited : list nat;        (* the visited set (newest first) *)
  prev : list (nat * nat);   (* the prev map: (node, predecessor) *)
  queue : list nat;          (* the queue array *)
  popped : list nat          (* the nodes taken from the queue, oldest first *)
}.

Section Engine.
Variable succ : nat -> list nat.  (* the neighbours a node offers, in order *)
Variable fifo : bool.             (* [queue.shift()] (true) or [queue.pop()] *)
Variable stop : nat -> bool.      (* the early return on the node taken *)

Definition take (q : list nat) : option (nat * list nat) :=
  if fifo then
    match q with [] => None | x :: r => Some (x, r) end
  else
    match rev q with [] => None | x :: r => Some (x, rev r) end.

(** [for (const next of succ(curr))
       if (!visited.has(next)) { visited.add(next); prev.set(next, curr);
                                 queue.push(next); }] *)
Fixpoint offer (curr : nat) (nexts : list nat) (st : State) : State :=
  match nexts with
  | [] => st
  | next :: rest =>
      if mem next (visited st) then offer curr rest st
      else offer curr rest
             (mkState (next :: visited st) ((next, curr) :: prev st)
                      (queue st ++ [next]) (popped st))
  end.

(** [while (queue.length > 0) { ... }]; the second component is the
    node at which the loop returned early, if it did. *)
Fixpoint run (fuel : nat) (st : State) : State * option nat :=
  match fuel with
  | 0 => (st, None)
  | S fuel' =>
      match take (queue st) with
      | None => (st, None)
      | Some (curr, rest) =>
          let st1 := mkState (visited st) (prev st) rest (popped st ++ [curr]) in
          if stop curr then (st1, Some curr)
          else run fuel' (offer curr (succ curr) st1)
      end
  end.

End Engine.

(** The nodes of [U] not yet visited. *)
Definition unvisited (U vis : list nat) : list nat :=
  filter (fun u => negb (mem u vis)) U.

(** The number of iterations the loop can still make. *)
Definition budget (U : list nat) (st : State) : nat :=
  length (unvisited U (visited st)) + length (queue st).

End Worklist.

(* ================================================================= *)
(** ** Values shared by the modules *)

Module JS.

(** The outcome of a call that may throw a [TypeError] (a property read
    on [undefined], an iteration over [undefined]). *)
Inductive Result (A : Type) : Type :=
| Ok (a : A)
| TypeError.
Arguments Ok {A} a.
Arguments TypeError {A}.

Definition bind {A B : Type} (r : Result A) (k : A -> Result B) : Result B :=
  match r with
  | Ok a => k a
  | TypeError => TypeError
  end.

(** A read [xs[i]] followed by a property access or an iteration. *)
Definition read {A : Type} (xs : list A) (i : nat) : Result A :=
  match nth_error xs i with
  | Some a => Ok a
  | None => TypeError
  end.

(** [xs.map(f)] for an [f] that may throw. *)
Fixpoint mapM {A B : Type} (f : A -> Result B) (xs : list A) : Result (list B) :=
  match xs with
  | [] => Ok []
  | a :: rest =>
      bind (f a) (fun b => bind (mapM f rest) (fun bs => Ok (b :: bs)))
  end.

(** An insertion-ordered [Map]. *)
Section MapOps.
Context {K V : Type} (eqb : K -> K -> bool).

Fixpoint get (k : K) (m : list (K * V)) : option V :=
  match m with
  | [] => None
  | (k', v) :: rest => if eqb k k' then Some v else get k rest
  end.

(** [m.set(k, v)]: an existing key keeps its position. *)
Fixpoint set (k : K) (v : V) (m : list (K * V)) : list (K * V) :=
  match m with
  | [] => [(k, v)]
  | (k', v') :: rest =>
      if eqb k k' then (k', v) :: rest else (k', v') :: set k v rest
  end.
End MapOps.

(** An insertion-ordered [Set] of numbers. *)
Definition has (x : nat) (s : list nat) : bool := existsb (Nat.eqb x) s.
Definition add (x : nat) (s : list nat) : list nat :=
  if has x s then s else s ++ [x].

(** [xs[i].push(x)] on an array of arrays (no cell: nothing to push to). *)
Fixpoint pushAt {A : Type} (i : nat) (x : A) (xs : list (list A)) : list (list A) :=
  match xs, i with
  | [], _ => []
  | l :: rest, 0 => (l ++ [x]) :: rest
  | l :: rest, S i' => l :: pushAt i' x rest
  end.

(** [xs.sort((a, b) => b.length - a.length)]: stable, longest first. *)
Fixpoint insertByLength {A : Type} (a : list A) (sorted : list (list A)) : list (list A) :=
  match sorted with
  | [] => [a]
  | b :: rest =>
      if length b <? length a then a :: b :: rest
      else b :: insertByLength a rest
  end.

Definition sortByLengthDesc {A : Type} (xs : list (list A)) : list (list A) :=
  fold_left (fun acc a => insertByLength a acc) xs [].

End JS.

Module Geometry.

Record Vertex := { x : float; y : float; z : float }.

(** A mesh [{vertices, faces}]: a face is an array of vertex indices. *)
Record Mesh := { vertices : list Vertex; faces : list (list nat) }.

(** The canonical key [v1 < v2 ? `${v1}_${v2}` : `${v2}_${v1}`]. *)
Definition EdgeKey : Type := nat * nat.
Definition edgeKey (v1 v2 : nat) : EdgeKey :=
  if v1 <? v2 then (v1, v2) else (v2, v1).
Definition keyEqb (a b : EdgeKey) : bool :=
  (fst a =? fst b) && (snd a =? snd b).
Definition keyHas (k : EdgeKey) (s : list EdgeKey) : bool := existsb (keyEqb k) s.

(** The pairs [(face[i], face[(i + 1) % face.length])], in order of [i]. *)
Definition faceEdges (face : list nat) : list (nat * nat) :=
  match face with
  | [] => []
  | a :: rest => combine face (rest ++ [a])
  end.

Definition faceKeys (face : list nat) : list EdgeKey :=
  map (fun e => edgeKey (fst e) (snd e)) (faceEdges face).

(** The table [edgeToFaces] that [FloodSegmenter.buildFaceAdjacency] and
    [TopologyRepair.cutMeshAlongPath] both build: for every edge key, the
    indices of the faces with that edge, one entry per corner
    ([edgeToFaces.get(key).push(...)], the array created when the key is
    new). *)
Definition recordFace (faceIdx : nat) (m : list (EdgeKey * list nat)) (k : EdgeKey)
  : list (EdgeKey * list nat) :=
  match JS.get keyEqb k m with
  | None => JS.set keyEqb k [faceIdx] m
  | Some infos => JS.set keyEqb k (infos ++ [faceIdx]) m
  end.

Fixpoint edgeToFacesFrom (faceIdx : nat) (fs : list (list nat))
         (m : list (EdgeKey * list nat)) : list (EdgeKey * list nat) :=
  match fs with
  | [] => m
  | face :: rest =>
      edgeToFacesFrom (S faceIdx) rest (fold_left (recordFace faceIdx) (faceKeys face) m)
  end.

(** [set.add(key)] on a set of edge keys. *)
Definition keyAdd (k : EdgeKey) (s : list EdgeKey) : list EdgeKey :=
  if keyHas k s then s else s ++ [k].

(** The set of the edge keys of a list of faces, as
    [MeshScissor.isTopologicalDisk], [ClothFlattenerApp.countEdges] and
    [ClothFlattenerApp.calculateEuler] build it. *)
Definition edgeSet (fs : list (list nat)) : list EdgeKey :=
  fold_left (fun s face => fold_left (fun acc k => keyAdd k acc) (faceKeys face) s) fs [].

(** The loop that [FloodSegmenter.segment], [SeamExtractor.extractRedEdges]
    and [ClothFlattenerApp.processInternalSeams] share: the key of every
    edge of a face whose two ends are in [redSet] is added to the set. *)
Definition redEdge (redSet : list nat) (s : list EdgeKey) (e : nat * nat) : list EdgeKey :=
  if JS.has (fst e) redSet && JS.has (snd e) redSet
  then keyAdd (edgeKey (fst e) (snd e)) s
  else s.

Definition redEdgesFrom (fs : list (list nat)) (redSet : list nat) (s : list EdgeKey)
  : list EdgeKey :=
  fold_left (fun acc face => fold_left (redEdge redSet) (faceEdges face) acc) fs s.

(** [Math.sqrt(dx * dx + dy * dy + dz * dz)]. *)
Definition distance (v1 v2 : Vertex) : float :=
  let dx := (x v2 - x v1)%float in
  let dy := (y v2 - y v1)%float in
  let dz := (z v2 - z v1)%float in
  PrimFloat.sqrt (dx * dx + dy * dy + dz * dz)%float.

End Geometry.

(* ================================================================= *)
(** ** SeamExtractor.js: red-vertex detection *)

Module SeamExtractor.

Record Color := { r : float; g : float; b : float }.

(** The options object of [extractRedVertices]. *)
Record Options := {
  redThreshold : float;
  greenMaxThreshold : float;
  blueMaxThreshold : float
}.

(** The destructuring defaults of [extractRedVertices]. *)
Definition defaultOptions : Options :=
  {| redThreshold := 0.8; greenMaxThreshold := 0.3; blueMaxThreshold := 0.3 |}.

(** The options [ClothFlattenerApp.segmentParts] passes. *)
Definition segmentPartsOptions : Options :=
  {| redThreshold := 0.7; greenMaxThreshold := 0.4; blueMaxThreshold := 0.4 |}.

Record MeshData := {
  hasVertexColors : bool;
  vertexColors : list Color
}.

(** The test of the loop body:
    [color.r > redThreshold && color.g < greenMaxThreshold &&
     color.b < blueMaxThreshold]. *)
Definition isRed (o : Options) (c : Color) : bool :=
  JSNum.gt (r c) (redThreshold o)
  && JSNum.lt (g c) (greenMaxThreshold o)
  && JSNum.lt (b c) (blueMaxThreshold o).

(** [for (let i = 0; i < colors.length; i++) ... push(i)], from index [i]. *)
Fixpoint scanColors (o : Options) (i : nat) (colors : list Color) : list nat :=
  match colors with
  | [] => []
  | c :: rest =>
      if isRed o c then i :: scanColors o (S i) rest
      else scanColors o (S i) rest
  end.

(** [extractRedVertices(options)]; [None] is an unset [this.meshData]. *)
Definition extractRedVertices (meshData : option MeshData) (o : Options) : list nat :=
  match meshData with
  | None => []
  | Some md =>
      if negb (hasVertexColors md) then []
      else scanColors o 0 (vertexColors md)
  end.

(** The predicate the specification words: r >= 0.7, g <= 0.4, b <= 0.4. *)
Definition specRed (o : Options) (c : Color) : bool :=
  JSNum.ge (r c) (redThreshold o)
  && JSNum.le (g c) (greenMaxThreshold o)
  && JSNum.le (b c) (blueMaxThreshold o).

(** [extractRedEdges(redSet)]: what it leaves in [this.seamEdges], which
    held [seamEdges] before. *)
Definition extractRedEdges (faces : list (list nat)) (redSet : list nat)
           (seamEdges : list Geometry.EdgeKey) : list Geometry.EdgeKey :=
  Geometry.redEdgesFrom faces redSet seamEdges.

(** [pathToEdges(path)]: the pairs of consecutive vertices. *)
Fixpoint pathToEdges (path : list nat) : list (nat * nat) :=
  match path with
  | a :: (b :: _) as rest => (a, b) :: pathToEdges rest
  | _ => []
  end.

(** [this.distance(currentPos, vertices[candidate])]: a vertex that is
    missing has no [x] to read. *)
Definition distanceTo (vs : list Geometry.Vertex) (currentPos : option Geometry.Vertex)
           (candidate : nat) : JS.Result float :=
  match currentPos, nth_error vs candidate with
  | Some a, Some c => JS.Ok (Geometry.distance a c)
  | _, _ => JS.TypeError
  end.

(** The inner loop of [orderByNearestNeighbor]; the state is
    [(nearest, nearestDist)], and [None] is [null]. *)
Definition nearestOf (vs : list Geometry.Vertex) (currentPos : option Geometry.Vertex)
           (remaining : list nat) : JS.Result (option nat) :=
  JS.bind
    (fold_left
       (fun acc candidate =>
          JS.bind acc (fun st =>
          JS.bind (distanceTo vs currentPos candidate) (fun dist =>
          JS.Ok (if JSNum.lt dist (snd st) then (Some candidate, dist) else st))))
       remaining (JS.Ok (None, PrimFloat.infinity)))
    (fun st => JS.Ok (fst st)).

(** [remaining.delete(x)]. *)
Definition delete (x : nat) (s : list nat) : list nat :=
  filter (fun y => negb (y =? x)) s.

(** The [while (remaining.size > 0)] loop, which takes one vertex out of
    [remaining] at every turn that does not leave the loop. *)
Fixpoint orderLoop (vs : list Geometry.Vertex) (fuel : nat) (current : nat)
         (remaining result : list nat) : JS.Result (list nat) :=
  match fuel with
  | 0 => JS.Ok result
  | S fuel' =>
      match remaining with
      | [] => JS.Ok result
      | _ =>
          JS.bind (nearestOf vs (nth_error vs current) remaining) (fun nearest =>
            match nearest with
            | Some n => orderLoop vs fuel' n (delete n remaining) (result ++ [n])
            | None => JS.Ok result
            end)
      end
  end.

(** [orderByNearestNeighbor(vertexIndices)]. *)
Definition orderByNearestNeighbor (vs : list Geometry.Vertex) (vertexIndices : list nat)
  : JS.Result (list nat) :=
  if length vertexIndices <=? 2 then JS.Ok vertexIndices
  else
    let remaining := fold_left (fun s i => JS.add i s) vertexIndices [] in
    match vertexIndices with
    | [] => JS.Ok []
    | current :: _ =>
        orderLoop vs (length remaining) current (delete current remaining) [current]
    end.

End SeamExtractor.

(* ================================================================= *)
(** ** FloodSegmenter: flood segmentation with kerf *)

Module FloodSegmenter.
Import Geometry.

Definition MIN_FACES : nat := 500.

(** The options object of [segmentWithSeams]. *)
Record Options := {
  minFaces : nat;
  assignBoundaryFaces : bool;
  redVertices : list nat
}.

Definition defaultOptions : Options :=
  {| minFaces := MIN_FACES; assignBoundaryFaces := true; redVertices := [] |}.

(** An entry [{neighborIdx, sharedEdge}] of the adjacency table. *)
Record Neighbor := { neighborIdx : nat; sharedEdge : nat * nat }.

(** A vertex of a sub-mesh: position and colour. *)
Record PatchVertex := {
  px : float; py : float; pz : float;
  pr : float; pg : float; pb : float
}.

(** The object [buildSubMeshWithKerf] returns, with the field
    [internalRedVertices] that [segmentWithSeams] attaches.  An entry of a
    face is what [globalToLocal.get] returned. *)
Record SubMesh := {
  subVertices : list PatchVertex;
  subFaces : list (list (option nat));
  globalToLocal : list (nat * nat);
  localToGlobal : list nat;
  originalFaceIndices : list nat;
  internalRedVertices : list nat
}.

(** [collectBoundaryFaces]: the faces with an edge in [seamEdges]. *)
Fixpoint collectFrom (seamEdges : list EdgeKey) (faceIdx : nat)
         (fs : list (list nat)) : list nat :=
  match fs with
  | [] => []
  | face :: rest =>
      if existsb (fun k => keyHas k seamEdges) (faceKeys face)
      then faceIdx :: collectFrom seamEdges (S faceIdx) rest
      else collectFrom seamEdges (S faceIdx) rest
  end.

Definition collectBoundaryFaces (mesh : Mesh) (seamEdges : list EdgeKey) : list nat :=
  collectFrom seamEdges 0 (faces mesh).

Definition linkFaces (adj : list (list Neighbor))
           (entry : EdgeKey * list nat) : list (list Neighbor) :=
  match entry with
  | (k, [f1; f2]) =>
      JS.pushAt f2 {| neighborIdx := f1; sharedEdge := k |}
        (JS.pushAt f1 {| neighborIdx := f2; sharedEdge := k |} adj)
  | _ => adj
  end.

(** [buildFaceAdjacency]: faces are adjacent across an edge that exactly
    two face corners share. *)
Definition buildFaceAdjacency (mesh : Mesh) : list (list Neighbor) :=
  fold_left linkFaces (edgeToFacesFrom 0 (faces mesh) [])
            (repeat [] (length (faces mesh))).

(** The neighbours the flood may enter from [faceIdx]: those across an
    edge that is not a seam edge. *)
Definition openNeighbors (adjacency : list (list Neighbor))
           (seamEdges : list EdgeKey) (faceIdx : nat) : list nat :=
  map neighborIdx
      (filter (fun nb => negb (keyHas (edgeKey (fst (sharedEdge nb)) (snd (sharedEdge nb)))
                                      seamEdges))
              (nth faceIdx adjacency [])).

(** The [for (startFace ...)] loop of [floodFillExcludingBoundary];
    [visited] holds the faces whose cell of the visited array is not 0. *)
Fixpoint floodFrom (adjacency : list (list Neighbor)) (seamEdges : list EdgeKey)
         (fuel : nat) (starts : list nat) (visited : list nat)
         (islands : list (list nat)) : list (list nat) :=
  match starts with
  | [] => islands
  | startFace :: rest =>
      if Worklist.mem startFace visited
      then floodFrom adjacency seamEdges fuel rest visited islands
      else
        let st := fst (Worklist.run (openNeighbors adjacency seamEdges) false
                         (fun _ => false) fuel
                         (Worklist.mkState (startFace :: visited) [] [startFace] [])) in
        let currentIsland := Worklist.popped st in
        floodFrom adjacency seamEdges fuel rest (Worklist.visited st)
          (if 0 <? length currentIsland then islands ++ [currentIsland] else islands)
  end.

Definition floodFillExcludingBoundary (mesh : Mesh) (adjacency : list (list Neighbor))
           (seamEdges : list EdgeKey) (boundaryFaces : list nat) : list (list nat) :=
  let faceCount := length (faces mesh) in
  JS.sortByLengthDesc
    (floodFrom adjacency seamEdges faceCount (seq 0 faceCount) boundaryFaces []).

(** [faceToPatch] after the [islands.forEach] of
    [assignBoundaryFacesByAdjacency]. *)
Fixpoint indexIslands (patchId : nat) (islands : list (list nat))
         (m : list (nat * nat)) : list (nat * nat) :=
  match islands with
  | [] => m
  | island :: rest =>
      indexIslands (S patchId) rest
        (fold_left (fun acc faceIdx => JS.set Nat.eqb faceIdx patchId acc) island m)
  end.

(** The votes of the neighbours of one boundary face. *)
Definition countVotes (faceToPatch : list (nat * nat)) (nbs : list Neighbor)
  : list (nat * nat) :=
  fold_left
    (fun votes nb =>
       match JS.get Nat.eqb (neighborIdx nb) faceToPatch with
       | Some patchId =>
           JS.set Nat.eqb patchId
             (match JS.get Nat.eqb patchId votes with Some n => n | None => 0 end + 1)
             votes
       | None => votes
       end)
    nbs [].

(** The patch with the most votes ([None] is [bestPatchId === -1]). *)
Definition bestPatch (votes : list (nat * nat)) : option nat :=
  fst (fold_left
         (fun acc pv =>
            if snd acc <? snd pv then (Some (fst pv), snd pv) else acc)
         votes (None, 0)).

Definition removeFace (faceIdx : nat) (s : list nat) : list nat :=
  filter (fun f => negb (f =? faceIdx)) s.

(** The [while (changed && remaining.size > 0 && iter < 5)] loop;
    [rounds] is [5 - iter]. *)
Fixpoint assignRounds (adjacency : list (list Neighbor)) (rounds : nat)
         (islands : list (list nat)) (faceToPatch : list (nat * nat))
         (remaining : list nat) : list (list nat) :=
  match rounds with
  | 0 => islands
  | S rounds' =>
      match remaining with
      | [] => islands
      | _ =>
          let toAdd :=
            flat_map
              (fun faceIdx =>
                 match bestPatch (countVotes faceToPatch (nth faceIdx adjacency [])) with
                 | Some best => [(faceIdx, best)]
                 | None => []
                 end)
              remaining in
          match toAdd with
          | [] => islands
          | _ =>
              assignRounds adjacency rounds'
                (fold_left (fun isl item => JS.pushAt (snd item) (fst item) isl) toAdd islands)
                (fold_left (fun m item => JS.set Nat.eqb (fst item) (snd item) m)
                           toAdd faceToPatch)
                (fold_left (fun rem item => removeFace (fst item) rem) toAdd remaining)
          end
      end
  end.

Definition assignBoundaryFacesByAdjacency (adjacency : list (list Neighbor))
           (islands : list (list nat)) (boundaryFaces : list nat) : list (list nat) :=
  assignRounds adjacency 5 islands (indexIslands 0 islands []) boundaryFaces.

(** Step 1 of [buildSubMeshWithKerf]: a face with a red vertex is dropped. *)
Definition keepClean (mesh : Mesh) (redVerticesSet : list nat)
           (faceIdx : nat) : JS.Result (list nat) :=
  JS.bind (JS.read (faces mesh) faceIdx) (fun face =>
    JS.Ok (if existsb (fun vIdx => JS.has vIdx redVerticesSet) face
           then [] else [faceIdx])).

Definition collectUsed (mesh : Mesh) (used : list nat) (faceIdx : nat) : list nat :=
  fold_left (fun acc v => JS.add v acc) (nth faceIdx (faces mesh) []) used.

(** Step 4: the vertex copied with its colour forced to white. *)
Definition whiteVertex (mesh : Mesh) (globalIdx : nat) : JS.Result PatchVertex :=
  JS.bind (JS.read (vertices mesh) globalIdx) (fun v =>
    JS.Ok {| px := x v; py := y v; pz := z v;
             pr := 1%float; pg := 1%float; pb := 1%float |}).

Fixpoint numberFrom (localIdx : nat) (used : list nat) (m : list (nat * nat))
  : list (nat * nat) :=
  match used with
  | [] => m
  | globalIdx :: rest => numberFrom (S localIdx) rest (JS.set Nat.eqb globalIdx localIdx m)
  end.

(** [buildSubMeshWithKerf]; [Ok None] is the [null] returned when no face
    survives. *)
Definition buildSubMeshWithKerf (mesh : Mesh) (faceIndices : list nat)
           (redVerticesSet : list nat) : JS.Result (option SubMesh) :=
  JS.bind (JS.mapM (keepClean mesh redVerticesSet) faceIndices) (fun kept =>
    let cleanFaceIndices := concat kept in
    match cleanFaceIndices with
    | [] => JS.Ok None
    | _ =>
        let usedVertices := fold_left (collectUsed mesh) cleanFaceIndices [] in
        let g2l := numberFrom 0 usedVertices [] in
        JS.bind (JS.mapM (whiteVertex mesh) usedVertices) (fun newVertices =>
          JS.Ok (Some
            {| subVertices := newVertices;
               subFaces :=
                 map (fun faceIdx =>
                        map (fun v => JS.get Nat.eqb v g2l) (nth faceIdx (faces mesh) []))
                     cleanFaceIndices;
               globalToLocal := g2l;
               localToGlobal := usedVertices;
               originalFaceIndices := cleanFaceIndices;
               internalRedVertices := [] |}))
    end).

(** The red vertices of an island, in order of first appearance. *)
Definition islandRedVertices (mesh : Mesh) (redSet : list nat)
           (faceIndices : list nat) : JS.Result (list nat) :=
  JS.bind (JS.mapM (JS.read (faces mesh)) faceIndices) (fun fs =>
    JS.Ok (fold_left (fun acc vIdx => if JS.has vIdx redSet then JS.add vIdx acc else acc)
                     (concat fs) [])).

(** The body of step 6 of [segmentWithSeams] for one island. *)
Definition emitIsland (mesh : Mesh) (o : Options) (faceIndices : list nat)
  : JS.Result (list SubMesh) :=
  JS.bind (islandRedVertices mesh (redVertices o) faceIndices) (fun reds =>
  JS.bind (buildSubMeshWithKerf mesh faceIndices (redVertices o)) (fun built =>
    match built with
    | Some subMesh =>
        if minFaces o <=? length (subFaces subMesh)
        then JS.Ok [ {| subVertices := subVertices subMesh;
                        subFaces := subFaces subMesh;
                        globalToLocal := globalToLocal subMesh;
                        localToGlobal := localToGlobal subMesh;
                        originalFaceIndices := originalFaceIndices subMesh;
                        internalRedVertices := reds |} ]
        else JS.Ok []
    | None => JS.Ok []
    end)).

(** The islands that reach step 6. *)
Definition validIslands (mesh : Mesh) (seamEdges : list EdgeKey) (o : Options)
  : list (list nat) :=
  let boundaryFaces := collectBoundaryFaces mesh seamEdges in
  let adjacency := buildFaceAdjacency mesh in
  let islands := floodFillExcludingBoundary mesh adjacency seamEdges boundaryFaces in
  let islands' :=
    if assignBoundaryFaces o && (0 <? length islands)
    then assignBoundaryFacesByAdjacency adjacency islands boundaryFaces
    else islands in
  filter (fun island => minFaces o <=? length island) islands'.

Definition segmentWithSeams (mesh : Mesh) (seamEdges : list EdgeKey) (o : Options)
  : JS.Result (list SubMesh) :=
  JS.bind (JS.mapM (emitIsland mesh o) (validIslands mesh seamEdges o))
          (fun emitted => JS.Ok (concat emitted)).

(** [segment(mesh, redVertices)], the older entry point: the edges with two
    red ends are the walls, and the other options keep their defaults. *)
Definition segment (mesh : Mesh) (redSet : list nat) : JS.Result (list SubMesh) :=
  segmentWithSeams mesh (redEdgesFrom (faces mesh) redSet [])
    {| minFaces := MIN_FACES; assignBoundaryFaces := true; redVertices := redSet |}.

(** [buildSubMesh(mesh, faceIndices)]: the kerf with no red vertex. *)
Definition buildSubMesh (mesh : Mesh) (faceIndices : list nat) : JS.Result (option SubMesh) :=
  buildSubMeshWithKerf mesh faceIndices [].

(** [computeIslandCenter(faceIndices, mesh)]: the mean of the corners of
    the faces; the state of the loops is [(cx, cy, cz, count)]. *)
Definition computeIslandCenter (faceIndices : list nat) (mesh : Mesh) : JS.Result Vertex :=
  JS.bind
    (fold_left
       (fun acc faceIdx =>
          JS.bind acc (fun st =>
          JS.bind (JS.read (faces mesh) faceIdx) (fun face =>
            fold_left
              (fun acc' v =>
                 JS.bind acc' (fun st' =>
                 JS.bind (JS.read (vertices mesh) v) (fun vertex =>
                   let '(cx, cy, cz, count) := st' in
                   JS.Ok ((cx + x vertex)%float, (cy + y vertex)%float,
                          (cz + z vertex)%float, S count))))
              face (JS.Ok st))))
       faceIndices (JS.Ok (0%float, 0%float, 0%float, 0)))
    (fun st =>
       let '(cx, cy, cz, count) := st in
       JS.Ok {| x := (cx / JSNum.ofNat count)%float;
                y := (cy / JSNum.ofNat count)%float;
                z := (cz / JSNum.ofNat count)%float |}).

(** The search for the nearest large island; the state is
    [(nearestIdx, minDist)]. *)
Definition nearestLarge (mesh : Mesh) (center : Vertex) (largeIslands : list (list nat))
  : JS.Result nat :=
  JS.bind
    (fold_left
       (fun acc entry =>
          JS.bind acc (fun st =>
          JS.bind (computeIslandCenter (snd entry) mesh) (fun largeCenter =>
          JS.Ok (if JSNum.lt (distance center largeCenter) (snd st)
                 then (fst entry, distance center largeCenter)
                 else st))))
       (combine (seq 0 (length largeIslands)) largeIslands)
       (JS.Ok (0, PrimFloat.infinity)))
    (fun st => JS.Ok (fst st)).

(** [xs[i].push(...more)] on an array of arrays. *)
Fixpoint appendAt {A : Type} (i : nat) (more : list A) (xs : list (list A))
  : list (list A) :=
  match xs, i with
  | [], _ => []
  | l :: rest, 0 => (l ++ more) :: rest
  | l :: rest, S i' => l :: appendAt i' more rest
  end.

(** [mergeSmallIslands(islands, mesh, minFaces)]: what it returns (the
    large islands it extends are those of [islands]). *)
Definition mergeSmallIslands (islands : list (list nat)) (mesh : Mesh) (minFaces : nat)
  : JS.Result (list (list nat)) :=
  let largeIslands := filter (fun island => minFaces <=? length island) islands in
  let smallIslands := filter (fun island => negb (minFaces <=? length island)) islands in
  match smallIslands with
  | [] => JS.Ok largeIslands
  | _ =>
      fold_left
        (fun acc smallIsland =>
           JS.bind acc (fun large =>
           JS.bind (computeIslandCenter smallIsland mesh) (fun center =>
           JS.bind (nearestLarge mesh center large) (fun nearestIdx =>
           JS.Ok (if 0 <? length large
                  then appendAt nearestIdx smallIsland large
                  else large)))))
        smallIslands (JS.Ok largeIslands)
  end.

End FloodSegmenter.

(* ================================================================= *)
(** ** ClothFlattenerApp.arrangePatterns: shelf packing

    The packer only adds, subtracts and compares numbers.  It is written
    over these operations, and read at the binary64 numbers the program
    runs on. *)

Module Packer.

Section Arith.
Variable num : Type.
Variable add sub maxOf : num -> num -> num.
Variable gt : num -> num -> bool.
Variable zero padding maxWidth : num.

Record UV := { u : num; v : num }.

Record Bounds := { minU : num; maxU : num; minV : num; maxV : num }.

(** The fields of a pattern that the packer reads or writes. *)
Record Pattern := { pieceIndex : nat; uv : list UV; bounds : Bounds }.

(** [currentX], [currentY], [rowHeight]. *)
Record Cursor := { currentX : num; currentY : num; rowHeight : num }.

(** The row change: [if (currentX + width > maxWidth && currentX > 0)]. *)
Definition wrap (c : Cursor) (width : num) : Cursor :=
  if gt (add (currentX c) width) maxWidth && gt (currentX c) zero
  then {| currentX := zero;
          currentY := add (currentY c) (add (rowHeight c) padding);
          rowHeight := zero |}
  else c.

(** The translation of one pattern: its points and its bounds. *)
Definition translate (offsetU offsetV : num) (p : Pattern) : Pattern :=
  {| pieceIndex := pieceIndex p;
     uv := map (fun q => {| u := add (u q) offsetU; v := add (v q) offsetV |}) (uv p);
     bounds := {| minU := add (minU (bounds p)) offsetU;
                  maxU := add (maxU (bounds p)) offsetU;
                  minV := add (minV (bounds p)) offsetV;
                  maxV := add (maxV (bounds p)) offsetV |} |}.

(** One turn of the [for (const pattern of patterns)] loop. *)
Definition place (c : Cursor) (p : Pattern) : Cursor * Pattern :=
  let width := sub (maxU (bounds p)) (minU (bounds p)) in
  let height := sub (maxV (bounds p)) (minV (bounds p)) in
  let c1 := wrap c width in
  let offsetU := sub (currentX c1) (minU (bounds p)) in
  let offsetV := sub (currentY c1) (minV (bounds p)) in
  ({| currentX := add (currentX c1) (add width padding);
      currentY := currentY c1;
      rowHeight := maxOf (rowHeight c1) height |},
   translate offsetU offsetV p).

Fixpoint arrangeFrom (c : Cursor) (patterns : list Pattern) : list Pattern :=
  match patterns with
  | [] => []
  | p :: rest =>
      let (c', p') := place c p in
      p' :: arrangeFrom c' rest
  end.

(** [arrangePatterns(patterns)]: the patterns after the in-place update. *)
Definition arrangePatterns (patterns : list Pattern) : list Pattern :=
  arrangeFrom {| currentX := zero; currentY := zero; rowHeight := zero |} patterns.

End Arith.

Arguments u {num}.
Arguments v {num}.
Arguments minU {num}.
Arguments maxU {num}.
Arguments minV {num}.
Arguments maxV {num}.
Arguments pieceIndex {num}.
Arguments uv {num}.
Arguments bounds {num}.
Arguments currentX {num}.
Arguments currentY {num}.
Arguments rowHeight {num}.

(** [Math.max] on two numbers. *)
Definition jsMax (a b : float) : float :=
  if PrimFloat.is_nan a || PrimFloat.is_nan b then PrimFloat.nan
  else if PrimFloat.ltb a b then b
  else if PrimFloat.ltb b a then a
  else if PrimFloat.get_sign a then b else a.

(** The packer as the program runs it: [padding = 0.02], [maxWidth = 4.0]. *)
Definition arrangePatternsJS : list (Pattern float) -> list (Pattern float) :=
  arrangePatterns float PrimFloat.add PrimFloat.sub jsMax JSNum.gt
                  0%float 0.02%float 4%float.

(** Two boxes of numbers have a point in common: neither lies strictly to
    one side of the other. *)
Definition overlap (a b : Bounds float) : bool :=
  JSNum.le (minU a) (maxU b) && JSNum.le (minU b) (maxU a)
  && JSNum.le (minV a) (maxV b) && JSNum.le (minV b) (maxV a).

End Packer.

(* ================================================================= *)
(** ** MeshScissor.mergeVertices: vertex welding *)

Module MeshScissor.
Import Geometry.

(** A face whose indices went through [vertexMap.get]: an index is a
    number or [undefined]. *)
Definition Face : Type := list (option nat).

Record Mesh := { vertices : list Vertex; faces : list Face }.

(** [Math.floor]. *)
Definition floor (a : float) : float :=
  match Prim2SF a with
  | S754_finite s m e =>
      if (0 <=? e)%Z then a
      else
        let q := (cond_Zopp s (Zpos m) / 2 ^ (- e))%Z in
        if (q <? 0)%Z
        then PrimFloat.opp (PrimFloat.of_uint63 (Uint63.of_Z (- q)))
        else PrimFloat.of_uint63 (Uint63.of_Z q)
  | _ => a
  end.

(** A key [`${x}_${y}_${z}`]: the three numbers it prints. *)
Definition HashKey : Type := float * float * float.

(** Two numbers print the same: they are equal (so are [0] and [-0]), or
    both are [NaN]. *)
Definition samePrint (a b : float) : bool :=
  PrimFloat.eqb a b || (PrimFloat.is_nan a && PrimFloat.is_nan b).

Definition hashEqb (k1 k2 : HashKey) : bool :=
  let '(x1, y1, z1) := k1 in
  let '(x2, y2, z2) := k2 in
  samePrint x1 x2 && samePrint y1 y2 && samePrint z1 z2.

Definition cellOf (cellSize a : float) : float := floor (a / cellSize)%float.

Definition getHashKey (cellSize : float) (v : Vertex) : HashKey :=
  (cellOf cellSize (x v), cellOf cellSize (y v), cellOf cellSize (z v)).

(** The keys of the 27 cells around the cell of [v], in the order of the
    three nested loops. *)
Definition checkKeys (cellSize : float) (v : Vertex) : list HashKey :=
  let cx := cellOf cellSize (x v) in
  let cy := cellOf cellSize (y v) in
  let cz := cellOf cellSize (z v) in
  let steps := [(-1)%float; 0%float; 1%float] in
  flat_map (fun dx =>
    flat_map (fun dy =>
      map (fun dz => ((cx + dx)%float, (cy + dy)%float, (cz + dz)%float)) steps)
      steps)
    steps.

(** [Math.pow(a, 2)]. *)
Definition pow2 (a : float) : float := (a * a)%float.

(** The merge test [dist <= tolerance]. *)
Definition within (tolerance : float) (v existing : Vertex) : bool :=
  JSNum.le
    (PrimFloat.sqrt (pow2 (x v - x existing) + pow2 (y v - y existing)
                     + pow2 (z v - z existing))%float)
    tolerance.

(** The state of the welding loop: [spatialHash], [newVertices], and
    [vertexMap] as the list of its values (its keys are 0, 1, 2, ... in
    order). *)
Record Weld := {
  spatialHash : list (HashKey * list nat);
  newVertices : list Vertex;
  vertexMap : list nat
}.

(** The vertex of [newVertices] that [v] merges into, if any: the first one
    within the tolerance among the cells of [checkKeys], in order.  (An
    index kept in the hash always names a vertex of [newVertices].) *)
Definition findExisting (tolerance cellSize : float) (w : Weld) (v : Vertex) : option nat :=
  find (fun existingIdx =>
          match nth_error (newVertices w) existingIdx with
          | Some existing => within tolerance v existing
          | None => false
          end)
       (flat_map (fun key =>
                    match JS.get hashEqb key (spatialHash w) with
                    | Some cell => cell
                    | None => []
                    end)
                 (checkKeys cellSize v)).

(** [spatialHash.get(hashKey).push(newIdx)], the cell created when new. *)
Definition pushCell (key : HashKey) (newIdx : nat) (h : list (HashKey * list nat))
  : list (HashKey * list nat) :=
  match JS.get hashEqb key h with
  | None => JS.set hashEqb key [newIdx] h
  | Some cell => JS.set hashEqb key (cell ++ [newIdx]) h
  end.

(** One turn of the [for (let i = 0; i < n; i++)] loop. *)
Definition weldStep (tolerance cellSize : float) (w : Weld) (v : Vertex) : Weld :=
  match findExisting tolerance cellSize w v with
  | Some existingIdx =>
      {| spatialHash := spatialHash w;
         newVertices := newVertices w;
         vertexMap := vertexMap w ++ [existingIdx] |}
  | None =>
      let newIdx := length (newVertices w) in
      {| spatialHash := pushCell (getHashKey cellSize v) newIdx (spatialHash w);
         newVertices := newVertices w ++ [v];
         vertexMap := vertexMap w ++ [newIdx] |}
  end.

(** [face.map(v => vertexMap.get(v))]. *)
Definition remap (vmap : list nat) (face : Face) : Face :=
  map (fun v => match v with
                | Some i => nth_error vmap i
                | None => None
                end) face.

Definition indexEqDec (a b : option nat) : {a = b} + {a <> b}.
Proof. decide equality. apply Nat.eq_dec. Defined.

(** [new Set(face).size >= 3]. *)
Definition validFace (face : Face) : bool :=
  3 <=? length (nodup indexEqDec face).

(** The object [mergeVertices] returns. *)
Record Welded := {
  wVertices : list Vertex;
  wFaces : list Face;
  wVertexMap : list nat;
  mergedCount : nat
}.

Definition mergeVertices (mesh : Mesh) (tolerance : float) : Welded :=
  let cellSize := (tolerance * 10)%float in
  let w := fold_left (weldStep tolerance cellSize) (vertices mesh)
                     {| spatialHash := []; newVertices := []; vertexMap := [] |} in
  {| wVertices := newVertices w;
     wFaces := filter validFace (map (remap (vertexMap w)) (faces mesh));
     wVertexMap := vertexMap w;
     mergedCount := length (vertices mesh) - length (newVertices w) |}.

(** The welded mesh, given back to the welder. *)
Definition meshOf (r : Welded) : Mesh :=
  {| vertices := wVertices r; faces := wFaces r |}.

End MeshScissor.

(* ================================================================= *)
(** ** TopologyRepair.js: Euler characteristic and cuts *)

Module TopologyRepair.
Import Geometry.

(** The maps [createSubMesh] adds to a mesh. *)
Record Maps := {
  globalToLocal : list (nat * nat);
  localToGlobal : list nat;
  originalFaceIndices : list nat
}.

(** A sub-mesh: [{vertices, faces}], with the maps when it was made by
    [createSubMesh]. *)
Record Patch := {
  vertices : list Vertex;
  faces : list (list nat);
  maps : option Maps
}.

(** An entry [{v1, v2, key}] of [boundaryEdges]: the key parsed back. *)
Definition BoundaryEdge : Type := nat * nat.

(** The object [computeEuler] returns. *)
Record Topology := {
  euler : Z;
  V : nat;
  E : nat;
  F : nat;
  boundaryEdges : list BoundaryEdge;
  boundaryLoopCount : nat
}.

(** [edgeCount.set(key, (edgeCount.get(key) || 0) + 1)]. *)
Definition countEdge (m : list (EdgeKey * nat)) (k : EdgeKey) : list (EdgeKey * nat) :=
  JS.set keyEqb k (match JS.get keyEqb k m with Some n => n | None => 0 end + 1) m.

Definition edgeCounts (fs : list (list nat)) : list (EdgeKey * nat) :=
  fold_left (fun m face => fold_left countEdge (faceKeys face) m) fs [].

(** [if (!adj.has(v)) adj.set(v, [])]. *)
Definition ensure (v : nat) (adj : list (nat * list nat)) : list (nat * list nat) :=
  match JS.get Nat.eqb v adj with
  | Some _ => adj
  | None => JS.set Nat.eqb v [] adj
  end.

(** [adj.get(a).push(b)]. *)
Definition link (a b : nat) (adj : list (nat * list nat)) : list (nat * list nat) :=
  match JS.get Nat.eqb a adj with
  | Some l => JS.set Nat.eqb a (l ++ [b]) adj
  | None => adj
  end.

(** The adjacency map of the boundary edges. *)
Definition boundaryAdjacency (bes : list BoundaryEdge) : list (nat * list nat) :=
  fold_left (fun adj e =>
               let '(v1, v2) := e in
               link v2 v1 (link v1 v2 (ensure v2 (ensure v1 adj))))
            bes [].

(** [adj.get(v) || []]. *)
Definition neighborsIn (adj : list (nat * list nat)) (v : nat) : list nat :=
  match JS.get Nat.eqb v adj with
  | Some l => l
  | None => []
  end.

(** The [for (const startV of adj.keys())] loop with its breadth-first
    search: the components, each in the order its vertices left the queue. *)
Fixpoint componentsFrom (succ : nat -> list nat) (fuel : nat) (starts : list nat)
         (visited : list nat) (acc : list (list nat)) : list (list nat) :=
  match starts with
  | [] => acc
  | startV :: rest =>
      if Worklist.mem startV visited then componentsFrom succ fuel rest visited acc
      else
        let st := fst (Worklist.run succ true (fun _ => false) fuel
                         (Worklist.mkState (startV :: visited) [] [startV] [])) in
        componentsFrom succ fuel rest (Worklist.visited st) (acc ++ [Worklist.popped st])
  end.

Definition boundaryComponents (bes : list BoundaryEdge) : list (list nat) :=
  let adj := boundaryAdjacency bes in
  componentsFrom (neighborsIn adj) (length adj) (map fst adj) [] [].

(** [countBoundaryLoops]: one more for every start of a search. *)
Definition countBoundaryLoops (bes : list BoundaryEdge) : nat :=
  match bes with
  | [] => 0
  | _ => length (boundaryComponents bes)
  end.

(** [separateBoundaryLoops]: the loops, longest first. *)
Definition separateBoundaryLoops (bes : list BoundaryEdge) : list (list nat) :=
  JS.sortByLengthDesc (boundaryComponents bes).

Definition computeEuler (mesh : Patch) : Topology :=
  let counts := edgeCounts (faces mesh) in
  let bes := map fst (filter (fun kc => snd kc =? 1) counts) in
  {| euler := (Z.of_nat (length (vertices mesh)) - Z.of_nat (length counts)
               + Z.of_nat (length (faces mesh)))%Z;
     V := length (vertices mesh);
     E := length counts;
     F := length (faces mesh);
     boundaryEdges := bes;
     boundaryLoopCount := countBoundaryLoops bes |}.

(** [sampleLoop]: every [step]-th vertex of a loop longer than [maxSamples]. *)
Fixpoint everyNth (step : nat) (skip : nat) (loop : list nat) : list nat :=
  match loop with
  | [] => []
  | v :: rest =>
      match skip with
      | 0 => v :: everyNth step (step - 1) rest
      | S k => everyNth step k rest
      end
  end.

Definition sampleLoop (loop : list nat) (maxSamples : nat) : list nat :=
  if length loop <=? maxSamples then loop
  else everyNth (length loop / maxSamples) 0 loop.

(** [this.distance(mesh.vertices[a], mesh.vertices[b])]. *)
Definition distanceAt (mesh : Patch) (a b : nat) : JS.Result float :=
  JS.bind (JS.read (vertices mesh) a) (fun va =>
  JS.bind (JS.read (vertices mesh) b) (fun vb =>
  JS.Ok (distance va vb))).

(** The object [{startV, endV, distance}]. *)
Record Bridge := { startV : nat; endV : nat; bridgeDistance : float }.

(** [findShortestBridge]: the state is [(bestBridge, minDist)]. *)
Definition findShortestBridge (mesh : Patch) (loopA loopB : list nat)
  : JS.Result (option Bridge) :=
  let sampleA := sampleLoop loopA 20 in
  let sampleB := sampleLoop loopB 20 in
  JS.bind
    (fold_left
       (fun acc pair =>
          JS.bind acc (fun st =>
          JS.bind (distanceAt mesh (fst pair) (snd pair)) (fun dist =>
          JS.Ok (if JSNum.lt dist (snd st)
                 then (Some {| startV := fst pair; endV := snd pair;
                               bridgeDistance := dist |}, dist)
                 else st))))
       (flat_map (fun vA => map (fun vB => (vA, vB)) sampleB) sampleA)
       (JS.Ok (None, PrimFloat.infinity)))
    (fun st => JS.Ok (fst st)).

(** [adj.get(a).add(b)] on a map of sets; no set for [a]: a [TypeError]. *)
Definition addNeighbor (a b : nat) (adj : list (nat * list nat))
  : JS.Result (list (nat * list nat)) :=
  match JS.get Nat.eqb a adj with
  | Some l => JS.Ok (JS.set Nat.eqb a (JS.add b l) adj)
  | None => JS.TypeError
  end.

(** The vertex adjacency of [findGeodesicPath]. *)
Definition vertexAdjacency (mesh : Patch) : JS.Result (list (nat * list nat)) :=
  fold_left
    (fun acc e =>
       JS.bind acc (fun adj =>
       JS.bind (addNeighbor (fst e) (snd e) adj) (fun adj1 =>
       addNeighbor (snd e) (fst e) adj1)))
    (flat_map faceEdges (faces mesh))
    (JS.Ok (map (fun i => (i, [])) (seq 0 (length (vertices mesh))))).

(** [while (node !== undefined) { path.unshift(node); node = prev.get(node); }] *)
Fixpoint pathBack (fuel : nat) (prev : list (nat * nat)) (node : nat)
         (path : list nat) : list nat :=
  match fuel with
  | 0 => path
  | S fuel' =>
      match JS.get Nat.eqb node prev with
      | Some p => pathBack fuel' prev p (node :: path)
      | None => node :: path
      end
  end.

(** [findGeodesicPath]: breadth-first search from [start]; the path when
    [end] leaves the queue, [[start, end]] when the search ends without it.
    The loop takes [start] from the queue and then only vertices that have
    an entry in [adj], each of them once: at most [S (length adj)] turns. *)
Definition findGeodesicPath (mesh : Patch) (start finish : nat) : JS.Result (list nat) :=
  JS.bind (vertexAdjacency mesh) (fun adj =>
    let '(st, reached) :=
      Worklist.run (neighborsIn adj) true (fun curr => curr =? finish) (S (length adj))
                   (Worklist.mkState [start] [] [start] []) in
    match reached with
    | Some _ => JS.Ok (pathBack (S (length (Worklist.prev st))) (Worklist.prev st) finish [])
    | None => JS.Ok [start; finish]
    end).

(** [findNearestInSet]: [None] is [null]. *)
Definition findNearestInSet (mesh : Patch) (vertex : nat) (targetSet : list nat)
  : JS.Result (option nat) :=
  JS.bind
    (fold_left
       (fun acc v =>
          JS.bind acc (fun st =>
          JS.bind (distanceAt mesh vertex v) (fun dist =>
          JS.Ok (if JSNum.lt dist (snd st) then (Some v, dist) else st))))
       targetSet (JS.Ok (None, PrimFloat.infinity)))
    (fun st => JS.Ok (fst st)).

(** [snapPathToBoundary]. *)
Definition snapPathToBoundary (mesh : Patch) (path loopA loopB : list nat)
  : JS.Result (list nat) :=
  if length path <? 2 then JS.Ok path
  else
    JS.bind
      (let first := hd 0 path in
       if JS.has first loopA then JS.Ok path
       else JS.bind (findNearestInSet mesh first loopA) (fun nearest =>
              JS.Ok (match nearest with Some n => n :: path | None => path end)))
      (fun path1 =>
         let final := last path1 0 in
         if JS.has final loopB then JS.Ok path1
         else JS.bind (findNearestInSet mesh final loopB) (fun nearest =>
                JS.Ok (match nearest with Some n => path1 ++ [n] | None => path1 end))).

(** [faceAdj.get(a).add(b)]. *)
Definition addFace (a b : nat) (adj : list (nat * list nat)) : list (nat * list nat) :=
  match JS.get Nat.eqb a adj with
  | Some l => JS.set Nat.eqb a (JS.add b l) adj
  | None => adj
  end.

(** The keys of the consecutive pairs of a path. *)
Fixpoint pathKeys (path : list nat) : list EdgeKey :=
  match path with
  | v1 :: (v2 :: _) as rest => edgeKey v1 v2 :: pathKeys rest
  | _ => []
  end.

(** The face adjacency that does not cross the path. *)
Definition faceAdjacency (mesh : Patch) (pathEdges : list EdgeKey) : list (nat * list nat) :=
  fold_left
    (fun adj entry =>
       match entry with
       | (k, [f0; f1]) =>
           if keyHas k pathEdges then adj
           else addFace f1 f0 (addFace f0 f1 adj)
       | _ => adj
       end)
    (edgeToFacesFrom 0 (faces mesh) [])
    (map (fun i => (i, [])) (seq 0 (length (faces mesh)))).

(** [{...mesh.vertices[oldIdx]}]: the copy of a missing vertex has no
    coordinate, and reads as [NaN] in every sum. *)
Definition copyVertex (mesh : Patch) (oldIdx : nat) : Vertex :=
  match nth_error (vertices mesh) oldIdx with
  | Some v => v
  | None => {| x := PrimFloat.nan; y := PrimFloat.nan; z := PrimFloat.nan |}
  end.

Fixpoint numberFrom (newIdx : nat) (used : list nat) (m : list (nat * nat))
  : list (nat * nat) :=
  match used with
  | [] => m
  | oldIdx :: rest => numberFrom (S newIdx) rest (JS.set Nat.eqb oldIdx newIdx m)
  end.

(** [createSubMesh], on indices of faces of the mesh, which is what its
    callers pass (on any other index [mesh.faces[faceIdx]] is [undefined]
    and the code throws); a vertex of a face is always a key of
    [vertexMap]. *)
Definition createSubMesh (mesh : Patch) (faceIndices : list nat) : Patch :=
  let usedVertices :=
    fold_left (fun used faceIdx =>
                 fold_left (fun acc v => JS.add v acc) (nth faceIdx (faces mesh) []) used)
              faceIndices [] in
  let vertexMap := numberFrom 0 usedVertices [] in
  {| vertices := map (copyVertex mesh) usedVertices;
     faces := map (fun faceIdx =>
                     map (fun v => match JS.get Nat.eqb v vertexMap with
                                   | Some i => i
                                   | None => 0
                                   end)
                         (nth faceIdx (faces mesh) []))
                  faceIndices;
     maps := Some {| globalToLocal := vertexMap;
                     localToGlobal := usedVertices;
                     originalFaceIndices := faceIndices |} |}.

(** The groups of faces connected without crossing the path. *)
Definition faceGroups (mesh : Patch) (path : list nat) : list (list nat) :=
  let adj := faceAdjacency mesh (pathKeys path) in
  componentsFrom (neighborsIn adj) (length (faces mesh))
                 (seq 0 (length (faces mesh))) [] [].

(** [cutMeshAlongPath]. *)
Definition cutMeshAlongPath (mesh : Patch) (path : list nat) : list Patch :=
  if length path <? 2 then [mesh]
  else
    let groups := faceGroups mesh path in
    if length groups <=? 1 then []
    else map (createSubMesh mesh) groups.

(** [repairCylinder]; [Ok None] is the [null] it returns on failure. *)
Definition repairCylinder (mesh : Patch) (topo : Topology)
  : JS.Result (option (list Patch)) :=
  let loops := separateBoundaryLoops (boundaryEdges topo) in
  match loops with
  | loopA :: loopB :: _ =>
      JS.bind (findShortestBridge mesh loopA loopB) (fun bridge =>
        match bridge with
        | None => JS.Ok None
        | Some br =>
            JS.bind (findGeodesicPath mesh (startV br) (endV br)) (fun path =>
              if length path <? 2 then JS.Ok None
              else
                JS.bind (snapPathToBoundary mesh path loopA loopB) (fun path' =>
                  let result := cutMeshAlongPath mesh path' in
                  JS.Ok (match result with [] => None | _ => Some result end)))
        end)
  | _ => JS.Ok None
  end.

(** The sampled pairs [(i, j)], [j > i], of [repairGeneric]. *)
Fixpoint laterPairs (samples : list nat) : list (nat * nat) :=
  match samples with
  | [] => []
  | a :: rest => map (fun b => (a, b)) rest ++ laterPairs rest
  end.

(** [repairGeneric]. *)
Definition repairGeneric (mesh : Patch) (topo : Topology) : JS.Result (list Patch) :=
  match boundaryEdges topo with
  | [] => JS.Ok [mesh]
  | (a0, b0) :: _ =>
      let boundaryArray :=
        fold_left (fun acc e => JS.add (snd e) (JS.add (fst e) acc)) (boundaryEdges topo) [] in
      let sampleSize := Nat.min 30 (length boundaryArray) in
      let step := Nat.max 1 (length boundaryArray / sampleSize) in
      JS.bind
        (fold_left
           (fun acc pair =>
              JS.bind acc (fun st =>
              JS.bind (distanceAt mesh (fst pair) (snd pair)) (fun dist =>
              JS.Ok (if JSNum.gt dist (snd st) then (pair, dist) else st))))
           (laterPairs (everyNth step 0 boundaryArray))
           (JS.Ok ((a0, b0), 0%float)))
        (fun st =>
           let '(pointA, pointB) := fst st in
           JS.bind (findGeodesicPath mesh pointA pointB) (fun path =>
             if length path <? 2 then JS.Ok [mesh]
             else
               let result := cutMeshAlongPath mesh path in
               JS.Ok (match result with [] => [mesh] | _ => result end)))
  end.

(** The body of the [for] loop of [repairAll]: what one sub-mesh adds to
    [results]. *)
Definition repairOne (minFaces : nat) (mesh : Patch) : JS.Result (list Patch) :=
  if length (faces mesh) <? minFaces then JS.Ok []
  else
    let topo := computeEuler mesh in
    if (euler topo =? 1)%Z then JS.Ok [mesh]
    else if (euler topo =? 0)%Z && (2 <=? boundaryLoopCount topo) then
      JS.bind (repairCylinder mesh topo) (fun fixed =>
        JS.Ok (match fixed with Some ps => ps | None => [mesh] end))
    else if (euler topo =? 2)%Z && (boundaryLoopCount topo =? 0) then JS.Ok [mesh]
    else if (euler topo <? -1)%Z then JS.Ok [mesh]
    else repairGeneric mesh topo.

(** [repairAll(subMeshes, minFaces)]. *)
Fixpoint repairAll (subMeshes : list Patch) (minFaces : nat) : JS.Result (list Patch) :=
  match subMeshes with
  | [] => JS.Ok []
  | mesh :: rest =>
      JS.bind (repairOne minFaces mesh) (fun added =>
      JS.bind (repairAll rest minFaces) (fun results =>
      JS.Ok (added ++ results)))
  end.

(** Step 1.2 of [ClothFlattenerApp.flattenMesh]: the sub-mesh that goes on
    to unfolding, and [wasCylinder]. *)
Definition cylinderSurgery (subMesh : Patch) : JS.Result (Patch * bool) :=
  let topo := computeEuler subMesh in
  if (euler topo =? 1)%Z then JS.Ok (subMesh, false)
  else if (euler topo =? 0)%Z && (2 <=? boundaryLoopCount topo) then
    JS.bind (repairCylinder subMesh topo) (fun fixed =>
      JS.Ok (match fixed with
             | Some (first :: _) => (first, true)
             | _ => (subMesh, true)
             end))
  else JS.Ok (subMesh, false).

(** The original face indices of a piece ([[]] when it has no maps). *)
Definition pieceFaces (p : Patch) : list nat :=
  match maps p with
  | Some m => originalFaceIndices m
  | None => []
  end.

(** [finalCleanup(meshes, minFaces)]. *)
Definition finalCleanup (meshes : list Patch) (minFaces : nat) : list Patch :=
  filter (fun m => minFaces <=? length (faces m)) meshes.

End TopologyRepair.

(* ================================================================= *)
(** ** MeshScissor: connectivity and the disk test

    The functions of [MeshScissor] that search the face graph.  They build
    the table [edgeToFaces] and the map [faceNeighbors] with the loops of
    [TopologyRepair.cutMeshAlongPath], and rebuild a mesh from a list of
    faces with the loop of [TopologyRepair.createSubMesh]; these are used
    here as they are. *)

Module Scissor.
Import Geometry.

(** [faceNeighbors]: two faces are neighbours across an edge that exactly
    two face corners share and that is not in [cutEdges]. *)
Definition faceNeighbors (fs : list (list nat)) (cutEdges : list EdgeKey)
  : list (nat * list nat) :=
  fold_left
    (fun adj entry =>
       match entry with
       | (k, [f0; f1]) =>
           if keyHas k cutEdges then adj
           else TopologyRepair.addFace f1 f0 (TopologyRepair.addFace f0 f1 adj)
       | _ => adj
       end)
    (edgeToFacesFrom 0 fs [])
    (map (fun i => (i, [])) (seq 0 (length fs))).

(** The components of the face graph, each in the order its faces left
    the queue. *)
Definition faceComponents (fs : list (list nat)) (cutEdges : list EdgeKey) : list (list nat) :=
  TopologyRepair.componentsFrom (TopologyRepair.neighborsIn (faceNeighbors fs cutEdges))
                                (length fs) (seq 0 (length fs)) [] [].

(** The object [checkOriginalConnectivity] returns. *)
Record Connectivity := {
  componentCount : nat;
  components : list (list nat);
  isConnected : bool;
  mainComponent : option (list nat)
}.

(** [checkOriginalConnectivity(mesh, filterSmall, minFaces)]: the
    components are sorted, and filtered, only when there are several. *)
Definition checkOriginalConnectivity (mesh : Mesh) (filterSmall : bool) (minFaces : nat)
  : Connectivity :=
  let found := faceComponents (faces mesh) [] in
  let kept :=
    if 1 <? length found then
      let sorted := JS.sortByLengthDesc found in
      if filterSmall then filter (fun c => minFaces <=? length c) sorted else sorted
    else found in
  {| componentCount := length kept;
     components := kept;
     isConnected := length kept =? 1;
     mainComponent := hd_error kept |}.

(** [filterSmallFragments(mesh, minFaces)]: the mesh, and the [vertexMap]
    of the rebuilt mesh when it was rebuilt. *)
Definition filterSmallFragments (mesh : Mesh) (minFaces : nat)
  : Mesh * option (list (nat * nat)) :=
  let connectivity := checkOriginalConnectivity mesh true minFaces in
  if componentCount connectivity =? 1 then (mesh, None)
  else
    match mainComponent connectivity with
    | None => (mesh, None)
    | Some main =>
        let rebuilt :=
          TopologyRepair.createSubMesh
            {| TopologyRepair.vertices := vertices mesh;
               TopologyRepair.faces := faces mesh;
               TopologyRepair.maps := None |} main in
        ({| vertices := TopologyRepair.vertices rebuilt;
            faces := TopologyRepair.faces rebuilt |},
         option_map TopologyRepair.globalToLocal (TopologyRepair.maps rebuilt))
    end.

(** The object [isTopologicalDisk] returns (without its [diagnosis]). *)
Record DiskCheck := {
  isValid : bool;
  diskEuler : Z;
  diskVertices : nat;
  diskEdges : nat;
  diskFaces : nat;
  diskBoundaryEdges : nat
}.

(** [isTopologicalDisk(subMesh)]. *)
Definition isTopologicalDisk (subMesh : Mesh) : DiskCheck :=
  let V := length (vertices subMesh) in
  let F := length (faces subMesh) in
  let E := length (edgeSet (faces subMesh)) in
  let euler := (Z.of_nat V - Z.of_nat E + Z.of_nat F)%Z in
  let boundaryEdgeCount :=
    length (filter (fun kc => snd kc =? 1) (TopologyRepair.edgeCounts (faces subMesh))) in
  {| isValid := (euler =? 1)%Z && (0 <? boundaryEdgeCount);
     diskEuler := euler;
     diskVertices := V;
     diskEdges := E;
     diskFaces := F;
     diskBoundaryEdges := boundaryEdgeCount |}.

(** The fields of the sub-mesh that [cutAlongEdges] reads; [None] is a
    missing [localToGlobal]. *)
Record Part := {
  partVertices : list Vertex;
  partFaces : list (list nat);
  partLocalToGlobal : option (list nat)
}.

(** The fields it sets in the object it returns ([globalToLocal] and
    [originalFaceIndices] are those of the sub-mesh).  An entry of
    [localToGlobal] is a number, or the [undefined] that a read past the end
    of the old table gave. *)
Record CutPart := {
  outVertices : list Vertex;
  outFaces : list (list nat);
  outLocalToGlobal : list (option nat)
}.

(** [faceToGroup.get(faceIdx)]: the rank of the component of the face (the
    number of components for a face in none: every face is in one). *)
Fixpoint groupIndex (comps : list (list nat)) (faceIdx : nat) : nat :=
  match comps with
  | [] => 0
  | c :: rest => if JS.has faceIdx c then 0 else S (groupIndex rest faceIdx)
  end.

(** [{ ...vertices[vIdx] }]: the copy of a missing vertex has no coordinate. *)
Definition copyAt (vs : list Vertex) (vIdx : nat) : Vertex :=
  nth vIdx vs {| x := PrimFloat.nan; y := PrimFloat.nan; z := PrimFloat.nan |}.

(** [vertexToGroupMap]: for a cut vertex, the index that stands for it in
    each group of faces. *)
Definition GroupMaps : Type := list (nat * list (nat * nat)).

(** One corner of a face of group [gId]: the state is
    [(vertexToGroupMap, newVertices)], the result the index pushed on
    [newFace].  (Every cut vertex has its map from the start.) *)
Definition splitCorner (vs : list Vertex) (cutVertices : list nat) (gId : nat)
           (st : GroupMaps * list Vertex) (vIdx : nat)
  : (GroupMaps * list Vertex) * nat :=
  if JS.has vIdx cutVertices then
    match JS.get Nat.eqb vIdx (fst st) with
    | Some groupMap =>
        match JS.get Nat.eqb gId groupMap with
        | Some idx => (st, idx)
        | None =>
            match groupMap with
            | [] => ((JS.set Nat.eqb vIdx [(gId, vIdx)] (fst st), snd st), vIdx)
            | _ =>
                let newIdx := length (snd st) in
                ((JS.set Nat.eqb vIdx (JS.set Nat.eqb gId newIdx groupMap) (fst st),
                  snd st ++ [copyAt vs vIdx]),
                 newIdx)
            end
        end
    | None => (st, vIdx)
    end
  else (st, vIdx).

Definition splitFace (vs : list Vertex) (cutVertices : list nat) (gId : nat)
           (st : GroupMaps * list Vertex) (face : list nat)
  : (GroupMaps * list Vertex) * list nat :=
  fold_left
    (fun acc vIdx =>
       let r := splitCorner vs cutVertices gId (fst acc) vIdx in
       (fst r, snd acc ++ [snd r]))
    face (st, []).

Definition splitFaces (vs : list Vertex) (cutVertices : list nat) (comps : list (list nat))
           (fs : list (list nat)) (st : GroupMaps * list Vertex)
  : (GroupMaps * list Vertex) * list (list nat) :=
  fold_left
    (fun acc entry =>
       let r := splitFace vs cutVertices (groupIndex comps (fst entry)) (fst acc)
                          (snd entry) in
       (fst r, snd acc ++ [snd r]))
    (combine (seq 0 (length fs)) fs) (st, []).

(** [mesh.localToGlobal ? mesh.localToGlobal[origVIdx] : origVIdx]. *)
Definition origin (l2g : option (list nat)) (origVIdx : nat) : option nat :=
  match l2g with
  | Some table => nth_error table origVIdx
  | None => Some origVIdx
  end.

(** The two inner loops of the extension of [localToGlobal]: the vertices
    whose map holds the index [i], in the order of the maps. *)
Definition owners (maps : GroupMaps) (i : nat) : list nat :=
  flat_map (fun entry =>
              flat_map (fun ge => if snd ge =? i then [fst entry] else []) (snd entry))
           maps.

(** [cutVertices]: the ends of the seam edges. *)
Definition cutVerticesOf (seamEdges : list EdgeKey) : list nat :=
  fold_left (fun s k => JS.add (snd k) (JS.add (fst k) s)) seamEdges [].

(** [cutAlongEdges(mesh, seamEdges)]; [None] is the mesh itself, returned
    when there is no seam edge.  A key of [seamEdges] is read as the pair of
    numbers it is made of. *)
Definition cutAlongEdges (mesh : Part) (seamEdges : list EdgeKey) : option CutPart :=
  match seamEdges with
  | [] => None
  | _ =>
      let vs := partVertices mesh in
      let fs := partFaces mesh in
      let cutVertices := cutVerticesOf seamEdges in
      let comps := faceComponents fs seamEdges in
      let r := splitFaces vs cutVertices comps fs
                          (map (fun vIdx => (vIdx, [])) cutVertices, vs) in
      let maps := fst (fst r) in
      let newVertices := snd (fst r) in
      Some {| outVertices := newVertices;
              outFaces := snd r;
              outLocalToGlobal :=
                match partLocalToGlobal mesh with
                | Some table => map Some table
                | None => map Some (seq 0 (length vs))
                end
                ++ flat_map (fun i => map (origin (partLocalToGlobal mesh)) (owners maps i))
                            (seq (length vs) (length newVertices - length vs)) |}
  end.

End Scissor.

(* ================================================================= *)
(** ** PhysicsFlattener.js: mass-spring relaxation

    The typed arrays [currentUVs], [velocities] and [forces] hold two cells
    per vertex; they are lists of pairs here, the pair of vertex [i] being
    the cells [2 i] and [2 i + 1]. *)

Module PhysicsFlattener.
Import Geometry.

Record UV := { u : float; v : float }.

Record SubMesh := { vertices : list Vertex; faces : list (list nat) }.

Record Options := {
  iterations : nat;
  boundaryStiffness : float;
  internalStiffness : float;
  pinBoundary : bool;
  damping : float
}.

(** The destructuring defaults of [relaxDifferentiated]. *)
Definition defaultOptions : Options :=
  {| iterations := 200; boundaryStiffness := 50%float; internalStiffness := 0.2%float;
     pinBoundary := false; damping := 0.995%float |}.

(** A spring [{u, v, restLength, stiffness, isBoundary}]. *)
Record Constraint := {
  cu : nat; cv : nat; restLength : float; stiffness : float; isBoundary : bool
}.

(** [createFallbackUVs]. *)
Definition createFallbackUVs (count : nat) : list UV :=
  map (fun i => {| u := (JSNum.ofNat i * 0.1)%float; v := 0%float |}) (seq 0 count).

(** The drift cancellation of one iteration, over the arithmetic it uses:
    [store] is what a write into the array keeps of a number. *)
Section Drift.
Variable num : Type.
Variable zero : num.
Variable add sub div : num -> num -> num.
Variable ofNat : nat -> num.
Variable store : num -> num.

(** [newCenterU], [newCenterV]: the sums of the cells over [vertexCount]. *)
Definition centroid (vertexCount : nat) (uvs : list (num * num)) : num * num :=
  (div (fold_left (fun acc p => add acc (fst p)) uvs zero) (ofNat vertexCount),
   div (fold_left (fun acc p => add acc (snd p)) uvs zero) (ofNat vertexCount)).

(** [currentUVs[i * 2] += driftU; currentUVs[i * 2 + 1] += driftV]. *)
Definition cancelDrift (vertexCount : nat) (initialCenter : num * num)
           (uvs : list (num * num)) : list (num * num) :=
  let newCenter := centroid vertexCount uvs in
  let driftU := sub (fst initialCenter) (fst newCenter) in
  let driftV := sub (snd initialCenter) (snd newCenter) in
  map (fun p => (store (add (fst p) driftU), store (add (snd p) driftV))) uvs.

End Drift.

Definition centroidJS : nat -> list (float * float) -> float * float :=
  centroid float 0%float PrimFloat.add PrimFloat.div JSNum.ofNat.

Definition cancelDriftJS : nat -> float * float -> list (float * float) -> list (float * float) :=
  cancelDrift float 0%float PrimFloat.add PrimFloat.sub PrimFloat.div JSNum.ofNat JSNum.fround.

(** [edgeCount] of [identifyBoundary]. *)
Definition countEdge (m : list (EdgeKey * nat)) (k : EdgeKey) : list (EdgeKey * nat) :=
  JS.set keyEqb k (match JS.get keyEqb k m with Some n => n | None => 0 end + 1) m.

(** [identifyBoundary]: the vertices and the keys of the edges seen once. *)
Definition identifyBoundary (fs : list (list nat)) : list nat * list EdgeKey :=
  let counts := fold_left (fun m face => fold_left countEdge (faceKeys face) m) fs [] in
  let boundaryEdges := map fst (filter (fun kc => snd kc =? 1) counts) in
  (fold_left (fun acc k => JS.add (snd k) (JS.add (fst k) acc)) boundaryEdges [],
   boundaryEdges).

(** One turn of the inner loop of [buildDifferentiatedConstraints]; the
    state is [(constraints, edgeCheck)]. *)
Definition addConstraint (vs : list Vertex) (boundaryEdges : list EdgeKey)
           (boundaryK internalK : float) (st : list Constraint * list EdgeKey)
           (e : nat * nat) : list Constraint * list EdgeKey :=
  let key := edgeKey (fst e) (snd e) in
  if keyHas key (snd st) then st
  else
    let checked := snd st ++ [key] in
    match nth_error vs (fst e), nth_error vs (snd e) with
    | Some vU, Some vV =>
        let rest := distance vU vV in
        if JSNum.lt rest 1e-10%float then (fst st, checked)
        else
          let onBoundary := keyHas key boundaryEdges in
          (fst st ++ [ {| cu := fst e; cv := snd e; restLength := rest;
                          stiffness := if onBoundary then boundaryK else internalK;
                          isBoundary := onBoundary |} ],
           checked)
    | _, _ => (fst st, checked)
    end.

Definition buildDifferentiatedConstraints (vs : list Vertex) (fs : list (list nat))
           (boundaryEdges : list EdgeKey) (boundaryK internalK : float) : list Constraint :=
  fst (fold_left (addConstraint vs boundaryEdges boundaryK internalK)
                 (flat_map faceEdges fs) ([], [])).

(** [arr[2 i] = f(arr[2 i]); arr[2 i + 1] = g(arr[2 i + 1])]; nothing is
    written past the end of a typed array. *)
Fixpoint updateAt (i : nat) (f : float * float -> float * float)
         (arr : list (float * float)) : list (float * float) :=
  match arr, i with
  | [], _ => []
  | p :: rest, 0 => f p :: rest
  | p :: rest, S i' => p :: updateAt i' f rest
  end.

(** A read of a cell; past the end it is [undefined], [NaN] in a sum. *)
Definition cellAt (arr : list (float * float)) (i : nat) : float * float :=
  nth i arr (PrimFloat.nan, PrimFloat.nan).

(** The force of one spring, added to its two ends. *)
Definition applySpring (currentUVs : list (float * float))
           (forces : list (float * float)) (c : Constraint) : list (float * float) :=
  let '(u_x, u_y) := cellAt currentUVs (cu c) in
  let '(v_x, v_y) := cellAt currentUVs (cv c) in
  let dx := (v_x - u_x)%float in
  let dy := (v_y - u_y)%float in
  let currentLen := PrimFloat.sqrt (dx * dx + dy * dy)%float in
  if JSNum.lt currentLen 1e-10%float then forces
  else
    let stretch := (currentLen - restLength c)%float in
    let forceMag := (stiffness c * stretch / currentLen)%float in
    let fx := (dx * forceMag)%float in
    let fy := (dy * forceMag)%float in
    updateAt (cv c)
      (fun f => (JSNum.fround (fst f - fx)%float, JSNum.fround (snd f - fy)%float))
      (updateAt (cu c)
         (fun f => (JSNum.fround (fst f + fx)%float, JSNum.fround (snd f + fy)%float))
         forces).

(** The velocity and position update of vertex [i]. *)
Definition moveVertex (boundaryVerts : list nat) (pin : bool) (damp : float)
           (i : nat) (pos vel force : float * float)
  : (float * float) * (float * float) :=
  if pin && JS.has i boundaryVerts then (pos, (0%float, 0%float))
  else
    let dt := 0.016%float in
    let mass := 1%float in
    let vx := JSNum.fround ((fst vel + fst force * dt / mass) * damp)%float in
    let vy := JSNum.fround ((snd vel + snd force * dt / mass) * damp)%float in
    ((JSNum.fround (fst pos + vx * dt)%float, JSNum.fround (snd pos + vy * dt)%float),
     (vx, vy)).

Fixpoint moveAll (boundaryVerts : list nat) (pin : bool) (damp : float) (i : nat)
         (uvs vels forces : list (float * float))
  : list (float * float) * list (float * float) :=
  match uvs, vels, forces with
  | pos :: uvs', vel :: vels', force :: forces' =>
      let '(pos', vel') := moveVertex boundaryVerts pin damp i pos vel force in
      let '(uvs'', vels'') := moveAll boundaryVerts pin damp (S i) uvs' vels' forces' in
      (pos' :: uvs'', vel' :: vels'')
  | _, _, _ => ([], [])
  end.

(** [physicsStep]: the new [currentUVs] and [velocities]. *)
Definition physicsStep (currentUVs velocities : list (float * float))
           (constraints : list Constraint) (boundaryVerts : list nat)
           (pin : bool) (damp : float)
  : list (float * float) * list (float * float) :=
  let forces :=
    fold_left (applySpring currentUVs) constraints
              (repeat (0%float, 0%float) (length currentUVs)) in
  moveAll boundaryVerts pin damp 0 currentUVs velocities forces.

(** The state of the relaxation loop. *)
Record Relax := {
  currentUVs : list (float * float);
  velocities : list (float * float);
  currentDamping : float
}.

(** The body of [for (let iter = 0; iter < iterations; iter++)]. *)
Definition relaxIteration (o : Options) (constraints : list Constraint)
           (boundaryVerts : list nat) (vertexCount : nat)
           (initialCenter : float * float) (iter : nat) (st : Relax) : Relax :=
  let '(uvs, vels) :=
    physicsStep (currentUVs st) (velocities st) constraints boundaryVerts
                (pinBoundary o) (currentDamping st) in
  let uvs' :=
    if negb (pinBoundary o) then cancelDriftJS vertexCount initialCenter uvs else uvs in
  {| currentUVs := uvs';
     velocities := vels;
     currentDamping :=
       if JSNum.gt (JSNum.ofNat iter) (JSNum.ofNat (iterations o) * 0.6)%float
       then (currentDamping st * damping o)%float
       else currentDamping st |}.

(** [count] more iterations from iteration [iter]. *)
Fixpoint relaxLoop (o : Options) (constraints : list Constraint)
         (boundaryVerts : list nat) (vertexCount : nat)
         (initialCenter : float * float) (count iter : nat) (st : Relax) : Relax :=
  match count with
  | 0 => st
  | S count' =>
      relaxLoop o constraints boundaryVerts vertexCount initialCenter count' (S iter)
        (relaxIteration o constraints boundaryVerts vertexCount initialCenter iter st)
  end.

(** The state before the first iteration. *)
Definition relaxStart (initialUV : list UV) : Relax :=
  {| currentUVs :=
       map (fun p => (JSNum.fround (JSNum.orElse (u p) 0%float),
                      JSNum.fround (JSNum.orElse (v p) 0%float))) initialUV;
     velocities := repeat (0%float, 0%float) (length initialUV);
     currentDamping := 1%float |}.

(** The state after [count] iterations of the relaxation of [subMesh] from
    [initialUV]. *)
Definition relaxState (subMesh : SubMesh) (initialUV : list UV) (o : Options)
           (count : nat) : Relax :=
  let vertexCount := length (vertices subMesh) in
  let '(boundaryVerts, boundaryEdges) := identifyBoundary (faces subMesh) in
  let constraints :=
    buildDifferentiatedConstraints (vertices subMesh) (faces subMesh) boundaryEdges
                                   (boundaryStiffness o) (internalStiffness o) in
  let start := relaxStart initialUV in
  relaxLoop o constraints boundaryVerts vertexCount
            (centroidJS vertexCount (currentUVs start)) count 0 start.

(** [relaxDifferentiated(subMesh, initialUV, options)]; [None] is a missing
    [initialUV]. *)
Definition relaxDifferentiated (subMesh : SubMesh) (initialUV : option (list UV))
           (o : Options) : list UV :=
  let vertexCount := length (vertices subMesh) in
  match initialUV with
  | None => createFallbackUVs vertexCount
  | Some initial =>
      if (vertexCount <? 3) || negb (length initial =? vertexCount) then initial
      else
        map (fun p => {| u := fst p; v := snd p |})
            (currentUVs (relaxState subMesh initial o (iterations o)))
  end.

End PhysicsFlattener.

(* ================================================================= *)
(** ** ClothFlattenerApp.flattenMesh: the choice of the UVs of a patch

    The unfolders (tube unrolling, LSCM, breadth-first fan) and the two
    planar projections enter through what their calls give; the relaxer is
    [PhysicsFlattener.relaxDifferentiated]. *)

Module ClothFlattenerApp.
Import PhysicsFlattener.

(** What a call inside a [try] block gave: an exception, or a value
    ([None] is [null] or [undefined]). *)
Inductive Attempt : Type :=
| Threw
| Returned (uvs : option (list UV)).

(** The test after each unfolder:
    [initialUV && initialUV.length === subMesh.vertices.length]. *)
Definition accepted (vertexCount : nat) (a : Attempt) : option (list UV) :=
  match a with
  | Returned (Some uvs) => if length uvs =? vertexCount then Some uvs else None
  | _ => None
  end.

(** Phase 2: tube unrolling when [wasCylinder || isTubeLike], then LSCM,
    then the fan, whose failure gives [computePlanarProjection]; at the end
    a result of the wrong length gives way to [projectPlanarUV]. *)
Definition chooseInitial (vertexCount : nat) (tubeLike : bool)
           (tube lscm fan : Attempt) (planarProjection projectPlanar : list UV)
  : list UV :=
  let afterTube := if tubeLike then accepted vertexCount tube else None in
  let afterLscm :=
    match afterTube with
    | Some uvs => Some uvs
    | None => accepted vertexCount lscm
    end in
  let afterFan :=
    match afterLscm with
    | Some uvs => uvs
    | None =>
        match accepted vertexCount fan with
        | Some uvs => uvs
        | None => planarProjection
        end
    end in
  if length afterFan =? vertexCount then afterFan else projectPlanar.

(** The options [flattenMesh] passes to the relaxer. *)
Definition flattenOptions : Options :=
  {| iterations := 200; boundaryStiffness := 50%float; internalStiffness := 0.2%float;
     pinBoundary := false; damping := 0.995%float |}.

(** Phase 3, from what the call of the relaxer gave: its result when it is
    not null and has one UV per vertex; otherwise (and when the call threw)
    the initial UVs, and [projectPlanarUV] if these are not one per vertex. *)
Definition relaxPhaseOf (vertexCount : nat) (relaxed : Attempt)
           (initialUV projectPlanar : list UV) : list UV :=
  let uvs :=
    match accepted vertexCount relaxed with
    | Some uvs => uvs
    | None => initialUV
    end in
  if length uvs =? vertexCount then uvs else projectPlanar.

(** Phase 3 with the relaxer of the program, which returns a list. *)
Definition relaxPhase (subMesh : SubMesh) (initialUV projectPlanar : list UV) : list UV :=
  relaxPhaseOf (length (vertices subMesh))
               (Returned (Some (relaxDifferentiated subMesh (Some initialUV) flattenOptions)))
               initialUV projectPlanar.

(** A UV set with no [NaN] and no infinity. *)
Definition allFinite (uvs : list UV) : bool :=
  forallb (fun p => JSNum.isFinite (u p) && JSNum.isFinite (v p)) uvs.

(** One turn of the loop of [createPatternFromSubMesh]:
    [if (uv.u < minU) minU = uv.u; if (uv.u > maxU) maxU = uv.u; ...]. *)
Definition growBounds (b : Packer.Bounds float) (p : UV) : Packer.Bounds float :=
  {| Packer.minU := if JSNum.lt (u p) (Packer.minU b) then u p else Packer.minU b;
     Packer.maxU := if JSNum.gt (u p) (Packer.maxU b) then u p else Packer.maxU b;
     Packer.minV := if JSNum.lt (v p) (Packer.minV b) then v p else Packer.minV b;
     Packer.maxV := if JSNum.gt (v p) (Packer.maxV b) then v p else Packer.maxV b |}.

(** [createPatternFromSubMesh(subMesh, uvs, index, hasTopologyError)], for
    the fields the packer reads: the bounds start at
    [(Infinity, -Infinity, Infinity, -Infinity)]. *)
Definition createPatternFromSubMesh (uvs : list UV) (index : nat) : Packer.Pattern float :=
  {| Packer.pieceIndex := index;
     Packer.uv := map (fun p => {| Packer.u := u p; Packer.v := v p |}) uvs;
     Packer.bounds :=
       fold_left growBounds uvs
                 {| Packer.minU := PrimFloat.infinity;
                    Packer.maxU := PrimFloat.neg_infinity;
                    Packer.minV := PrimFloat.infinity;
                    Packer.maxV := PrimFloat.neg_infinity |} |}.

(** [countEdges(faces)]. *)
Definition countEdges (faces : list (list nat)) : nat :=
  length (Geometry.edgeSet faces).

(** [calculateEuler(mesh)]. *)
Definition calculateEuler (mesh : Geometry.Mesh) : Z :=
  (Z.of_nat (length (Geometry.vertices mesh))
   - Z.of_nat (length (Geometry.edgeSet (Geometry.faces mesh)))
   + Z.of_nat (length (Geometry.faces mesh)))%Z.

(** [hasInternalRedSeams(subMesh, partIndex)]: two or more entries of
    [subMesh.localToGlobal] are in [this.redVerticesSet] ([None] is a
    missing set or a missing table). *)
Definition hasInternalRedSeams (redVerticesSet localToGlobal : option (list nat)) : bool :=
  match redVerticesSet, localToGlobal with
  | Some reds, Some l2g => 2 <=? length (filter (fun globalIdx => JS.has globalIdx reds) l2g)
  | _, _ => false
  end.

(** [Math.min] on two numbers. *)
Definition jsMin (a b : float) : float :=
  if PrimFloat.is_nan a || PrimFloat.is_nan b then PrimFloat.nan
  else if PrimFloat.ltb a b then a
  else if PrimFloat.ltb b a then b
  else if PrimFloat.get_sign a then a else b.

(** The axes ['x'], ['y'], ['z'] and the read [v[axis]]. *)
Inductive Axis : Type := AxisX | AxisY | AxisZ.

Definition coordinate (a : Axis) (p : Geometry.Vertex) : float :=
  match a with
  | AxisX => Geometry.x p
  | AxisY => Geometry.y p
  | AxisZ => Geometry.z p
  end.

(** [max - min] of one coordinate over the vertices, both bounds found by
    the loop of [projectPlanarUV]. *)
Definition rangeOf (a : Axis) (vs : list Geometry.Vertex) : float :=
  (fold_left (fun m p => Packer.jsMax m (coordinate a p)) vs PrimFloat.neg_infinity
   - fold_left (fun m p => jsMin m (coordinate a p)) vs PrimFloat.infinity)%float.

(** The two axes [projectPlanarUV] keeps. *)
Definition projectionAxes (vs : list Geometry.Vertex) : Axis * Axis :=
  let rangeX := rangeOf AxisX vs in
  let rangeY := rangeOf AxisY vs in
  let rangeZ := rangeOf AxisZ vs in
  if JSNum.ge rangeX rangeY && JSNum.ge rangeX rangeZ
  then (AxisX, if JSNum.ge rangeY rangeZ then AxisY else AxisZ)
  else if JSNum.ge rangeY rangeX && JSNum.ge rangeY rangeZ
  then (AxisY, if JSNum.ge rangeX rangeZ then AxisX else AxisZ)
  else (AxisZ, if JSNum.ge rangeX rangeY then AxisX else AxisY).

(** [projectPlanarUV(subMesh)]. *)
Definition projectPlanarUV (subMesh : SubMesh) : list UV :=
  match vertices subMesh with
  | [] => []
  | vs =>
      let '(axis1, axis2) := projectionAxes vs in
      map (fun p => {| u := JSNum.orElse (coordinate axis1 p) 0%float;
                       v := JSNum.orElse (coordinate axis2 p) 0%float |}) vs
  end.

(** Phases 2 and 3 of [flattenMesh] for one sub-mesh: the UVs that go to
    [createPatternFromSubMesh], from what the calls of the unfolders gave. *)
Definition patchUVs (subMesh : SubMesh) (tubeLike : bool) (tube lscm fan : Attempt)
           (planarProjection : list UV) : list UV :=
  let initialUV :=
    chooseInitial (length (vertices subMesh)) tubeLike tube lscm fan planarProjection
                  (projectPlanarUV subMesh) in
  relaxPhase subMesh initialUV (projectPlanarUV subMesh).

End ClothFlattenerApp.

(* ================================================================= *)
(** * Predicates of the statements and invariants of the proofs *)

Section TraversalInvariants.
Import Worklist.
Variable succ : nat -> list nat.

(** The invariant of a traversal that started at [s] with the set [V0]
    already visited and never returns early. *)
Record Inv (V0 U : list nat) (s : nat) (st : State) : Prop := {
  inv_visited : forall x,
      In x (visited st) <-> In x V0 \/ In x (popped st ++ queue st);
  inv_nodup : NoDup (popped st ++ queue st);
  inv_fresh : forall x, In x (popped st ++ queue st) -> ~ In x V0;
  inv_closed : forall x y, In x (popped st) -> In y (succ x) -> In y (visited st);
  inv_start : In s (popped st ++ queue st);
  inv_range : forall x, In x (popped st ++ queue st) -> In x U
}.

(** The invariant of the [prev] map of a search started at [s]: every
    visited vertex but [s] has one predecessor, which was visited before
    it. *)
Record PrevInv (s : nat) (st : State) : Prop := {
  prev_keys : visited st = map fst (prev st) ++ [s];
  prev_nodup : NoDup (visited st);
  prev_queue : incl (queue st) (visited st);
  prev_older : forall pre n c post,
      prev st = pre ++ (n, c) :: post -> In c (map fst post ++ [s])
}.

End TraversalInvariants.

Section FloodInvariants.
Import Geometry FloodSegmenter.

(** [connectedTo adjacency s f]: face [f] is reached from face [s] by
    steps of the adjacency table. *)
Inductive connectedTo (adjacency : list (list Neighbor)) (s : nat) : nat -> Prop :=
| connected_start : connectedTo adjacency s s
| connected_step (f : nat) (nb : Neighbor) :
    connectedTo adjacency s f -> In nb (nth f adjacency []) ->
    connectedTo adjacency s (neighborIdx nb).

(** The entries of a table all name faces below [n]. *)
Definition facesBelow (n : nat) (m : list (EdgeKey * list nat)) : Prop :=
  forall k infos f, In (k, infos) m -> In f infos -> f < n.

(** The entries of an adjacency table all name faces below [n]. *)
Definition neighborsBelow (n : nat) (adj : list (list Neighbor)) : Prop :=
  forall l nb, In l adj -> In nb l -> neighborIdx nb < n.

End FloodInvariants.

Section MeshConnectivity.
Import Geometry.

(** The number of corners of [face] whose edge joins [a] and [b]. *)
Definition cornersOn (a b : nat) (face : list nat) : nat :=
  length (filter (fun e => ((fst e =? a) && (snd e =? b)) || ((fst e =? b) && (snd e =? a)))
                 (faceEdges face)).

(** The faces, numbered from [base], with an edge that joins [a] and [b],
    in order; a face that has the edge at several corners is listed once
    per corner. *)
Fixpoint facesOnEdge (a b base : nat) (fs : list (list nat)) : list nat :=
  match fs with
  | [] => []
  | face :: rest => repeat base (cornersOn a b face) ++ facesOnEdge a b (S base) rest
  end.

(** [f] and [g] are the faces on the two sides of an edge: the edge is an
    edge of [f] and of [g] and of no other face corner. *)
Definition acrossEdge (fs : list (list nat)) (f g : nat) : Prop :=
  exists a b, facesOnEdge a b 0 fs = [f; g] \/ facesOnEdge a b 0 fs = [g; f].

(** [g] is reached from [s] through faces that are pairwise across an
    edge. *)
Inductive edgeConnected (fs : list (list nat)) (s : nat) : nat -> Prop :=
| edge_start : edgeConnected fs s s
| edge_step (f g : nat) :
    edgeConnected fs s f -> acrossEdge fs f g -> edgeConnected fs s g.

(** What the table of edges holds for a key after more corners were
    recorded: without a new corner the entry is as it was, or absent; the
    first corner creates the array. *)
Definition extend (old : option (list nat)) (new : list nat) : option (list nat) :=
  match new with
  | [] => old
  | _ => Some (match old with Some l => l | None => [] end ++ new)
  end.

End MeshConnectivity.

Section AdjacencyInvariants.
Import Geometry FloodSegmenter.

(** Every entry of the table names faces that have the edge of the entry. *)
Definition tableSound (fs : list (list nat)) (m : list (EdgeKey * list nat)) : Prop :=
  forall k infos f, In (k, infos) m -> In f infos ->
    f < length fs /\ In k (faceKeys (nth f fs [])).

(** The invariant of the adjacency table while the edges are linked. *)
Definition adjacencySound (fs : list (list nat)) (adj : list (list Neighbor)) : Prop :=
  forall f nb, In nb (nth f adj []) ->
    f < length fs /\ neighborIdx nb < length fs /\
    In (sharedEdge nb) (faceKeys (nth f fs [])) /\
    In (sharedEdge nb) (faceKeys (nth (neighborIdx nb) fs [])) /\
    In {| neighborIdx := f; sharedEdge := sharedEdge nb |} (nth (neighborIdx nb) adj []).

End AdjacencyInvariants.

Section RepairInvariants.

(** The values of an adjacency map are all among its keys. *)
Definition closedMap (adj : list (nat * list nat)) : Prop :=
  forall k l y, In (k, l) adj -> In y l -> In y (map fst adj).

End RepairInvariants.

Section WeldingInvariants.
Import MeshScissor.

(** Every index in the hash and in the vertex map names a kept vertex. *)
Definition indicesValid (w : Weld) : Prop :=
  (forall key cell idx, In (key, cell) (spatialHash w) -> In idx cell ->
                        idx < length (newVertices w)) /\
  (forall idx, In idx (vertexMap w) -> idx < length (newVertices w)).

End WeldingInvariants.

Section DriftQuantities.
Import PhysicsFlattener.
Local Open Scope Q_scope.












End DriftQuantities.

Section PathInvariants.
Import Geometry TopologyRepair.

(** Two vertices are joined by an edge of a face of the mesh. *)
Definition joined (mesh : Patch) (a b : nat) : Prop :=
  exists face, In face (faces mesh) /\
               (In (a, b) (faceEdges face) \/ In (b, a) (faceEdges face)).

End PathInvariants.

Section WeldingMapInvariants.
Import Geometry MeshScissor.

(** What the welding loop has done with the vertices [seen]: one entry of
    the map for each, which names a kept vertex: the vertex itself, or one
    that passed the merge test with it. *)
Definition mapSound (tolerance : float) (seen : list Vertex) (w : Weld) : Prop :=
  length (vertexMap w) = length seen /\
  length (newVertices w) <= length seen /\
  forall i v, nth_error seen i = Some v ->
    exists j kept, nth_error (vertexMap w) i = Some j /\
                   nth_error (newVertices w) j = Some kept /\
                   (kept = v \/ within tolerance v kept = true).

End WeldingMapInvariants.

Section SpringInvariants.
Import Geometry PhysicsFlattener.

(** What [buildDifferentiatedConstraints] puts in a spring: its ends are
    vertices of the mesh, its rest length is their distance and is not
    below 1e-10, and its stiffness follows its kind. *)
Definition goodSpring (vs : list Vertex) (boundaryEdges : list EdgeKey)
           (boundaryK internalK : float) (c : Constraint) : Prop :=
  exists vU vV,
    nth_error vs (cu c) = Some vU /\
    nth_error vs (cv c) = Some vV /\
    restLength c = distance vU vV /\
    JSNum.lt (restLength c) 1e-10%float = false /\
    isBoundary c = keyHas (edgeKey (cu c) (cv c)) boundaryEdges /\
    stiffness c = if isBoundary c then boundaryK else internalK.

End SpringInvariants.

Section OrderInvariants.
Import Geometry.

(** Two vertices of the mesh at a distance below [Infinity]. *)
Definition near (vs : list Vertex) (a b : nat) : Prop :=
  exists va vb, nth_error vs a = Some va /\ nth_error vs b = Some vb /\
                JSNum.lt (distance va vb) PrimFloat.infinity = true.

End OrderInvariants.

Section CutInvariants.
Import Geometry Scissor.

(** [vertexToGroupMap.get(vIdx).get(gId)]. *)
Definition lookupGroup (maps : GroupMaps) (vIdx gId : nat) : option nat :=
  match JS.get Nat.eqb vIdx maps with
  | Some groupMap => JS.get Nat.eqb gId groupMap
  | None => None
  end.

(** The state of the loop over the corners: the maps are those of the cut
    vertices; the new vertices start with the old ones; an index in the map
    of a vertex names a copy of this vertex, and is the vertex itself if it
    is an old index; no index is twice in a map; and a new index is in one
    map only, once. *)
Record splitInv (vs : list Vertex) (cutVertices : list nat)
       (st : GroupMaps * list Vertex) : Prop := {
  inv_keys : map fst (fst st) = cutVertices;
  inv_prefix : exists more, snd st = vs ++ more;
  inv_entries :
    forall u gm g i, In (u, gm) (fst st) -> In (g, i) gm ->
      u < length vs /\ i < length (snd st) /\
      nth_error (snd st) i = nth_error vs u /\
      (i < length vs -> i = u);
  inv_distinct : forall u gm, In (u, gm) (fst st) -> NoDup (map snd gm);
  inv_owner :
    forall i, length vs <= i -> i < length (snd st) ->
      exists u, owners (fst st) i = [u] /\ nth_error (snd st) i = nth_error vs u
}.

(** What the corner [v] of a face of group [g] became. *)
Definition cornerOf (cutVertices : list nat) (maps : GroupMaps) (g v v' : nat) : Prop :=
  if JS.has v cutVertices then lookupGroup maps v g = Some v' else v' = v.

End CutInvariants.

(* ================================================================= *)
(** * The inputs of the examples *)

(** ** A colour on the thresholds *)

Module Threshold.
Import SeamExtractor.

(** A mesh of one vertex whose colour sits on all three thresholds. *)
Definition mesh : MeshData :=
  {| hasVertexColors := true;
     vertexColors := [ {| r := 0.7; g := 0.4; b := 0.4 |} ] |}.

End Threshold.

(** ** A strip of four quads with a red line across the middle *)

Module Strip.
Import Geometry FloodSegmenter.

Definition vtx (a b : float) : Vertex := {| x := a; y := b; z := 0%float |}.

(** Vertices 0..4 on the bottom row, 5..9 on the top row; the red line
    joins vertices 2 and 7. *)
Definition mesh : Mesh :=
  {| vertices := [vtx 0 0; vtx 1 0; vtx 2 0; vtx 3 0; vtx 4 0;
                  vtx 0 1; vtx 1 1; vtx 2 1; vtx 3 1; vtx 4 1];
     faces := [[0; 1; 6]; [0; 6; 5]; [1; 2; 7]; [1; 7; 6];
               [2; 3; 8]; [2; 8; 7]; [3; 4; 9]; [3; 9; 8]] |}.

Definition seamEdges : list EdgeKey := [(2, 7)].

Definition options : Options :=
  {| minFaces := 1; assignBoundaryFaces := true; redVertices := [2; 7] |}.

Definition white (a b : float) : PatchVertex :=
  {| px := a; py := b; pz := 0%float; pr := 1%float; pg := 1%float; pb := 1%float |}.

Definition left : SubMesh :=
  {| subVertices := [white 0 0; white 1 0; white 1 1; white 0 1];
     subFaces := [[Some 0; Some 1; Some 2]; [Some 0; Some 2; Some 3]];
     globalToLocal := [(0, 0); (1, 1); (6, 2); (5, 3)];
     localToGlobal := [0; 1; 6; 5];
     originalFaceIndices := [0; 1];
     internalRedVertices := [7; 2] |}.

Definition right : SubMesh :=
  {| subVertices := [white 3 0; white 4 1; white 3 1; white 4 0];
     subFaces := [[Some 0; Some 1; Some 2]; [Some 0; Some 3; Some 1]];
     globalToLocal := [(3, 0); (9, 1); (8, 2); (4, 3)];
     localToGlobal := [3; 9; 8; 4];
     originalFaceIndices := [7; 6];
     internalRedVertices := [2; 7] |}.

End Strip.

(** ** Two small meshes for the flood without barriers *)

Module Quad.
Import Geometry FloodSegmenter.

Definition vtx (a b : float) : Vertex := {| x := a; y := b; z := 0%float |}.

(** A square split along its diagonal 0-2. *)
Definition mesh : Mesh :=
  {| vertices := [vtx 0 0; vtx 1 0; vtx 1 1; vtx 0 1];
     faces := [[0; 1; 2]; [0; 2; 3]] |}.

(** Two triangles with no vertex in common. *)
Definition apart : Mesh :=
  {| vertices := [vtx 0 0; vtx 1 0; vtx 1 1; vtx 5 0; vtx 6 0; vtx 6 1];
     faces := [[0; 1; 2]; [3; 4; 5]] |}.

Definition options : Options :=
  {| minFaces := 1; assignBoundaryFaces := true; redVertices := [] |}.

Definition white (a b : float) : PatchVertex :=
  {| px := a; py := b; pz := 0%float; pr := 1%float; pg := 1%float; pb := 1%float |}.

Definition first : SubMesh :=
  {| subVertices := [white 0 0; white 1 0; white 1 1];
     subFaces := [[Some 0; Some 1; Some 2]];
     globalToLocal := [(0, 0); (1, 1); (2, 2)];
     localToGlobal := [0; 1; 2];
     originalFaceIndices := [0];
     internalRedVertices := [] |}.

Definition second : SubMesh :=
  {| subVertices := [white 5 0; white 6 0; white 6 1];
     subFaces := [[Some 0; Some 1; Some 2]];
     globalToLocal := [(3, 0); (4, 1); (5, 2)];
     localToGlobal := [3; 4; 5];
     originalFaceIndices := [1];
     internalRedVertices := [] |}.

End Quad.

(** ** A tube, and disks with two and three holes *)

Module Tube.
Import Geometry TopologyRepair.

Definition vtx (a b c : float) : Vertex := {| x := a; y := b; z := c |}.

(** An open tube: the triangle 0-1-2 at height 0, the triangle 3-4-5 at
    height 3, and three side quads, each split in two triangles. *)
Definition mesh : Patch :=
  {| vertices := [vtx 0 0 0; vtx 2 0 0; vtx 0 2 0; vtx 0 0 3; vtx 2 0 3; vtx 0 2 3];
     faces := [[0; 1; 4]; [0; 4; 3]; [1; 2; 5]; [1; 5; 4]; [2; 0; 3]; [2; 3; 5]];
     maps := None |}.

End Tube.

Module Holes.
Import Geometry TopologyRepair.

Definition vtx (a b : float) : Vertex := {| x := a; y := b; z := 0%float |}.

(** A 5 x 3 grid of quads, each split in two triangles, without the quads
    (1,1) and (3,1): a disk with two holes. *)
Definition two : Patch :=
  {| vertices :=
     [
      vtx 0 0; vtx 1 0; vtx 2 0; vtx 3 0; vtx 4 0; vtx 5 0; vtx 0 1; vtx 1 1; vtx 2 1;
      vtx 3 1; vtx 4 1; vtx 5 1; vtx 0 2; vtx 1 2; vtx 2 2; vtx 3 2; vtx 4 2; vtx 5 2;
      vtx 0 3; vtx 1 3; vtx 2 3; vtx 3 3; vtx 4 3; vtx 5 3
     ];
     faces :=
     [
      [0; 1; 7]; [0; 7; 6]; [1; 2; 8]; [1; 8; 7]; [2; 3; 9]; [2; 9; 8]; [3; 4; 10];
      [3; 10; 9]; [4; 5; 11]; [4; 11; 10]; [6; 7; 13]; [6; 13; 12]; [8; 9; 15];
      [8; 15; 14]; [10; 11; 17]; [10; 17; 16]; [12; 13; 19]; [12; 19; 18];
      [13; 14; 20]; [13; 20; 19]; [14; 15; 21]; [14; 21; 20]; [15; 16; 22];
      [15; 22; 21]; [16; 17; 23]; [16; 23; 22]
     ];
     maps := None |}.

(** A 7 x 3 grid without the quads (1,1), (3,1) and (5,1): a disk with
    three holes. *)
Definition three : Patch :=
  {| vertices :=
     [
      vtx 0 0; vtx 1 0; vtx 2 0; vtx 3 0; vtx 4 0; vtx 5 0; vtx 6 0; vtx 7 0; vtx 0 1;
      vtx 1 1; vtx 2 1; vtx 3 1; vtx 4 1; vtx 5 1; vtx 6 1; vtx 7 1; vtx 0 2; vtx 1 2;
      vtx 2 2; vtx 3 2; vtx 4 2; vtx 5 2; vtx 6 2; vtx 7 2; vtx 0 3; vtx 1 3; vtx 2 3;
      vtx 3 3; vtx 4 3; vtx 5 3; vtx 6 3; vtx 7 3
     ];
     faces :=
     [
      [0; 1; 9]; [0; 9; 8]; [1; 2; 10]; [1; 10; 9]; [2; 3; 11]; [2; 11; 10];
      [3; 4; 12]; [3; 12; 11]; [4; 5; 13]; [4; 13; 12]; [5; 6; 14]; [5; 14; 13];
      [6; 7; 15]; [6; 15; 14]; [8; 9; 17]; [8; 17; 16]; [10; 11; 19]; [10; 19; 18];
      [12; 13; 21]; [12; 21; 20]; [14; 15; 23]; [14; 23; 22]; [16; 17; 25];
      [16; 25; 24]; [17; 18; 26]; [17; 26; 25]; [18; 19; 27]; [18; 27; 26];
      [19; 20; 28]; [19; 28; 27]; [20; 21; 29]; [20; 29; 28]; [21; 22; 30];
      [21; 30; 29]; [22; 23; 31]; [22; 31; 30]
     ];
     maps := None |}.

End Holes.

(** ** A triangle too large for binary32, and a fan of three triangles *)

Module Overflow.
Import Geometry PhysicsFlattener.

(** A right triangle whose legs are longer than the largest binary32
    number (about 3.4e38). *)
Definition mesh : SubMesh :=
  {| vertices := [ {| x := 0; y := 0; z := 0 |};
                   {| x := 1e39; y := 0; z := 0 |};
                   {| x := 0; y := 1e39; z := 0 |} ];
     faces := [[0; 1; 2]] |}.

(** Its projection on the x-y plane, all of whose values are finite. *)
Definition initialUV : list UV :=
  [ {| u := 0; v := 0 |}; {| u := 1e39; v := 0 |}; {| u := 0; v := 1e39 |} ].

Definition nanUV : UV := {| u := PrimFloat.nan; v := PrimFloat.nan |}.

End Overflow.

Module Fan.
Import Geometry PhysicsFlattener.

(** Three triangles around vertex 0, which is lifted off the plane of the
    other three. *)
Definition mesh : SubMesh :=
  {| vertices := [ {| x := 0; y := 0; z := 1 |};
                   {| x := 2; y := 0; z := 0 |};
                   {| x := -1; y := 2; z := 0 |};
                   {| x := -1; y := -2; z := 0 |} ];
     faces := [[0; 1; 2]; [0; 2; 3]; [0; 3; 1]] |}.

Definition initialUV : list UV :=
  [ {| u := 0.5; v := 0.25 |}; {| u := 2; v := 0 |};
    {| u := -1; v := 2 |}; {| u := -1; v := -2 |} ].

Definition pinned : Options :=
  {| iterations := 200; boundaryStiffness := 50%float; internalStiffness := 0.2%float;
     pinBoundary := true; damping := 0.995%float |}.


End Fan.

(** ** Patterns that the packer does not keep apart *)

Module Shelf.
Import PhysicsFlattener ClothFlattenerApp.

Definition uvAt (a b : float) : UV := {| u := a; v := b |}.

(** A pattern 1 wide and 5 high, and a pattern 4 wide and 16 high that
    lies at height 1e17, where consecutive numbers are 16 apart. *)
Definition low : Packer.Pattern float :=
  createPatternFromSubMesh [uvAt 0 0; uvAt 1 5] 0.

Definition high : Packer.Pattern float :=
  createPatternFromSubMesh [uvAt 0 1e17; uvAt 4 100000000000000016] 1.

(** The pattern of the patch whose relaxed UVs are all [NaN], and the
    pattern of a unit square. *)
Definition lost : Packer.Pattern float :=
  createPatternFromSubMesh
    (relaxPhase Overflow.mesh Overflow.initialUV Overflow.initialUV) 0.

Definition square (index : nat) : Packer.Pattern float :=
  createPatternFromSubMesh [uvAt 0 0; uvAt 1 0; uvAt 1 1; uvAt 0 1] index.

Definition box (a b c d : float) : Packer.Bounds float :=
  {| Packer.minU := a; Packer.maxU := b; Packer.minV := c; Packer.maxV := d |}.

End Shelf.

(** ** A square of two triangles *)

Module Square.
Import Geometry TopologyRepair.

Definition vtx (a b : float) : Vertex := {| x := a; y := b; z := 0%float |}.

(** A unit square split in two triangles along the diagonal 0-2. *)
Definition mesh : Patch :=
  {| vertices := [vtx 0 0; vtx 1 0; vtx 1 1; vtx 0 1];
     faces := [[0; 1; 2]; [0; 2; 3]];
     maps := None |}.

End Square.

(** ** A square with a fragment *)

Module Scrap.
Import Geometry.

Definition vtx (a b : float) : Vertex := {| x := a; y := b; z := 0%float |}.

(** The square of two triangles, and a triangle apart from it. *)
Definition mesh : Mesh :=
  {| vertices := [vtx 0 0; vtx 1 0; vtx 1 1; vtx 0 1; vtx 5 0; vtx 6 0; vtx 6 1];
     faces := [[0; 1; 2]; [0; 2; 3]; [4; 5; 6]] |}.

(** The square alone, as [filterSmallFragments] rebuilds it. *)
Definition main : Mesh :=
  {| vertices := [vtx 0 0; vtx 1 0; vtx 1 1; vtx 0 1];
     faces := [[0; 1; 2]; [0; 2; 3]] |}.

End Scrap.

(** ** The square with a seam along its diagonal *)

Module Seamed.
Import Geometry Scissor.

(** The square of two triangles as a part of a larger mesh, with a seam
    along its diagonal 0-2, and what the cut makes of it. *)
Definition part : Part :=
  {| partVertices := TopologyRepair.vertices Square.mesh;
     partFaces := TopologyRepair.faces Square.mesh;
     partLocalToGlobal := Some [10; 11; 12; 13] |}.

Definition seam : list EdgeKey := [(0, 2)].

Definition cut : CutPart :=
  {| outVertices := TopologyRepair.vertices Square.mesh
                    ++ [Square.vtx 0 0; Square.vtx 1 1];
     outFaces := [[0; 1; 2]; [4; 5; 3]];
     outLocalToGlobal := [Some 10; Some 11; Some 12; Some 13; Some 10; Some 12] |}.

End Seamed.

(* ================================================================= *)
(** * Properties *)

Section RedVertices.
Import SeamExtractor.

Lemma scanColors_spec (o : Options) (colors : list Color) :
  forall base i,
    In i (scanColors o base colors) <->
    exists c, base <= i /\ nth_error colors (i - base) = Some c /\ isRed o c = true.
Proof.
  induction colors as [|c rest IH]; intros base i; simpl.
  - split; [intros []|intros (c & _ & H & _)].
    destruct (i - base); discriminate.
  - destruct (isRed o c) eqn:Hc; simpl; rewrite IH.
    + split.
      * intros [<-|(c' & Hle & Hn & Hr)].
        -- exists c. rewrite Nat.sub_diag. auto.
        -- exists c'. split; [lia|]. split; [|assumption].
           replace (i - base) with (S (i - S base)) by lia. exact Hn.
      * intros (c' & Hle & Hn & Hr).
        destruct (Nat.eq_dec base i) as [->|Hne]; [now left|right].
        exists c'. split; [lia|]. split; [|assumption].
        replace (i - base) with (S (i - S base)) in Hn by lia. exact Hn.
    + split.
      * intros (c' & Hle & Hn & Hr).
        exists c'. split; [lia|]. split; [|assumption].
        replace (i - base) with (S (i - S base)) by lia. exact Hn.
      * intros (c' & Hle & Hn & Hr).
        destruct (Nat.eq_dec base i) as [->|Hne].
        -- rewrite Nat.sub_diag in Hn. simpl in Hn. congruence.
        -- exists c'. split; [lia|]. split; [|assumption].
           replace (i - base) with (S (i - S base)) in Hn by lia. exact Hn.
Qed.

(** C3 (as amended): a vertex index is reported red exactly when the mesh
    carries vertex colours and its colour satisfies the strict comparisons
    r > redThreshold, g < greenMaxThreshold and b < blueMaxThreshold. *)
Theorem extractRedVertices_strict (md : MeshData) (o : Options) (i : nat) :
  In i (extractRedVertices (Some md) o) <->
  hasVertexColors md = true /\
  exists c, nth_error (vertexColors md) i = Some c /\
            PrimFloat.ltb (redThreshold o) (r c) = true /\
            PrimFloat.ltb (g c) (greenMaxThreshold o) = true /\
            PrimFloat.ltb (b c) (blueMaxThreshold o) = true.
Proof.
  unfold extractRedVertices.
  destruct (hasVertexColors md); simpl.
  - rewrite scanColors_spec. rewrite Nat.sub_0_r. unfold isRed, JSNum.gt, JSNum.lt.
    split.
    + intros (c & _ & Hn & Hr).
      apply andb_prop in Hr as [Hr Hb]. apply andb_prop in Hr as [Hr Hg].
      split; [reflexivity|]. exists c. auto.
    + intros (_ & c & Hn & Hr & Hg & Hb).
      exists c. split; [lia|]. split; [assumption|].
      now rewrite Hr, Hg, Hb.
  - split; [intros []|intros [H _]; discriminate].
Qed.

(** C3 (counterexample): with the thresholds [segmentParts] passes, the
    colour (0.7, 0.4, 0.4) satisfies r >= 0.7, g <= 0.4 and b <= 0.4, and
    the vertex is not in the extracted red set. *)
Lemma threshold_vertex_not_red :
  specRed segmentPartsOptions {| r := 0.7; g := 0.4; b := 0.4 |} = true /\
  extractRedVertices (Some Threshold.mesh) segmentPartsOptions = [].
Proof. split; vm_compute; reflexivity. Qed.

End RedVertices.

(* ----------------------------------------------------------------- *)
(** ** Lemmas on the shared values *)

Section SharedFacts.
Import JS.

Lemma bind_ok {A B : Type} (r : Result A) (k : A -> Result B) (b : B) :
  bind r k = Ok b -> exists a, r = Ok a /\ k a = Ok b.
Proof. destruct r as [a|]; simpl; [eauto|discriminate]. Qed.

Lemma read_ok {A : Type} (xs : list A) (i : nat) (a : A) :
  read xs i = Ok a <-> nth_error xs i = Some a.
Proof.
  unfold read. destruct (nth_error xs i); split; intros H;
    try discriminate; inversion H; reflexivity.
Qed.

Lemma mapM_ok {A B : Type} (f : A -> Result B) (xs : list A) :
  forall ys, mapM f xs = Ok ys -> Forall2 (fun a b => f a = Ok b) xs ys.
Proof.
  induction xs as [|a rest IH]; simpl; intros ys H.
  - inversion H. constructor.
  - apply bind_ok in H as (b & Hb & H).
    apply bind_ok in H as (bs & Hbs & H). inversion H; subst.
    constructor; auto.
Qed.

Lemma mapM_total {A B : Type} (f : A -> Result B) (xs : list A) :
  (forall a, In a xs -> exists b, f a = Ok b) -> exists ys, mapM f xs = Ok ys.
Proof.
  induction xs as [|a rest IH]; simpl; intros H.
  - eauto.
  - destruct (H a (or_introl eq_refl)) as (b & ->). simpl.
    destruct IH as (bs & ->); [intros; apply H; now right|]. simpl. eauto.
Qed.

Lemma Forall2_in_r {A B : Type} (R : A -> B -> Prop) (xs : list A) (ys : list B) :
  Forall2 R xs ys -> forall b, In b ys -> exists a, In a xs /\ R a b.
Proof.
  induction 1 as [|a b xs ys HR _ IH]; intros b' Hin; [destruct Hin|].
  destruct Hin as [<-|Hin].
  - exists a. split; [now left|assumption].
  - destruct (IH _ Hin) as (a' & Ha & HR'). exists a'. split; [now right|assumption].
Qed.

Lemma Forall2_in_l {A B : Type} (R : A -> B -> Prop) (xs : list A) (ys : list B) :
  Forall2 R xs ys -> forall a, In a xs -> exists b, In b ys /\ R a b.
Proof.
  induction 1 as [|a b xs ys HR _ IH]; intros a' Hin; [destruct Hin|].
  destruct Hin as [<-|Hin].
  - exists b. split; [now left|assumption].
  - destruct (IH _ Hin) as (b' & Hb & HR'). exists b'. split; [now right|assumption].
Qed.

Lemma has_true (x : nat) (s : list nat) : has x s = true <-> In x s.
Proof.
  unfold has. rewrite existsb_exists. split.
  - intros (y & Hy & Heq). apply Nat.eqb_eq in Heq. now subst.
  - intros H. exists x. split; [assumption|apply Nat.eqb_refl].
Qed.

Lemma has_false (x : nat) (s : list nat) : has x s = false <-> ~ In x s.
Proof.
  rewrite <- has_true. destruct (has x s); split; intros H; congruence.
Qed.

Lemma in_add (x y : nat) (s : list nat) : In x (add y s) <-> x = y \/ In x s.
Proof.
  unfold add. destruct (has y s) eqn:Hy.
  - apply has_true in Hy. split; [now right|]. intros [->|H]; assumption.
  - rewrite in_app_iff. simpl. intuition.
Qed.

Lemma NoDup_add (y : nat) (s : list nat) : NoDup s -> NoDup (add y s).
Proof.
  intros H. unfold add. destruct (has y s) eqn:Hy; [assumption|].
  apply has_false in Hy.
  apply NoDup_rev in H. rewrite <- (rev_involutive (s ++ [y])).
  apply NoDup_rev. rewrite rev_app_distr. simpl. constructor; [|assumption].
  now rewrite <- in_rev.
Qed.

Lemma get_set (k k' v : nat) (m : list (nat * nat)) :
  get Nat.eqb k (set Nat.eqb k' v m) = if k =? k' then Some v else get Nat.eqb k m.
Proof.
  induction m as [|[k0 v0] rest IH]; simpl.
  - reflexivity.
  - destruct (k' =? k0) eqn:E; simpl.
    + apply Nat.eqb_eq in E. subst k0. destruct (k =? k'); reflexivity.
    + destruct (k =? k0) eqn:E0.
      * apply Nat.eqb_eq in E0. subst k0.
        rewrite Nat.eqb_sym in E. now rewrite E.
      * exact IH.
Qed.

End SharedFacts.

(* ----------------------------------------------------------------- *)
(** ** The kerf: what [buildSubMeshWithKerf] puts in a patch *)

Section Kerf.
Import Geometry FloodSegmenter.

Lemma keepClean_in mesh red (faceIndices : list nat) (kept : list (list nat)) :
  JS.mapM (keepClean mesh red) faceIndices = JS.Ok kept ->
  forall faceIdx, In faceIdx (concat kept) ->
    In faceIdx faceIndices /\
    exists face, nth_error (faces mesh) faceIdx = Some face /\
                 existsb (fun vIdx => JS.has vIdx red) face = false.
Proof.
  intros H faceIdx Hin. apply mapM_ok in H.
  apply in_concat in Hin as (l & Hl & Hin).
  destruct (Forall2_in_r _ _ _ H _ Hl) as (fi & Hfi & Hk).
  unfold keepClean in Hk. apply bind_ok in Hk as (face & Hread & Hk).
  apply read_ok in Hread. inversion Hk as [Hl']. clear Hk.
  destruct (existsb _ face) eqn:Hred; subst l; [destruct Hin|].
  destruct Hin as [<-|[]]. split; [assumption|]. exists face. auto.
Qed.

Lemma collectUsed_mono mesh (clean : list nat) :
  forall used v, In v used -> In v (fold_left (collectUsed mesh) clean used).
Proof.
  induction clean as [|fi rest IH]; simpl; intros used v Hv; [assumption|].
  apply IH. unfold collectUsed.
  generalize (nth fi (faces mesh) []). intros face. revert used Hv.
  induction face as [|w face IHf]; simpl; intros used Hv; [assumption|].
  apply IHf. apply in_add. now right.
Qed.

Lemma collectUsed_face (face : list nat) :
  forall used v, In v face ->
    In v (fold_left (fun acc w => JS.add w acc) face used).
Proof.
  induction face as [|w face IH]; simpl; intros used v Hv; [destruct Hv|].
  destruct Hv as [->|Hv].
  - assert (Hin : In v (JS.add v used)) by (apply in_add; now left).
    revert Hin. generalize (JS.add v used). clear.
    induction face as [|w face IH]; simpl; intros used Hin; [assumption|].
    apply IH. apply in_add. now right.
  - now apply IH.
Qed.

Lemma collectUsed_in mesh (clean : list nat) :
  forall used faceIdx v,
    In faceIdx clean -> In v (nth faceIdx (faces mesh) []) ->
    In v (fold_left (collectUsed mesh) clean used).
Proof.
  induction clean as [|fi rest IH]; simpl; intros used faceIdx v Hfi Hv; [destruct Hfi|].
  destruct Hfi as [->|Hfi].
  - apply collectUsed_mono. unfold collectUsed. now apply collectUsed_face.
  - now apply IH with faceIdx.
Qed.

Lemma numberFrom_sound (used : list nat) :
  forall k m v l,
    JS.get Nat.eqb v (numberFrom k used m) = Some l ->
    (k <= l /\ nth_error used (l - k) = Some v) \/ JS.get Nat.eqb v m = Some l.
Proof.
  induction used as [|g rest IH]; simpl; intros k m v l H; [now right|].
  apply IH in H as [[Hle Hn]|H].
  - left. split; [lia|]. replace (l - k) with (S (l - S k)) by lia. exact Hn.
  - rewrite get_set in H. destruct (v =? g) eqn:E.
    + apply Nat.eqb_eq in E. subst g. inversion H; subst l.
      left. split; [lia|]. now rewrite Nat.sub_diag.
    + now right.
Qed.

Lemma numberFrom_defined (used : list nat) :
  forall k m v,
    In v used \/ JS.get Nat.eqb v m <> None ->
    JS.get Nat.eqb v (numberFrom k used m) <> None.
Proof.
  induction used as [|g rest IH]; simpl; intros k m v H.
  - destruct H as [[]|H]; assumption.
  - apply IH. rewrite get_set. destruct (v =? g) eqn:E.
    + right. discriminate.
    + apply Nat.eqb_neq in E. destruct H as [[Hg|Hr]|H]; [congruence|now left|now right].
Qed.

(** What a sub-mesh built from [faceIndices] holds. *)
Lemma buildSubMeshWithKerf_spec mesh faceIndices red subMesh :
  buildSubMeshWithKerf mesh faceIndices red = JS.Ok (Some subMesh) ->
  (forall faceIdx, In faceIdx (originalFaceIndices subMesh) ->
     In faceIdx faceIndices /\
     exists face, nth_error (faces mesh) faceIdx = Some face /\
                  forall v, In v face -> JS.has v red = false) /\
  (forall lf e, In lf (subFaces subMesh) -> In e lf ->
     exists l g, e = Some l /\ nth_error (localToGlobal subMesh) l = Some g /\
                 JS.has g red = false) /\
  (forall v, In v (subVertices subMesh) ->
     pr v = 1%float /\ pg v = 1%float /\ pb v = 1%float) /\
  length (subFaces subMesh) = length (originalFaceIndices subMesh) /\
  length (subVertices subMesh) = length (localToGlobal subMesh).
Proof.
  unfold buildSubMeshWithKerf. intros H.
  apply bind_ok in H as (kept & Hkept & H).
  destruct (concat kept) as [|c0 crest] eqn:Hclean; [discriminate|].
  rewrite <- Hclean in H.
  apply bind_ok in H as (newVertices & Hverts & H).
  inversion H as [Hsm]. clear H. simpl.
  assert (Hcl : forall faceIdx, In faceIdx (concat kept) ->
            In faceIdx faceIndices /\
            exists face, nth_error (faces mesh) faceIdx = Some face /\
                         forall v, In v face -> JS.has v red = false).
  { intros fi Hfi. destruct (keepClean_in _ _ _ _ Hkept _ Hfi) as (Hin & face & Hn & Hex).
    split; [assumption|]. exists face. split; [assumption|].
    intros v Hv. destruct (JS.has v red) eqn:Hr; [|reflexivity].
    assert (existsb (fun vIdx => JS.has vIdx red) face = true)
      by (apply existsb_exists; eauto). congruence. }
  repeat split.
  - apply Hcl; assumption.
  - apply Hcl; assumption.
  - intros lf e Hlf He.
    apply in_map_iff in Hlf as (fi & <- & Hfi).
    apply in_map_iff in He as (v & <- & Hv).
    destruct (Hcl _ Hfi) as (_ & face & Hn & Hred).
    assert (Hface : nth fi (faces mesh) [] = face)
      by (apply nth_error_nth; assumption).
    set (used := fold_left (collectUsed mesh) (concat kept) []) in *.
    assert (Hused : In v used) by (apply collectUsed_in with fi; assumption).
    destruct (JS.get Nat.eqb v (numberFrom 0 used [])) as [l|] eqn:Hget.
    + exists l, v. split; [reflexivity|].
      apply numberFrom_sound in Hget as [[_ Hn']|Hget]; [|discriminate].
      rewrite Nat.sub_0_r in Hn'. split; [assumption|].
      apply Hred. rewrite <- Hface. assumption.
    + exfalso. revert Hget. apply numberFrom_defined. now left.
  - apply mapM_ok in Hverts.
    destruct (Forall2_in_r _ _ _ Hverts _ H) as (gi & _ & Hw).
    unfold whiteVertex in Hw. apply bind_ok in Hw as (v0 & _ & Hw).
    inversion Hw. reflexivity.
  - apply mapM_ok in Hverts.
    destruct (Forall2_in_r _ _ _ Hverts _ H) as (gi & _ & Hw).
    unfold whiteVertex in Hw. apply bind_ok in Hw as (v0 & _ & Hw).
    inversion Hw. reflexivity.
  - apply mapM_ok in Hverts.
    destruct (Forall2_in_r _ _ _ Hverts _ H) as (gi & _ & Hw).
    unfold whiteVertex in Hw. apply bind_ok in Hw as (v0 & _ & Hw).
    inversion Hw. reflexivity.
  - apply length_map.
  - apply mapM_ok in Hverts. symmetry. eapply Forall2_length; eassumption.
Qed.

(** Every emitted patch is a sub-mesh [buildSubMeshWithKerf] built from an
    island, with the red vertices of the island attached. *)
Lemma segmentWithSeams_emits mesh seamEdges o patches p :
  segmentWithSeams mesh seamEdges o = JS.Ok patches -> In p patches ->
  exists faceIndices subMesh,
    In faceIndices (validIslands mesh seamEdges o) /\
    buildSubMeshWithKerf mesh faceIndices (redVertices o) = JS.Ok (Some subMesh) /\
    minFaces o <= length (subFaces subMesh) /\
    subVertices p = subVertices subMesh /\
    subFaces p = subFaces subMesh /\
    globalToLocal p = globalToLocal subMesh /\
    localToGlobal p = localToGlobal subMesh /\
    originalFaceIndices p = originalFaceIndices subMesh.
Proof.
  unfold segmentWithSeams. intros H Hp.
  apply bind_ok in H as (emitted & Hem & H). inversion H; subst patches. clear H.
  apply in_concat in Hp as (l & Hl & Hp).
  apply mapM_ok in Hem.
  destruct (Forall2_in_r _ _ _ Hem _ Hl) as (faceIndices & Hfi & He).
  unfold emitIsland in He.
  apply bind_ok in He as (reds & _ & He).
  apply bind_ok in He as (built & Hb & He).
  destruct built as [subMesh|]; [|inversion He; subst l; destruct Hp].
  destruct (minFaces o <=? length (subFaces subMesh)) eqn:Hmin;
    inversion He; subst l; [|destruct Hp].
  destruct Hp as [<-|[]]. apply Nat.leb_le in Hmin.
  exists faceIndices, subMesh. simpl. repeat split; auto.
Qed.

End Kerf.

Section KerfClaims.
Import Geometry FloodSegmenter.

(** The strip comes back as its two ends: the four faces that touch the
    red line are cut away. *)
Lemma strip_segmented :
  segmentWithSeams Strip.mesh Strip.seamEdges Strip.options = JS.Ok [Strip.left; Strip.right].
Proof. vm_compute. reflexivity. Qed.

(** C2: every face of every patch the flood segmenter emits is free of
    red vertices: the original face it was copied from has no vertex in
    the red set, and each of its local indices maps back, through
    [localToGlobal], to a vertex outside the red set. *)
Theorem kerf_no_red_vertex mesh seamEdges o patches p :
  segmentWithSeams mesh seamEdges o = JS.Ok patches ->
  In p patches ->
  (forall faceIdx, In faceIdx (originalFaceIndices p) ->
     exists face, nth_error (faces mesh) faceIdx = Some face /\
                  forall v, In v face -> JS.has v (redVertices o) = false) /\
  (forall lf e, In lf (subFaces p) -> In e lf ->
     exists l g, e = Some l /\ nth_error (localToGlobal p) l = Some g /\
                 JS.has g (redVertices o) = false).
Proof.
  intros H Hp.
  destruct (segmentWithSeams_emits _ _ _ _ _ H Hp)
    as (fi & sm & _ & Hb & _ & _ & Hf & _ & Hl & Ho).
  destruct (buildSubMeshWithKerf_spec _ _ _ _ Hb) as (Ha & Hbk & _).
  rewrite Hf, Hl, Ho. split.
  - intros faceIdx Hin. destruct (Ha _ Hin) as (_ & face & Hn & Hr). eauto.
  - exact Hbk.
Qed.

(** C2 (witness): the strip, cut along its red line. *)
Lemma kerf_no_red_vertex_witness :
  (forall faceIdx, In faceIdx (originalFaceIndices Strip.left) ->
     exists face, nth_error (faces Strip.mesh) faceIdx = Some face /\
                  forall v, In v face -> JS.has v (redVertices Strip.options) = false) /\
  (forall lf e, In lf (subFaces Strip.left) -> In e lf ->
     exists l g, e = Some l /\ nth_error (localToGlobal Strip.left) l = Some g /\
                 JS.has g (redVertices Strip.options) = false).
Proof.
  apply (kerf_no_red_vertex Strip.mesh Strip.seamEdges Strip.options
           [Strip.left; Strip.right] Strip.left).
  - vm_compute. reflexivity.
  - simpl. auto.
Defined.

(** C10: every vertex of every patch the flood segmenter emits carries the
    colour (1, 1, 1). *)
Theorem emitted_vertices_white mesh seamEdges o patches p v :
  segmentWithSeams mesh seamEdges o = JS.Ok patches ->
  In p patches ->
  In v (subVertices p) ->
  pr v = 1%float /\ pg v = 1%float /\ pb v = 1%float.
Proof.
  intros H Hp Hv.
  destruct (segmentWithSeams_emits _ _ _ _ _ H Hp)
    as (fi & sm & _ & Hb & _ & Hsv & _).
  destruct (buildSubMeshWithKerf_spec _ _ _ _ Hb) as (_ & _ & Hw & _).
  apply Hw. now rewrite <- Hsv.
Qed.

(** C10 (witness): a vertex of the right half of the strip. *)
Lemma emitted_vertices_white_witness :
  pr (Strip.white 4 1) = 1%float /\ pg (Strip.white 4 1) = 1%float /\
  pb (Strip.white 4 1) = 1%float.
Proof.
  apply (emitted_vertices_white Strip.mesh Strip.seamEdges Strip.options
           [Strip.left; Strip.right] Strip.right (Strip.white 4 1)).
  - vm_compute. reflexivity.
  - simpl. auto.
  - simpl. auto.
Defined.

End KerfClaims.

(* ----------------------------------------------------------------- *)
(** ** The work-list loop: termination within its fuel, and what it visits *)

Section WorklistFacts.
Import Worklist.

Lemma mem_true (x : nat) (l : list nat) : mem x l = true <-> In x l.
Proof. apply has_true. Qed.

Lemma mem_false (x : nat) (l : list nat) : mem x l = false <-> ~ In x l.
Proof. apply has_false. Qed.

Lemma take_perm (fifo : bool) (q r : list nat) (x : nat) :
  take fifo q = Some (x, r) -> Permutation q (x :: r).
Proof.
  unfold take. destruct fifo.
  - destruct q as [|y q']; intros H; inversion H. reflexivity.
  - destruct (rev q) as [|y r'] eqn:Hrev; intros H; inversion H; subst.
    rewrite <- (rev_involutive q), Hrev. simpl.
    symmetry. apply Permutation_cons_append.
Qed.

Lemma take_none (fifo : bool) (q : list nat) : take fifo q = None -> q = [].
Proof.
  unfold take. destruct fifo.
  - destruct q; [reflexivity|discriminate].
  - destruct (rev q) eqn:Hrev; [|discriminate]. intros _.
    rewrite <- (rev_involutive q), Hrev. reflexivity.
Qed.

(** What the inner [for] loop adds: the neighbours not visited before, each
    once, to the queue and to the visited set. *)
Lemma offer_spec (curr : nat) (nexts : list nat) :
  forall st, exists new,
    queue (offer curr nexts st) = queue st ++ new /\
    visited (offer curr nexts st) = rev new ++ visited st /\
    popped (offer curr nexts st) = popped st /\
    NoDup new /\
    forall y, In y new <-> In y nexts /\ ~ In y (visited st).
Proof.
  induction nexts as [|n rest IH]; intros st; simpl.
  - exists []. rewrite app_nil_r. simpl.
    split; [reflexivity|]. split; [reflexivity|]. split; [reflexivity|].
    split; [constructor|]. intros y. tauto.
  - destruct (mem n (visited st)) eqn:Hm.
    + apply mem_true in Hm.
      destruct (IH st) as (new & Hq & Hv & Hp & Hnd & Hin).
      exists new.
      split; [assumption|]. split; [assumption|]. split; [assumption|].
      split; [assumption|]. intros y. rewrite Hin. split.
      * tauto.
      * intros [[->|Hy] Hn]; [contradiction|tauto].
    + apply mem_false in Hm.
      destruct (IH (mkState (n :: visited st) ((n, curr) :: prev st)
                            (queue st ++ [n]) (popped st)))
        as (new & Hq & Hv & Hp & Hnd & Hin).
      simpl in *. exists (n :: new).
      split; [rewrite Hq, <- app_assoc; reflexivity|].
      split; [rewrite Hv; simpl; rewrite <- app_assoc; reflexivity|].
      split; [assumption|].
      split.
      * constructor; [|assumption]. intros Hn. apply Hin in Hn. tauto.
      * intros y. simpl. rewrite Hin. split.
        -- intros [<-|[Hy Hn]]; [tauto|]. tauto.
        -- intros [[->|Hy] Hn]; [now left|].
           destruct (Nat.eq_dec n y) as [->|Hne]; [now left|right]. tauto.
Qed.

Lemma unvisited_cons (u : nat) (U vis : list nat) :
  unvisited (u :: U) vis =
  if mem u vis then unvisited U vis else u :: unvisited U vis.
Proof. unfold unvisited. simpl. destruct (mem u vis); reflexivity. Qed.

Lemma mem_cons (u x : nat) (vis : list nat) :
  mem u (x :: vis) = (u =? x) || mem u vis.
Proof. reflexivity. Qed.

Lemma unvisited_cons_out (U vis : list nat) (x : nat) :
  ~ In x U -> unvisited U (x :: vis) = unvisited U vis.
Proof.
  induction U as [|u U IH]; intros Hx; [reflexivity|].
  rewrite !unvisited_cons, mem_cons, IH by (simpl in Hx; tauto).
  replace (u =? x) with false; [reflexivity|].
  symmetry. apply Nat.eqb_neq. intros ->. simpl in Hx. tauto.
Qed.

Lemma unvisited_cons_in (U vis : list nat) (x : nat) :
  NoDup U -> In x U -> ~ In x vis ->
  S (length (unvisited U (x :: vis))) = length (unvisited U vis).
Proof.
  induction U as [|u U IH]; intros Hnd Hx Hv; [destruct Hx|].
  inversion Hnd as [|? ? Hu HndU]; subst.
  rewrite !unvisited_cons, mem_cons.
  destruct (Nat.eq_dec u x) as [->|Hne].
  - rewrite Nat.eqb_refl. simpl.
    replace (mem x vis) with false by (symmetry; now apply mem_false). simpl.
    now rewrite unvisited_cons_out.
  - destruct Hx as [Hx|Hx]; [contradiction|].
    replace (u =? x) with false by (symmetry; now apply Nat.eqb_neq). simpl.
    destruct (mem u vis); simpl; [now apply IH|].
    f_equal. now apply IH.
Qed.

Lemma unvisited_app (U vis new : list nat) :
  NoDup U -> NoDup new -> incl new U -> (forall y, In y new -> ~ In y vis) ->
  length (unvisited U (rev new ++ vis)) + length new = length (unvisited U vis).
Proof.
  intros HU. revert vis.
  induction new as [|n new IH]; intros vis Hnd Hincl Hout; simpl.
  - lia.
  - inversion Hnd as [|? ? Hn Hnd']; subst.
    rewrite <- app_assoc. simpl.
    assert (H1 : S (length (unvisited U (n :: vis))) = length (unvisited U vis)).
    { apply unvisited_cons_in; [assumption| |].
      - apply Hincl. now left.
      - apply Hout. now left. }
    assert (H2 : length (unvisited U (rev new ++ n :: vis)) + length new
                 = length (unvisited U (n :: vis))).
    { apply IH; [assumption| |].
      - intros y Hy. apply Hincl. now right.
      - intros y Hy [->|Hv]; [contradiction|].
        apply (Hout y); [now right|assumption]. }
    lia.
Qed.

Variable succ : nat -> list nat.
Variable fifo : bool.
Variable stop : nat -> bool.
Variable U : list nat.
Hypothesis U_nodup : NoDup U.
Hypothesis U_closed : forall x y, In y (succ x) -> In y U.

Lemma offer_budget (curr : nat) (st : State) :
  budget U (offer curr (succ curr) st) = budget U st.
Proof.
  destruct (offer_spec curr (succ curr) st) as (new & Hq & Hv & _ & Hnd & Hin).
  unfold budget. rewrite Hq, Hv, length_app.
  rewrite <- (unvisited_app U (visited st) new); auto.
  - lia.
  - intros y Hy. apply Hin in Hy. apply (U_closed curr). tauto.
  - intros y Hy. apply Hin in Hy. tauto.
Qed.

(** With a fuel of at least the budget the loop ends because its queue is
    empty or because it returned early: more fuel changes nothing. *)
Lemma run_fuel_enough (fuel : nat) :
  forall st k, budget U st <= fuel ->
    run succ fifo stop (fuel + k) st = run succ fifo stop fuel st.
Proof.
  induction fuel as [|fuel IH]; intros st k Hb.
  - unfold budget in Hb. assert (Hq : queue st = []) by (apply length_zero_iff_nil; lia).
    simpl. destruct k; simpl; [reflexivity|].
    rewrite Hq. unfold take. destruct fifo; reflexivity.
  - simpl. destruct (take fifo (queue st)) as [[curr rest]|] eqn:Ht; [|reflexivity].
    destruct (stop curr); [reflexivity|].
    apply IH. rewrite offer_budget. unfold budget in *. simpl.
    apply take_perm, Permutation_length in Ht. simpl in Ht. lia.
Qed.

Lemma run_done (fuel : nat) :
  forall st, budget U st <= fuel ->
    snd (run succ fifo stop fuel st) = None ->
    queue (fst (run succ fifo stop fuel st)) = [].
Proof.
  induction fuel as [|fuel IH]; intros st Hb.
  - unfold budget in Hb. simpl. intros _. apply length_zero_iff_nil. lia.
  - simpl. destruct (take fifo (queue st)) as [[curr rest]|] eqn:Ht.
    + destruct (stop curr); [discriminate|].
      apply IH. rewrite offer_budget. unfold budget in *. simpl.
      apply take_perm, Permutation_length in Ht. simpl in Ht. lia.
    + intros _. now apply (take_none fifo).
Qed.

End WorklistFacts.

Section WorklistReach.
Import Worklist.

Variable succ : nat -> list nat.
Variable fifo : bool.

Lemma inv_init (V0 U : list nat) (s : nat) :
  ~ In s V0 -> In s U -> Inv succ V0 U s (mkState (s :: V0) [] [s] []).
Proof.
  intros Hs HU. constructor; simpl.
  - intros x. tauto.
  - constructor; [intros []|constructor].
  - intros x [<-|[]]. assumption.
  - intros x y [].
  - now left.
  - intros x [<-|[]]. assumption.
Qed.

Lemma inv_step (V0 U : list nat) (s : nat) (st : State) (curr : nat) (rest : list nat) :
  (forall x y, In y (succ x) -> In y U) ->
  Inv succ V0 U s st ->
  take fifo (queue st) = Some (curr, rest) ->
  Inv succ V0 U s (offer curr (succ curr)
                (mkState (visited st) (prev st) rest (popped st ++ [curr]))).
Proof.
  intros Hcl [Hvis Hnd Hfresh Hclosed Hstart Hrange] Ht.
  apply take_perm in Ht.
  destruct (offer_spec curr (succ curr)
              (mkState (visited st) (prev st) rest (popped st ++ [curr])))
    as (new & Hq & Hv & Hp & Hndn & Hin).
  simpl in Hq, Hv, Hp, Hin.
  assert (Hperm : Permutation (popped st ++ queue st) ((popped st ++ [curr]) ++ rest)).
  { rewrite <- app_assoc. simpl. apply Permutation_app_head. exact Ht. }
  assert (Hold : forall x, In x (popped st ++ queue st) <->
                           In x ((popped st ++ [curr]) ++ rest)).
  { intros x. split; apply Permutation_in; [assumption|now symmetry]. }
  constructor; rewrite ?Hq, ?Hv, ?Hp.
  - intros x. rewrite app_assoc, !in_app_iff, <- in_rev, Hvis, Hin, Hold, !in_app_iff.
    tauto.
  - rewrite app_assoc. apply NoDup_app.
    + eapply Permutation_NoDup; eassumption.
    + assumption.
    + intros x Hx Hn. apply Hin in Hn. destruct Hn as [_ Hn]. apply Hn.
      apply Hvis. right. now apply Hold.
  - intros x. rewrite app_assoc, in_app_iff. intros [Hx|Hx].
    + apply Hfresh. now apply Hold.
    + apply Hin in Hx. destruct Hx as [_ Hx]. intros H0. apply Hx, Hvis. now left.
  - intros x y Hx Hy. rewrite in_app_iff, <- in_rev.
    apply in_app_iff in Hx as [Hx|[<-|[]]].
    + right. now apply (Hclosed x).
    + destruct (in_dec Nat.eq_dec y (visited st)) as [Hyv|Hyv]; [now right|left].
      apply Hin. tauto.
  - rewrite app_assoc, in_app_iff. left. now apply Hold.
  - intros x. rewrite app_assoc, in_app_iff. intros [Hx|Hx].
    + apply Hrange. now apply Hold.
    + apply Hin in Hx. destruct Hx as [Hx _]. now apply (Hcl curr).
Qed.

Lemma run_inv (V0 U : list nat) (s : nat) (fuel : nat) :
  (forall x y, In y (succ x) -> In y U) ->
  forall st, Inv succ V0 U s st ->
    Inv succ V0 U s (fst (run succ fifo (fun _ => false) fuel st)).
Proof.
  intros Hcl. induction fuel as [|fuel IH]; intros st HI; simpl; [assumption|].
  destruct (take fifo (queue st)) as [[curr rest]|] eqn:Ht; [|assumption].
  apply IH. now apply inv_step.
Qed.

(** A traversal started at [s], with [V0] visited beforehand and a fuel of
    the size of the universe [U], ends with an empty queue; the nodes it
    took from the queue are distinct, lie in [U] and outside [V0], include
    [s], and every neighbour of one of them is one of them or in [V0]. *)
Lemma traversal_complete (V0 U : list nat) (s : nat) :
  NoDup U -> (forall x y, In y (succ x) -> In y U) ->
  ~ In s V0 -> In s U ->
  let st := fst (run succ fifo (fun _ => false) (length U)
                     (mkState (s :: V0) [] [s] [])) in
  queue st = [] /\
  NoDup (popped st) /\
  In s (popped st) /\
  (forall x, In x (popped st) -> In x U /\ ~ In x V0) /\
  (forall x, In x (visited st) <-> In x V0 \/ In x (popped st)) /\
  (forall x y, In x (popped st) -> In y (succ x) -> In y V0 \/ In y (popped st)).
Proof.
  intros HU Hcl Hs HsU st.
  assert (Hb : budget U (mkState (s :: V0) [] [s] []) <= length U).
  { unfold budget. simpl.
    assert (H := unvisited_cons_in U V0 s HU HsU Hs).
    assert (H' : length (unvisited U V0) <= length U) by apply filter_length_le.
    lia. }
  assert (Hq : queue st = []).
  { apply (run_done succ fifo (fun _ => false) U HU Hcl); [exact Hb|].
    clear. generalize (mkState (s :: V0) [] [s] []).
    induction (length U) as [|n IH]; intros st0; simpl; [reflexivity|].
    destruct (take fifo (queue st0)) as [[c r]|]; [apply IH|reflexivity]. }
  destruct (run_inv V0 U s (length U) Hcl _ (inv_init V0 U s Hs HsU))
    as [Hvis Hnd Hfresh Hclosed Hstart Hrange].
  fold st in Hvis, Hnd, Hfresh, Hclosed, Hstart, Hrange.
  rewrite Hq, app_nil_r in *.
  split; [reflexivity|]. split; [assumption|]. split; [assumption|].
  split; [intros x Hx; split; [now apply Hrange|now apply Hfresh]|].
  split; [exact Hvis|].
  intros x y Hx Hy. apply Hvis. now apply (Hclosed x).
Qed.

End WorklistReach.

(* ----------------------------------------------------------------- *)
(** ** The face adjacency table and the flood *)

Section FloodFacts.
Import Geometry FloodSegmenter.

Lemma get_in {K V : Type} (eqb : K -> K -> bool) (k : K) (m : list (K * V)) (v : V) :
  JS.get eqb k m = Some v -> exists k', In (k', v) m.
Proof.
  induction m as [|[k0 v0] rest IH]; simpl; [discriminate|].
  destruct (eqb k k0).
  - intros H. inversion H; subst. exists k0. now left.
  - intros H. destruct (IH H) as (k' & Hk). exists k'. now right.
Qed.

Lemma set_in {K V : Type} (eqb : K -> K -> bool) (k : K) (v : V) (m : list (K * V)) :
  forall k0 v0, In (k0, v0) (JS.set eqb k v m) -> In (k0, v0) m \/ v0 = v.
Proof.
  induction m as [|[k1 v1] rest IH]; simpl; intros k0 v0 H.
  - destruct H as [H|[]]. inversion H. now right.
  - destruct (eqb k k1); simpl in H.
    + destruct H as [H|H]; [inversion H; now right|left; now right].
    + destruct H as [H|H]; [left; now left|].
      destruct (IH _ _ H); [left; now right|now right].
Qed.

Lemma recordFace_below (n faceIdx : nat) (m : list (EdgeKey * list nat)) (k : EdgeKey) :
  faceIdx < n -> facesBelow n m -> facesBelow n (recordFace faceIdx m k).
Proof.
  intros Hf Hm k0 infos f Hin Hfi. unfold recordFace in Hin.
  destruct (JS.get keyEqb k m) as [old|] eqn:Hget.
  - apply set_in in Hin as [Hin | ->]; [now apply (Hm k0 infos)|].
    apply in_app_iff in Hfi as [Hfi|[<-|[]]]; [|assumption].
    apply get_in in Hget as (k' & Hk'). now apply (Hm k' old).
  - apply set_in in Hin as [Hin | ->]; [now apply (Hm k0 infos)|].
    destruct Hfi as [<-|[]]. assumption.
Qed.

Lemma edgeToFacesFrom_below (n : nat) (fs : list (list nat)) :
  forall base m, base + length fs <= n -> facesBelow n m ->
    facesBelow n (edgeToFacesFrom base fs m).
Proof.
  induction fs as [|face rest IH]; simpl; intros base m Hn Hm; [assumption|].
  apply IH; [lia|].
  generalize (faceKeys face). intros keys. revert m Hm.
  induction keys as [|k keys IHk]; simpl; intros m Hm; [assumption|].
  apply IHk. apply recordFace_below; [lia|assumption].
Qed.

Lemma pushAt_below (n i : nat) (nb : Neighbor) (adj : list (list Neighbor)) :
  neighborIdx nb < n -> neighborsBelow n adj -> neighborsBelow n (JS.pushAt i nb adj).
Proof.
  intros Hnb. revert i. induction adj as [|l rest IH]; intros i Hadj; simpl.
  - destruct i; exact Hadj.
  - destruct i as [|i].
    + intros l0 nb0 [<-|Hl] Hin.
      * apply in_app_iff in Hin as [Hin|[<-|[]]]; [|assumption].
        apply (Hadj l); [now left|assumption].
      * apply (Hadj l0); [now right|assumption].
    + intros l0 nb0 [<-|Hl] Hin.
      * apply (Hadj l); [now left|assumption].
      * assert (Hrest : neighborsBelow n rest)
          by (intros l1 nb1 Hl1; apply Hadj; now right).
        exact (IH i Hrest l0 nb0 Hl Hin).
Qed.

Lemma buildFaceAdjacency_below (mesh : Mesh) :
  neighborsBelow (length (faces mesh)) (buildFaceAdjacency mesh).
Proof.
  unfold buildFaceAdjacency.
  assert (Hm : facesBelow (length (faces mesh)) (edgeToFacesFrom 0 (faces mesh) []))
    by (apply edgeToFacesFrom_below; [simpl; lia|intros k infos f []]).
  assert (Hadj : neighborsBelow (length (faces mesh)) (repeat [] (length (faces mesh)))).
  { intros l nb Hl Hin. apply repeat_spec in Hl. subst l. destruct Hin. }
  revert Hm Hadj.
  generalize (repeat (@nil Neighbor) (length (faces mesh))).
  generalize (edgeToFacesFrom 0 (faces mesh) []).
  generalize (length (faces mesh)). intros n m.
  induction m as [|[k infos] m IH]; simpl; intros adj Hm Hadj; [assumption|].
  apply IH.
  - intros k0 i0 f Hin. apply (Hm k0 i0 f). now right.
  - destruct infos as [|f1 [|f2 [|f3 infos]]]; try assumption.
    apply pushAt_below; [simpl; apply (Hm k [f1; f2]); simpl; auto|].
    apply pushAt_below; [simpl; apply (Hm k [f1; f2]); simpl; auto|assumption].
Qed.

Lemma openNeighbors_below (mesh : Mesh) (seamEdges : list EdgeKey) (f g : nat) :
  In g (openNeighbors (buildFaceAdjacency mesh) seamEdges f) ->
  In g (seq 0 (length (faces mesh))).
Proof.
  unfold openNeighbors. intros H.
  apply in_map_iff in H as (nb & <- & Hnb). apply filter_In in Hnb as [Hnb _].
  apply in_seq. split; [lia|]. simpl.
  destruct (nth_in_or_default f (buildFaceAdjacency mesh) []) as [Hl|Hd].
  - now apply (buildFaceAdjacency_below mesh _ nb Hl).
  - rewrite Hd in Hnb. destruct Hnb.
Qed.

Lemma collectFrom_no_seams (fs : list (list nat)) :
  forall base, collectFrom [] base fs = [].
Proof.
  induction fs as [|face rest IH]; intros base; [reflexivity|].
  cbn [collectFrom].
  assert (H : existsb (fun k => keyHas k []) (faceKeys face) = false)
    by (induction (faceKeys face); simpl; auto).
  rewrite H. apply IH.
Qed.

Lemma openNeighbors_no_seams (adj : list (list Neighbor)) (f : nat) :
  openNeighbors adj [] f = map neighborIdx (nth f adj []).
Proof.
  unfold openNeighbors. f_equal.
  induction (nth f adj []) as [|nb l IH]; [reflexivity|].
  cbn [filter keyHas existsb negb]. now f_equal.
Qed.

Lemma floodFrom_all_visited adj seamEdges fuel (starts : list nat) :
  forall visited islands,
    (forall s, In s starts -> In s visited) ->
    floodFrom adj seamEdges fuel starts visited islands = islands.
Proof.
  induction starts as [|s rest IH]; simpl; intros visited islands H; [reflexivity|].
  replace (Worklist.mem s visited) with true
    by (symmetry; apply mem_true; apply H; now left).
  apply IH. intros s' Hs'. apply H. now right.
Qed.

End FloodFacts.

Section FloodTermination.
Import Geometry FloodSegmenter.

(** The fuel [floodFillExcludingBoundary] gives each flood (the number of
    faces) is enough for every mesh: with more fuel the islands are the
    same. *)
Lemma floodFrom_fuel_enough (mesh : Mesh) (seamEdges : list EdgeKey) (k : nat)
      (starts : list nat) :
  incl starts (seq 0 (length (faces mesh))) ->
  forall visited islands,
    floodFrom (buildFaceAdjacency mesh) seamEdges (length (faces mesh) + k)
              starts visited islands
    = floodFrom (buildFaceAdjacency mesh) seamEdges (length (faces mesh))
                starts visited islands.
Proof.
  set (n := length (faces mesh)). set (adj := buildFaceAdjacency mesh).
  induction starts as [|s rest IH]; intros Hin visited islands; simpl; [reflexivity|].
  assert (Hrest : incl rest (seq 0 n)) by (intros x Hx; apply Hin; now right).
  destruct (Worklist.mem s visited) eqn:Hm; [now apply IH|].
  apply mem_false in Hm.
  assert (Hs : In s (seq 0 n)) by (apply Hin; now left).
  rewrite (run_fuel_enough (openNeighbors adj seamEdges) false (fun _ => false)
             (seq 0 n) (seq_NoDup n 0)).
  - now apply IH.
  - intros x y. apply openNeighbors_below.
  - unfold Worklist.budget. simpl.
    assert (H := unvisited_cons_in (seq 0 n) visited s (seq_NoDup n 0) Hs Hm).
    assert (H' : length (Worklist.unvisited (seq 0 n) visited) <= length (seq 0 n))
      by apply filter_length_le.
    rewrite length_seq in H'. lia.
Qed.

End FloodTermination.

(* ----------------------------------------------------------------- *)
(** ** The flood without barrier edges *)

Section FloodNoBarrier.
Import Geometry FloodSegmenter.

Lemma keepClean_all mesh red (fis : list nat) :
  (forall f, In f fis ->
     exists face, nth_error (faces mesh) f = Some face /\
                  existsb (fun vIdx => JS.has vIdx red) face = false) ->
  JS.mapM (keepClean mesh red) fis = JS.Ok (map (fun f => [f]) fis).
Proof.
  induction fis as [|f rest IH]; simpl; intros H; [reflexivity|].
  destruct (H f (or_introl eq_refl)) as (face & Hn & Hr).
  unfold keepClean at 1. unfold JS.read. rewrite Hn. simpl. rewrite Hr. simpl.
  rewrite IH; [reflexivity|]. intros f' Hf'. apply H. now right.
Qed.

Lemma concat_singletons {A : Type} (l : list A) : concat (map (fun a => [a]) l) = l.
Proof. induction l as [|a l IH]; simpl; [reflexivity|now rewrite IH]. Qed.

Lemma collectUsed_inv mesh (clean : list nat) :
  forall used v,
    In v (fold_left (collectUsed mesh) clean used) ->
    In v used \/ exists fi, In fi clean /\ In v (nth fi (faces mesh) []).
Proof.
  induction clean as [|fi rest IH]; simpl; intros used v H; [now left|].
  apply IH in H as [H|(fj & Hfj & Hv)].
  - unfold collectUsed in H.
    assert (Hg : forall face acc, In v (fold_left (fun a w => JS.add w a) face acc) ->
                                  In v acc \/ In v face).
    { clear. induction face as [|w face IHf]; simpl; intros acc H; [now left|].
      apply IHf in H as [H|H]; [|right; now right].
      apply in_add in H as [->|H]; [right; now left|now left]. }
    apply Hg in H as [H|H]; [now left|right]. exists fi. split; [now left|assumption].
  - right. exists fj. split; [now right|assumption].
Qed.

(** Without red vertices on its faces, an island of valid faces of a mesh
    whose faces name existing vertices becomes a sub-mesh of all its faces. *)
Lemma buildSubMeshWithKerf_clean mesh red (fis : list nat) :
  fis <> [] ->
  (forall f, In f fis -> f < length (faces mesh)) ->
  (forall face v, In face (faces mesh) -> In v face -> v < length (vertices mesh)) ->
  (forall face v, In face (faces mesh) -> In v face -> JS.has v red = false) ->
  exists subMesh,
    buildSubMeshWithKerf mesh fis red = JS.Ok (Some subMesh) /\
    originalFaceIndices subMesh = fis /\
    length (subFaces subMesh) = length fis.
Proof.
  intros Hne Hrange Hwf Hred.
  assert (Hface : forall f, In f fis -> exists face,
             nth_error (faces mesh) f = Some face /\ In face (faces mesh)).
  { intros f Hf. destruct (nth_error (faces mesh) f) as [face|] eqn:Hn.
    - exists face. split; [reflexivity|]. eapply nth_error_In; eassumption.
    - apply nth_error_None in Hn. specialize (Hrange f Hf). lia. }
  assert (Hvs : exists vs, JS.mapM (whiteVertex mesh)
                             (fold_left (collectUsed mesh) fis []) = JS.Ok vs).
  { apply mapM_total. intros v Hv.
    apply collectUsed_inv in Hv as [[]|(fi & Hfi & Hv)].
    destruct (Hface fi Hfi) as (face & Hn & Hin).
    rewrite (nth_error_nth _ _ _ Hn) in Hv.
    unfold whiteVertex, JS.read.
    destruct (nth_error (vertices mesh) v) as [vx|] eqn:Hvx; simpl; [eauto|].
    apply nth_error_None in Hvx. specialize (Hwf face v Hin Hv). lia. }
  destruct Hvs as (vs & Hvs).
  unfold buildSubMeshWithKerf.
  rewrite keepClean_all.
  - cbn [JS.bind]. rewrite concat_singletons.
    destruct fis as [|f0 frest] eqn:Hfis; [congruence|]. rewrite <- Hfis in *.
    rewrite Hvs. cbn [JS.bind]. eexists. split; [reflexivity|]. simpl.
    split; [reflexivity|apply length_map].
  - intros f Hf. destruct (Hface f Hf) as (face & Hn & Hin).
    exists face. split; [assumption|].
    destruct (existsb (fun vIdx => JS.has vIdx red) face) eqn:He; [|reflexivity].
    apply existsb_exists in He as (v & Hv & Hr).
    rewrite (Hred face v Hin Hv) in Hr. discriminate.
Qed.

Lemma islandRedVertices_total mesh red (fis : list nat) :
  (forall f, In f fis -> f < length (faces mesh)) ->
  exists reds, islandRedVertices mesh red fis = JS.Ok reds.
Proof.
  intros Hrange. unfold islandRedVertices.
  destruct (mapM_total (JS.read (faces mesh)) fis) as (fs & ->); [|simpl; eauto].
  intros f Hf. unfold JS.read.
  destruct (nth_error (faces mesh) f) eqn:Hn; [eauto|].
  apply nth_error_None in Hn. specialize (Hrange f Hf). lia.
Qed.

End FloodNoBarrier.

(* ----------------------------------------------------------------- *)
(** ** The adjacency table has every pair of faces across an edge *)

Section AdjacencyComplete.
Import Geometry FloodSegmenter.

Lemma length_pushAt {A : Type} (x : A) (xs : list (list A)) :
  forall i, length (JS.pushAt i x xs) = length xs.
Proof.
  induction xs as [|l rest IH]; intros i; [destruct i; reflexivity|].
  destruct i; simpl; [reflexivity|now rewrite IH].
Qed.

Lemma get_key_eq (k : EdgeKey) (m : list (EdgeKey * list nat)) (v : list nat) :
  JS.get keyEqb k m = Some v -> In (k, v) m.
Proof.
  induction m as [|[k' v'] rest IH]; simpl; [discriminate|].
  destruct (keyEqb k k') eqn:E.
  - intros H. inversion H; subst. left.
    unfold keyEqb in E. apply andb_prop in E as [E1 E2].
    apply Nat.eqb_eq in E1, E2. destruct k, k'. simpl in *. now subst.
  - intros H. right. now apply IH.
Qed.

Lemma keyEqb_eq (k k' : EdgeKey) : keyEqb k k' = true <-> k = k'.
Proof.
  destruct k as [a b], k' as [c d]. unfold keyEqb. simpl.
  rewrite andb_true_iff, !Nat.eqb_eq. split; [intros [-> ->]; reflexivity|].
  intros H. inversion H. auto.
Qed.

Lemma keyEqb_edgeKey (a b x y : nat) :
  keyEqb (edgeKey a b) (edgeKey x y)
  = ((x =? a) && (y =? b)) || ((x =? b) && (y =? a)).
Proof.
  unfold keyEqb, edgeKey.
  destruct (a <? b) eqn:Hab, (x <? y) eqn:Hxy; simpl;
    destruct (x =? a) eqn:E1, (y =? b) eqn:E2, (x =? b) eqn:E3, (y =? a) eqn:E4;
    rewrite ?(Nat.eqb_sym a x), ?(Nat.eqb_sym b y), ?(Nat.eqb_sym a y), ?(Nat.eqb_sym b x),
            ?E1, ?E2, ?E3, ?E4; simpl; try reflexivity;
    exfalso;
    repeat match goal with
           | H : (_ =? _) = true |- _ => apply Nat.eqb_eq in H
           | H : (_ =? _) = false |- _ => apply Nat.eqb_neq in H
           | H : (_ <? _) = true |- _ => apply Nat.ltb_lt in H
           | H : (_ <? _) = false |- _ => apply Nat.ltb_ge in H
           end; lia.
Qed.

Lemma extend_app (old : option (list nat)) (l1 l2 : list nat) :
  extend (extend old l1) l2 = extend old (l1 ++ l2).
Proof.
  destruct l1 as [|x l1]; [reflexivity|].
  destruct l2 as [|y l2]; simpl; [now rewrite app_nil_r|].
  now rewrite <- app_assoc.
Qed.

Lemma get_set_key (k k' : EdgeKey) (v : list nat) (m : list (EdgeKey * list nat)) :
  JS.get keyEqb k (JS.set keyEqb k' v m)
  = if keyEqb k k' then Some v else JS.get keyEqb k m.
Proof.
  induction m as [|[k0 v0] rest IH]; simpl.
  - reflexivity.
  - destruct (keyEqb k' k0) eqn:E0; simpl.
    + apply keyEqb_eq in E0. subst k0. destruct (keyEqb k k'); reflexivity.
    + destruct (keyEqb k k0) eqn:E1.
      * apply keyEqb_eq in E1. subst k0.
        destruct (keyEqb k k') eqn:E2; [|reflexivity].
        apply keyEqb_eq in E2. subst k'.
        assert (keyEqb k k = true) by now apply keyEqb_eq. congruence.
      * exact IH.
Qed.

Lemma get_recordFace (k k' : EdgeKey) (i : nat) (m : list (EdgeKey * list nat)) :
  JS.get keyEqb k (recordFace i m k')
  = extend (JS.get keyEqb k m) (if keyEqb k k' then [i] else []).
Proof.
  unfold recordFace.
  destruct (JS.get keyEqb k' m) as [infos|] eqn:Hg; rewrite get_set_key;
    destruct (keyEqb k k') eqn:E; try reflexivity;
    apply keyEqb_eq in E; subst k'; rewrite Hg; reflexivity.
Qed.

Lemma get_recordFaces (k : EdgeKey) (i : nat) (ks : list EdgeKey) :
  forall m,
    JS.get keyEqb k (fold_left (recordFace i) ks m)
    = extend (JS.get keyEqb k m) (repeat i (length (filter (keyEqb k) ks))).
Proof.
  induction ks as [|k' ks IH]; intros m; simpl; [reflexivity|].
  rewrite IH, get_recordFace, extend_app.
  destruct (keyEqb k k'); reflexivity.
Qed.

Lemma corners_of_key (a b : nat) (face : list nat) :
  length (filter (keyEqb (edgeKey a b)) (faceKeys face)) = cornersOn a b face.
Proof.
  unfold cornersOn, faceKeys. generalize (faceEdges face). intros es.
  induction es as [|e es IH]; simpl; [reflexivity|].
  rewrite keyEqb_edgeKey.
  destruct ((fst e =? a) && (snd e =? b) || (fst e =? b) && (snd e =? a)); simpl;
    now rewrite IH.
Qed.

Lemma get_edgeToFacesFrom (a b : nat) (fs : list (list nat)) :
  forall base m,
    JS.get keyEqb (edgeKey a b) (edgeToFacesFrom base fs m)
    = extend (JS.get keyEqb (edgeKey a b) m) (facesOnEdge a b base fs).
Proof.
  induction fs as [|face rest IH]; intros base m; simpl; [reflexivity|].
  now rewrite IH, get_recordFaces, extend_app, corners_of_key.
Qed.

Lemma facesOnEdge_range (a b : nat) (fs : list (list nat)) :
  forall base f, In f (facesOnEdge a b base fs) -> base <= f < base + length fs.
Proof.
  induction fs as [|face rest IH]; intros base f; simpl; [intros []|].
  intros H. apply in_app_iff in H as [H|H].
  - apply repeat_spec in H. lia.
  - apply IH in H. lia.
Qed.

Lemma pushAt_keeps {A : Type} (i j : nat) (x y : A) (xs : list (list A)) :
  In y (nth j xs []) -> In y (nth j (JS.pushAt i x xs) []).
Proof.
  revert i j. induction xs as [|l rest IH]; intros i j H; [now destruct i|].
  destruct i as [|i], j as [|j]; simpl in *; auto.
  apply in_app_iff. now left.
Qed.

Lemma pushAt_has {A : Type} (x : A) (xs : list (list A)) :
  forall i, i < length xs -> In x (nth i (JS.pushAt i x xs) []).
Proof.
  induction xs as [|l rest IH]; intros i Hi; [simpl in Hi; lia|].
  destruct i as [|i]; simpl.
  - apply in_app_iff. right. now left.
  - apply IH. simpl in Hi. lia.
Qed.

Lemma linkFaces_keeps (adj : list (list Neighbor)) (entry : EdgeKey * list nat)
      (j : nat) (nb : Neighbor) :
  In nb (nth j adj []) -> In nb (nth j (linkFaces adj entry) []).
Proof.
  intros H. destruct entry as [k [|f1 [|f2 [|f3 infos]]]]; simpl; try assumption.
  now apply pushAt_keeps, pushAt_keeps.
Qed.

Lemma linkFaces_length (adj : list (list Neighbor)) (entry : EdgeKey * list nat) :
  length (linkFaces adj entry) = length adj.
Proof.
  destruct entry as [k [|f1 [|f2 [|f3 infos]]]]; simpl; try reflexivity.
  now rewrite !length_pushAt.
Qed.

Lemma linkAll_keeps (table : list (EdgeKey * list nat)) :
  forall adj j nb, In nb (nth j adj []) -> In nb (nth j (fold_left linkFaces table adj) []).
Proof.
  induction table as [|entry table IH]; intros adj j nb H; simpl; [assumption|].
  apply IH. now apply linkFaces_keeps.
Qed.

Lemma linkAll_complete (table : list (EdgeKey * list nat)) (k : EdgeKey) (f1 f2 : nat) :
  forall adj, In (k, [f1; f2]) table -> f1 < length adj -> f2 < length adj ->
    (exists nb, In nb (nth f1 (fold_left linkFaces table adj) []) /\ neighborIdx nb = f2) /\
    (exists nb, In nb (nth f2 (fold_left linkFaces table adj) []) /\ neighborIdx nb = f1).
Proof.
  induction table as [|entry table IH]; intros adj Hin H1 H2; [destruct Hin|].
  destruct Hin as [->|Hin].
  - cbn [fold_left linkFaces]. split.
    + exists {| neighborIdx := f2; sharedEdge := k |}. split; [|reflexivity].
      apply linkAll_keeps, pushAt_keeps. now apply pushAt_has.
    + exists {| neighborIdx := f1; sharedEdge := k |}. split; [|reflexivity].
      apply linkAll_keeps, pushAt_has. now rewrite length_pushAt.
  - cbn [fold_left]. apply IH; [assumption| |]; now rewrite linkFaces_length.
Qed.

(** The adjacency table is complete: two faces across an edge that no
    third corner has are in each other's table. *)
Lemma buildFaceAdjacency_complete (mesh : Mesh) (f g : nat) :
  acrossEdge (faces mesh) f g ->
  exists nb, In nb (nth f (buildFaceAdjacency mesh) []) /\ neighborIdx nb = g.
Proof.
  intros (a & b & H).
  assert (Hget : forall l, facesOnEdge a b 0 (faces mesh) = l -> l <> [] ->
            In (edgeKey a b, l) (edgeToFacesFrom 0 (faces mesh) [])).
  { intros l Hl Hne. apply get_key_eq. rewrite get_edgeToFacesFrom, Hl. simpl.
    destruct l; [congruence|reflexivity]. }
  assert (Hr : forall x, In x (facesOnEdge a b 0 (faces mesh)) -> x < length (faces mesh)).
  { intros x Hx. apply facesOnEdge_range in Hx. lia. }
  unfold buildFaceAdjacency.
  destruct H as [H|H]; rewrite H in Hr.
  - apply (linkAll_complete _ (edgeKey a b) f g).
    + apply Hget; [assumption|discriminate].
    + rewrite repeat_length. apply Hr. now left.
    + rewrite repeat_length. apply Hr. right. now left.
  - apply (linkAll_complete _ (edgeKey a b) g f).
    + apply Hget; [assumption|discriminate].
    + rewrite repeat_length. apply Hr. now left.
    + rewrite repeat_length. apply Hr. right. now left.
Qed.

Lemma edgeConnected_connectedTo (mesh : Mesh) (s f : nat) :
  edgeConnected (faces mesh) s f -> connectedTo (buildFaceAdjacency mesh) s f.
Proof.
  induction 1 as [|f g _ IH Hfg]; [constructor|].
  destruct (buildFaceAdjacency_complete mesh f g Hfg) as (nb & Hnb & <-).
  now apply (connected_step _ _ f nb).
Qed.

End AdjacencyComplete.

Section FloodClaims.
Import Geometry FloodSegmenter.

(** Without barrier edges, the flood from face 0 of a connected mesh is one
    island, a permutation of all the faces. *)
Lemma flood_connected_one_island (mesh : Mesh) :
  0 < length (faces mesh) ->
  (forall f, f < length (faces mesh) -> connectedTo (buildFaceAdjacency mesh) 0 f) ->
  exists island,
    floodFillExcludingBoundary mesh (buildFaceAdjacency mesh) [] [] = [island] /\
    Permutation island (seq 0 (length (faces mesh))).
Proof.
  intros Hpos Hconn.
  set (n := length (faces mesh)) in *. set (adj := buildFaceAdjacency mesh) in *.
  unfold floodFillExcludingBoundary. fold n.
  destruct n as [|n'] eqn:Hn; [lia|]. rewrite <- Hn in *.
  assert (Hseq : seq 0 n = 0 :: seq 1 n') by (rewrite Hn; reflexivity).
  rewrite Hseq. cbn [floodFrom Worklist.mem existsb].
  assert (H0 : In 0 (seq 0 n)) by (rewrite Hseq; now left).
  destruct (traversal_complete (openNeighbors adj []) false [] (seq 0 n) 0
              (seq_NoDup n 0) (fun x y => openNeighbors_below mesh [] x y)
              (fun H => H) H0)
    as (Hq & Hnd & Hstart & Hrange & Hvis & Hclosed).
  rewrite length_seq in Hq, Hnd, Hstart, Hrange, Hvis, Hclosed.
  set (st := fst (Worklist.run (openNeighbors adj []) false (fun _ => false) n
                    (Worklist.mkState [0] [] [0] []))) in *.
  assert (Hall : forall f, connectedTo adj 0 f -> In f (Worklist.popped st)).
  { induction 1 as [|f nb _ IH Hnb]; [assumption|].
    destruct (Hclosed f (neighborIdx nb) IH) as [[]|H]; [|assumption].
    rewrite openNeighbors_no_seams. now apply in_map. }
  assert (Hperm : Permutation (Worklist.popped st) (seq 0 n)).
  { apply NoDup_Permutation; [assumption|apply seq_NoDup|].
    intros f. split; [intros Hf; now apply Hrange|].
    intros Hf. apply Hall, Hconn. apply in_seq in Hf. lia. }
  assert (Hlen : (0 <? length (Worklist.popped st)) = true).
  { apply Nat.ltb_lt. rewrite (Permutation_length Hperm), length_seq. lia. }
  rewrite Hlen. rewrite floodFrom_all_visited.
  - exists (Worklist.popped st). split; [reflexivity|]. rewrite <- Hseq. exact Hperm.
  - intros s Hs. apply Hvis. right. apply Hall, Hconn.
    apply in_seq in Hs. lia.
Qed.

(** C7 (as amended): without barrier edges, a mesh that has at least one
    and at least [minFaces] faces, whose faces name existing vertices and
    no red vertex, and every face of which is reached from face 0 through
    faces that are pairwise on the two sides of an edge that no other face
    corner has, is returned as exactly one patch made of all its faces. *)
Theorem flood_without_barriers (mesh : Mesh) (o : Options) :
  0 < length (faces mesh) ->
  minFaces o <= length (faces mesh) ->
  (forall face v, In face (faces mesh) -> In v face -> v < length (vertices mesh)) ->
  (forall face v, In face (faces mesh) -> In v face ->
     JS.has v (redVertices o) = false) ->
  (forall f, f < length (faces mesh) -> edgeConnected (faces mesh) 0 f) ->
  exists p,
    segmentWithSeams mesh [] o = JS.Ok [p] /\
    Permutation (originalFaceIndices p) (seq 0 (length (faces mesh))) /\
    length (subFaces p) = length (faces mesh).
Proof.
  intros Hpos Hmin Hwf Hred Hedge.
  assert (Hconn : forall f, f < length (faces mesh) ->
                            connectedTo (buildFaceAdjacency mesh) 0 f)
    by (intros f Hf; apply edgeConnected_connectedTo, Hedge, Hf).
  destruct (flood_connected_one_island mesh Hpos Hconn) as (island & Hflood & Hperm).
  assert (Hlen : length island = length (faces mesh))
    by (rewrite (Permutation_length Hperm); apply length_seq).
  assert (Hvalid : validIslands mesh [] o = [island]).
  { unfold validIslands, collectBoundaryFaces. rewrite collectFrom_no_seams, Hflood.
    assert (Ha : (if assignBoundaryFaces o && (0 <? length [island])
                  then assignBoundaryFacesByAdjacency (buildFaceAdjacency mesh) [island] []
                  else [island]) = [island])
      by (destruct (assignBoundaryFaces o); reflexivity).
    rewrite Ha. cbn [filter]. rewrite Hlen.
    apply Nat.leb_le in Hmin. now rewrite Hmin. }
  assert (Hrange : forall f, In f island -> f < length (faces mesh)).
  { intros f Hf. apply (Permutation_in _ Hperm), in_seq in Hf. lia. }
  assert (Hne : island <> []).
  { intros ->. simpl in Hlen. lia. }
  destruct (islandRedVertices_total mesh (redVertices o) island Hrange) as (reds & Hreds).
  destruct (buildSubMeshWithKerf_clean mesh (redVertices o) island Hne Hrange Hwf Hred)
    as (sm & Hsm & Horig & Hfaces).
  unfold segmentWithSeams. rewrite Hvalid. cbn [JS.mapM].
  unfold emitIsland. rewrite Hreds, Hsm. cbn [JS.bind].
  rewrite Hfaces, Hlen. apply Nat.leb_le in Hmin. rewrite Hmin. cbn [JS.bind concat app].
  eexists. split; [reflexivity|]. cbn. rewrite Horig, Hfaces.
  split; [assumption|assumption].
Qed.

End FloodClaims.

Section FloodExamples.
Import Geometry FloodSegmenter.

(** C7 (witness): the square split along a diagonal is one patch. *)
Lemma flood_without_barriers_witness :
  exists p,
    segmentWithSeams Quad.mesh [] Quad.options = JS.Ok [p] /\
    Permutation (originalFaceIndices p) (seq 0 (length (faces Quad.mesh))) /\
    length (subFaces p) = length (faces Quad.mesh).
Proof.
  apply (flood_without_barriers Quad.mesh Quad.options).
  - simpl. lia.
  - simpl. lia.
  - intros face v [<-|[<-|[]]] Hv; simpl in *; lia.
  - intros face v _ _. reflexivity.
  - intros f Hf. simpl in Hf.
    destruct f as [|[|f]]; [constructor| |lia].
    apply (edge_step (faces Quad.mesh) 0 0 1).
    + constructor.
    + exists 0, 2. left. reflexivity.
Defined.

(** C7 (counterexample): with no barrier edge, two triangles that share no
    edge come back as two patches, and a mesh smaller than the default
    [minFaces] comes back as no patch at all. *)
Lemma flood_apart_two_patches :
  segmentWithSeams Quad.apart [] Quad.options = JS.Ok [Quad.first; Quad.second] /\
  segmentWithSeams Quad.mesh [] defaultOptions = JS.Ok [].
Proof. split; vm_compute; reflexivity. Qed.

End FloodExamples.

(* ----------------------------------------------------------------- *)
(** ** The segmenter returns on every mesh whose faces name its vertices *)

Section SegmenterTotal.
Import Geometry FloodSegmenter.

Lemma collectFrom_range (seamEdges : list EdgeKey) (fs : list (list nat)) :
  forall base f, In f (collectFrom seamEdges base fs) -> base <= f < base + length fs.
Proof.
  induction fs as [|face rest IH]; intros base f; simpl; [intros []|].
  destruct (existsb _ _).
  - intros [<-|H]; [lia|]. apply IH in H. lia.
  - intros H. apply IH in H. lia.
Qed.

Lemma insertByLength_in {A : Type} (a : list A) (sorted : list (list A)) (x : list A) :
  In x (JS.insertByLength a sorted) <-> x = a \/ In x sorted.
Proof.
  induction sorted as [|b rest IH]; simpl.
  - intuition.
  - destruct (length b <? length a); simpl; [intuition|].
    rewrite IH. intuition.
Qed.

Lemma sortByLengthDesc_in {A : Type} (xs : list (list A)) (x : list A) :
  In x (JS.sortByLengthDesc xs) <-> In x xs.
Proof.
  unfold JS.sortByLengthDesc.
  assert (H : forall acc, In x (fold_left (fun acc a => JS.insertByLength a acc) xs acc)
                          <-> In x xs \/ In x acc).
  { induction xs as [|a rest IH]; intros acc; simpl; [tauto|].
    rewrite IH, insertByLength_in. intuition. }
  rewrite H. simpl. tauto.
Qed.

Lemma floodFrom_range (mesh : Mesh) (seamEdges : list EdgeKey) (starts : list nat) :
  let n := length (faces mesh) in
  incl starts (seq 0 n) ->
  forall visited islands,
    (forall island f, In island islands -> In f island -> f < n) ->
    forall island f,
      In island (floodFrom (buildFaceAdjacency mesh) seamEdges n starts visited islands) ->
      In f island -> f < n.
Proof.
  cbn zeta. set (n := length (faces mesh)).
  induction starts as [|s rest IH]; intros Hin visited islands Hisl; simpl;
    [exact Hisl|].
  assert (Hrest : incl rest (seq 0 n)) by (intros x Hx; apply Hin; now right).
  destruct (Worklist.mem s visited) eqn:Hm; [now apply IH|].
  apply mem_false in Hm.
  assert (Hs : In s (seq 0 n)) by (apply Hin; now left).
  destruct (traversal_complete (openNeighbors (buildFaceAdjacency mesh) seamEdges) false
              visited (seq 0 n) s (seq_NoDup n 0)
              (fun x y => openNeighbors_below mesh seamEdges x y) Hm Hs)
    as (_ & _ & _ & Hrange & _).
  rewrite length_seq in Hrange.
  apply IH; [assumption|].
  intros island f Hi Hf.
  destruct (0 <? length _); [|now apply (Hisl island)].
  apply in_app_iff in Hi as [Hi|[<-|[]]]; [now apply (Hisl island)|].
  apply Hrange in Hf as [Hf _]. apply in_seq in Hf. lia.
Qed.

Lemma pushAt_in {A : Type} (i : nat) (x : A) (xs : list (list A)) (l : list A) (y : A) :
  In l (JS.pushAt i x xs) -> In y l -> y = x \/ exists l0, In l0 xs /\ In y l0.
Proof.
  revert i. induction xs as [|l0 rest IH]; intros i; [destruct i; intros []|].
  destruct i as [|i]; simpl.
  - intros [<-|Hl] Hy.
    + apply in_app_iff in Hy as [Hy|[<-|[]]]; [right; exists l0; auto|now left].
    + right. exists l. auto.
  - intros [<-|Hl] Hy.
    + right. exists l0. auto.
    + destruct (IH i Hl Hy) as [->|(l1 & Hl1 & Hy1)]; [now left|].
      right. exists l1. auto.
Qed.

Lemma assignRounds_range (P : nat -> Prop) adjacency (rounds : nat) :
  forall islands faceToPatch remaining,
    (forall island f, In island islands -> In f island -> P f) ->
    (forall f, In f remaining -> P f) ->
    forall island f,
      In island (assignRounds adjacency rounds islands faceToPatch remaining) ->
      In f island -> P f.
Proof.
  induction rounds as [|rounds IH]; intros islands f2p remaining Hisl Hrem; simpl;
    [exact Hisl|].
  destruct remaining as [|r0 rem0] eqn:Hr; [exact Hisl|]. rewrite <- Hr in *.
  set (toAdd := flat_map _ remaining).
  assert (HtoAdd : forall item, In item toAdd -> P (fst item)).
  { intros item Hitem. unfold toAdd in Hitem.
    apply in_flat_map in Hitem as (faceIdx & Hf & Hitem).
    destruct (bestPatch _); [|destruct Hitem].
    destruct Hitem as [<-|[]]. simpl. now apply Hrem. }
  destruct toAdd as [|t0 trest] eqn:Ht; [exact Hisl|]. rewrite <- Ht in *.
  apply IH.
  - clear IH. revert islands Hisl. clear Ht.
    induction toAdd as [|item items IHi]; intros islands Hisl; simpl; [exact Hisl|].
    apply IHi; [intros it Hit; apply HtoAdd; now right|].
    intros island f Hi Hf.
    destruct (pushAt_in _ _ _ _ _ Hi Hf) as [->|(l0 & Hl0 & Hf0)].
    + apply HtoAdd. now left.
    + now apply (Hisl l0).
  - clear IH Ht HtoAdd. revert Hrem. generalize remaining.
    induction toAdd as [|item items IHi]; intros rem Hrem; simpl; [exact Hrem|].
    apply IHi. intros f Hf. unfold removeFace in Hf.
    apply filter_In in Hf as [Hf _]. now apply Hrem.
Qed.

Lemma validIslands_range (mesh : Mesh) (seamEdges : list EdgeKey) (o : Options) :
  forall island f, In island (validIslands mesh seamEdges o) -> In f island ->
                   f < length (faces mesh).
Proof.
  intros island f Hi Hf. unfold validIslands in Hi.
  apply filter_In in Hi as [Hi _].
  assert (Hb : forall g, In g (collectBoundaryFaces mesh seamEdges) ->
                         g < length (faces mesh)).
  { intros g Hg. apply collectFrom_range in Hg. lia. }
  assert (Hflood : forall isl g,
             In isl (floodFillExcludingBoundary mesh (buildFaceAdjacency mesh) seamEdges
                       (collectBoundaryFaces mesh seamEdges)) ->
             In g isl -> g < length (faces mesh)).
  { intros isl g Hisl Hg. unfold floodFillExcludingBoundary in Hisl.
    apply (proj1 (sortByLengthDesc_in _ _)) in Hisl.
    apply (floodFrom_range mesh seamEdges _ (incl_refl _) _ []
             (fun i0 f0 (H : In i0 []) _ => match H with end) isl g Hisl Hg). }
  destruct (assignBoundaryFaces o && _).
  - unfold assignBoundaryFacesByAdjacency in Hi.
    apply (assignRounds_range (fun g => g < length (faces mesh)) _ _ _ _ _ Hflood Hb
             island f Hi Hf).
  - now apply (Hflood island).
Qed.

Lemma buildSubMeshWithKerf_total mesh red (faceIndices : list nat) :
  (forall f, In f faceIndices -> f < length (faces mesh)) ->
  (forall face v, In face (faces mesh) -> In v face -> v < length (vertices mesh)) ->
  exists built, buildSubMeshWithKerf mesh faceIndices red = JS.Ok built.
Proof.
  intros Hrange Hwf. unfold buildSubMeshWithKerf.
  destruct (mapM_total (keepClean mesh red) faceIndices) as (kept & Hkept).
  { intros f Hf. unfold keepClean, JS.read.
    destruct (nth_error (faces mesh) f) eqn:Hn; simpl; [eauto|].
    apply nth_error_None in Hn. specialize (Hrange f Hf). lia. }
  rewrite Hkept. cbn [JS.bind].
  destruct (concat kept) as [|c0 cs] eqn:Hc; [eauto|]. rewrite <- Hc.
  destruct (mapM_total (whiteVertex mesh) (fold_left (collectUsed mesh) (concat kept) []))
    as (vs & Hvs).
  { intros v Hv. apply collectUsed_inv in Hv as [[]|(fi & Hfi & Hv)].
    destruct (keepClean_in _ _ _ _ Hkept _ Hfi) as (_ & face & Hn & _).
    rewrite (nth_error_nth _ _ _ Hn) in Hv.
    unfold whiteVertex, JS.read.
    destruct (nth_error (vertices mesh) v) eqn:Hvx; simpl; [eauto|].
    apply nth_error_None in Hvx.
    specialize (Hwf face v (nth_error_In _ _ Hn) Hv). lia. }
  rewrite Hvs. cbn [JS.bind]. eauto.
Qed.

(** On a mesh whose faces name existing vertices, [segmentWithSeams]
    returns a list of patches (no read of a missing face or vertex). *)
Theorem segmentWithSeams_total (mesh : Mesh) (seamEdges : list EdgeKey) (o : Options) :
  (forall face v, In face (faces mesh) -> In v face -> v < length (vertices mesh)) ->
  exists patches, segmentWithSeams mesh seamEdges o = JS.Ok patches.
Proof.
  intros Hwf. unfold segmentWithSeams.
  destruct (mapM_total (emitIsland mesh o) (validIslands mesh seamEdges o))
    as (emitted & ->); [|simpl; eauto].
  intros island Hisl.
  assert (Hrange : forall f, In f island -> f < length (faces mesh))
    by (intros f Hf; now apply (validIslands_range mesh seamEdges o island)).
  unfold emitIsland.
  destruct (islandRedVertices_total mesh (redVertices o) island Hrange) as (reds & ->).
  destruct (buildSubMeshWithKerf_total mesh (redVertices o) island Hrange Hwf)
    as (built & ->).
  cbn [JS.bind]. destruct built as [sm|]; [|eauto].
  destruct (minFaces o <=? length (subFaces sm)); eauto.
Qed.

End SegmenterTotal.

(* ----------------------------------------------------------------- *)
(** ** Shelf packing: boxes that overlap *)

Section PackingExamples.
Import Packer.

(** C9 (the code on two inputs): two runs of [arrangePatterns], whose
    header says that it arranges the patterns without overlap, end with
    boxes that overlap.  In the first, the second pattern opens a
    new row at height 5.02, and the difference 5.02 - 1e17 rounds to -1e17:
    the pattern lands at height 0, on top of the first one.  In the second,
    the first pattern is that of a patch whose UVs are all [NaN]: its box is
    (Infinity, -Infinity), the cursor goes to -Infinity, and the two squares
    that follow are both moved to u = -Infinity, at the same height. *)
Lemma packed_boxes_overlap :
  map bounds [Shelf.low; Shelf.high]
  = [Shelf.box 0 1 0 5; Shelf.box 0 4 1e17 100000000000000016] /\
  map bounds (arrangePatternsJS [Shelf.low; Shelf.high])
  = [Shelf.box 0 1 0 5; Shelf.box 0 4 0 16] /\
  overlap (Shelf.box 0 1 0 5) (Shelf.box 0 4 0 16) = true /\
  bounds Shelf.lost
  = Shelf.box PrimFloat.infinity PrimFloat.neg_infinity
              PrimFloat.infinity PrimFloat.neg_infinity /\
  map bounds (arrangePatternsJS [Shelf.lost; Shelf.square 1; Shelf.square 2])
  = [Shelf.box PrimFloat.nan PrimFloat.neg_infinity PrimFloat.nan PrimFloat.neg_infinity;
     Shelf.box PrimFloat.neg_infinity PrimFloat.neg_infinity 0 1;
     Shelf.box PrimFloat.neg_infinity PrimFloat.neg_infinity 0 1] /\
  overlap (Shelf.box PrimFloat.neg_infinity PrimFloat.neg_infinity 0 1)
          (Shelf.box PrimFloat.neg_infinity PrimFloat.neg_infinity 0 1) = true.
Proof. repeat split; vm_compute; reflexivity. Qed.

End PackingExamples.

(* ----------------------------------------------------------------- *)
(** ** Welding a welded mesh *)

Section Welding.
Import Geometry MeshScissor.

Variable tolerance cellSize : float.

Let step := weldStep tolerance cellSize.

(** The merge decision reads the hash and the kept vertices only. *)
Lemma findExisting_ext (w w' : Weld) (v : Vertex) :
  spatialHash w = spatialHash w' -> newVertices w = newVertices w' ->
  findExisting tolerance cellSize w v = findExisting tolerance cellSize w' v.
Proof. unfold findExisting. intros -> ->. reflexivity. Qed.

Lemma weldStep_prefix (w : Weld) (v : Vertex) :
  exists more, newVertices (step w v) = newVertices w ++ more.
Proof.
  unfold step, weldStep. destruct (findExisting tolerance cellSize w v); simpl.
  - exists []. now rewrite app_nil_r.
  - eauto.
Qed.

Lemma weld_prefix (vs : list Vertex) :
  forall w, exists more, newVertices (fold_left step vs w) = newVertices w ++ more.
Proof.
  induction vs as [|v rest IH]; intros w; simpl.
  - exists []. now rewrite app_nil_r.
  - destruct (IH (step w v)) as (more & ->).
    destruct (weldStep_prefix w v) as (more0 & ->).
    exists (more0 ++ more). now rewrite app_assoc.
Qed.

Lemma skipn_exact {A : Type} (l r : list A) : skipn (length l) (l ++ r) = r.
Proof. induction l as [|a l IH]; simpl; [reflexivity|exact IH]. Qed.

Lemma weldStep_cases (w : Weld) (v : Vertex) :
  (exists idx,
      findExisting tolerance cellSize w v = Some idx /\
      spatialHash (step w v) = spatialHash w /\
      newVertices (step w v) = newVertices w /\
      vertexMap (step w v) = vertexMap w ++ [idx]) \/
  (findExisting tolerance cellSize w v = None /\
   spatialHash (step w v) =
     pushCell (getHashKey cellSize v) (length (newVertices w)) (spatialHash w) /\
   newVertices (step w v) = newVertices w ++ [v] /\
   vertexMap (step w v) = vertexMap w ++ [length (newVertices w)]).
Proof.
  unfold step, weldStep.
  destruct (findExisting tolerance cellSize w v) as [idx|]; simpl; [left|right]; eauto.
Qed.

(** The vertices kept while welding [vs] from the state [w], welded again
    from a state with the same hash and the same kept vertices, are all
    kept again, in the same cells. *)
Lemma weld_again (vs : list Vertex) :
  forall w w0,
    spatialHash w0 = spatialHash w -> newVertices w0 = newVertices w ->
    let w' := fold_left step vs w in
    let kept := skipn (length (newVertices w)) (newVertices w') in
    let r := fold_left step kept w0 in
    spatialHash r = spatialHash w' /\
    newVertices r = newVertices w' /\
    vertexMap r = vertexMap w0 ++ seq (length (newVertices w)) (length kept).
Proof.
  induction vs as [|v rest IH]; intros w w0 Hh Hn; cbn zeta.
  - cbn [fold_left]. rewrite skipn_all. simpl. rewrite app_nil_r. auto.
  - cbn [fold_left].
    destruct (weld_prefix rest (step w v)) as (more & Hmore).
    destruct (weldStep_cases w v) as [(idx & Hfind & Hh1 & Hn1 & _)|(Hfind & Hh1 & Hn1 & _)].
    + specialize (IH (step w v) w0). cbn zeta in IH.
      rewrite Hn1 in IH. apply IH; congruence.
    + rewrite Hmore, Hn1, <- app_assoc, skipn_exact. cbn [app fold_left length].
      destruct (weldStep_cases w0 v)
        as [(idx & Hfind0 & _)|(_ & Hh0 & Hn0 & Hv0)].
      * rewrite (findExisting_ext w0 w v Hh Hn) in Hfind0. congruence.
      * specialize (IH (step w v) (step w0 v)). cbn zeta in IH.
        rewrite Hmore, Hn1, skipn_exact, length_app in IH. cbn [length] in IH.
        destruct IH as (IH1 & IH2 & IH3); [congruence|congruence|].
        split; [exact IH1|]. split; [rewrite IH2, <- app_assoc; reflexivity|].
        rewrite IH3, Hv0, Hn, <- app_assoc, Nat.add_1_r. reflexivity.
Qed.

End Welding.

Section WeldingIdempotent.
Import Geometry MeshScissor.

Variable tolerance cellSize : float.

Lemma weldStep_valid (w : Weld) (v : Vertex) :
  indicesValid w -> indicesValid (weldStep tolerance cellSize w v).
Proof.
  intros [Hhash Hmap]. unfold weldStep.
  destruct (findExisting tolerance cellSize w v) as [idx|] eqn:Hfind.
  - split; simpl; [exact Hhash|].
    intros i Hi. apply in_app_iff in Hi as [Hi|[<-|[]]]; [now apply Hmap|].
    unfold findExisting in Hfind. apply find_some in Hfind as [Hin _].
    apply in_flat_map in Hin as (key & _ & Hin).
    destruct (JS.get hashEqb key (spatialHash w)) as [cell|] eqn:Hget; [|destruct Hin].
    apply get_in in Hget as (key' & Hkey'). now apply (Hhash key' cell).
  - split; simpl.
    + intros key cell idx Hin Hidx. rewrite length_app. simpl.
      unfold pushCell in Hin.
      destruct (JS.get hashEqb (getHashKey cellSize v) (spatialHash w)) as [old|] eqn:Hget.
      * apply set_in in Hin as [Hin | ->].
        -- specialize (Hhash key cell idx Hin Hidx). lia.
        -- apply in_app_iff in Hidx as [Hidx|[<-|[]]]; [|lia].
           apply get_in in Hget as (key' & Hkey').
           specialize (Hhash key' old idx Hkey' Hidx). lia.
      * apply set_in in Hin as [Hin | ->].
        -- specialize (Hhash key cell idx Hin Hidx). lia.
        -- destruct Hidx as [<-|[]]. lia.
    + intros i Hi. rewrite length_app. simpl.
      apply in_app_iff in Hi as [Hi|[<-|[]]]; [|lia].
      specialize (Hmap i Hi). lia.
Qed.

Lemma weld_valid (vs : list Vertex) :
  forall w, indicesValid w -> indicesValid (fold_left (weldStep tolerance cellSize) vs w).
Proof.
  induction vs as [|v rest IH]; intros w Hw; simpl; [assumption|].
  apply IH. now apply weldStep_valid.
Qed.

Lemma remap_identity (n : nat) (face : Face) :
  (forall i, In (Some i) face -> i < n) -> remap (seq 0 n) face = face.
Proof.
  induction face as [|e rest IH]; simpl; intros H; [reflexivity|].
  rewrite IH by (intros i Hi; apply H; now right). f_equal.
  destruct e as [i|]; [|reflexivity].
  assert (Hi : i < n) by (apply H; now left).
  rewrite (nth_error_nth' (seq 0 n) 0) by (rewrite length_seq; exact Hi).
  now rewrite seq_nth.
Qed.

Lemma remap_range (vmap : list nat) (n : nat) (face : Face) :
  (forall idx, In idx vmap -> idx < n) ->
  forall i, In (Some i) (remap vmap face) -> i < n.
Proof.
  intros Hmap i Hi. unfold remap in Hi.
  apply in_map_iff in Hi as ([j|] & Hj & _); [|discriminate].
  apply Hmap. eapply nth_error_In. eassumption.
Qed.

Lemma filter_twice {A : Type} (f : A -> bool) (l : list A) :
  filter f (filter f l) = filter f l.
Proof.
  induction l as [|a l IH]; simpl; [reflexivity|].
  destruct (f a) eqn:Ha; simpl; [rewrite Ha, IH; reflexivity|exact IH].
Qed.

End WeldingIdempotent.

Section WeldingClaim.
Import Geometry MeshScissor.

(** C6: welding the output of the welder with the same tolerance returns
    it unchanged: the same vertex list, the same face list, and no vertex
    merged. *)
Theorem mergeVertices_idempotent (mesh : Mesh) (tolerance : float) :
  let welded := mergeVertices mesh tolerance in
  let again := mergeVertices (meshOf welded) tolerance in
  wVertices again = wVertices welded /\
  wFaces again = wFaces welded /\
  mergedCount again = 0.
Proof.
  cbn zeta. unfold mergeVertices, meshOf. cbn [vertices faces wVertices wFaces mergedCount].
  set (cellSize := (tolerance * 10)%float).
  set (start := {| spatialHash := []; newVertices := []; vertexMap := [] |}).
  set (w := fold_left (weldStep tolerance cellSize) (vertices mesh) start).
  destruct (weld_again tolerance cellSize (vertices mesh) start start eq_refl eq_refl)
    as (_ & Hverts & Hmap).
  fold w in Hverts, Hmap. cbn [newVertices vertexMap start length skipn app] in Hverts, Hmap.
  set (w2 := fold_left (weldStep tolerance cellSize) (newVertices w) start) in *.
  split; [exact Hverts|]. split.
  - rewrite Hmap.
    assert (Hvalid : indicesValid w).
    { apply weld_valid. split; simpl; intros; contradiction. }
    destruct Hvalid as [_ Hrange].
    assert (Hid : map (remap (seq 0 (length (newVertices w))))
                      (filter validFace (map (remap (vertexMap w)) (faces mesh)))
                  = filter validFace (map (remap (vertexMap w)) (faces mesh))).
    { rewrite <- (map_id (filter validFace (map (remap (vertexMap w)) (faces mesh)))) at 2.
      apply map_ext_in. intros face Hface.
      apply filter_In in Hface as [Hface _].
      apply in_map_iff in Hface as (face0 & <- & _).
      apply remap_identity. apply remap_range. exact Hrange. }
    rewrite Hid. apply filter_twice.
  - rewrite Hverts. apply Nat.sub_diag.
Qed.

End WeldingClaim.

(* ----------------------------------------------------------------- *)
(** ** The searches of TopologyRepair end within their fuel *)

Section MapKeys.
Context {V : Type}.

Lemma get_none_keys (k : nat) (m : list (nat * V)) :
  JS.get Nat.eqb k m = None <-> ~ In k (map fst m).
Proof.
  induction m as [|[k0 v0] rest IH]; simpl; [tauto|].
  destruct (k =? k0) eqn:E.
  - apply Nat.eqb_eq in E. subst. split; [discriminate|]. intros H. exfalso. apply H. now left.
  - apply Nat.eqb_neq in E. rewrite IH. split.
    + intros H [H0|H0]; [congruence|contradiction].
    + intros H H0. apply H. now right.
Qed.

Lemma keys_set_present (k : nat) (v v0 : V) (m : list (nat * V)) :
  JS.get Nat.eqb k m = Some v0 -> map fst (JS.set Nat.eqb k v m) = map fst m.
Proof.
  induction m as [|[k1 v1] rest IH]; simpl; [discriminate|].
  destruct (k =? k1) eqn:E; simpl; [reflexivity|].
  intros H. now rewrite IH.
Qed.

Lemma keys_set_absent (k : nat) (v : V) (m : list (nat * V)) :
  JS.get Nat.eqb k m = None -> map fst (JS.set Nat.eqb k v m) = map fst m ++ [k].
Proof.
  induction m as [|[k1 v1] rest IH]; simpl; [reflexivity|].
  destruct (k =? k1) eqn:E; simpl; [discriminate|].
  intros H. now rewrite IH.
Qed.

Lemma get_some_in (k : nat) (v : V) (m : list (nat * V)) :
  JS.get Nat.eqb k m = Some v -> In (k, v) m.
Proof.
  induction m as [|[k1 v1] rest IH]; simpl; [discriminate|].
  destruct (k =? k1) eqn:E.
  - apply Nat.eqb_eq in E. subst. intros H. inversion H. now left.
  - intros H. right. now apply IH.
Qed.

End MapKeys.

Section ComponentsFuel.
Import Geometry TopologyRepair.

Lemma neighborsIn_closed (adj : list (nat * list nat)) (x y : nat) :
  closedMap adj -> In y (neighborsIn adj x) -> In y (map fst adj).
Proof.
  intros Hc. unfold neighborsIn.
  destruct (JS.get Nat.eqb x adj) as [l|] eqn:Hg; [|intros []].
  apply get_some_in in Hg. now apply (Hc x l).
Qed.

(** With a fuel of the size of the universe every search of
    [componentsFrom] ends on an empty queue: more fuel changes nothing. *)
Lemma componentsFrom_fuel_enough (succ : nat -> list nat) (U : list nat) (k : nat)
      (starts : list nat) :
  NoDup U -> (forall x y, In y (succ x) -> In y U) -> incl starts U ->
  forall visited acc,
    componentsFrom succ (length U + k) starts visited acc
    = componentsFrom succ (length U) starts visited acc.
Proof.
  intros HU Hcl. induction starts as [|s rest IH]; intros Hin visited acc; simpl;
    [reflexivity|].
  assert (Hrest : incl rest U) by (intros x Hx; apply Hin; now right).
  destruct (Worklist.mem s visited) eqn:Hm; [now apply IH|].
  apply mem_false in Hm.
  assert (Hs : In s U) by (apply Hin; now left).
  rewrite (run_fuel_enough succ true (fun _ => false) U HU Hcl).
  - now apply IH.
  - unfold Worklist.budget. simpl.
    assert (H := unvisited_cons_in U visited s HU Hs Hm).
    assert (H' : length (Worklist.unvisited U visited) <= length U)
      by apply filter_length_le.
    lia.
Qed.

Lemma ensure_inv (v : nat) (adj : list (nat * list nat)) :
  NoDup (map fst adj) /\ closedMap adj ->
  (NoDup (map fst (ensure v adj)) /\ closedMap (ensure v adj)) /\
  In v (map fst (ensure v adj)) /\ incl (map fst adj) (map fst (ensure v adj)).
Proof.
  intros [Hnd Hc]. unfold ensure.
  destruct (JS.get Nat.eqb v adj) as [l|] eqn:Hg.
  - split; [split; assumption|]. split; [|apply incl_refl].
    apply get_some_in in Hg. apply in_map_iff. exists (v, l). auto.
  - assert (Hk := keys_set_absent v [] adj Hg).
    apply get_none_keys in Hg.
    split; [split|split].
    + rewrite Hk. apply NoDup_app; [assumption|repeat constructor; intros []|].
      intros a Ha [<-|[]]. contradiction.
    + intros k l y Hin Hy. rewrite Hk. apply in_app_iff.
      apply set_in in Hin as [Hin | ->]; [|destruct Hy].
      left. now apply (Hc k l).
    + rewrite Hk. apply in_app_iff. right. now left.
    + rewrite Hk. intros a Ha. apply in_app_iff. now left.
Qed.

Lemma link_inv (a b : nat) (adj : list (nat * list nat)) :
  In b (map fst adj) ->
  NoDup (map fst adj) /\ closedMap adj ->
  (NoDup (map fst (link a b adj)) /\ closedMap (link a b adj)) /\
  map fst (link a b adj) = map fst adj.
Proof.
  intros Hb [Hnd Hc]. unfold link.
  destruct (JS.get Nat.eqb a adj) as [l|] eqn:Hg; [|auto].
  assert (Hk := keys_set_present a (l ++ [b]) l adj Hg).
  split; [split|assumption].
  - now rewrite Hk.
  - intros k l0 y Hin Hy. rewrite Hk.
    apply set_in in Hin as [Hin | ->]; [now apply (Hc k l0)|].
    apply in_app_iff in Hy as [Hy|[<-|[]]]; [|assumption].
    apply get_some_in in Hg. now apply (Hc a l).
Qed.

Lemma boundaryAdjacency_inv (bes : list BoundaryEdge) :
  NoDup (map fst (boundaryAdjacency bes)) /\ closedMap (boundaryAdjacency bes).
Proof.
  unfold boundaryAdjacency.
  assert (H0 : NoDup (map fst (@nil (nat * list nat))) /\ closedMap [])
    by (split; [constructor|intros k l y []]).
  revert H0. generalize (@nil (nat * list nat)).
  induction bes as [|[v1 v2] rest IH]; intros adj Hadj; simpl; [assumption|].
  apply IH.
  destruct (ensure_inv v1 adj Hadj) as (H1 & Hv1 & Hi1).
  destruct (ensure_inv v2 _ H1) as (H2 & Hv2 & Hi2).
  destruct (link_inv v1 v2 _ Hv2 H2) as (H3 & Hk3).
  destruct (link_inv v2 v1 (link v1 v2 (ensure v2 (ensure v1 adj)))) as (H4 & _).
  - rewrite Hk3. apply Hi2. assumption.
  - assumption.
  - assumption.
Qed.

(** The fuel of the search for boundary loops (the number of boundary
    vertices) is enough for every list of boundary edges. *)
Lemma boundaryComponents_fuel_enough (bes : list BoundaryEdge) (k : nat) :
  let adj := boundaryAdjacency bes in
  componentsFrom (neighborsIn adj) (length adj + k) (map fst adj) [] []
  = boundaryComponents bes.
Proof.
  cbn zeta. unfold boundaryComponents.
  destruct (boundaryAdjacency_inv bes) as [Hnd Hc].
  rewrite <- (length_map fst (boundaryAdjacency bes)).
  apply componentsFrom_fuel_enough; [assumption| |apply incl_refl].
  intros x y. now apply neighborsIn_closed.
Qed.

End ComponentsFuel.

Section FaceGroupsFuel.
Import Geometry TopologyRepair.

Lemma addFace_inv (a b : nat) (adj : list (nat * list nat)) :
  In b (map fst adj) -> closedMap adj ->
  closedMap (addFace a b adj) /\ map fst (addFace a b adj) = map fst adj.
Proof.
  intros Hb Hc. unfold addFace.
  destruct (JS.get Nat.eqb a adj) as [l|] eqn:Hg; [|auto].
  assert (Hk := keys_set_present a (JS.add b l) l adj Hg).
  split; [|assumption].
  intros k l0 y Hin Hy. rewrite Hk.
  apply set_in in Hin as [Hin | ->]; [now apply (Hc k l0)|].
  apply in_add in Hy as [->|Hy]; [assumption|].
  apply get_some_in in Hg. now apply (Hc a l).
Qed.

Lemma faceAdjacency_inv (mesh : Patch) (pathEdges : list EdgeKey) :
  map fst (faceAdjacency mesh pathEdges) = seq 0 (length (faces mesh)) /\
  closedMap (faceAdjacency mesh pathEdges).
Proof.
  unfold faceAdjacency.
  assert (Hm : facesBelow (length (faces mesh)) (edgeToFacesFrom 0 (faces mesh) []))
    by (apply edgeToFacesFrom_below; [simpl; lia|intros k infos f []]).
  set (n := length (faces mesh)) in *.
  assert (H0 : map fst (map (fun i : nat => (i, @nil nat)) (seq 0 n)) = seq 0 n /\
               closedMap (map (fun i : nat => (i, @nil nat)) (seq 0 n))).
  { split.
    - rewrite map_map. simpl. apply map_id.
    - intros k l y Hin Hy. apply in_map_iff in Hin as (i & Hi & _).
      inversion Hi; subst. destruct Hy. }
  revert Hm H0.
  generalize (map (fun i : nat => (i, @nil nat)) (seq 0 n)).
  generalize (edgeToFacesFrom 0 (faces mesh) []).
  intros m. induction m as [|[k infos] m IH]; intros adj Hm [Hk Hc]; simpl; [auto|].
  apply IH; [intros k0 i0 f Hin; apply (Hm k0 i0 f); now right|].
  destruct infos as [|f0 [|f1 [|f2 infos]]]; auto.
  destruct (keyHas k pathEdges); auto.
  assert (Hf0 : In f0 (seq 0 n))
    by (apply in_seq; split; [lia|]; apply (Hm k [f0; f1]); simpl; auto).
  assert (Hf1 : In f1 (seq 0 n))
    by (apply in_seq; split; [lia|]; apply (Hm k [f0; f1]); simpl; auto).
  destruct (addFace_inv f0 f1 adj) as [Hc1 Hk1]; [now rewrite Hk|assumption|].
  destruct (addFace_inv f1 f0 (addFace f0 f1 adj)) as [Hc2 Hk2];
    [now rewrite Hk1, Hk|assumption|].
  split; [now rewrite Hk2, Hk1|assumption].
Qed.

(** The fuel of the grouping of faces in [cutMeshAlongPath] (the number of
    faces) is enough for every mesh and path. *)
Lemma faceGroups_fuel_enough (mesh : Patch) (path : list nat) (k : nat) :
  componentsFrom (neighborsIn (faceAdjacency mesh (pathKeys path)))
                 (length (faces mesh) + k) (seq 0 (length (faces mesh))) [] []
  = faceGroups mesh path.
Proof.
  unfold faceGroups.
  destruct (faceAdjacency_inv mesh (pathKeys path)) as [Hk Hc].
  assert (H := componentsFrom_fuel_enough
                 (neighborsIn (faceAdjacency mesh (pathKeys path)))
                 (seq 0 (length (faces mesh))) k (seq 0 (length (faces mesh)))).
  rewrite length_seq in H.
  apply H; [apply seq_NoDup| |apply incl_refl].
  intros x y Hy. rewrite <- Hk. now apply (neighborsIn_closed _ x).
Qed.

End FaceGroupsFuel.

Section GeodesicFuel.
Import Geometry TopologyRepair Worklist.

Lemma addNeighbor_inv (a b : nat) (adj adj' : list (nat * list nat)) :
  addNeighbor a b adj = JS.Ok adj' ->
  In a (map fst adj) /\ map fst adj' = map fst adj /\
  (In b (map fst adj) -> closedMap adj -> closedMap adj').
Proof.
  unfold addNeighbor. destruct (JS.get Nat.eqb a adj) as [l|] eqn:Hg; [|discriminate].
  intros H. inversion H; subst. clear H.
  assert (Hk := keys_set_present a (JS.add b l) l adj Hg).
  assert (Hin := get_some_in a l adj Hg).
  split; [apply in_map_iff; exists (a, l); auto|]. split; [assumption|].
  intros Hb Hc k l0 y Hin0 Hy. rewrite Hk.
  apply set_in in Hin0 as [Hin0 | ->]; [now apply (Hc k l0)|].
  apply in_add in Hy as [->|Hy]; [assumption|now apply (Hc a l)].
Qed.

Lemma vertexAdjacency_inv (mesh : Patch) (adj : list (nat * list nat)) :
  vertexAdjacency mesh = JS.Ok adj ->
  map fst adj = seq 0 (length (vertices mesh)) /\ closedMap adj.
Proof.
  unfold vertexAdjacency. set (n := length (vertices mesh)).
  assert (H0 : map fst (map (fun i : nat => (i, @nil nat)) (seq 0 n)) = seq 0 n /\
               closedMap (map (fun i : nat => (i, @nil nat)) (seq 0 n))).
  { split.
    - rewrite map_map. simpl. apply map_id.
    - intros k l y Hin Hy. apply in_map_iff in Hin as (i & Hi & _).
      inversion Hi; subst. destruct Hy. }
  revert H0. generalize (map (fun i : nat => (i, @nil nat)) (seq 0 n)).
  generalize (flat_map faceEdges (faces mesh)). intros es.
  induction es as [|e es IH]; intros adj0 Hinv Hfold; simpl in Hfold.
  - inversion Hfold; subst. assumption.
  - destruct (addNeighbor (fst e) (snd e) adj0) as [adj1|] eqn:H1; simpl in Hfold.
    + destruct (addNeighbor (snd e) (fst e) adj1) as [adj2|] eqn:H2.
      * apply (IH adj2); [|assumption].
        destruct Hinv as [Hk Hc].
        destruct (addNeighbor_inv _ _ _ _ H1) as (Ha & Hk1 & Hc1).
        destruct (addNeighbor_inv _ _ _ _ H2) as (Hb & Hk2 & Hc2).
        rewrite Hk1 in Hb.
        split; [now rewrite Hk2, Hk1|].
        apply Hc2; [now rewrite Hk1|]. now apply Hc1.
      * exfalso. clear -Hfold.
        induction es as [|e' es IH]; simpl in Hfold; [discriminate|auto].
    + exfalso. clear -Hfold.
      induction es as [|e' es IH]; simpl in Hfold; [discriminate|auto].
Qed.

Lemma offer_prev (s curr : nat) (nexts : list nat) :
  forall st, In curr (visited st) -> PrevInv s st -> PrevInv s (offer curr nexts st).
Proof.
  induction nexts as [|n rest IH]; intros st Hcurr Hinv; simpl; [assumption|].
  destruct (mem n (visited st)) eqn:Hm; [now apply IH|].
  apply mem_false in Hm. destruct Hinv as [Hk Hnd Hq Hold].
  apply IH; [simpl; now right|].
  constructor; simpl.
  - now rewrite Hk.
  - now constructor.
  - intros x Hx. apply in_app_iff in Hx as [Hx|[<-|[]]]; [right; now apply Hq|now left].
  - intros pre n0 c post Hsplit.
    destruct pre as [|p pre]; simpl in Hsplit; inversion Hsplit; subst.
    + rewrite <- Hk. assumption.
    + now apply (Hold pre n0 c post).
Qed.

Lemma run_prev (succ : nat -> list nat) (fifo : bool) (stop : nat -> bool) (s : nat)
      (fuel : nat) :
  forall st, PrevInv s st -> PrevInv s (fst (run succ fifo stop fuel st)).
Proof.
  induction fuel as [|fuel IH]; intros st Hinv; simpl; [assumption|].
  destruct (take fifo (queue st)) as [[curr rest]|] eqn:Ht; [|assumption].
  apply take_perm in Ht.
  assert (Hinv1 : PrevInv s (mkState (visited st) (prev st) rest (popped st ++ [curr]))).
  { destruct Hinv as [Hk Hnd Hq Hold]. constructor; simpl; try assumption.
    intros x Hx. apply Hq. apply (Permutation_in _ (Permutation_sym Ht)). now right. }
  destruct (stop curr); simpl; [assumption|].
  apply IH. apply offer_prev; [|assumption].
  simpl. destruct Hinv as [_ _ Hq _]. apply Hq.
  apply (Permutation_in _ (Permutation_sym Ht)). now left.
Qed.

Lemma get_app_absent {V : Type} (k : nat) (pre post : list (nat * V)) :
  ~ In k (map fst pre) -> JS.get Nat.eqb k (pre ++ post) = JS.get Nat.eqb k post.
Proof.
  induction pre as [|[k0 v0] pre IH]; simpl; intros H; [reflexivity|].
  destruct (k =? k0) eqn:E.
  - apply Nat.eqb_eq in E. subst. exfalso. apply H. now left.
  - apply IH. intros H0. apply H. now right.
Qed.

(** The walk back along [prev] ends within the number of its entries. *)
Lemma pathBack_fuel_enough (s : nat) (prev : list (nat * nat)) :
  NoDup (map fst prev ++ [s]) ->
  (forall pre n c post, prev = pre ++ (n, c) :: post -> In c (map fst post ++ [s])) ->
  forall post pre, prev = pre ++ post ->
  forall node path k, In node (map fst post ++ [s]) ->
    pathBack (S (length post) + k) prev node path
    = pathBack (S (length post)) prev node path.
Proof.
  intros Hnd Hold. induction post as [|[n c] post IH]; intros pre Hsplit node path k Hnode.
  - destruct Hnode as [<-|[]].
    assert (Hs : JS.get Nat.eqb s prev = None).
    { apply get_none_keys. apply NoDup_remove_2 in Hnd. rewrite app_nil_r in Hnd.
      exact Hnd. }
    simpl. now rewrite Hs.
  - assert (Hsplit' : prev = (pre ++ [(n, c)]) ++ post)
      by (rewrite <- app_assoc; exact Hsplit).
    assert (Hsmall : forall node' path' k', In node' (map fst post ++ [s]) ->
              pathBack (S (S (length post)) + k') prev node' path'
              = pathBack (S (S (length post))) prev node' path').
    { intros node' path' k' Hn'.
      replace (S (S (length post)) + k') with (S (length post) + (1 + k')) by lia.
      rewrite (IH _ Hsplit' node' path' (1 + k') Hn').
      replace (S (S (length post))) with (S (length post) + 1) by lia.
      now rewrite (IH _ Hsplit' node' path' 1 Hn'). }
    destruct (Nat.eq_dec node n) as [->|Hne].
    + assert (Hget : JS.get Nat.eqb n prev = Some c).
      { rewrite Hsplit, get_app_absent; [simpl; now rewrite Nat.eqb_refl|].
        rewrite Hsplit, map_app in Hnd. simpl in Hnd.
        rewrite <- app_assoc in Hnd. simpl in Hnd.
        apply NoDup_remove_2 in Hnd. intros H. apply Hnd.
        apply in_app_iff. now left. }
      cbn [length]. cbn [pathBack plus]. rewrite Hget.
      apply (IH _ Hsplit'). now apply (Hold pre n c post).
    + cbn [length]. apply Hsmall.
      simpl in Hnode. destruct Hnode as [Hn|Hn]; [congruence|assumption].
Qed.

(** The fuels of [findGeodesicPath] are enough: for a mesh whose vertex
    adjacency is built, the search gives the same state with more fuel, and
    so does the walk back from any visited vertex. *)
Lemma findGeodesicPath_fuel_enough (mesh : Patch) (adj : list (nat * list nat))
      (start finish k : nat) :
  vertexAdjacency mesh = JS.Ok adj ->
  let search fuel :=
    run (neighborsIn adj) true (fun curr => curr =? finish) fuel
        (mkState [start] [] [start] []) in
  search (S (length adj) + k) = search (S (length adj)) /\
  forall node,
    In node (visited (fst (search (S (length adj))))) ->
    pathBack (S (length (prev (fst (search (S (length adj)))))) + k)
             (prev (fst (search (S (length adj))))) node []
    = pathBack (S (length (prev (fst (search (S (length adj)))))))
               (prev (fst (search (S (length adj))))) node [].
Proof.
  intros Hadj. cbn zeta.
  destruct (vertexAdjacency_inv mesh adj Hadj) as [Hk Hc].
  assert (Hlen : length adj = length (seq 0 (length (vertices mesh))))
    by (rewrite <- Hk; symmetry; apply length_map).
  split.
  - rewrite Hlen.
    apply (run_fuel_enough (neighborsIn adj) true (fun curr => curr =? finish)
             (seq 0 (length (vertices mesh))) (seq_NoDup _ 0)).
    + intros x y Hy. rewrite <- Hk. now apply (neighborsIn_closed _ x).
    + unfold budget. simpl.
      assert (H' : length (unvisited (seq 0 (length (vertices mesh))) [start])
                   <= length (seq 0 (length (vertices mesh))))
        by apply filter_length_le.
      lia.
  - intros node Hnode.
    assert (Hinv : PrevInv start (mkState [start] [] [start] [])).
    { constructor; simpl.
      - reflexivity.
      - repeat constructor. intros [].
      - apply incl_refl.
      - intros pre n c post H. destruct pre; discriminate. }
    apply (run_prev (neighborsIn adj) true (fun curr => curr =? finish) start
             (S (length adj))) in Hinv.
    destruct Hinv as [Hkeys Hnd _ Hold].
    set (pv := prev (fst (run (neighborsIn adj) true (fun curr => curr =? finish)
                             (S (length adj)) (mkState [start] [] [start] [])))) in *.
    apply (pathBack_fuel_enough start pv) with (pre := []).
    + now rewrite <- Hkeys.
    + exact Hold.
    + reflexivity.
    + now rewrite <- Hkeys.
Qed.

End GeodesicFuel.

(* ----------------------------------------------------------------- *)
(** ** A cut that succeeds splits the patch *)

Section CutSplits.
Import Geometry TopologyRepair.

Lemma cutMeshAlongPath_size (mesh : Patch) (path : list nat) :
  2 <= length path ->
  cutMeshAlongPath mesh path = [] \/ 2 <= length (cutMeshAlongPath mesh path).
Proof.
  intros Hp. unfold cutMeshAlongPath.
  replace (length path <? 2) with false by (symmetry; apply Nat.ltb_ge; exact Hp).
  destruct (length (faceGroups mesh path) <=? 1) eqn:Hg; [now left|right].
  apply Nat.leb_gt in Hg. rewrite length_map. lia.
Qed.

Lemma snapPathToBoundary_length (mesh : Patch) (path loopA loopB path' : list nat) :
  snapPathToBoundary mesh path loopA loopB = JS.Ok path' -> length path <= length path'.
Proof.
  unfold snapPathToBoundary. destruct (length path <? 2).
  - intros H. inversion H. lia.
  - intros H. apply bind_ok in H as (path1 & H1 & H2).
    assert (Hl1 : length path <= length path1).
    { destruct (JS.has (hd 0 path) loopA); [inversion H1; lia|].
      apply bind_ok in H1 as (nearest & _ & H1).
      destruct nearest; inversion H1; simpl; lia. }
    destruct (JS.has (last path1 0) loopB); [inversion H2; subst; lia|].
    apply bind_ok in H2 as (nearest & _ & H2).
    destruct nearest; inversion H2; subst; [rewrite length_app; simpl|]; lia.
Qed.

(** Whenever [repairCylinder] returns pieces, it returns at least two: the
    cut separates groups of faces and never opens one patch into a disk. *)
Lemma repairCylinder_splits (mesh : Patch) (topo : Topology) (pieces : list Patch) :
  repairCylinder mesh topo = JS.Ok (Some pieces) -> 2 <= length pieces.
Proof.
  unfold repairCylinder.
  destruct (separateBoundaryLoops (boundaryEdges topo)) as [|loopA [|loopB loops]];
    try discriminate.
  intros H. apply bind_ok in H as (bridge & _ & H).
  destruct bridge as [br|]; [|discriminate].
  apply bind_ok in H as (path & _ & H).
  destruct (length path <? 2) eqn:Hp; [discriminate|].
  apply Nat.ltb_ge in Hp.
  apply bind_ok in H as (path' & Hsnap & H).
  apply snapPathToBoundary_length in Hsnap.
  destruct (cutMeshAlongPath_size mesh path') as [Hcut|Hcut]; [lia| |].
  - rewrite Hcut in H. discriminate.
  - destruct (cutMeshAlongPath mesh path') as [|p ps] eqn:Hres; [discriminate|].
    inversion H; subst. exact Hcut.
Qed.

End CutSplits.

(* ----------------------------------------------------------------- *)
(** ** Topology repair on three patches *)

Section RepairClaims.
Import Geometry TopologyRepair.

(** C1 (the code at a cylinder): the open tube has Euler characteristic 0
    and two boundary loops; the cut along the path between its loops leaves
    the faces in one group, [repairCylinder] returns [null], and the patch
    that leaves the surgery step is the tube itself, of Euler
    characteristic 0. *)
Lemma cylinder_not_repaired :
  euler (computeEuler Tube.mesh) = 0%Z /\
  boundaryLoopCount (computeEuler Tube.mesh) = 2 /\
  repairCylinder Tube.mesh (computeEuler Tube.mesh) = JS.Ok None /\
  cylinderSurgery Tube.mesh = JS.Ok (Tube.mesh, true) /\
  JS.bind (cylinderSurgery Tube.mesh)
          (fun out => JS.Ok (euler (computeEuler (fst out)))) = JS.Ok 0%Z /\
  repairAll [Tube.mesh] 1 = JS.Ok [Tube.mesh].
Proof. repeat split; vm_compute; reflexivity. Qed.

Lemma repairOne_complex (minFaces : nat) (mesh : Patch) :
  (euler (computeEuler mesh) < -1)%Z -> minFaces <= length (faces mesh) ->
  repairOne minFaces mesh = JS.Ok [mesh].
Proof.
  intros He Hm. unfold repairOne.
  replace (length (faces mesh) <? minFaces) with false
    by (symmetry; apply Nat.ltb_ge; exact Hm).
  replace (euler (computeEuler mesh) =? 1)%Z with false
    by (symmetry; apply Z.eqb_neq; lia).
  replace (euler (computeEuler mesh) =? 0)%Z with false
    by (symmetry; apply Z.eqb_neq; lia).
  replace (euler (computeEuler mesh) =? 2)%Z with false
    by (symmetry; apply Z.eqb_neq; lia).
  replace (euler (computeEuler mesh) <? -1)%Z with true
    by (symmetry; apply Z.ltb_lt; exact He).
  reflexivity.
Qed.

Lemma repairAll_app (pre post : list Patch) (minFaces : nat) :
  repairAll (pre ++ post) minFaces =
  JS.bind (repairAll pre minFaces) (fun a =>
  JS.bind (repairAll post minFaces) (fun b => JS.Ok (a ++ b))).
Proof.
  induction pre as [|m pre IH]; simpl.
  - destruct (repairAll post minFaces); reflexivity.
  - destruct (repairOne minFaces m) as [added|]; simpl; [|reflexivity].
    rewrite IH. destruct (repairAll pre minFaces) as [a|]; simpl; [|reflexivity].
    destruct (repairAll post minFaces) as [b|]; simpl; [|reflexivity].
    now rewrite app_assoc.
Qed.

(** [repairAll], which nothing under [src/] calls, tests [euler < -1]: a
    sub-mesh of Euler characteristic below -1 (and of at least [minFaces]
    faces) goes to its results unchanged, at its place among what the other
    sub-meshes give. *)
Lemma repairAll_complex_skipped (pre post : list Patch) (mesh : Patch) (minFaces : nat) :
  (euler (computeEuler mesh) < -1)%Z ->
  minFaces <= length (faces mesh) ->
  repairAll (pre ++ mesh :: post) minFaces =
  JS.bind (repairAll pre minFaces) (fun a =>
  JS.bind (repairAll post minFaces) (fun b => JS.Ok (a ++ mesh :: b))).
Proof.
  intros He Hm. rewrite repairAll_app. cbn [repairAll].
  rewrite (repairOne_complex minFaces mesh He Hm). cbn [JS.bind app].
  destruct (repairAll pre minFaces) as [a|]; simpl; [|reflexivity].
  destruct (repairAll post minFaces) as [b|]; reflexivity.
Qed.

(** The disk with two holes has Euler characteristic -1; [repairAll] sends
    it to [repairGeneric], which cuts it along a path between two boundary
    vertices and returns two pieces, of 15 and 11 faces, in its place. *)
Lemma repairAll_two_holes_cut :
  euler (computeEuler Holes.two) = (-1)%Z /\
  JS.bind (repairAll [Holes.two] 1)
          (fun ps => JS.Ok (map (fun p => length (faces p)) ps)) = JS.Ok [15; 11].
Proof. split; vm_compute; reflexivity. Qed.

(** C8: a sub-mesh of Euler characteristic at most -1 (whatever its
    boundary loops and its number of faces) leaves step 1.2 of
    [flattenMesh], the topology surgery, as it entered it: [repairCylinder]
    is not called, [wasCylinder] stays [false], and the sub-mesh that goes
    on to unfolding is the sub-mesh itself. *)
Theorem complex_patch_kept (subMesh : Patch) :
  (euler (computeEuler subMesh) <= -1)%Z ->
  cylinderSurgery subMesh = JS.Ok (subMesh, false).
Proof.
  intros He. unfold cylinderSurgery. cbn zeta.
  replace (euler (computeEuler subMesh) =? 1)%Z with false
    by (symmetry; apply Z.eqb_neq; lia).
  replace (euler (computeEuler subMesh) =? 0)%Z with false
    by (symmetry; apply Z.eqb_neq; lia).
  reflexivity.
Qed.

(** C8 (witness): the disk with two holes, of Euler characteristic -1. *)
Lemma complex_patch_kept_witness :
  cylinderSurgery Holes.two = JS.Ok (Holes.two, false).
Proof.
  apply (complex_patch_kept Holes.two). vm_compute. discriminate.
Defined.

End RepairClaims.

(* ----------------------------------------------------------------- *)
(** ** The relaxer returns one UV per vertex *)

Section RelaxLength.
Import Geometry PhysicsFlattener.

Lemma updateAt_length (i : nat) f (arr : list (float * float)) :
  length (updateAt i f arr) = length arr.
Proof.
  revert i. induction arr as [|p rest IH]; intros i; simpl; [now destruct i|].
  destruct i; simpl; [reflexivity|now rewrite IH].
Qed.

Lemma applySpring_length (uvs forces : list (float * float)) (c : Constraint) :
  length (applySpring uvs forces c) = length forces.
Proof.
  unfold applySpring.
  destruct (cellAt uvs (cu c)) as [u_x u_y]. destruct (cellAt uvs (cv c)) as [v_x v_y].
  destruct (JSNum.lt _ _); [reflexivity|].
  now rewrite !updateAt_length.
Qed.

Lemma moveAll_length bv pin damp (uvs : list (float * float)) :
  forall i vels forces,
    length vels = length uvs -> length forces = length uvs ->
    length (fst (moveAll bv pin damp i uvs vels forces)) = length uvs /\
    length (snd (moveAll bv pin damp i uvs vels forces)) = length uvs.
Proof.
  induction uvs as [|pos uvs IH]; intros i vels forces Hv Hf; simpl; [auto|].
  destruct vels as [|vel vels]; [discriminate|].
  destruct forces as [|force forces]; [discriminate|].
  simpl in Hv, Hf.
  destruct (moveVertex bv pin damp i pos vel force) as [pos' vel'].
  destruct (IH (S i) vels forces) as [H1 H2]; [lia|lia|].
  destruct (moveAll bv pin damp (S i) uvs vels forces) as [uvs'' vels''].
  simpl in *. auto.
Qed.

Lemma physicsStep_length uvs vels cs bv pin damp :
  length vels = length uvs ->
  length (fst (physicsStep uvs vels cs bv pin damp)) = length uvs /\
  length (snd (physicsStep uvs vels cs bv pin damp)) = length uvs.
Proof.
  intros Hv. unfold physicsStep. apply moveAll_length; [assumption|].
  generalize (repeat (0%float, 0%float) (length uvs)) (repeat_length (0%float, 0%float) (length uvs)).
  induction cs as [|c cs IH]; intros forces Hf; simpl; [assumption|].
  apply IH. now rewrite applySpring_length.
Qed.

Lemma relaxLoop_length o cs bv n c0 (count : nat) :
  forall iter st,
    length (velocities st) = length (currentUVs st) ->
    length (currentUVs (relaxLoop o cs bv n c0 count iter st)) = length (currentUVs st).
Proof.
  induction count as [|count IH]; intros iter st Hv; simpl; [reflexivity|].
  assert (Hstep : length (currentUVs (relaxIteration o cs bv n c0 iter st))
                  = length (currentUVs st) /\
                  length (velocities (relaxIteration o cs bv n c0 iter st))
                  = length (currentUVs st)).
  { unfold relaxIteration.
    destruct (physicsStep_length (currentUVs st) (velocities st) cs bv (pinBoundary o)
                                 (currentDamping st) Hv) as [H1 H2].
    destruct (physicsStep _ _ _ _ _ _) as [uvs vels]. simpl in *.
    split; [|assumption].
    destruct (pinBoundary o); simpl; [assumption|].
    unfold cancelDriftJS, cancelDrift. now rewrite length_map. }
  destruct Hstep as [H1 H2]. rewrite IH; [assumption|congruence].
Qed.

(** [relaxDifferentiated] returns as many UVs as it was given. *)
Lemma relaxDifferentiated_length (subMesh : SubMesh) (initialUV : list UV) (o : Options) :
  length (relaxDifferentiated subMesh (Some initialUV) o) = length initialUV.
Proof.
  unfold relaxDifferentiated.
  destruct ((length (vertices subMesh) <? 3)
            || negb (length initialUV =? length (vertices subMesh))); [reflexivity|].
  rewrite length_map. unfold relaxState.
  destruct (identifyBoundary (faces subMesh)) as [bv be].
  rewrite relaxLoop_length.
  - unfold relaxStart. simpl. apply length_map.
  - unfold relaxStart. simpl. now rewrite repeat_length, length_map.
Qed.

End RelaxLength.

(* ----------------------------------------------------------------- *)
(** ** What the orchestrator does with the relaxed UVs *)

Section OrchestratorClaims.
Import PhysicsFlattener ClothFlattenerApp.

(** C4 (as amended): given an initial embedding of one UV per vertex, the
    orchestrator keeps the result of the relaxer, whatever its values, and
    goes back to the initial embedding when the call of the relaxer throws;
    a candidate UV set is accepted exactly when the call returned it, it is
    not null, and it has one UV per vertex.  No value is tested for
    finiteness. *)
Theorem relaxed_result_kept (subMesh : SubMesh) (initialUV projectPlanar : list UV)
        (a : Attempt) (uvs : list UV) :
  length initialUV = length (vertices subMesh) ->
  relaxPhase subMesh initialUV projectPlanar
  = relaxDifferentiated subMesh (Some initialUV) flattenOptions /\
  relaxPhaseOf (length (vertices subMesh)) Threw initialUV projectPlanar = initialUV /\
  (accepted (length (vertices subMesh)) a = Some uvs <->
   a = Returned (Some uvs) /\ length uvs = length (vertices subMesh)).
Proof.
  intros Hlen. split; [|split].
  - unfold relaxPhase, relaxPhaseOf, accepted.
    rewrite relaxDifferentiated_length, Hlen, Nat.eqb_refl.
    now rewrite relaxDifferentiated_length, Hlen, Nat.eqb_refl.
  - unfold relaxPhaseOf. simpl. now rewrite Hlen, Nat.eqb_refl.
  - unfold accepted. destruct a as [|[l|]].
    + split; [discriminate|intros [H _]; discriminate].
    + destruct (length l =? length (vertices subMesh)) eqn:E.
      * apply Nat.eqb_eq in E. split.
        -- intros H. inversion H; subst. auto.
        -- intros [H _]. inversion H; subst. reflexivity.
      * apply Nat.eqb_neq in E. split; [discriminate|].
        intros [H Hl]. inversion H; subst. contradiction.
    + split; [discriminate|intros [H _]; discriminate].
Qed.

(** C4 (witness): the fan and its initial embedding. *)
Lemma relaxed_result_kept_witness :
  relaxPhase Fan.mesh Fan.initialUV []
  = relaxDifferentiated Fan.mesh (Some Fan.initialUV) flattenOptions /\
  relaxPhaseOf (length (vertices Fan.mesh)) Threw Fan.initialUV [] = Fan.initialUV /\
  (accepted (length (vertices Fan.mesh)) (Returned (Some Fan.initialUV))
   = Some Fan.initialUV <->
   Returned (Some Fan.initialUV) = Returned (Some Fan.initialUV) /\
   length Fan.initialUV = length (vertices Fan.mesh)).
Proof.
  apply (relaxed_result_kept Fan.mesh Fan.initialUV []
           (Returned (Some Fan.initialUV)) Fan.initialUV).
  reflexivity.
Defined.

(** C4 (counterexample): from a finite initial embedding the relaxer
    returns coordinates that are all [NaN] (the first store into the
    binary32 array overflows), the orchestrator keeps them and does not go
    back to the initial embedding, and a candidate that is all [NaN] is
    accepted. *)
Lemma nan_result_kept :
  allFinite Overflow.initialUV = true /\
  relaxDifferentiated Overflow.mesh (Some Overflow.initialUV) flattenOptions
  = [Overflow.nanUV; Overflow.nanUV; Overflow.nanUV] /\
  relaxPhase Overflow.mesh Overflow.initialUV Overflow.initialUV
  = [Overflow.nanUV; Overflow.nanUV; Overflow.nanUV] /\
  accepted 3 (Returned (Some [Overflow.nanUV; Overflow.nanUV; Overflow.nanUV]))
  = Some [Overflow.nanUV; Overflow.nanUV; Overflow.nanUV].
Proof. repeat split; vm_compute; reflexivity. Qed.

End OrchestratorClaims.

(* ----------------------------------------------------------------- *)
(** ** Drift cancellation *)

Section DriftExact.
Import PhysicsFlattener.
Local Open Scope Q_scope.






(** With [pinBoundary] true an iteration is the physics step alone. *)
Lemma relaxIteration_pinned (o : Options) (constraints : list Constraint)
      (boundaryVerts : list nat) (vertexCount iter : nat) (center : float * float)
      (st : Relax) :
  pinBoundary o = true ->
  currentUVs (relaxIteration o constraints boundaryVerts vertexCount center iter st)
  = fst (physicsStep (currentUVs st) (velocities st) constraints boundaryVerts
                     true (currentDamping st)).
Proof.
  intros Hpin. unfold relaxIteration. rewrite Hpin.
  destruct (physicsStep _ _ _ _ _ _) as [uvs vels]. reflexivity.
Qed.

Lemma relaxIteration_lengths o cs bv n c0 iter st :
  length (velocities st) = length (currentUVs st) ->
  length (currentUVs (relaxIteration o cs bv n c0 iter st)) = length (currentUVs st) /\
  length (velocities (relaxIteration o cs bv n c0 iter st)) = length (currentUVs st).
Proof.
  intros Hv. unfold relaxIteration.
  destruct (physicsStep_length (currentUVs st) (velocities st) cs bv (pinBoundary o)
                               (currentDamping st) Hv) as [H1 H2].
  destruct (physicsStep _ _ _ _ _ _) as [uvs vels]. simpl in *.
  split; [|assumption].
  destruct (pinBoundary o); simpl; [assumption|].
  unfold cancelDriftJS, cancelDrift. now rewrite length_map.
Qed.








End DriftExact.

Section DriftClaims.
Import PhysicsFlattener.
Local Open Scope Q_scope.


End DriftClaims.

(* ================================================================= *)
(** * Further properties of the modules *)

(* ----------------------------------------------------------------- *)
(** ** The flood: islands, patches and their tables *)

Section ListFacts.

Lemma NoDup_app_iff {A : Type} (l r : list A) :
  NoDup (l ++ r) <-> NoDup l /\ NoDup r /\ (forall x, In x l -> ~ In x r).
Proof.
  induction l as [|a l IH]; simpl.
  - split; [intros H; repeat split; [constructor|assumption|intros x []]|tauto].
  - rewrite !NoDup_cons_iff, IH, in_app_iff. split.
    + intros (Ha & Hl & Hr & Hd). repeat split; try tauto.
      intros x [<-|Hx]; [tauto|now apply Hd].
    + intros ((Ha & Hl) & Hr & Hd). repeat split; try tauto.
      * intros [H|H]; [tauto|]. apply (Hd a); [now left|assumption].
      * intros x Hx. apply Hd. now right.
Qed.

Lemma concat_perm {A : Type} (xs ys : list (list A)) :
  Permutation xs ys -> Permutation (concat xs) (concat ys).
Proof.
  induction 1; simpl.
  - constructor.
  - now apply Permutation_app_head.
  - rewrite !app_assoc. apply Permutation_app_tail, Permutation_app_comm.
  - eapply Permutation_trans; eassumption.
Qed.

Lemma insertByLength_perm {A : Type} (a : list A) (sorted : list (list A)) :
  Permutation (JS.insertByLength a sorted) (a :: sorted).
Proof.
  induction sorted as [|b rest IH]; simpl; [reflexivity|].
  destruct (length b <? length a); [reflexivity|].
  rewrite IH. apply perm_swap.
Qed.

Lemma sortByLengthDesc_perm {A : Type} (xs : list (list A)) :
  Permutation (JS.sortByLengthDesc xs) xs.
Proof.
  unfold JS.sortByLengthDesc.
  assert (H : forall acc, Permutation (fold_left (fun acc a => JS.insertByLength a acc) xs acc)
                                      (xs ++ acc)).
  { induction xs as [|a rest IH]; intros acc; simpl; [reflexivity|].
    rewrite IH, insertByLength_perm. apply Permutation_sym, Permutation_middle. }
  rewrite H. now rewrite app_nil_r.
Qed.

Lemma insertByLength_sorted {A : Type} (a : list A) (sorted : list (list A)) :
  StronglySorted (fun x y => length y <= length x) sorted ->
  StronglySorted (fun x y => length y <= length x) (JS.insertByLength a sorted).
Proof.
  induction 1 as [|b rest Hs IH Hb]; simpl.
  - constructor; constructor.
  - destruct (length b <? length a) eqn:E.
    + apply Nat.ltb_lt in E. constructor; [constructor; assumption|].
      constructor; [lia|]. eapply Forall_impl; [|exact Hb]. simpl. intros; lia.
    + apply Nat.ltb_ge in E. constructor; [assumption|].
      apply Forall_forall. intros x Hx.
      apply (Permutation_in _ (insertByLength_perm a rest)) in Hx.
      destruct Hx as [<-|Hx]; [assumption|].
      rewrite Forall_forall in Hb. now apply Hb.
Qed.

Lemma sortByLengthDesc_sorted {A : Type} (xs : list (list A)) :
  StronglySorted (fun x y => length y <= length x) (JS.sortByLengthDesc xs).
Proof.
  unfold JS.sortByLengthDesc.
  assert (H : forall acc, StronglySorted (fun x y : list A => length y <= length x) acc ->
            StronglySorted (fun x y : list A => length y <= length x)
              (fold_left (fun acc a => JS.insertByLength a acc) xs acc)).
  { induction xs as [|a rest IH]; intros acc Hacc; simpl; [assumption|].
    apply IH. now apply insertByLength_sorted. }
  apply H. constructor.
Qed.

End ListFacts.

Section FloodPartition.
Import Geometry FloodSegmenter.

Lemma floodFrom_partition (mesh : Mesh) (seamEdges : list EdgeKey) (V0 : list nat)
      (starts : list nat) :
  incl starts (seq 0 (length (faces mesh))) ->
  forall visited islands,
    NoDup (concat islands) ->
    (forall x, In x visited <-> In x V0 \/ In x (concat islands)) ->
    (forall x, In x (concat islands) -> x < length (faces mesh) /\ ~ In x V0) ->
    Forall (fun island => island <> []) islands ->
    let r := floodFrom (buildFaceAdjacency mesh) seamEdges (length (faces mesh))
                       starts visited islands in
    NoDup (concat r) /\
    (forall x, In x (concat r) -> x < length (faces mesh) /\ ~ In x V0) /\
    (forall s, In s starts -> In s V0 \/ In s (concat r)) /\
    (forall x, In x (concat islands) -> In x (concat r)) /\
    Forall (fun island => island <> []) r.
Proof.
  set (n := length (faces mesh)). set (adj := buildFaceAdjacency mesh).
  induction starts as [|s rest IH]; intros Hin visited islands Hnd Hvis Hrange Hne; simpl.
  - split; [assumption|]. split; [assumption|]. split; [intros s0 []|].
    split; [auto|assumption].
  - assert (Hrest : incl rest (seq 0 n)) by (intros x Hx; apply Hin; now right).
    assert (Hs : In s (seq 0 n)) by (apply Hin; now left).
    destruct (Worklist.mem s visited) eqn:Hm.
    + destruct (IH Hrest visited islands Hnd Hvis Hrange Hne) as (H1 & H2 & H3 & H4 & H5).
      split; [assumption|]. split; [assumption|]. split; [|split; assumption].
      intros x [<-|Hx]; [|now apply H3].
      apply mem_true in Hm. apply Hvis in Hm as [Hm|Hm]; [now left|right; now apply H4].
    + apply mem_false in Hm.
      destruct (traversal_complete (openNeighbors adj seamEdges) false visited (seq 0 n) s
                  (seq_NoDup n 0) (fun x y => openNeighbors_below mesh seamEdges x y)
                  Hm Hs)
        as (_ & Hpn & Hstart & Hpr & Hpv & _).
      rewrite length_seq in Hpn, Hstart, Hpr, Hpv.
      set (st := fst (Worklist.run (openNeighbors adj seamEdges) false (fun _ => false) n
                        (Worklist.mkState (s :: visited) [] [s] []))) in *.
      assert (Hlen : (0 <? length (Worklist.popped st)) = true).
      { apply Nat.ltb_lt. destruct (Worklist.popped st); [destruct Hstart|simpl; lia]. }
      rewrite Hlen.
      assert (Hcat : concat (islands ++ [Worklist.popped st])
                     = concat islands ++ Worklist.popped st).
      { rewrite concat_app. simpl. now rewrite app_nil_r. }
      destruct (IH Hrest (Worklist.visited st) (islands ++ [Worklist.popped st]))
        as (H1 & H2 & H3 & H4 & H5).
      * rewrite Hcat. apply NoDup_app_iff. repeat split; [assumption|assumption|].
        intros x Hx Hp. apply Hpr in Hp as [_ Hp]. apply Hp, Hvis. now right.
      * intros x. rewrite Hcat, in_app_iff, Hpv, Hvis. tauto.
      * intros x. rewrite Hcat, in_app_iff. intros [Hx|Hx]; [now apply Hrange|].
        apply Hpr in Hx as [Hx Hnv]. split; [apply in_seq in Hx; lia|].
        intros H0. apply Hnv, Hvis. now left.
      * apply Forall_app. split; [assumption|]. constructor; [|constructor].
        intros E. rewrite E in Hstart. destruct Hstart.
      * split; [assumption|]. split; [assumption|]. split; [|split; [|assumption]].
        -- intros x [<-|Hx]; [|now apply H3].
           right. apply H4. rewrite Hcat. apply in_app_iff. now right.
        -- intros x Hx. apply H4. rewrite Hcat. apply in_app_iff. now left.
Qed.

(** X1: the islands of the flood are non-empty, share no face, and hold
    exactly the faces of the mesh that are not boundary faces; they come
    longest first. *)
Theorem flood_islands_partition (mesh : Mesh) (seamEdges : list EdgeKey)
        (boundaryFaces : list nat) :
  let islands := floodFillExcludingBoundary mesh (buildFaceAdjacency mesh) seamEdges
                                            boundaryFaces in
  NoDup (concat islands) /\
  (forall f, In f (concat islands) <-> f < length (faces mesh) /\ ~ In f boundaryFaces) /\
  Forall (fun island => island <> []) islands /\
  StronglySorted (fun a b => length b <= length a) islands.
Proof.
  unfold floodFillExcludingBoundary.
  destruct (floodFrom_partition mesh seamEdges boundaryFaces (seq 0 (length (faces mesh)))
              (incl_refl _) boundaryFaces [])
    as (H1 & H2 & H3 & _ & H5).
  - constructor.
  - intros x. simpl. tauto.
  - intros x [].
  - constructor.
  - set (r := floodFrom _ _ _ _ _ _) in *.
    assert (Hp := sortByLengthDesc_perm r).
    split; [|split; [|split]].
    + eapply Permutation_NoDup; [|exact H1]. apply Permutation_sym, concat_perm, Hp.
    + intros f. split.
      * intros H. apply H2. eapply Permutation_in; [|exact H]. apply concat_perm, Hp.
      * intros [Hf Hb]. eapply Permutation_in; [apply Permutation_sym, concat_perm, Hp|].
        destruct (H3 f) as [H|H]; [apply in_seq; lia|contradiction|assumption].
    + apply Forall_forall. intros isl Hisl. rewrite Forall_forall in H5. apply H5.
      eapply Permutation_in; [exact Hp|exact Hisl].
    + apply sortByLengthDesc_sorted.
Qed.

End FloodPartition.

Section PatchesDisjoint.
Import Geometry FloodSegmenter.

Lemma collectFrom_NoDup (seamEdges : list EdgeKey) (fs : list (list nat)) :
  forall base, NoDup (collectFrom seamEdges base fs).
Proof.
  induction fs as [|face rest IH]; intros base; simpl; [constructor|].
  destruct (existsb _ _); [|apply IH].
  constructor; [|apply IH].
  intros H. apply collectFrom_range in H. lia.
Qed.

Lemma pushAt_out {A : Type} (x : A) (xs : list (list A)) :
  forall i, length xs <= i -> JS.pushAt i x xs = xs.
Proof.
  induction xs as [|l rest IH]; intros i Hi; [destruct i; reflexivity|].
  destruct i as [|i]; simpl in *; [lia|]. rewrite IH; [reflexivity|lia].
Qed.

Lemma pushAt_concat {A : Type} (x : A) (xs : list (list A)) :
  forall i, i < length xs -> Permutation (concat (JS.pushAt i x xs)) (x :: concat xs).
Proof.
  induction xs as [|l rest IH]; intros i Hi; [simpl in Hi; lia|].
  destruct i as [|i]; simpl.
  - rewrite <- app_assoc. simpl. apply Permutation_sym, Permutation_middle.
  - rewrite IH by (simpl in Hi; lia). apply Permutation_sym, Permutation_middle.
Qed.

Lemma removeFace_spec (f : nat) (s : list nat) (x : nat) :
  In x (removeFace f s) <-> In x s /\ x <> f.
Proof.
  unfold removeFace. rewrite filter_In. split; intros [H1 H2]; split; auto.
  - intros ->. rewrite Nat.eqb_refl in H2. discriminate.
  - apply Nat.eqb_neq in H2. now rewrite H2.
Qed.

Lemma assign_items_NoDup (items : list (nat * nat)) :
  forall islands rem,
    NoDup (map fst items) -> incl (map fst items) rem ->
    NoDup (concat islands ++ rem) ->
    NoDup (concat (fold_left (fun isl item => JS.pushAt (snd item) (fst item) isl)
                             items islands)
           ++ fold_left (fun rem item => removeFace (fst item) rem) items rem).
Proof.
  induction items as [|[f b] items IH]; intros islands rem Hnd Hin Hall; simpl;
    [assumption|].
  simpl in Hnd, Hin. apply NoDup_cons_iff in Hnd as [Hf Hnd].
  assert (Hfr : In f rem) by (apply Hin; now left).
  apply NoDup_app_iff in Hall as (Hi & Hr & Hd).
  apply IH; [assumption| |].
  - intros x Hx. apply removeFace_spec. split; [apply Hin; now right|].
    intros ->. contradiction.
  - apply NoDup_app_iff. split; [|split].
    + destruct (Nat.lt_ge_cases b (length islands)) as [Hb|Hb].
      * eapply Permutation_NoDup; [apply Permutation_sym, pushAt_concat, Hb|].
        constructor; [|assumption]. intros H. now apply (Hd f).
      * now rewrite pushAt_out.
    + unfold removeFace. now apply NoDup_filter.
    + intros x Hx Hrm. apply removeFace_spec in Hrm as [Hrm Hne].
      destruct (Nat.lt_ge_cases b (length islands)) as [Hb|Hb].
      * apply (Permutation_in _ (pushAt_concat f islands b Hb)) in Hx.
        destruct Hx as [<-|Hx]; [now apply Hne|now apply (Hd x)].
      * rewrite pushAt_out in Hx by assumption. now apply (Hd x).
Qed.

Lemma assignRounds_NoDup adjacency (rounds : nat) :
  forall islands faceToPatch remaining,
    NoDup (concat islands ++ remaining) ->
    NoDup (concat (assignRounds adjacency rounds islands faceToPatch remaining)).
Proof.
  induction rounds as [|rounds IH]; intros islands f2p remaining Hall; simpl.
  - now apply NoDup_app_iff in Hall.
  - destruct remaining as [|r0 rem0] eqn:Hr; [now apply NoDup_app_iff in Hall|].
    rewrite <- Hr in *.
    set (toAdd := flat_map _ remaining).
    assert (Hfst : forall rem, NoDup rem ->
              NoDup (map fst (flat_map
                (fun faceIdx =>
                   match bestPatch (countVotes f2p (nth faceIdx adjacency [])) with
                   | Some best => [(faceIdx, best)]
                   | None => []
                   end) rem)) /\
              incl (map fst (flat_map
                (fun faceIdx =>
                   match bestPatch (countVotes f2p (nth faceIdx adjacency [])) with
                   | Some best => [(faceIdx, best)]
                   | None => []
                   end) rem)) rem).
    { induction rem as [|f rem IHr]; intros Hnd; simpl; [split; [constructor|apply incl_refl]|].
      apply NoDup_cons_iff in Hnd as [Hf Hnd]. destruct (IHr Hnd) as [H1 H2].
      destruct (bestPatch _); simpl.
      - split; [constructor; [intros H; apply Hf, H2, H|assumption]|].
        intros x [<-|Hx]; [now left|right; now apply H2].
      - split; [assumption|]. intros x Hx. right. now apply H2. }
    destruct (Hfst remaining) as [Hnd Hin];
      [now apply NoDup_app_iff in Hall|]. fold toAdd in Hnd, Hin.
    destruct toAdd as [|t0 trest] eqn:Ht; [now apply NoDup_app_iff in Hall|].
    rewrite <- Ht in *.
    apply IH. now apply assign_items_NoDup.
Qed.

Lemma validIslands_NoDup (mesh : Mesh) (seamEdges : list EdgeKey) (o : Options) :
  NoDup (concat (validIslands mesh seamEdges o)).
Proof.
  unfold validIslands.
  destruct (flood_islands_partition mesh seamEdges (collectBoundaryFaces mesh seamEdges))
    as (Hnd & Hin & _ & _).
  set (islands := floodFillExcludingBoundary _ _ _ _) in *.
  assert (Hfilter : forall (f : list nat -> bool) (xs : list (list nat)),
             NoDup (concat xs) -> NoDup (concat (filter f xs))).
  { intros f xs. induction xs as [|l xs IH]; simpl; intros H; [constructor|].
    apply NoDup_app_iff in H as (Hl & Hx & Hd).
    destruct (f l); simpl; [|now apply IH].
    apply NoDup_app_iff. split; [assumption|]. split; [now apply IH|].
    intros x Hxl Hxf. apply (Hd x Hxl).
    apply in_concat in Hxf as (l' & Hl' & Hxl'). apply filter_In in Hl' as [Hl' _].
    apply in_concat. eauto. }
  apply Hfilter.
  destruct (assignBoundaryFaces o && _); [|assumption].
  unfold assignBoundaryFacesByAdjacency. apply assignRounds_NoDup.
  apply NoDup_app_iff. split; [assumption|]. split; [apply collectFrom_NoDup|].
  intros x Hx. now apply Hin in Hx.
Qed.

Lemma keepClean_filter mesh red (faceIndices : list nat) (kept : list (list nat)) :
  JS.mapM (keepClean mesh red) faceIndices = JS.Ok kept ->
  concat kept
  = filter (fun faceIdx =>
              negb (existsb (fun vIdx => JS.has vIdx red) (nth faceIdx (faces mesh) [])))
           faceIndices.
Proof.
  revert kept. induction faceIndices as [|f rest IH]; intros kept H; simpl in H.
  - inversion H. reflexivity.
  - apply bind_ok in H as (b & Hb & H). apply bind_ok in H as (bs & Hbs & H).
    inversion H; subst kept. clear H. simpl. rewrite (IH bs Hbs).
    unfold keepClean in Hb. apply bind_ok in Hb as (face & Hface & Hb).
    apply read_ok in Hface. rewrite (nth_error_nth _ _ _ Hface).
    inversion Hb. destruct (existsb _ face); reflexivity.
Qed.

Lemma emitted_faces_NoDup mesh (o : Options) (islands : list (list nat)) :
  forall emitted,
    JS.mapM (emitIsland mesh o) islands = JS.Ok emitted ->
    NoDup (concat islands) ->
    NoDup (concat (map originalFaceIndices (concat emitted))) /\
    incl (concat (map originalFaceIndices (concat emitted))) (concat islands).
Proof.
  induction islands as [|isl rest IH]; intros emitted H Hnd; simpl in H.
  - inversion H. simpl. split; [constructor|apply incl_refl].
  - apply bind_ok in H as (e & He & H). apply bind_ok in H as (es & Hes & H).
    inversion H; subst emitted. clear H. simpl in *.
    apply NoDup_app_iff in Hnd as (Hi & Hr & Hd).
    destruct (IH es Hes Hr) as [IH1 IH2].
    rewrite map_app, concat_app.
    assert (He' : NoDup (concat (map originalFaceIndices e)) /\
                  incl (concat (map originalFaceIndices e)) isl).
    { unfold emitIsland in He.
      apply bind_ok in He as (reds & _ & He).
      apply bind_ok in He as (built & Hb & He).
      destruct built as [subMesh|];
        [|inversion He; simpl; split; [constructor|intros x []]].
      assert (Hsub : NoDup (originalFaceIndices subMesh) /\
                     incl (originalFaceIndices subMesh) isl).
      { unfold buildSubMeshWithKerf in Hb.
        apply bind_ok in Hb as (kept & Hkept & Hb).
        rewrite (keepClean_filter _ _ _ _ Hkept) in Hb.
        destruct (filter _ isl) as [|c0 crest] eqn:Hclean; [discriminate|].
        rewrite <- Hclean in Hb.
        apply bind_ok in Hb as (newVertices & _ & Hb).
        inversion Hb. simpl.
        split; [now apply NoDup_filter|]. intros x Hx. now apply filter_In in Hx. }
      destruct (minFaces o <=? length (subFaces subMesh)); inversion He; simpl;
        [|split; [constructor|intros x []]].
      rewrite app_nil_r. exact Hsub. }
    destruct He' as [He1 He2]. split.
    + apply NoDup_app_iff. split; [assumption|]. split; [assumption|].
      intros x Hx Hx'. apply (Hd x); [now apply He2|now apply IH2].
    + intros x Hx. apply in_app_iff in Hx as [Hx|Hx]; apply in_app_iff;
        [left; now apply He2|right; now apply IH2].
Qed.

(** X2: no face of the mesh is emitted twice: the lists of original face
    indices of the emitted patches have no index in common and no index
    twice. *)
Theorem patches_share_no_face mesh seamEdges o patches :
  segmentWithSeams mesh seamEdges o = JS.Ok patches ->
  NoDup (concat (map originalFaceIndices patches)).
Proof.
  unfold segmentWithSeams. intros H.
  apply bind_ok in H as (emitted & Hem & H). inversion H; subst patches.
  exact (proj1 (emitted_faces_NoDup mesh o _ emitted Hem (validIslands_NoDup mesh seamEdges o))).
Qed.

(** X2 (witness): the two patches of the strip. *)
Lemma patches_share_no_face_witness :
  NoDup (concat (map originalFaceIndices [Strip.left; Strip.right])).
Proof.
  apply (patches_share_no_face Strip.mesh Strip.seamEdges Strip.options).
  vm_compute. reflexivity.
Defined.

End PatchesDisjoint.

Section AdjacencySymmetric.
Import Geometry FloodSegmenter.

Lemma nth_pushAt {A : Type} (x : A) (xs : list (list A)) :
  forall i j, i < length xs ->
    nth j (JS.pushAt i x xs) [] = if i =? j then nth j xs [] ++ [x] else nth j xs [].
Proof.
  induction xs as [|l rest IH]; intros i j Hi; [simpl in Hi; lia|].
  destruct i as [|i], j as [|j]; simpl; try reflexivity.
  apply IH. simpl in Hi. lia.
Qed.

Lemma set_key_in (k : EdgeKey) (v : list nat) (m : list (EdgeKey * list nat)) :
  forall k0 v0, In (k0, v0) (JS.set keyEqb k v m) ->
    In (k0, v0) m \/ (k0 = k /\ v0 = v).
Proof.
  induction m as [|[k' v'] rest IH]; simpl; intros k0 v0 H.
  - destruct H as [H|[]]. inversion H. now right.
  - destruct (keyEqb k k') eqn:E.
    + destruct H as [H|H]; [|left; now right]. inversion H; subst. right.
      unfold keyEqb in E. apply andb_prop in E as [E1 E2].
      apply Nat.eqb_eq in E1, E2. destruct k, k0. simpl in *. now subst.
    + destruct H as [H|H]; [left; now left|].
      destruct (IH _ _ H) as [H'|H']; [left; now right|now right].
Qed.

Lemma recordFace_sound (fs : list (list nat)) (faceIdx : nat) (m : list (EdgeKey * list nat))
      (k : EdgeKey) :
  faceIdx < length fs -> In k (faceKeys (nth faceIdx fs [])) ->
  tableSound fs m -> tableSound fs (recordFace faceIdx m k).
Proof.
  intros Hf Hk Hm k0 infos f Hin Hfi. unfold recordFace in Hin.
  destruct (JS.get keyEqb k m) as [old|] eqn:Hg.
  - apply set_key_in in Hin as [Hin|[-> ->]]; [now apply (Hm k0 infos)|].
    apply in_app_iff in Hfi as [Hfi|[<-|[]]]; [|now split].
    apply get_key_eq in Hg. now apply (Hm k old).
  - apply set_key_in in Hin as [Hin|[-> ->]]; [now apply (Hm k0 infos)|].
    destruct Hfi as [<-|[]]. now split.
Qed.

Lemma edgeToFacesFrom_sound (all : list (list nat)) (fs : list (list nat)) :
  forall base m,
    (forall i face, nth_error fs i = Some face -> nth_error all (base + i) = Some face) ->
    tableSound all m -> tableSound all (edgeToFacesFrom base fs m).
Proof.
  induction fs as [|face rest IH]; intros base m Hfs Hm; simpl; [assumption|].
  apply IH.
  - intros i f Hi. replace (S base + i) with (base + S i) by lia. now apply Hfs.
  - assert (H0 : nth_error all base = Some face).
    { rewrite <- (Nat.add_0_r base). now apply Hfs. }
    assert (Hlt : base < length all) by (apply nth_error_Some; congruence).
    assert (Hnth : nth base all [] = face) by (now apply nth_error_nth).
    assert (Hks : forall k, In k (faceKeys face) -> In k (faceKeys (nth base all []))).
    { now rewrite Hnth. }
    clear Hnth H0 Hfs IH. revert m Hm Hks. generalize (faceKeys face).
    intros ks. induction ks as [|k ks IHk]; intros m Hm Hks; simpl; [assumption|].
    apply IHk; [|intros k0 Hk0; apply Hks; now right].
    apply recordFace_sound; [assumption| |assumption]. apply Hks. now left.
Qed.

Lemma linkFaces_sound (fs : list (list nat)) (adj : list (list Neighbor))
      (entry : EdgeKey * list nat) :
  length adj = length fs ->
  (forall f, In f (snd entry) -> f < length fs /\ In (fst entry) (faceKeys (nth f fs []))) ->
  adjacencySound fs adj ->
  length (linkFaces adj entry) = length fs /\ adjacencySound fs (linkFaces adj entry).
Proof.
  intros Hlen Hentry Hadj. destruct entry as [k infos]. simpl in Hentry.
  destruct infos as [|f1 [|f2 [|f3 infos]]]; simpl; try (split; assumption).
  destruct (Hentry f1) as [H1 K1]; [now left|].
  destruct (Hentry f2) as [H2 K2]; [right; now left|].
  split; [now rewrite !length_pushAt|].
  intros f nb Hnb.
  assert (Hl1 : f1 < length adj) by lia.
  assert (Hl2 : f2 < length (JS.pushAt f1 {| neighborIdx := f2; sharedEdge := k |} adj))
    by (rewrite length_pushAt; lia).
  assert (Hview : forall j,
            nth j (JS.pushAt f2 {| neighborIdx := f1; sharedEdge := k |}
                     (JS.pushAt f1 {| neighborIdx := f2; sharedEdge := k |} adj)) []
            = (nth j adj [] ++ (if f1 =? j then [{| neighborIdx := f2; sharedEdge := k |}] else []))
              ++ (if f2 =? j then [{| neighborIdx := f1; sharedEdge := k |}] else [])).
  { intros j. rewrite (nth_pushAt _ _ f2 j Hl2), (nth_pushAt _ _ f1 j Hl1).
    destruct (f2 =? j), (f1 =? j); now rewrite ?app_nil_r. }
  rewrite Hview in Hnb. rewrite Hview.
  apply in_app_iff in Hnb as [Hnb|Hnb]; [apply in_app_iff in Hnb as [Hnb|Hnb]|].
  - destruct (Hadj f nb Hnb) as (A1 & A2 & A3 & A4 & A5).
    repeat (split; [assumption|]). apply in_app_iff. left. apply in_app_iff. now left.
  - destruct (f1 =? f) eqn:E; [|destruct Hnb]. apply Nat.eqb_eq in E. subst f.
    destruct Hnb as [<-|[]]. simpl.
    repeat (split; [assumption|]). apply in_app_iff. right.
    rewrite Nat.eqb_refl. now left.
  - destruct (f2 =? f) eqn:E; [|destruct Hnb]. apply Nat.eqb_eq in E. subst f.
    destruct Hnb as [<-|[]]. simpl.
    repeat (split; [assumption|]). apply in_app_iff. left. apply in_app_iff. right.
    rewrite Nat.eqb_refl. now left.
Qed.

Lemma buildFaceAdjacency_sound (mesh : Mesh) :
  length (buildFaceAdjacency mesh) = length (faces mesh) /\
  adjacencySound (faces mesh) (buildFaceAdjacency mesh).
Proof.
  unfold buildFaceAdjacency.
  assert (Htable : tableSound (faces mesh) (edgeToFacesFrom 0 (faces mesh) [])).
  { apply edgeToFacesFrom_sound; [intros i face H; exact H|].
    intros k infos f []. }
  assert (H0 : length (repeat (@nil Neighbor) (length (faces mesh))) = length (faces mesh) /\
               adjacencySound (faces mesh) (repeat [] (length (faces mesh)))).
  { split; [apply repeat_length|]. intros f nb Hnb. exfalso.
    destruct (Nat.lt_ge_cases f (length (faces mesh))) as [Hf|Hf].
    - rewrite nth_repeat_lt in Hnb by assumption. destruct Hnb.
    - rewrite nth_overflow in Hnb by (rewrite repeat_length; lia). destruct Hnb. }
  revert Htable H0. generalize (repeat (@nil Neighbor) (length (faces mesh))).
  generalize (edgeToFacesFrom 0 (faces mesh) []).
  intros table. induction table as [|entry table IH]; intros adj Ht [Hlen Hadj]; simpl;
    [split; assumption|].
  apply IH.
  - intros k infos f Hin. apply Ht. now right.
  - apply linkFaces_sound; [assumption| |assumption].
    intros f Hf. destruct entry as [k infos]. apply (Ht k infos); [now left|assumption].
Qed.

(** X3: the face adjacency table is symmetric: an entry of face [f] names
    a face of the mesh, the shared edge is an edge of both faces, and the
    table of the neighbour has the entry back to [f] with the same edge. *)
Theorem face_adjacency_symmetric (mesh : Mesh) (f : nat) (nb : Neighbor) :
  In nb (nth f (buildFaceAdjacency mesh) []) ->
  f < length (faces mesh) /\ neighborIdx nb < length (faces mesh) /\
  In (sharedEdge nb) (faceKeys (nth f (faces mesh) [])) /\
  In (sharedEdge nb) (faceKeys (nth (neighborIdx nb) (faces mesh) [])) /\
  In {| neighborIdx := f; sharedEdge := sharedEdge nb |}
     (nth (neighborIdx nb) (buildFaceAdjacency mesh) []).
Proof. apply (proj2 (buildFaceAdjacency_sound mesh)). Qed.

(** X3 (witness): the two triangles of the square, across their diagonal. *)
Lemma face_adjacency_symmetric_witness :
  0 < length (faces Quad.mesh) /\ 1 < length (faces Quad.mesh) /\
  In (0, 2) (faceKeys (nth 0 (faces Quad.mesh) [])) /\
  In (0, 2) (faceKeys (nth 1 (faces Quad.mesh) [])) /\
  In {| neighborIdx := 0; sharedEdge := (0, 2) |}
     (nth 1 (buildFaceAdjacency Quad.mesh) []).
Proof.
  apply (face_adjacency_symmetric Quad.mesh 0 {| neighborIdx := 1; sharedEdge := (0, 2) |}).
  vm_compute. left. reflexivity.
Defined.

End AdjacencySymmetric.

Section PatchTables.
Import Geometry FloodSegmenter.

Lemma collectUsed_NoDup mesh (clean : list nat) :
  forall used, NoDup used -> NoDup (fold_left (collectUsed mesh) clean used).
Proof.
  induction clean as [|fi rest IH]; intros used H; simpl; [assumption|].
  apply IH. unfold collectUsed. revert used H.
  induction (nth fi (faces mesh) []) as [|v vs IHv]; intros used H; simpl; [assumption|].
  apply IHv. now apply NoDup_add.
Qed.

Lemma numberFrom_other (used : list nat) :
  forall k m v, ~ In v used ->
    JS.get Nat.eqb v (numberFrom k used m) = JS.get Nat.eqb v m.
Proof.
  induction used as [|g rest IH]; intros k m v Hv; simpl; [reflexivity|].
  rewrite IH by (intros H; apply Hv; now right).
  rewrite get_set. destruct (v =? g) eqn:E; [|reflexivity].
  apply Nat.eqb_eq in E. subst. exfalso. apply Hv. now left.
Qed.

Lemma numberFrom_complete (used : list nat) :
  forall k m v l, NoDup used -> nth_error used l = Some v ->
    JS.get Nat.eqb v (numberFrom k used m) = Some (k + l).
Proof.
  induction used as [|g rest IH]; intros k m v l Hnd Hn; [destruct l; discriminate|].
  apply NoDup_cons_iff in Hnd as [Hg Hnd]. destruct l as [|l]; simpl in *.
  - inversion Hn; subst. rewrite numberFrom_other by assumption.
    rewrite get_set, Nat.eqb_refl. f_equal. lia.
  - rewrite (IH (S k) _ v l Hnd Hn). f_equal. lia.
Qed.

(** What [buildSubMeshWithKerf] returns, table by table. *)
Lemma buildSubMeshWithKerf_tables mesh faceIndices red subMesh :
  buildSubMeshWithKerf mesh faceIndices red = JS.Ok (Some subMesh) ->
  NoDup (localToGlobal subMesh) /\
  globalToLocal subMesh = numberFrom 0 (localToGlobal subMesh) [] /\
  JS.mapM (whiteVertex mesh) (localToGlobal subMesh) = JS.Ok (subVertices subMesh) /\
  subFaces subMesh
  = map (fun faceIdx => map (fun v => JS.get Nat.eqb v (globalToLocal subMesh))
                            (nth faceIdx (faces mesh) []))
        (originalFaceIndices subMesh) /\
  (forall faceIdx, In faceIdx (originalFaceIndices subMesh) ->
     faceIdx < length (faces mesh) /\
     forall v, In v (nth faceIdx (faces mesh) []) -> In v (localToGlobal subMesh)) /\
  (forall g, In g (localToGlobal subMesh) ->
     exists faceIdx, In faceIdx (originalFaceIndices subMesh) /\
                     In g (nth faceIdx (faces mesh) [])).
Proof.
  unfold buildSubMeshWithKerf. intros H.
  apply bind_ok in H as (kept & Hkept & H).
  destruct (concat kept) as [|c0 crest] eqn:Hclean; [discriminate|].
  rewrite <- Hclean in H.
  apply bind_ok in H as (newVertices & Hverts & H).
  inversion H as [Hsm]. clear H. simpl.
  split; [apply collectUsed_NoDup; constructor|].
  split; [reflexivity|]. split; [assumption|]. split; [reflexivity|]. split.
  - intros fi Hfi. split.
    + destruct (keepClean_in _ _ _ _ Hkept _ Hfi) as (_ & face & Hn & _).
      apply nth_error_Some. congruence.
    + intros v Hv. now apply collectUsed_in with fi.
  - intros g Hg. apply collectUsed_inv in Hg as [[]|Hg]. exact Hg.
Qed.

(** X4: an emitted patch has at least [minFaces] faces, one per original
    face index, and its [k]-th face, read through [localToGlobal], is the
    face of the mesh that its [k]-th original index names. *)
Theorem patch_faces_round_trip mesh seamEdges o patches p :
  segmentWithSeams mesh seamEdges o = JS.Ok patches ->
  In p patches ->
  minFaces o <= length (subFaces p) /\
  length (subFaces p) = length (originalFaceIndices p) /\
  forall k lf, nth_error (subFaces p) k = Some lf ->
    exists faceIdx face,
      nth_error (originalFaceIndices p) k = Some faceIdx /\
      nth_error (faces mesh) faceIdx = Some face /\
      Forall2 (fun e g => exists l, e = Some l /\ nth_error (localToGlobal p) l = Some g)
              lf face.
Proof.
  intros H Hp.
  destruct (segmentWithSeams_emits _ _ _ _ _ H Hp)
    as (fi & sm & _ & Hb & Hmin & _ & Hf & Hg & Hl & Ho).
  destruct (buildSubMeshWithKerf_tables _ _ _ _ Hb) as (Hnd & Hg2l & _ & Hfaces & Hin & _).
  rewrite Hf, Hl, Ho. split; [assumption|]. split; [rewrite Hfaces; apply length_map|].
  intros k lf Hk. rewrite Hfaces in Hk.
  rewrite nth_error_map in Hk.
  destruct (nth_error (originalFaceIndices sm) k) as [faceIdx|] eqn:Hidx; [|discriminate].
  simpl in Hk. inversion Hk as [Hlf]. clear Hk.
  assert (Hfi : In faceIdx (originalFaceIndices sm)) by (eapply nth_error_In; eassumption).
  destruct (Hin _ Hfi) as [Hlt Hused].
  destruct (nth_error (faces mesh) faceIdx) as [face|] eqn:Hface;
    [|apply nth_error_None in Hface; lia].
  exists faceIdx, face. split; [reflexivity|]. split; [assumption|].
  subst lf. rewrite (nth_error_nth _ _ _ Hface) in *.
  clear Hface. induction face as [|v vs IH]; simpl; constructor.
  - assert (Hv : In v (localToGlobal sm)) by (apply Hused; now left).
    apply In_nth_error in Hv as (l & Hl').
    exists l. split; [|assumption]. rewrite Hg2l.
    now rewrite (numberFrom_complete _ 0 [] v l Hnd Hl').
  - apply IH. intros w Hw. apply Hused. now right.
Qed.

(** X4 (witness): the right patch of the strip. *)
Lemma patch_faces_round_trip_witness :
  minFaces Strip.options <= length (subFaces Strip.right) /\
  length (subFaces Strip.right) = length (originalFaceIndices Strip.right) /\
  forall k lf, nth_error (subFaces Strip.right) k = Some lf ->
    exists faceIdx face,
      nth_error (originalFaceIndices Strip.right) k = Some faceIdx /\
      nth_error (faces Strip.mesh) faceIdx = Some face /\
      Forall2 (fun e g => exists l, e = Some l /\
                                    nth_error (localToGlobal Strip.right) l = Some g)
              lf face.
Proof.
  apply (patch_faces_round_trip Strip.mesh Strip.seamEdges Strip.options
           [Strip.left; Strip.right] Strip.right).
  - vm_compute. reflexivity.
  - simpl. auto.
Defined.

(** X5: the vertex tables of an emitted patch are inverse to each other:
    [localToGlobal] has no index twice, [globalToLocal] sends the global
    index at place [l] to [l] and has no other entry, and the vertex at
    place [l] is at the position of the vertex of the mesh it names. *)
Theorem patch_vertex_tables mesh seamEdges o patches p :
  segmentWithSeams mesh seamEdges o = JS.Ok patches ->
  In p patches ->
  NoDup (localToGlobal p) /\
  length (subVertices p) = length (localToGlobal p) /\
  (forall g l, JS.get Nat.eqb g (globalToLocal p) = Some l <->
               nth_error (localToGlobal p) l = Some g) /\
  (forall l g, nth_error (localToGlobal p) l = Some g ->
     exists v pv, nth_error (vertices mesh) g = Some v /\
                  nth_error (subVertices p) l = Some pv /\
                  px pv = x v /\ py pv = y v /\ pz pv = z v).
Proof.
  intros H Hp.
  destruct (segmentWithSeams_emits _ _ _ _ _ H Hp)
    as (fi & sm & _ & Hb & _ & Hv & _ & Hg & Hl & _).
  destruct (buildSubMeshWithKerf_tables _ _ _ _ Hb) as (Hnd & Hg2l & Hverts & _).
  rewrite Hv, Hg, Hl. apply mapM_ok in Hverts.
  split; [assumption|]. split; [symmetry; eapply Forall2_length; eassumption|]. split.
  - intros g l. rewrite Hg2l. split.
    + intros Hget. apply numberFrom_sound in Hget as [[_ Hn]|Hget]; [|discriminate].
      now rewrite Nat.sub_0_r in Hn.
    + intros Hn. now rewrite (numberFrom_complete _ 0 [] g l Hnd Hn).
  - intros l g Hn. clear Hnd Hg2l Hv Hl Hg Hb.
    revert l Hn. induction Hverts as [|g0 pv0 gs pvs Hw _ IH]; intros l Hn;
      [destruct l; discriminate|].
    destruct l as [|l]; simpl in *; [|now apply IH].
    inversion Hn; subst g0. unfold whiteVertex in Hw.
    apply bind_ok in Hw as (v & Hread & Hw). apply read_ok in Hread.
    inversion Hw. exists v. eexists. split; [assumption|]. split; [reflexivity|].
    simpl. auto.
Qed.

(** X5 (witness): the left patch of the strip. *)
Lemma patch_vertex_tables_witness :
  NoDup (localToGlobal Strip.left) /\
  length (subVertices Strip.left) = length (localToGlobal Strip.left) /\
  (forall g l, JS.get Nat.eqb g (globalToLocal Strip.left) = Some l <->
               nth_error (localToGlobal Strip.left) l = Some g) /\
  (forall l g, nth_error (localToGlobal Strip.left) l = Some g ->
     exists v pv, nth_error (vertices Strip.mesh) g = Some v /\
                  nth_error (subVertices Strip.left) l = Some pv /\
                  px pv = x v /\ py pv = y v /\ pz pv = z v).
Proof.
  apply (patch_vertex_tables Strip.mesh Strip.seamEdges Strip.options
           [Strip.left; Strip.right] Strip.left).
  - vm_compute. reflexivity.
  - simpl. auto.
Defined.

End PatchTables.

(* ----------------------------------------------------------------- *)
(** ** The walls made of red edges *)

Section RedWalls.
Import Geometry FloodSegmenter.

Lemma keyHas_In (k : EdgeKey) (s : list EdgeKey) : keyHas k s = true <-> In k s.
Proof.
  unfold keyHas. rewrite existsb_exists. split.
  - intros (k' & Hin & E). unfold keyEqb in E. apply andb_prop in E as [E1 E2].
    apply Nat.eqb_eq in E1, E2. destruct k, k'. simpl in *. now subst.
  - intros H. exists k. split; [assumption|]. unfold keyEqb. now rewrite !Nat.eqb_refl.
Qed.

Lemma keyAdd_In (k k0 : EdgeKey) (s : list EdgeKey) :
  In k0 (keyAdd k s) <-> k0 = k \/ In k0 s.
Proof.
  unfold keyAdd. destruct (keyHas k s) eqn:E.
  - apply keyHas_In in E. split; [now right|]. intros [->|H]; assumption.
  - rewrite in_app_iff. simpl. split; [intros [H|[H|[]]]; auto|intros [H|H]; auto].
Qed.

Lemma faceEdges_ends (face : list nat) (e : nat * nat) :
  In e (faceEdges face) -> In (fst e) face /\ In (snd e) face.
Proof.
  unfold faceEdges. destruct face as [|a rest]; [intros []|].
  destruct e as [u w]. intros H. split.
  - apply in_combine_l in H. exact H.
  - apply in_combine_r in H. simpl.
    apply in_app_iff in H as [H|[H|[]]]; [now right|now left].
Qed.

Lemma edgeKey_ends (v1 v2 : nat) :
  (fst (edgeKey v1 v2) = v1 /\ snd (edgeKey v1 v2) = v2) \/
  (fst (edgeKey v1 v2) = v2 /\ snd (edgeKey v1 v2) = v1).
Proof. unfold edgeKey. destruct (v1 <? v2); simpl; auto. Qed.

(** The walls are exactly the keys of the edges with two red ends. *)
Lemma redEdgesFrom_spec (fs : list (list nat)) (redSet : list nat) :
  forall s k,
    In k (redEdgesFrom fs redSet s) <->
    In k s \/
    exists face e, In face fs /\ In e (faceEdges face) /\
                   JS.has (fst e) redSet = true /\ JS.has (snd e) redSet = true /\
                   k = edgeKey (fst e) (snd e).
Proof.
  unfold redEdgesFrom. induction fs as [|face rest IH]; intros s k; simpl.
  - split; [now left|]. intros [H|(face & e & [] & _)]. exact H.
  - rewrite IH. clear IH.
    assert (Hface : forall es s0,
              In k (fold_left (redEdge redSet) es s0) <->
              In k s0 \/
              exists e, In e es /\ JS.has (fst e) redSet = true /\
                        JS.has (snd e) redSet = true /\ k = edgeKey (fst e) (snd e)).
    { induction es as [|e es IHe]; intros s0; simpl.
      - split; [now left|]. intros [H|(e & [] & _)]. exact H.
      - rewrite IHe. unfold redEdge.
        destruct (JS.has (fst e) redSet && JS.has (snd e) redSet) eqn:E.
        + apply andb_prop in E as [E1 E2]. rewrite keyAdd_In. split.
          * intros [[->|H]|(e' & He' & H)]; [right; exists e; auto|now left|].
            right. exists e'. split; [now right|exact H].
          * intros [H|(e' & [<-|He'] & R1 & R2 & ->)]; [left; now right|left; now left|].
            right. exists e'. auto.
        + split.
          * intros [H|(e' & He' & H)]; [now left|]. right. exists e'. split; [now right|exact H].
          * intros [H|(e' & [<-|He'] & R1 & R2 & ->)]; [now left| |].
            -- rewrite R1, R2 in E. discriminate.
            -- right. exists e'. auto. }
    rewrite Hface. split.
    + intros [[H|(e & He & H)]|(face' & e & Hf & H)]; [now left| |].
      * right. exists face, e. split; [now left|]. split; [assumption|exact H].
      * right. exists face', e. split; [now right|exact H].
    + intros [H|(face' & e & [<-|Hf] & He & H)]; [left; now left| |].
      * left. right. exists e. split; [assumption|exact H].
      * right. exists face', e. split; [assumption|]. split; [assumption|exact H].
Qed.

Lemma collectFrom_spec (seamEdges : list EdgeKey) (fs : list (list nat)) :
  forall base f,
    In f (collectFrom seamEdges base fs) ->
    exists face k, nth_error fs (f - base) = Some face /\ base <= f /\
                   In k (faceKeys face) /\ In k seamEdges.
Proof.
  induction fs as [|face rest IH]; intros base f; simpl; [intros []|].
  destruct (existsb _ (faceKeys face)) eqn:E.
  - intros [<-|H].
    + apply existsb_exists in E as (k & Hk & Hs). apply keyHas_In in Hs.
      exists face, k. rewrite Nat.sub_diag. auto.
    + destruct (IH _ _ H) as (face' & k & Hn & Hle & Hk).
      exists face', k. replace (f - base) with (S (f - S base)) by lia.
      split; [exact Hn|]. split; [lia|exact Hk].
  - intros H. destruct (IH _ _ H) as (face' & k & Hn & Hle & Hk).
    exists face', k. replace (f - base) with (S (f - S base)) by lia.
    split; [exact Hn|]. split; [lia|exact Hk].
Qed.

(** X6: when the walls are the edges with two red ends (as [segment] and
    the seam extractor make them), no face that has a wall edge is in an
    emitted patch: the faces along the red lines are all cut away. *)
Theorem wall_faces_dropped (mesh : Mesh) (o : Options) (patches : list SubMesh)
        (p : SubMesh) (faceIdx : nat) :
  segmentWithSeams mesh (redEdgesFrom (faces mesh) (redVertices o) []) o = JS.Ok patches ->
  In p patches ->
  In faceIdx (originalFaceIndices p) ->
  JS.has faceIdx (collectBoundaryFaces mesh (redEdgesFrom (faces mesh) (redVertices o) []))
  = false.
Proof.
  intros H Hp Hf.
  destruct (JS.has faceIdx _) eqn:E; [exfalso|reflexivity].
  apply has_true in E. unfold collectBoundaryFaces in E.
  apply collectFrom_spec in E as (face & k & Hn & _ & Hk & Hs).
  rewrite Nat.sub_0_r in Hn.
  destruct (segmentWithSeams_emits _ _ _ _ _ H Hp)
    as (fi & sm & _ & Hb & _ & _ & _ & _ & _ & Ho).
  destruct (buildSubMeshWithKerf_spec _ _ _ _ Hb) as (Ha & _).
  rewrite Ho in Hf. destruct (Ha _ Hf) as (_ & face' & Hn' & Hclean).
  assert (face' = face) by congruence. subst face'.
  apply redEdgesFrom_spec in Hs as [[]|(face0 & e0 & _ & _ & R1 & R2 & ->)].
  unfold faceKeys in Hk. apply in_map_iff in Hk as (e & Hke & He).
  apply faceEdges_ends in He as [He1 He2].
  assert (Hred : JS.has (fst e) (redVertices o) = true).
  { destruct (edgeKey_ends (fst e) (snd e)) as [[A B]|[A B]];
      destruct (edgeKey_ends (fst e0) (snd e0)) as [[C D]|[C D]];
      rewrite Hke in A, B; congruence. }
  rewrite (Hclean _ He1) in Hred. discriminate.
Qed.

(** X6 (witness): the strip, with the walls that [segment] makes of its red
    vertices. *)
Lemma wall_faces_dropped_witness :
  JS.has 7 (collectBoundaryFaces Strip.mesh
              (redEdgesFrom (faces Strip.mesh) (redVertices Strip.options) [])) = false.
Proof.
  apply (wall_faces_dropped Strip.mesh Strip.options [Strip.left; Strip.right] Strip.right 7).
  - vm_compute. reflexivity.
  - simpl. auto.
  - simpl. auto.
Defined.

(** X7: no vertex of an emitted patch is red, so the test for red seams
    inside a part, made with the red set of the segmentation, is false on
    every emitted patch. *)
Theorem no_internal_red_seams mesh seamEdges o patches p :
  segmentWithSeams mesh seamEdges o = JS.Ok patches ->
  In p patches ->
  (forall g, In g (localToGlobal p) -> JS.has g (redVertices o) = false) /\
  ClothFlattenerApp.hasInternalRedSeams (Some (redVertices o)) (Some (localToGlobal p))
  = false.
Proof.
  intros H Hp.
  destruct (segmentWithSeams_emits _ _ _ _ _ H Hp)
    as (fi & sm & _ & Hb & _ & _ & _ & _ & Hl & _).
  destruct (buildSubMeshWithKerf_tables _ _ _ _ Hb) as (_ & _ & _ & _ & _ & Hused).
  destruct (buildSubMeshWithKerf_spec _ _ _ _ Hb) as (Ha & _).
  rewrite Hl.
  assert (Hclean : forall g, In g (localToGlobal sm) -> JS.has g (redVertices o) = false).
  { intros g Hg. destruct (Hused g Hg) as (faceIdx & Hfi & Hin).
    destruct (Ha _ Hfi) as (_ & face & Hn & Hc). apply Hc.
    now rewrite (nth_error_nth _ _ _ Hn) in Hin. }
  split; [assumption|]. unfold ClothFlattenerApp.hasInternalRedSeams.
  replace (filter _ (localToGlobal sm)) with (@nil nat); [reflexivity|].
  symmetry. clear -Hclean. induction (localToGlobal sm) as [|g gs IH]; [reflexivity|].
  simpl. rewrite (Hclean g) by now left. apply IH. intros g' Hg'. apply Hclean. now right.
Qed.

(** X7 (witness): the left patch of the strip, whose red vertices are 2 and 7. *)
Lemma no_internal_red_seams_witness :
  (forall g, In g (localToGlobal Strip.left) -> JS.has g (redVertices Strip.options) = false) /\
  ClothFlattenerApp.hasInternalRedSeams (Some (redVertices Strip.options))
                                        (Some (localToGlobal Strip.left)) = false.
Proof.
  apply (no_internal_red_seams Strip.mesh Strip.seamEdges Strip.options
           [Strip.left; Strip.right] Strip.left).
  - vm_compute. reflexivity.
  - simpl. auto.
Defined.

(** X8: on a mesh whose faces name vertices of the mesh, the segmenter
    returns a list of patches: no read of a face or of a vertex fails. *)
Theorem segmenter_returns (mesh : Mesh) (seamEdges : list EdgeKey) (o : Options) :
  (forall face v, In face (faces mesh) -> In v face -> v < length (vertices mesh)) ->
  exists patches, segmentWithSeams mesh seamEdges o = JS.Ok patches.
Proof. apply segmentWithSeams_total. Qed.

(** X8 (witness): the two triangles apart. *)
Lemma segmenter_returns_witness :
  exists patches, segmentWithSeams Quad.apart [] Quad.options = JS.Ok patches.
Proof.
  apply (segmenter_returns Quad.apart [] Quad.options).
  intros face v [<-|[<-|[]]] Hv; simpl in *; lia.
Defined.

End RedWalls.

(* ----------------------------------------------------------------- *)
(** ** TopologyRepair: cuts, sub-meshes and paths *)

Section ComponentsPartition.
Import Geometry TopologyRepair.

Lemma componentsFrom_partition (succ : nat -> list nat) (U : list nat) (starts : list nat) :
  NoDup U -> (forall x y, In y (succ x) -> In y U) -> incl starts U ->
  forall visited acc,
    NoDup (concat acc) ->
    (forall x, In x visited <-> In x (concat acc)) ->
    (forall x, In x (concat acc) -> In x U) ->
    Forall (fun c => c <> []) acc ->
    let r := componentsFrom succ (length U) starts visited acc in
    NoDup (concat r) /\
    (forall x, In x (concat r) -> In x U) /\
    (forall s, In s starts -> In s (concat r)) /\
    (forall x, In x (concat acc) -> In x (concat r)) /\
    Forall (fun c => c <> []) r.
Proof.
  intros HU Hcl. induction starts as [|s rest IH];
    intros Hin visited acc Hnd Hvis Hrange Hne; simpl.
  - split; [assumption|]. split; [assumption|]. split; [intros s0 []|].
    split; [auto|assumption].
  - assert (Hrest : incl rest U) by (intros x Hx; apply Hin; now right).
    assert (Hs : In s U) by (apply Hin; now left).
    destruct (Worklist.mem s visited) eqn:Hm.
    + destruct (IH Hrest visited acc Hnd Hvis Hrange Hne) as (H1 & H2 & H3 & H4 & H5).
      split; [assumption|]. split; [assumption|]. split; [|split; assumption].
      intros x [<-|Hx]; [|now apply H3].
      apply mem_true in Hm. apply H4. now apply Hvis.
    + apply mem_false in Hm.
      destruct (traversal_complete succ true visited U s HU Hcl Hm Hs)
        as (_ & Hpn & Hstart & Hpr & Hpv & _).
      set (st := fst (Worklist.run succ true (fun _ => false) (length U)
                        (Worklist.mkState (s :: visited) [] [s] []))) in *.
      assert (Hcat : concat (acc ++ [Worklist.popped st])
                     = concat acc ++ Worklist.popped st).
      { rewrite concat_app. simpl. now rewrite app_nil_r. }
      destruct (IH Hrest (Worklist.visited st) (acc ++ [Worklist.popped st]))
        as (H1 & H2 & H3 & H4 & H5).
      * rewrite Hcat. apply NoDup_app_iff. split; [assumption|]. split; [assumption|].
        intros x Hx Hp. apply Hpr in Hp as [_ Hp]. apply Hp, Hvis. exact Hx.
      * intros x. rewrite Hcat, in_app_iff, Hpv, Hvis. tauto.
      * intros x. rewrite Hcat, in_app_iff. intros [Hx|Hx]; [now apply Hrange|].
        now apply Hpr in Hx.
      * apply Forall_app. split; [assumption|]. constructor; [|constructor].
        intros E. rewrite E in Hstart. destruct Hstart.
      * split; [assumption|]. split; [assumption|]. split; [|split; [|assumption]].
        -- intros x [<-|Hx]; [|now apply H3].
           apply H4. rewrite Hcat. apply in_app_iff. now right.
        -- intros x Hx. apply H4. rewrite Hcat. apply in_app_iff. now left.
Qed.

Lemma faceGroups_partition (mesh : Patch) (path : list nat) :
  Permutation (concat (faceGroups mesh path)) (seq 0 (length (faces mesh))) /\
  Forall (fun c => c <> []) (faceGroups mesh path).
Proof.
  unfold faceGroups.
  destruct (faceAdjacency_inv mesh (pathKeys path)) as [Hk Hc].
  assert (H := componentsFrom_partition
                 (neighborsIn (faceAdjacency mesh (pathKeys path)))
                 (seq 0 (length (faces mesh))) (seq 0 (length (faces mesh)))
                 (seq_NoDup _ 0)).
  rewrite length_seq in H.
  destruct (H (fun x y Hy => eq_ind _ (fun l => In y l)
                               (neighborsIn_closed _ x y Hc Hy) _ Hk)
              (incl_refl _) [] [])
    as (H1 & H2 & H3 & _ & H5).
  - constructor.
  - intros x. simpl. tauto.
  - intros x [].
  - constructor.
  - split; [|assumption].
    apply NoDup_Permutation; [assumption|apply seq_NoDup|].
    intros x. split; [apply H2|apply H3].
Qed.

Lemma list_sum_concat (xs : list (list nat)) :
  length (concat xs) = list_sum (map (@length nat) xs).
Proof.
  induction xs as [|l xs IH]; simpl; [reflexivity|].
  now rewrite length_app, IH.
Qed.

Lemma cutMeshAlongPath_partition (mesh : Patch) (path : list nat) :
  2 <= length path ->
  cutMeshAlongPath mesh path <> [] ->
  2 <= length (cutMeshAlongPath mesh path) /\
  Permutation (concat (map pieceFaces (cutMeshAlongPath mesh path)))
              (seq 0 (length (faces mesh))) /\
  list_sum (map (fun p => length (faces p)) (cutMeshAlongPath mesh path))
  = length (faces mesh).
Proof.
  intros Hp Hne.
  destruct (cutMeshAlongPath_size mesh path Hp) as [H|H]; [contradiction|].
  split; [assumption|]. clear H.
  unfold cutMeshAlongPath in *.
  replace (length path <? 2) with false in * by (symmetry; apply Nat.ltb_ge; exact Hp).
  destruct (length (faceGroups mesh path) <=? 1); [contradiction|].
  destruct (faceGroups_partition mesh path) as [Hperm _].
  assert (Hpieces : map pieceFaces (map (createSubMesh mesh) (faceGroups mesh path))
                    = faceGroups mesh path).
  { rewrite map_map. apply map_id. }
  split; [now rewrite Hpieces|].
  rewrite map_map.
  replace (map (fun x => length (faces (createSubMesh mesh x))) (faceGroups mesh path))
    with (map (@length nat) (faceGroups mesh path))
    by (apply map_ext; intros g; simpl; now rewrite length_map).
  rewrite <- list_sum_concat, (Permutation_length Hperm). apply length_seq.
Qed.

(** X9: a cut that succeeds gives at least two pieces, and the pieces
    share out the faces of the patch: every face index of the patch is an
    original face index of exactly one piece, once, and the pieces have
    together as many faces as the patch. *)
Theorem cut_partitions_faces (mesh : Patch) (path : list nat) :
  2 <= length path ->
  cutMeshAlongPath mesh path <> [] ->
  2 <= length (cutMeshAlongPath mesh path) /\
  Permutation (concat (map pieceFaces (cutMeshAlongPath mesh path)))
              (seq 0 (length (faces mesh))) /\
  list_sum (map (fun p => length (faces p)) (cutMeshAlongPath mesh path))
  = length (faces mesh).
Proof. apply cutMeshAlongPath_partition. Qed.

(** X9 (witness): the square cut along its diagonal. *)
Lemma cut_partitions_faces_witness :
  2 <= length (cutMeshAlongPath Square.mesh [0; 2]) /\
  Permutation (concat (map pieceFaces (cutMeshAlongPath Square.mesh [0; 2])))
              (seq 0 (length (faces Square.mesh))) /\
  list_sum (map (fun p => length (faces p)) (cutMeshAlongPath Square.mesh [0; 2]))
  = length (faces Square.mesh).
Proof.
  apply (cut_partitions_faces Square.mesh [0; 2]).
  - simpl. lia.
  - vm_compute. discriminate.
Defined.

End ComponentsPartition.

Section SubMeshTables.
Import Geometry TopologyRepair.

Lemma numberFrom_same (used : list nat) :
  forall k m, TopologyRepair.numberFrom k used m = FloodSegmenter.numberFrom k used m.
Proof. induction used as [|g rest IH]; intros k m; simpl; [reflexivity|apply IH]. Qed.

Lemma used_NoDup (fs : list (list nat)) (faceIndices : list nat) :
  forall used, NoDup used ->
    NoDup (fold_left (fun used faceIdx =>
                        fold_left (fun acc v => JS.add v acc) (nth faceIdx fs []) used)
                     faceIndices used).
Proof.
  induction faceIndices as [|fi rest IH]; intros used H; simpl; [assumption|].
  apply IH. revert used H.
  induction (nth fi fs []) as [|v vs IHv]; intros used H; simpl; [assumption|].
  apply IHv. now apply NoDup_add.
Qed.

Lemma used_covers (fs : list (list nat)) (faceIndices : list nat) :
  forall used,
    (forall v, In v used ->
       In v (fold_left (fun used faceIdx =>
                          fold_left (fun acc v => JS.add v acc) (nth faceIdx fs []) used)
                       faceIndices used)) /\
    (forall fi v, In fi faceIndices -> In v (nth fi fs []) ->
       In v (fold_left (fun used faceIdx =>
                          fold_left (fun acc v => JS.add v acc) (nth faceIdx fs []) used)
                       faceIndices used)).
Proof.
  assert (Hface : forall (face : list nat) used,
            (forall v, In v used -> In v (fold_left (fun acc v => JS.add v acc) face used)) /\
            (forall v, In v face -> In v (fold_left (fun acc v => JS.add v acc) face used))).
  { induction face as [|w ws IHw]; intros used; simpl; [split; [auto|intros v []]|].
    destruct (IHw (JS.add w used)) as [H1 H2]. split.
    - intros v Hv. apply H1, in_add. now right.
    - intros v [<-|Hv]; [apply H1, in_add; now left|now apply H2]. }
  induction faceIndices as [|fi rest IH]; intros used; simpl.
  - split; [auto|intros fi v []].
  - destruct (IH (fold_left (fun acc v => JS.add v acc) (nth fi fs []) used)) as [H1 H2].
    destruct (Hface (nth fi fs []) used) as [F1 F2]. split.
    + intros v Hv. now apply H1, F1.
    + intros fi' v [<-|Hfi] Hv; [now apply H1, F2|now apply (H2 fi')].
Qed.

(** X10: the tables of a sub-mesh made by [createSubMesh] from face
    indices of the mesh give the faces back: a face of the sub-mesh, read
    through [localToGlobal], is the face of the mesh that its original index
    names; every index of a face of the sub-mesh names one of its vertices,
    which is the copy of the vertex of the mesh that [localToGlobal] names;
    and [localToGlobal] has no index twice. *)
Theorem createSubMesh_round_trip (mesh : Patch) (faceIndices : list nat) :
  (forall faceIdx, In faceIdx faceIndices -> faceIdx < length (faces mesh)) ->
  let piece := createSubMesh mesh faceIndices in
  let l2g := match maps piece with Some m => localToGlobal m | None => [] end in
  NoDup l2g /\
  vertices piece = map (copyVertex mesh) l2g /\
  map (map (fun l => nth l l2g 0)) (faces piece)
  = map (fun faceIdx => nth faceIdx (faces mesh) []) faceIndices /\
  (forall face l, In face (faces piece) -> In l face -> l < length (vertices piece)).
Proof.
  intros _. cbn zeta. unfold createSubMesh. cbn [maps localToGlobal vertices faces].
  set (used := fold_left _ faceIndices []).
  assert (Hnd : NoDup used) by (apply used_NoDup; constructor).
  assert (Hcov : forall fi v, In fi faceIndices -> In v (nth fi (faces mesh) []) ->
                              In v used).
  { apply (proj2 (used_covers (faces mesh) faceIndices [])). }
  assert (Hget : forall v, In v used ->
            exists l, JS.get Nat.eqb v (numberFrom 0 used []) = Some l /\
                      nth_error used l = Some v).
  { intros v Hv. apply In_nth_error in Hv as (l & Hl). exists l. split; [|assumption].
    rewrite numberFrom_same. now rewrite (numberFrom_complete _ 0 [] v l Hnd Hl). }
  split; [assumption|]. split; [reflexivity|]. split.
  - rewrite map_map. apply map_ext_in. intros fi Hfi. rewrite map_map.
    rewrite <- (map_id (nth fi (faces mesh) [])) at 2.
    apply map_ext_in. intros v Hv.
    destruct (Hget v (Hcov fi v Hfi Hv)) as (l & -> & Hl).
    now apply nth_error_nth.
  - intros face l Hface Hl. rewrite length_map.
    apply in_map_iff in Hface as (fi & <- & Hfi).
    apply in_map_iff in Hl as (v & <- & Hv).
    destruct (Hget v (Hcov fi v Hfi Hv)) as (l & -> & Hl).
    apply nth_error_Some. congruence.
Qed.

(** X10 (witness): the second triangle of the square. *)
Lemma createSubMesh_round_trip_witness :
  NoDup [0; 2; 3] /\
  vertices (createSubMesh Square.mesh [1]) = map (copyVertex Square.mesh) [0; 2; 3] /\
  map (map (fun l => nth l [0; 2; 3] 0)) (faces (createSubMesh Square.mesh [1]))
  = map (fun faceIdx => nth faceIdx (faces Square.mesh) []) [1] /\
  (forall face l, In face (faces (createSubMesh Square.mesh [1])) -> In l face ->
                  l < length (vertices (createSubMesh Square.mesh [1]))).
Proof.
  apply (createSubMesh_round_trip Square.mesh [1]).
  intros faceIdx [<-|[]]. simpl. lia.
Defined.

Lemma repairOne_faces (minFaces : nat) (mesh : Patch) (out : list Patch) :
  repairOne minFaces mesh = JS.Ok out ->
  list_sum (map (fun p => length (faces p)) out)
  = if length (faces mesh) <? minFaces then 0 else length (faces mesh).
Proof.
  unfold repairOne. destruct (length (faces mesh) <? minFaces); [intros H; now inversion H|].
  assert (Hcut : forall path, 2 <= length path ->
            list_sum (map (fun p => length (faces p))
                          (match cutMeshAlongPath mesh path with
                           | [] => [mesh]
                           | _ => cutMeshAlongPath mesh path
                           end)) = length (faces mesh)).
  { intros path Hp. destruct (cutMeshAlongPath mesh path) as [|p ps] eqn:E;
      [simpl; lia|].
    rewrite <- E. apply cutMeshAlongPath_partition; [assumption|]. rewrite E. discriminate. }
  assert (Hone : list_sum (map (fun p => length (faces p)) [mesh]) = length (faces mesh))
    by (simpl; lia).
  destruct (euler (computeEuler mesh) =? 1)%Z; [intros H; now inversion H|].
  destruct ((euler (computeEuler mesh) =? 0)%Z && (2 <=? boundaryLoopCount (computeEuler mesh))).
  { intros H. apply bind_ok in H as (fixed & Hfix & H). inversion H; subst out. clear H.
    destruct fixed as [ps|]; [|exact Hone].
    unfold repairCylinder in Hfix.
    destruct (separateBoundaryLoops _) as [|loopA [|loopB loops]]; try discriminate.
    apply bind_ok in Hfix as (bridge & _ & Hfix).
    destruct bridge as [br|]; [|discriminate].
    apply bind_ok in Hfix as (path & _ & Hfix).
    destruct (length path <? 2) eqn:Hp; [discriminate|]. apply Nat.ltb_ge in Hp.
    apply bind_ok in Hfix as (path' & Hsnap & Hfix).
    apply snapPathToBoundary_length in Hsnap.
    assert (Hp' : 2 <= length path') by lia.
    specialize (Hcut path' Hp').
    destruct (cutMeshAlongPath mesh path') as [|p ps'] eqn:E; [discriminate|].
    inversion Hfix; subst ps. exact Hcut. }
  destruct ((euler (computeEuler mesh) =? 2)%Z && _); [intros H; now inversion H|].
  destruct (euler (computeEuler mesh) <? -1)%Z; [intros H; now inversion H|].
  unfold repairGeneric.
  destruct (boundaryEdges (computeEuler mesh)) as [|[a0 b0] bes]; [intros H; now inversion H|].
  intros H. apply bind_ok in H as (st & _ & H).
  destruct (fst st) as [pointA pointB].
  apply bind_ok in H as (path & _ & H).
  destruct (length path <? 2) eqn:Hp; [now inversion H|]. apply Nat.ltb_ge in Hp.
  specialize (Hcut path Hp).
  destruct (cutMeshAlongPath mesh path) as [|p ps'] eqn:E; inversion H; subst out; exact Hcut.
Qed.

(** X11: the repair stage neither loses nor invents a face of a sub-mesh it
    keeps: what it returns has together as many faces as the sub-meshes
    that have at least [minFaces] faces. *)
Theorem repairAll_keeps_faces (subMeshes : list Patch) (minFaces : nat) (out : list Patch) :
  repairAll subMeshes minFaces = JS.Ok out ->
  list_sum (map (fun p => length (faces p)) out)
  = list_sum (map (fun p => length (faces p)) (finalCleanup subMeshes minFaces)).
Proof.
  revert out. induction subMeshes as [|mesh rest IH]; intros out H; simpl in H.
  - inversion H. reflexivity.
  - apply bind_ok in H as (added & Hadd & H). apply bind_ok in H as (results & Hres & H).
    inversion H; subst out. clear H.
    rewrite map_app, list_sum_app, (IH results Hres), (repairOne_faces _ _ _ Hadd).
    unfold finalCleanup. simpl.
    destruct (length (faces mesh) <? minFaces) eqn:E.
    + apply Nat.ltb_lt in E.
      replace (minFaces <=? length (faces mesh)) with false
        by (symmetry; apply Nat.leb_gt; exact E). reflexivity.
    + apply Nat.ltb_ge in E.
      replace (minFaces <=? length (faces mesh)) with true
        by (symmetry; apply Nat.leb_le; exact E). reflexivity.
Qed.

(** X11 (witness): the tube, which the repair leaves whole, and the square. *)
Lemma repairAll_keeps_faces_witness :
  list_sum (map (fun p => length (faces p)) [Tube.mesh; Square.mesh])
  = list_sum (map (fun p => length (faces p)) (finalCleanup [Tube.mesh; Square.mesh] 1)).
Proof.
  apply (repairAll_keeps_faces [Tube.mesh; Square.mesh] 1 [Tube.mesh; Square.mesh]).
  vm_compute. reflexivity.
Defined.

End SubMeshTables.

Section GeodesicPath.
Import Geometry TopologyRepair Worklist.

Lemma offer_prev_edges (P : nat -> nat -> Prop) (curr : nat) (nexts : list nat) :
  forall st,
    (forall n, In n nexts -> P n curr) ->
    (forall n c, In (n, c) (prev st) -> P n c) ->
    forall n c, In (n, c) (prev (offer curr nexts st)) -> P n c.
Proof.
  induction nexts as [|x rest IH]; intros st Hnew Hold; simpl; [assumption|].
  destruct (mem x (visited st)).
  - apply IH; [intros n Hn; apply Hnew; now right|assumption].
  - apply IH; [intros n Hn; apply Hnew; now right|].
    simpl. intros n c [H|H]; [inversion H; subst; apply Hnew; now left|now apply Hold].
Qed.

Lemma run_prev_edges (succ : nat -> list nat) (fifo : bool) (stop : nat -> bool)
      (P : nat -> nat -> Prop) (fuel : nat) :
  (forall x y, In y (succ x) -> P y x) ->
  forall st,
    (forall n c, In (n, c) (prev st) -> P n c) ->
    forall n c, In (n, c) (prev (fst (run succ fifo stop fuel st))) -> P n c.
Proof.
  intros Hsucc. induction fuel as [|fuel IH]; intros st Hold; simpl; [assumption|].
  destruct (take fifo (queue st)) as [[curr rest]|]; [|assumption].
  destruct (stop curr); simpl; [assumption|].
  apply IH. apply offer_prev_edges; [intros n Hn; now apply Hsucc|assumption].
Qed.

Lemma run_reached (succ : nat -> list nat) (fifo : bool) (stop : nat -> bool) (fuel : nat) :
  forall st c,
    incl (queue st) (visited st) ->
    snd (run succ fifo stop fuel st) = Some c ->
    stop c = true /\ In c (visited (fst (run succ fifo stop fuel st))).
Proof.
  induction fuel as [|fuel IH]; intros st c Hq; simpl; [discriminate|].
  destruct (take fifo (queue st)) as [[curr rest]|] eqn:Ht; [|discriminate].
  apply take_perm in Ht.
  destruct (stop curr) eqn:Hs; simpl.
  - intros H. inversion H; subst. split; [assumption|]. apply Hq.
    apply (Permutation_in _ (Permutation_sym Ht)). now left.
  - apply IH.
    destruct (offer_spec curr (succ curr)
                (mkState (visited st) (prev st) rest (popped st ++ [curr])))
      as (new & Hqn & Hvn & _).
    rewrite Hqn, Hvn. simpl. intros x Hx. apply in_app_iff.
    apply in_app_iff in Hx as [Hx|Hx]; [right|left; now apply in_rev in Hx].
    apply Hq. apply (Permutation_in _ (Permutation_sym Ht)). now right.
Qed.

Lemma steps_snoc {A : Type} (R : A -> A -> Prop) (chain : list A) (c n d : A) :
  chain <> [] -> last chain d = c ->
  (forall i a b, nth_error chain i = Some a -> nth_error chain (S i) = Some b -> R a b) ->
  R c n ->
  forall i a b, nth_error (chain ++ [n]) i = Some a ->
                nth_error (chain ++ [n]) (S i) = Some b -> R a b.
Proof.
  induction chain as [|x chain IH]; intros Hne Hlast Hsteps Hcn i a b Ha Hb;
    [contradiction|].
  destruct chain as [|y chain].
  - simpl in Hlast. subst x. destruct i as [|i]; simpl in Ha, Hb.
    + inversion Ha; inversion Hb; subst. assumption.
    + destruct i; simpl in Hb; [discriminate|destruct i; discriminate].
  - destruct i as [|i].
    + simpl in Ha, Hb. inversion Ha; inversion Hb; subst.
      apply (Hsteps 0); reflexivity.
    + apply (IH ltac:(discriminate) Hlast) with (i := i); try assumption.
      intros j a' b' Ha' Hb'. apply (Hsteps (S j)); assumption.
Qed.

Lemma pathBack_chain (s : nat) (prev : list (nat * nat)) :
  NoDup (map fst prev ++ [s]) ->
  (forall pre n c post, prev = pre ++ (n, c) :: post -> In c (map fst post ++ [s])) ->
  forall post pre, prev = pre ++ post ->
  forall node path, In node (map fst post ++ [s]) ->
    exists chain,
      pathBack (S (length post)) prev node path = chain ++ path /\
      hd_error chain = Some s /\ last chain s = node /\
      forall i a b, nth_error chain i = Some a -> nth_error chain (S i) = Some b ->
                    In (b, a) prev.
Proof.
  intros Hnd Hold. induction post as [|[n c] post IH]; intros pre Hsplit node path Hnode.
  - destruct Hnode as [<-|[]].
    assert (Hs : JS.get Nat.eqb s prev = None).
    { apply get_none_keys. apply NoDup_remove_2 in Hnd. rewrite app_nil_r in Hnd.
      exact Hnd. }
    exists [s]. simpl. rewrite Hs. split; [reflexivity|]. split; [reflexivity|].
    split; [reflexivity|]. intros i a b _ Hb. destruct i; discriminate.
  - assert (Hsplit' : prev = (pre ++ [(n, c)]) ++ post)
      by (rewrite <- app_assoc; exact Hsplit).
    destruct (Nat.eq_dec node n) as [->|Hne].
    + assert (Hget : JS.get Nat.eqb n prev = Some c).
      { rewrite Hsplit, get_app_absent; [simpl; now rewrite Nat.eqb_refl|].
        rewrite Hsplit, map_app in Hnd. simpl in Hnd.
        rewrite <- app_assoc in Hnd. simpl in Hnd.
        apply NoDup_remove_2 in Hnd. intros H. apply Hnd.
        apply in_app_iff. now left. }
      destruct (IH _ Hsplit' c (n :: path) (Hold pre n c post Hsplit))
        as (chain & Hrun & Hhd & Hlast & Hsteps).
      exists (chain ++ [n]). cbn [length].
      change (pathBack (S (S (length post))) prev n path)
        with (match JS.get Nat.eqb n prev with
              | Some p => pathBack (S (length post)) prev p (n :: path)
              | None => n :: path
              end).
      rewrite Hget, Hrun.
      assert (Hne : chain <> []) by (intros E; rewrite E in Hhd; discriminate).
      split; [now rewrite <- app_assoc|]. split.
      * destruct chain; [contradiction|assumption].
      * split; [apply last_last|].
        apply (steps_snoc (fun a b => In (b, a) prev) chain c n s Hne Hlast Hsteps).
        rewrite Hsplit. apply in_app_iff. right. now left.
    + assert (Hin : In node (map fst post ++ [s])).
      { simpl in Hnode. destruct Hnode as [Hn|Hn]; [congruence|assumption]. }
      destruct (IH _ Hsplit' node path Hin) as (chain & Hrun & Hrest).
      exists chain. split; [|exact Hrest].
      rewrite <- Hrun. cbn [length].
      replace (S (S (length post))) with (S (length post) + 1) by lia.
      apply (pathBack_fuel_enough s prev Hnd Hold post _ Hsplit'). exact Hin.
Qed.

Lemma set_in_nat {V : Type} (k : nat) (v : V) (m : list (nat * V)) :
  forall k0 v0, In (k0, v0) (JS.set Nat.eqb k v m) ->
    In (k0, v0) m \/ (k0 = k /\ v0 = v).
Proof.
  induction m as [|[k' v'] rest IH]; simpl; intros k0 v0 H.
  - destruct H as [H|[]]. inversion H. now right.
  - destruct (k =? k') eqn:E.
    + destruct H as [H|H]; [|left; now right]. inversion H; subst. right.
      apply Nat.eqb_eq in E. now subst.
    + destruct H as [H|H]; [left; now left|].
      destruct (IH _ _ H) as [H'|H']; [left; now right|now right].
Qed.

Lemma addNeighbor_joined (mesh : Patch) (a b : nat) (adj adj' : list (nat * list nat)) :
  joined mesh a b ->
  addNeighbor a b adj = JS.Ok adj' ->
  (forall k l y, In (k, l) adj -> In y l -> joined mesh k y) ->
  forall k l y, In (k, l) adj' -> In y l -> joined mesh k y.
Proof.
  intros Hab Hadd Hold k l y Hin Hy. unfold addNeighbor in Hadd.
  destruct (JS.get Nat.eqb a adj) as [l0|] eqn:Hg; [|discriminate].
  inversion Hadd; subst adj'. clear Hadd.
  apply get_some_in in Hg.
  apply set_in_nat in Hin as [Hin|[-> ->]]; [now apply (Hold k l)|].
  apply in_add in Hy as [->|Hy]; [assumption|now apply (Hold a l0)].
Qed.

Lemma joined_sym (mesh : Patch) (a b : nat) : joined mesh a b -> joined mesh b a.
Proof. intros (face & Hf & H). exists face. tauto. Qed.

Lemma vertexAdjacency_joined (mesh : Patch) (adj : list (nat * list nat)) :
  vertexAdjacency mesh = JS.Ok adj ->
  forall k l y, In (k, l) adj -> In y l -> joined mesh k y.
Proof.
  unfold vertexAdjacency.
  assert (H0 : forall k l y,
            In (k, l) (map (fun i : nat => (i, @nil nat)) (seq 0 (length (vertices mesh)))) ->
            In y l -> joined mesh k y).
  { intros k l y Hin Hy. apply in_map_iff in Hin as (i & Hi & _).
    inversion Hi; subst. destruct Hy. }
  assert (Hes : forall e, In e (flat_map faceEdges (faces mesh)) ->
                          joined mesh (fst e) (snd e)).
  { intros [a b] He. apply in_flat_map in He as (face & Hf & He).
    exists face. split; [assumption|now left]. }
  revert H0 Hes. generalize (map (fun i : nat => (i, @nil nat)) (seq 0 (length (vertices mesh)))).
  generalize (flat_map faceEdges (faces mesh)). intros es.
  induction es as [|e es IH]; intros adj0 Hinv Hes Hfold; simpl in Hfold.
  - inversion Hfold; subst. assumption.
  - destruct (addNeighbor (fst e) (snd e) adj0) as [adj1|] eqn:H1; simpl in Hfold.
    + destruct (addNeighbor (snd e) (fst e) adj1) as [adj2|] eqn:H2.
      * apply (IH adj2); [| |assumption].
        -- apply (addNeighbor_joined mesh (snd e) (fst e) adj1 adj2); [|assumption|].
           ++ apply joined_sym, Hes. now left.
           ++ apply (addNeighbor_joined mesh (fst e) (snd e) adj0 adj1);
                [|assumption|assumption].
              apply Hes. now left.
        -- intros e' He'. apply Hes. now right.
      * exfalso. clear -Hfold.
        induction es as [|e' es IH]; simpl in Hfold; [discriminate|auto].
    + exfalso. clear -Hfold.
      induction es as [|e' es IH]; simpl in Hfold; [discriminate|auto].
Qed.

Lemma findGeodesicPath_spec (mesh : Patch) (start finish : nat) (path : list nat) :
  findGeodesicPath mesh start finish = JS.Ok path ->
  hd_error path = Some start /\ last path start = finish /\
  (path = [start; finish] \/
   forall i a b, nth_error path i = Some a -> nth_error path (S i) = Some b ->
                 joined mesh a b).
Proof.
  intros H. unfold findGeodesicPath in H.
  apply bind_ok in H as (adj & Hadj & H).
  destruct (run (neighborsIn adj) true (fun curr => curr =? finish) (S (length adj))
                (mkState [start] [] [start] [])) as [st reached] eqn:Hrun.
  destruct reached as [c|];
    [|inversion H; split; [reflexivity|split; [reflexivity|now left]]].
  assert (Hp : path = pathBack (S (length (prev st))) (prev st) finish [])
    by congruence.
  clear H.
  assert (Hst : st = fst (run (neighborsIn adj) true (fun curr => curr =? finish)
                             (S (length adj)) (mkState [start] [] [start] [])))
    by now rewrite Hrun.
  assert (Hinv : PrevInv start (mkState [start] [] [start] [])).
  { constructor; simpl.
    - reflexivity.
    - repeat constructor. intros [].
    - apply incl_refl.
    - intros pre n c0 post H. destruct pre; discriminate. }
  apply (run_prev (neighborsIn adj) true (fun curr => curr =? finish) start
           (S (length adj))) in Hinv.
  rewrite <- Hst in Hinv. destruct Hinv as [Hkeys Hnd _ Hold].
  destruct (run_reached (neighborsIn adj) true (fun curr => curr =? finish) (S (length adj))
              (mkState [start] [] [start] []) c (incl_refl _)) as [Hc Hvis];
    [now rewrite Hrun|].
  rewrite <- Hst in Hvis. apply Nat.eqb_eq in Hc. subst c.
  destruct (pathBack_chain start (prev st)) with (post := prev st) (pre := @nil (nat * nat))
                                                 (node := finish) (path := @nil nat)
    as (chain & Hpb & Hhd & Hlast & Hsteps).
  - now rewrite <- Hkeys.
  - exact Hold.
  - reflexivity.
  - now rewrite <- Hkeys.
  - rewrite Hp, Hpb, app_nil_r. split; [assumption|]. split; [assumption|]. right.
    intros i a b Ha Hb. specialize (Hsteps i a b Ha Hb).
    assert (Hedges : forall n c0, In (n, c0) (prev st) -> joined mesh n c0).
    { rewrite Hst.
      apply (run_prev_edges (neighborsIn adj) true (fun curr => curr =? finish)
               (fun n c0 => joined mesh n c0)).
      - intros x y Hy. unfold neighborsIn in Hy.
        destruct (JS.get Nat.eqb x adj) as [l|] eqn:Hg; [|destruct Hy].
        apply get_some_in in Hg. apply joined_sym.
        apply (vertexAdjacency_joined mesh adj Hadj x l y Hg Hy).
      - intros n c0 []. }
    apply joined_sym. now apply Hedges.
Qed.

(** From a vertex to itself the path is the vertex alone, on every mesh
    (also on one without vertices): [start] leaves the queue first. *)
Lemma findGeodesicPath_same (mesh : Patch) (start : nat) (adj : list (nat * list nat)) :
  vertexAdjacency mesh = JS.Ok adj ->
  findGeodesicPath mesh start start = JS.Ok [start].
Proof.
  intros Hadj. unfold findGeodesicPath. rewrite Hadj. cbn [JS.bind].
  cbn [Worklist.run Worklist.take Worklist.queue]. rewrite Nat.eqb_refl.
  reflexivity.
Qed.

(** X12: the path of [findGeodesicPath] starts at [start] and ends at
    [end]; it is the pair [[start, end]], or every two consecutive vertices
    of it are the ends of an edge of a face. *)
Theorem geodesic_path_joins (mesh : Patch) (start finish : nat) (path : list nat) :
  findGeodesicPath mesh start finish = JS.Ok path ->
  hd_error path = Some start /\ last path start = finish /\
  (path = [start; finish] \/
   forall i a b, nth_error path i = Some a -> nth_error path (S i) = Some b ->
                 joined mesh a b).
Proof. apply findGeodesicPath_spec. Qed.

(** X12 (witness): from corner 1 to corner 3 of the square, through corner 0. *)
Lemma geodesic_path_joins_witness :
  hd_error [1; 0; 3] = Some 1 /\ last [1; 0; 3] 1 = 3 /\
  ([1; 0; 3] = [1; 3] \/
   forall i a b, nth_error [1; 0; 3] i = Some a -> nth_error [1; 0; 3] (S i) = Some b ->
                 joined Square.mesh a b).
Proof.
  apply (geodesic_path_joins Square.mesh 1 3 [1; 0; 3]).
  vm_compute. reflexivity.
Defined.

Lemma last_default {A : Type} (x : A) (l : list A) (d d' : A) :
  last (x :: l) d = last (x :: l) d'.
Proof.
  revert x. induction l as [|a l IH]; intros x; [reflexivity|].
  change (last (a :: l) d = last (a :: l) d'). apply IH.
Qed.

Lemma everyNth_incl (step : nat) (loop : list nat) :
  forall skip, incl (everyNth step skip loop) loop.
Proof.
  induction loop as [|v rest IH]; intros skip x Hx; simpl in *; [assumption|].
  destruct skip as [|k].
  - destruct Hx as [Hx|Hx]; [now left|right; now apply (IH (step - 1))].
  - right. now apply (IH k).
Qed.

Lemma sampleLoop_incl (loop : list nat) (maxSamples : nat) :
  incl (sampleLoop loop maxSamples) loop.
Proof.
  unfold sampleLoop. destruct (length loop <=? maxSamples);
    [apply incl_refl|apply everyNth_incl].
Qed.

Lemma findShortestBridge_ends (mesh : Patch) (loopA loopB : list nat) (br : Bridge) :
  findShortestBridge mesh loopA loopB = JS.Ok (Some br) ->
  In (startV br) loopA /\ In (endV br) loopB.
Proof.
  unfold findShortestBridge. intros H. apply bind_ok in H as (st & Hfold & H).
  inversion H as [Hbr]. clear H.
  assert (Hpairs : forall p,
            In p (flat_map (fun vA => map (fun vB => (vA, vB)) (sampleLoop loopB 20))
                           (sampleLoop loopA 20)) ->
            In (fst p) loopA /\ In (snd p) loopB).
  { intros [a b] Hp. apply in_flat_map in Hp as (vA & HA & Hp).
    apply in_map_iff in Hp as (vB & Hp & HB). inversion Hp; subst. simpl.
    split; [now apply (sampleLoop_incl loopA 20)|now apply (sampleLoop_incl loopB 20)]. }
  assert (H0 : forall b, fst (@None Bridge, PrimFloat.infinity) = Some b ->
                         In (startV b) loopA /\ In (endV b) loopB) by discriminate.
  revert Hfold Hpairs H0.
  generalize (@None Bridge, PrimFloat.infinity).
  generalize (flat_map (fun vA => map (fun vB => (vA, vB)) (sampleLoop loopB 20))
                       (sampleLoop loopA 20)).
  intros pairs. induction pairs as [|p pairs IH]; intros st0 Hfold Hpairs H0; simpl in Hfold.
  - inversion Hfold; subst. now apply H0.
  - destruct (distanceAt mesh (fst p) (snd p)) as [dist|] eqn:Hd; simpl in Hfold.
    + apply (IH _ Hfold); [intros q Hq; apply Hpairs; now right|].
      destruct (JSNum.lt dist (snd st0)); [|assumption].
      simpl. intros b Hb. inversion Hb; subst. simpl. apply Hpairs. now left.
    + exfalso. clear -Hfold.
      induction pairs as [|q pairs IH]; simpl in Hfold; [discriminate|auto].
Qed.

(** X13: inside [repairCylinder] the snapping step changes nothing: the
    bridge of [findShortestBridge] starts on the first loop and ends on the
    second one, so that [snapPathToBoundary] gives back the path of
    [findGeodesicPath] between its ends. *)
Theorem snap_keeps_bridge_path (mesh : Patch) (loopA loopB : list nat) (br : Bridge)
        (path : list nat) :
  findShortestBridge mesh loopA loopB = JS.Ok (Some br) ->
  findGeodesicPath mesh (startV br) (endV br) = JS.Ok path ->
  In (startV br) loopA /\ In (endV br) loopB /\
  snapPathToBoundary mesh path loopA loopB = JS.Ok path.
Proof.
  intros Hbr Hpath. destruct (findShortestBridge_ends _ _ _ _ Hbr) as [HA HB].
  split; [assumption|]. split; [assumption|].
  destruct (findGeodesicPath_spec _ _ _ _ Hpath) as (Hhd & Hlast & _).
  unfold snapPathToBoundary. destruct (length path <? 2); [reflexivity|].
  destruct path as [|v rest]; [discriminate|]. simpl in Hhd. inversion Hhd; subst v.
  cbn [hd]. apply has_true in HA. rewrite HA. cbn [JS.bind].
  assert (Hl : last (startV br :: rest) 0 = endV br).
  { rewrite <- Hlast. apply last_default. }
  rewrite Hl. apply has_true in HB. now rewrite HB.
Qed.

(** X13 (witness): the bridge of the tube, from vertex 0 up to vertex 3. *)
Lemma snap_keeps_bridge_path_witness :
  In 0 [0; 1; 2] /\ In 3 [3; 4; 5] /\
  snapPathToBoundary Tube.mesh [0; 3] [0; 1; 2] [3; 4; 5] = JS.Ok [0; 3].
Proof.
  apply (snap_keeps_bridge_path Tube.mesh [0; 1; 2] [3; 4; 5]
           {| startV := 0; endV := 3; bridgeDistance := 3%float |} [0; 3]).
  - vm_compute. reflexivity.
  - vm_compute. reflexivity.
Defined.

End GeodesicPath.

(* ----------------------------------------------------------------- *)
(** ** TopologyRepair: boundary loops and the Euler characteristic *)

Section BoundaryLoops.
Import Geometry TopologyRepair.

Lemma ensure_keys (v : nat) (adj : list (nat * list nat)) (k : nat) :
  In k (map fst (ensure v adj)) <-> k = v \/ In k (map fst adj).
Proof.
  unfold ensure. destruct (JS.get Nat.eqb v adj) as [l|] eqn:Hg.
  - split; [now right|]. intros [->|H]; [|assumption].
    apply get_some_in in Hg. apply in_map_iff. exists (v, l). auto.
  - rewrite (keys_set_absent v [] adj Hg), in_app_iff. simpl. intuition.
Qed.

Lemma link_keys (a b : nat) (adj : list (nat * list nat)) :
  map fst (link a b adj) = map fst adj.
Proof.
  unfold link. destruct (JS.get Nat.eqb a adj) as [l|] eqn:Hg; [|reflexivity].
  apply (keys_set_present a (l ++ [b]) l adj Hg).
Qed.

Lemma boundaryAdjacency_keys (bes : list BoundaryEdge) (k : nat) :
  In k (map fst (boundaryAdjacency bes)) <->
  exists e, In e bes /\ (k = fst e \/ k = snd e).
Proof.
  unfold boundaryAdjacency.
  assert (H : forall adj,
            In k (map fst (fold_left (fun adj e =>
                                        let '(v1, v2) := e in
                                        link v2 v1 (link v1 v2 (ensure v2 (ensure v1 adj))))
                                     bes adj)) <->
            In k (map fst adj) \/ exists e, In e bes /\ (k = fst e \/ k = snd e)).
  { induction bes as [|[v1 v2] rest IH]; intros adj; simpl.
    - split; [now left|]. intros [H|(e & [] & _)]. exact H.
    - rewrite IH, !link_keys, !ensure_keys. split.
      + intros [[Hk|[Hk|H]]|(e & He & Hk)]; try subst k.
        * right. exists (v1, v2). simpl. auto.
        * right. exists (v1, v2). simpl. auto.
        * now left.
        * right. exists e. auto.
      + intros [H|(e & He & Hk)]; [auto|].
        destruct He as [He|He]; [|right; eauto]. subst e.
        simpl in Hk. destruct Hk as [Hk|Hk]; subst k; auto. }
  rewrite H. simpl. split; [intros [[]|H']; exact H'|now right].
Qed.

(** X14: the loops of [separateBoundaryLoops] share out the ends of the
    boundary edges: every end is in one loop, once; no loop is empty, no
    loop is longer than one before it, and [countBoundaryLoops] counts
    these loops. *)
Theorem boundary_loops_partition (bes : list BoundaryEdge) :
  let loops := separateBoundaryLoops bes in
  NoDup (concat loops) /\
  (forall v, In v (concat loops) <-> exists e, In e bes /\ (v = fst e \/ v = snd e)) /\
  Forall (fun l => l <> []) loops /\
  StronglySorted (fun a b => length b <= length a) loops /\
  countBoundaryLoops bes = length loops.
Proof.
  cbn zeta. unfold separateBoundaryLoops.
  destruct (boundaryAdjacency_inv bes) as [Hnd Hc].
  assert (H := componentsFrom_partition
                 (neighborsIn (boundaryAdjacency bes))
                 (map fst (boundaryAdjacency bes)) (map fst (boundaryAdjacency bes)) Hnd
                 (fun x y => neighborsIn_closed _ x y Hc) (incl_refl _) [] []).
  rewrite length_map in H. fold (boundaryComponents bes) in H.
  destruct H as (H1 & H2 & H3 & _ & H5).
  - constructor.
  - intros x. simpl. tauto.
  - intros x [].
  - constructor.
  - assert (Hperm := sortByLengthDesc_perm (boundaryComponents bes)).
    split; [apply (Permutation_NoDup (concat_perm _ _ (Permutation_sym Hperm)) H1)|].
    split.
    + intros v. rewrite <- boundaryAdjacency_keys. split.
      * intros Hv. apply H2. now apply (Permutation_in _ (concat_perm _ _ Hperm)).
      * intros Hv. apply (Permutation_in _ (concat_perm _ _ (Permutation_sym Hperm))).
        now apply H3.
    + split.
      * apply Forall_forall. intros l Hl. apply (Permutation_in _ Hperm) in Hl.
        now apply (proj1 (Forall_forall _ _) H5).
      * split; [apply sortByLengthDesc_sorted|].
        rewrite (Permutation_length Hperm). unfold countBoundaryLoops.
        destruct bes; reflexivity.
Qed.

End BoundaryLoops.

Section EulerCounts.
Import Geometry TopologyRepair Scissor.

Lemma set_keys_keyAdd {V : Type} (k : EdgeKey) (v : V) (m : list (EdgeKey * V)) :
  map fst (JS.set keyEqb k v m) = keyAdd k (map fst m).
Proof.
  unfold keyAdd. induction m as [|[k' v'] rest IH]; simpl; [reflexivity|].
  destruct (keyEqb k k'); simpl; [reflexivity|].
  rewrite IH. unfold keyHas. destruct (existsb (keyEqb k) (map fst rest)); reflexivity.
Qed.

Lemma edgeCounts_keys (fs : list (list nat)) :
  map fst (edgeCounts fs) = edgeSet fs.
Proof.
  unfold edgeCounts, edgeSet.
  assert (H : forall (m : list (EdgeKey * nat)) s, map fst m = s ->
            map fst (fold_left (fun m face => fold_left countEdge (faceKeys face) m) fs m)
            = fold_left (fun s face => fold_left (fun acc k => keyAdd k acc) (faceKeys face) s)
                        fs s).
  { induction fs as [|face rest IH]; intros m s Hm; simpl; [assumption|].
    apply IH. revert m s Hm. induction (faceKeys face) as [|k ks IHk]; intros m s Hm; simpl;
      [assumption|].
    apply IHk. unfold countEdge. rewrite set_keys_keyAdd. now rewrite Hm. }
  now apply H.
Qed.

(** X15: the three counts of the Euler characteristic agree:
    [TopologyRepair.computeEuler], [MeshScissor.isTopologicalDisk] and
    [ClothFlattenerApp.calculateEuler] find the same edges, in the same
    order, hence the same V - E + F, and the first two the same number of
    boundary edges. *)
Theorem euler_counts_agree (vs : list Vertex) (fs : list (list nat)) :
  let patch := {| TopologyRepair.vertices := vs; TopologyRepair.faces := fs;
                  TopologyRepair.maps := None |} in
  let mesh := {| Geometry.vertices := vs; Geometry.faces := fs |} in
  map fst (edgeCounts fs) = edgeSet fs /\
  euler (computeEuler patch) = diskEuler (isTopologicalDisk mesh) /\
  diskEuler (isTopologicalDisk mesh) = ClothFlattenerApp.calculateEuler mesh /\
  E (computeEuler patch) = ClothFlattenerApp.countEdges fs /\
  length (boundaryEdges (computeEuler patch)) = diskBoundaryEdges (isTopologicalDisk mesh).
Proof.
  cbn zeta. unfold computeEuler, isTopologicalDisk, ClothFlattenerApp.calculateEuler,
    ClothFlattenerApp.countEdges.
  cbn [euler E boundaryEdges diskEuler diskBoundaryEdges TopologyRepair.vertices
       TopologyRepair.faces Geometry.vertices Geometry.faces].
  assert (Hk := edgeCounts_keys fs).
  assert (Hl : length (edgeCounts fs) = length (edgeSet fs))
    by (rewrite <- Hk; now rewrite length_map).
  split; [assumption|]. split; [now rewrite Hl|]. split; [reflexivity|].
  split; [assumption|]. now rewrite length_map.
Qed.

(** X16: the repair stage gives back, as they are and in their order, the
    sub-meshes that pass the disk test of [MeshScissor.isTopologicalDisk]
    and have [minFaces] faces or more. *)
Theorem disks_left_alone (subMeshes : list Patch) (minFaces : nat) :
  Forall (fun m =>
            minFaces <= length (faces m) /\
            isValid (isTopologicalDisk {| Geometry.vertices := TopologyRepair.vertices m;
                                         Geometry.faces := TopologyRepair.faces m |}) = true)
         subMeshes ->
  repairAll subMeshes minFaces = JS.Ok subMeshes.
Proof.
  induction 1 as [|m rest [Hbig Hdisk] _ IH]; simpl; [reflexivity|].
  rewrite IH. unfold repairOne.
  replace (length (faces m) <? minFaces) with false
    by (symmetry; apply Nat.ltb_ge; exact Hbig).
  unfold isTopologicalDisk in Hdisk. cbn [isValid Geometry.vertices Geometry.faces] in Hdisk.
  apply andb_prop in Hdisk as [He _].
  unfold computeEuler. cbn [euler].
  assert (Hl : length (edgeCounts (faces m)) = length (edgeSet (faces m)))
    by (rewrite <- edgeCounts_keys; now rewrite length_map).
  rewrite Hl, He. reflexivity.
Qed.

(** X16 (witness): the square of two triangles. *)
Lemma disks_left_alone_witness :
  repairAll [Square.mesh] 1 = JS.Ok [Square.mesh].
Proof.
  apply (disks_left_alone [Square.mesh] 1).
  constructor; [|constructor]. split; [simpl; lia|vm_compute; reflexivity].
Defined.

End EulerCounts.

(* ----------------------------------------------------------------- *)
(** ** MeshScissor: the vertex map of the welder, and the fragments *)

Section WeldingMap.
Import Geometry MeshScissor.

Variable tolerance cellSize : float.

Lemma weldStep_mapSound (seen : list Vertex) (w : Weld) (v : Vertex) :
  mapSound tolerance seen w ->
  mapSound tolerance (seen ++ [v]) (weldStep tolerance cellSize w v).
Proof.
  intros (Hlen & Hkept & Hmap).
  assert (Hold : forall nv vm,
            (exists more, nv = newVertices w ++ more) -> (exists e, vm = vertexMap w ++ [e]) ->
            forall i u, nth_error seen i = Some u ->
              exists j kept, nth_error vm i = Some j /\ nth_error nv j = Some kept /\
                             (kept = u \/ within tolerance u kept = true)).
  { intros nv vm (more & ->) (e & ->) i u Hi.
    destruct (Hmap i u Hi) as (j & kept & Hj & Hk & Hw). exists j, kept.
    split; [rewrite nth_error_app1; [assumption|]; apply nth_error_Some; congruence|].
    split; [|assumption].
    rewrite nth_error_app1; [assumption|]. apply nth_error_Some. congruence. }
  destruct (weldStep_cases tolerance cellSize w v)
    as [(idx & Hfind & _ & Hn & Hv)|(Hfind & _ & Hn & Hv)]; unfold mapSound; rewrite Hn, Hv.
  - split; [rewrite !length_app; simpl; lia|].
    split; [rewrite length_app; simpl; lia|].
    intros i u Hi.
    destruct (Nat.lt_ge_cases i (length seen)) as [Hlt|Hge].
    + rewrite nth_error_app1 in Hi by assumption.
      apply (Hold _ _); [exists []; now rewrite app_nil_r|now exists idx|assumption].
    + rewrite nth_error_app2 in Hi by assumption.
      destruct (i - length seen) as [|k] eqn:Hk; [|destruct k; discriminate].
      simpl in Hi. inversion Hi; subst u. assert (i = length seen) by lia. subst i.
      unfold findExisting in Hfind. apply find_some in Hfind as [_ Hfound].
      destruct (nth_error (newVertices w) idx) as [existing|] eqn:He; [|discriminate].
      exists idx, existing.
      split; [rewrite nth_error_app2 by lia; rewrite Hlen, Nat.sub_diag; reflexivity|].
      split; [assumption|now right].
  - split; [rewrite !length_app; simpl; lia|].
    split; [rewrite !length_app; simpl; lia|].
    intros i u Hi.
    destruct (Nat.lt_ge_cases i (length seen)) as [Hlt|Hge].
    + rewrite nth_error_app1 in Hi by assumption.
      apply (Hold _ _); [now exists [v]|now exists (length (newVertices w))|assumption].
    + rewrite nth_error_app2 in Hi by assumption.
      destruct (i - length seen) as [|k] eqn:Hk; [|destruct k; discriminate].
      simpl in Hi. inversion Hi; subst u. assert (i = length seen) by lia. subst i.
      exists (length (newVertices w)), v.
      split; [rewrite nth_error_app2 by lia; rewrite Hlen, Nat.sub_diag; reflexivity|].
      split; [|now left].
      rewrite nth_error_app2 by lia. now rewrite Nat.sub_diag.
Qed.

Lemma weld_mapSound (vs : list Vertex) :
  forall seen w, mapSound tolerance seen w ->
    mapSound tolerance (seen ++ vs) (fold_left (weldStep tolerance cellSize) vs w).
Proof.
  induction vs as [|v rest IH]; intros seen w H; simpl.
  - now rewrite app_nil_r.
  - replace (seen ++ v :: rest) with ((seen ++ [v]) ++ rest)
      by (rewrite <- app_assoc; reflexivity).
    apply IH. now apply weldStep_mapSound.
Qed.

End WeldingMap.

Section WeldingMapClaim.
Import Geometry MeshScissor.

(** X17: the vertex map of [mergeVertices] has one entry for each vertex of
    the mesh; the entry names a kept vertex, which is that vertex itself
    or a vertex within the tolerance of it by the merge test; the merged
    count and the kept vertices add up to the vertices of the mesh; and
    every index of a kept face names a kept vertex. *)
Theorem weld_map_sound (mesh : Mesh) (tolerance : float) :
  let r := mergeVertices mesh tolerance in
  length (wVertexMap r) = length (vertices mesh) /\
  (forall i v, nth_error (vertices mesh) i = Some v ->
     exists j kept, nth_error (wVertexMap r) i = Some j /\
                    nth_error (wVertices r) j = Some kept /\
                    (kept = v \/ within tolerance v kept = true)) /\
  mergedCount r + length (wVertices r) = length (vertices mesh) /\
  (forall face i, In face (wFaces r) -> In (Some i) face -> i < length (wVertices r)).
Proof.
  cbn zeta. unfold mergeVertices. cbn [wVertexMap wVertices wFaces mergedCount].
  set (cellSize := (tolerance * 10)%float).
  set (start := {| spatialHash := []; newVertices := []; vertexMap := [] |}).
  set (w := fold_left (weldStep tolerance cellSize) (vertices mesh) start).
  assert (H0 : mapSound tolerance [] start).
  { split; [reflexivity|]. split; [simpl; lia|]. intros [|i] v H; discriminate. }
  destruct (weld_mapSound tolerance cellSize (vertices mesh) [] start H0)
    as (Hlen & Hkept & Hmap).
  fold w in Hlen, Hkept, Hmap. simpl in Hlen, Hkept, Hmap.
  split; [assumption|]. split; [assumption|]. split; [lia|].
  intros face i Hface Hi. apply filter_In in Hface as [Hface _].
  apply in_map_iff in Hface as (face0 & <- & _).
  apply (remap_range (vertexMap w) _ face0); [|assumption].
  assert (Hvalid : indicesValid w).
  { apply weld_valid. split; simpl; intros; contradiction. }
  apply Hvalid.
Qed.

End WeldingMapClaim.

Section Fragments.
Import Geometry Scissor.

Lemma faceComponents_partition (fs : list (list nat)) :
  Permutation (concat (faceComponents fs [])) (seq 0 (length fs)) /\
  Forall (fun c => c <> []) (faceComponents fs []).
Proof.
  apply (faceGroups_partition
           {| TopologyRepair.vertices := []; TopologyRepair.faces := fs;
              TopologyRepair.maps := None |} []).
Qed.

Lemma filter_perm_length {A : Type} (f : A -> bool) (l l' : list A) :
  Permutation l l' -> length (filter f l) = length (filter f l').
Proof.
  induction 1 as [|x l l' _ IH|x y l|l l' l'' _ IH1 _ IH2]; simpl.
  - reflexivity.
  - destruct (f x); simpl; congruence.
  - destruct (f x), (f y); reflexivity.
  - congruence.
Qed.

Lemma filter_sorted {A : Type} (R : A -> A -> Prop) (f : A -> bool) (l : list A) :
  StronglySorted R l -> StronglySorted R (filter f l).
Proof.
  induction 1 as [|a l Hs IH Ha]; simpl; [constructor|].
  destruct (f a); [|assumption]. constructor; [assumption|].
  apply Forall_forall. intros x Hx. apply filter_In in Hx as [Hx _].
  now apply (proj1 (Forall_forall _ _) Ha).
Qed.

Lemma sorted_head_longest {A : Type} (l : list (list A)) (main : list A) :
  StronglySorted (fun x y => length y <= length x) l ->
  hd_error l = Some main ->
  forall c, In c l -> length c <= length main.
Proof.
  intros Hs Hhd c Hc. destruct l as [|a l]; [discriminate|].
  inversion Hhd; subst a. inversion Hs as [|? ? _ Ha]; subst.
  destruct Hc as [<-|Hc]; [lia|]. now apply (proj1 (Forall_forall _ _) Ha).
Qed.

(** X18: [checkOriginalConnectivity] without the filter: the components
    share out the faces of the mesh, none is empty, the mesh counts as
    connected exactly when there is one component, and no component has
    more faces than the main one. *)
Theorem connectivity_components (mesh : Mesh) (minFaces : nat) :
  let c := checkOriginalConnectivity mesh false minFaces in
  Permutation (concat (components c)) (seq 0 (length (faces mesh))) /\
  Forall (fun comp => comp <> []) (components c) /\
  componentCount c = length (components c) /\
  isConnected c = (length (components c) =? 1) /\
  (forall main, mainComponent c = Some main ->
                forall comp, In comp (components c) -> length comp <= length main).
Proof.
  cbn zeta. unfold checkOriginalConnectivity.
  cbn [components componentCount isConnected mainComponent].
  destruct (faceComponents_partition (faces mesh)) as [Hperm Hne].
  set (found := faceComponents (faces mesh) []) in *.
  destruct (1 <? length found) eqn:Hmany.
  - split; [rewrite <- Hperm; apply concat_perm, sortByLengthDesc_perm|].
    split.
    + apply Forall_forall. intros comp Hc.
      apply (Permutation_in _ (sortByLengthDesc_perm found)) in Hc.
      now apply (proj1 (Forall_forall _ _) Hne).
    + split; [reflexivity|]. split; [reflexivity|].
      intros main Hmain. apply sorted_head_longest; [|assumption].
      apply sortByLengthDesc_sorted.
  - split; [assumption|]. split; [assumption|]. split; [reflexivity|].
    split; [reflexivity|]. apply Nat.ltb_ge in Hmany.
    intros main Hmain comp Hc. destruct found as [|a [|b rest]]; simpl in *;
      [destruct Hc| |lia].
    inversion Hmain; subst. destruct Hc as [<-|[]]. lia.
Qed.

(** X19: [filterSmallFragments] gives the mesh back, fragments included,
    unless two components at least have [minFaces] faces or more. *)
Theorem small_fragments_stay (mesh : Mesh) (minFaces : nat) :
  length (filter (fun c => minFaces <=? length c) (faceComponents (faces mesh) [])) <= 1 ->
  filterSmallFragments mesh minFaces = (mesh, None).
Proof.
  intros Hbig. unfold filterSmallFragments, checkOriginalConnectivity.
  cbn [componentCount mainComponent].
  set (found := faceComponents (faces mesh) []) in *.
  set (kept := if 1 <? length found then _ else found).
  assert (Hkept : length kept <= 1).
  { subst kept. destruct (1 <? length found) eqn:Hmany.
    - rewrite (filter_perm_length _ _ _ (sortByLengthDesc_perm found)). exact Hbig.
    - now apply Nat.ltb_ge in Hmany. }
  destruct kept as [|a [|b rest]]; simpl in *; [reflexivity|reflexivity|lia].
Qed.

(** X19 (witness): the square and a triangle apart, with [minFaces] 2. *)
Lemma small_fragments_stay_witness :
  filterSmallFragments Scrap.mesh 2 = (Scrap.mesh, None).
Proof.
  apply (small_fragments_stay Scrap.mesh 2). vm_compute. lia.
Defined.

(** X20: when [filterSmallFragments] rebuilds the mesh, it keeps the faces
    of one component only: a component with [minFaces] faces or more, that
    no component exceeds; the new faces are its faces, in its order, read
    through the vertex map. *)
Theorem filter_keeps_largest (mesh out : Mesh) (minFaces : nat) (vmap : list (nat * nat)) :
  filterSmallFragments mesh minFaces = (out, Some vmap) ->
  exists main,
    In main (faceComponents (faces mesh) []) /\
    (forall c, In c (faceComponents (faces mesh) []) -> length c <= length main) /\
    minFaces <= length main /\
    faces out = map (fun faceIdx =>
                       map (fun v => match JS.get Nat.eqb v vmap with
                                     | Some i => i
                                     | None => 0
                                     end)
                           (nth faceIdx (faces mesh) []))
                    main.
Proof.
  unfold filterSmallFragments, checkOriginalConnectivity.
  cbn [componentCount mainComponent].
  set (found := faceComponents (faces mesh) []) in *.
  destruct (1 <? length found) eqn:Hmany.
  - set (kept := filter _ (JS.sortByLengthDesc found)).
    destruct (length kept =? 1); [discriminate|].
    destruct (hd_error kept) as [main|] eqn:Hmain; [|discriminate].
    intros H. inversion H; subst out vmap. clear H. exists main.
    assert (Hin : In main kept) by (destruct kept; [discriminate|inversion Hmain; now left]).
    apply filter_In in Hin as [Hin Hbig]. apply Nat.leb_le in Hbig.
    split; [now apply (Permutation_in _ (sortByLengthDesc_perm found))|].
    split; [|split; [assumption|reflexivity]].
    intros c Hc. destruct (minFaces <=? length c) eqn:Hcb.
    + apply (sorted_head_longest kept main); [|assumption|].
      * apply filter_sorted, sortByLengthDesc_sorted.
      * apply filter_In. split; [|assumption].
        now apply (Permutation_in _ (Permutation_sym (sortByLengthDesc_perm found))).
    + apply Nat.leb_gt in Hcb. lia.
  - apply Nat.ltb_ge in Hmany. destruct found as [|a [|b rest]]; simpl in *;
      try discriminate. lia.
Qed.

(** X20 (witness): the square and the triangle with [minFaces] 1: the square
    is kept. *)
Lemma filter_keeps_largest_witness :
  exists main,
    In main (faceComponents (faces Scrap.mesh) []) /\
    (forall c, In c (faceComponents (faces Scrap.mesh) []) -> length c <= length main) /\
    1 <= length main /\
    faces Scrap.main
    = map (fun faceIdx =>
             map (fun v => match JS.get Nat.eqb v [(0, 0); (1, 1); (2, 2); (3, 3)] with
                           | Some i => i
                           | None => 0
                           end)
                 (nth faceIdx (faces Scrap.mesh) []))
          main.
Proof.
  apply (filter_keeps_largest Scrap.mesh Scrap.main 1 [(0, 0); (1, 1); (2, 2); (3, 3)]).
  vm_compute. reflexivity.
Defined.

End Fragments.

(* ----------------------------------------------------------------- *)
(** ** FloodSegmenter.mergeSmallIslands *)

Section MergeIslands.
Import Geometry FloodSegmenter.

Lemma appendAt_concat {A : Type} (more : list A) (xs : list (list A)) :
  forall i, i < length xs -> Permutation (concat (appendAt i more xs)) (concat xs ++ more).
Proof.
  induction xs as [|l rest IH]; intros i Hi; [simpl in Hi; lia|].
  destruct i as [|i]; simpl.
  - rewrite <- !app_assoc. apply Permutation_app_head, Permutation_app_comm.
  - rewrite IH by (simpl in Hi; lia). now rewrite app_assoc.
Qed.

Lemma appendAt_prefix {A : Type} (more : list A) (xs : list (list A)) :
  forall i, Forall2 (fun l l' => exists tail, l' = l ++ tail) xs (appendAt i more xs).
Proof.
  assert (Hrefl : forall ys : list (list A),
            Forall2 (fun l l' => exists tail, l' = l ++ tail) ys ys).
  { induction ys; constructor; [exists []; now rewrite app_nil_r|assumption]. }
  induction xs as [|l rest IH]; intros i; [destruct i; constructor|].
  destruct i as [|i]; simpl; constructor; eauto.
  exists []. now rewrite app_nil_r.
Qed.

Lemma nearestLarge_range (mesh : Mesh) (center : Vertex) (large : list (list nat)) (idx : nat) :
  nearestLarge mesh center large = JS.Ok idx -> 0 < length large -> idx < length large.
Proof.
  unfold nearestLarge. intros H Hpos. apply bind_ok in H as (st & Hfold & H).
  inversion H; subst idx. clear H.
  assert (Hin : forall e, In e (combine (seq 0 (length large)) large) ->
                          fst e < length large).
  { intros [i l] He. apply in_combine_l in He. apply in_seq in He. simpl. lia. }
  assert (H0 : fst (0, PrimFloat.infinity) < length large) by exact Hpos.
  revert Hfold Hin H0. generalize (0, PrimFloat.infinity).
  generalize (combine (seq 0 (length large)) large). intros es.
  induction es as [|e es IH]; intros st0 Hfold Hin H0; simpl in Hfold.
  - now inversion Hfold; subst.
  - destruct (computeIslandCenter (snd e) mesh) as [c|] eqn:Hc; simpl in Hfold.
    + apply (IH _ Hfold); [intros e' He'; apply Hin; now right|].
      destruct (JSNum.lt _ _); [apply Hin; now left|assumption].
    + exfalso. clear -Hfold.
      induction es as [|e' es IH]; simpl in Hfold; [discriminate|auto].
Qed.

Lemma filter_split_perm {X : Type} (keep : X -> bool) (xs : list X) :
  Permutation (filter keep xs ++ filter (fun x => negb (keep x)) xs) xs.
Proof.
  induction xs as [|x xs IH]; simpl; [constructor|].
  destruct (keep x); simpl; [now constructor|].
  apply Permutation_sym, Permutation_cons_app, Permutation_sym. exact IH.
Qed.

Lemma merge_fold (mesh : Mesh) (smalls : list (list nat)) :
  forall large out,
    fold_left
      (fun acc smallIsland =>
         JS.bind acc (fun large =>
         JS.bind (computeIslandCenter smallIsland mesh) (fun center =>
         JS.bind (nearestLarge mesh center large) (fun nearestIdx =>
         JS.Ok (if 0 <? length large
                then appendAt nearestIdx smallIsland large
                else large)))))
      smalls (JS.Ok large) = JS.Ok out ->
    Forall2 (fun l l' => exists tail, l' = l ++ tail) large out /\
    (out = [] \/ Permutation (concat out) (concat large ++ concat smalls)).
Proof.
  induction smalls as [|s rest IH]; intros large out H; simpl in H.
  - inversion H; subst. split.
    + clear. induction out; constructor; [exists []; now rewrite app_nil_r|assumption].
    + right. simpl. now rewrite app_nil_r.
  - destruct (computeIslandCenter s mesh) as [center|] eqn:Hc; simpl in H.
    + destruct (nearestLarge mesh center large) as [idx|] eqn:Hn; simpl in H.
      * destruct (IH _ _ H) as [Hpre Hperm].
        destruct (0 <? length large) eqn:Hpos.
        -- apply Nat.ltb_lt in Hpos.
           assert (Hidx := nearestLarge_range _ _ _ _ Hn Hpos).
           split.
           ++ clear -Hpre. assert (Ha := appendAt_prefix s large idx).
              revert Hpre Ha. generalize (appendAt idx s large). intros mid.
              revert mid out. induction large as [|l large IHl]; intros mid out H1 H2.
              ** inversion H2; subst. inversion H1; subst. constructor.
              ** inversion H2 as [|? m ? mid' [t1 Ht1] Hm]; subst.
                 inversion H1 as [|? o ? out' [t2 Ht2] Ho]; subst.
                 constructor; [exists (t1 ++ t2); now rewrite app_assoc|].
                 now apply (IHl mid').
           ++ destruct Hperm as [->|Hperm]; [now left|right].
              rewrite Hperm, (appendAt_concat s large idx Hidx). simpl.
              now rewrite <- app_assoc.
        -- apply Nat.ltb_ge in Hpos. destruct large; [|simpl in Hpos; lia].
           split; [assumption|]. left. inversion Hpre. reflexivity.
      * exfalso. clear -H. induction rest as [|s' rest IH]; simpl in H; [discriminate|auto].
    + exfalso. clear -H. induction rest as [|s' rest IH]; simpl in H; [discriminate|auto].
Qed.

(** X21: [mergeSmallIslands] returns the islands with [minFaces] faces or
    more, in their order, each followed by the faces of the small islands
    merged into it.  No face is lost or repeated when there is a large
    island; when there is none the result is empty, and the faces of the
    small islands are gone. *)
Theorem merge_keeps_faces (islands : list (list nat)) (mesh : Mesh) (minFaces : nat)
        (out : list (list nat)) :
  mergeSmallIslands islands mesh minFaces = JS.Ok out ->
  Forall2 (fun l l' => exists tail, l' = l ++ tail)
          (filter (fun island => minFaces <=? length island) islands) out /\
  (out = [] \/ Permutation (concat out) (concat islands)).
Proof.
  unfold mergeSmallIslands. intros H.
  assert (Hsplit := concat_perm _ _ (Permutation_sym (filter_split_perm
                                      (fun island => minFaces <=? length island) islands))).
  rewrite concat_app in Hsplit.
  destruct (filter (fun island => negb (minFaces <=? length island)) islands)
    as [|s smalls] eqn:Hs.
  - inversion H; subst out. split.
    + clear. induction (filter _ islands); constructor;
        [exists []; now rewrite app_nil_r|assumption].
    + right. rewrite Hsplit. simpl. now rewrite app_nil_r.
  - destruct (merge_fold mesh (s :: smalls) _ _ H) as [Hpre Hperm].
    split; [assumption|]. destruct Hperm as [->|Hperm]; [now left|right].
    now rewrite Hperm, Hsplit.
Qed.

(** X21 (witness): a small island of the strip merged into a large one. *)
Lemma merge_keeps_faces_witness :
  Forall2 (fun l l' => exists tail, l' = l ++ tail)
          (filter (fun island => 2 <=? length island) [[0; 1; 2]; [3]]) [[0; 1; 2; 3]] /\
  ([[0; 1; 2; 3]] = [] \/ Permutation (concat [[0; 1; 2; 3]]) (concat [[0; 1; 2]; [3]])).
Proof.
  apply (merge_keeps_faces [[0; 1; 2]; [3]] Strip.mesh 2 [[0; 1; 2; 3]]).
  vm_compute. reflexivity.
Defined.

End MergeIslands.

(* ----------------------------------------------------------------- *)
(** ** SeamExtractor: red edges *)

Section RedEdges.
Import Geometry SeamExtractor.

Lemma keyAdd_NoDup (k : EdgeKey) (s : list EdgeKey) : NoDup s -> NoDup (keyAdd k s).
Proof.
  intros H. unfold keyAdd. destruct (keyHas k s) eqn:E; [assumption|].
  apply NoDup_app_iff. split; [assumption|]. split; [repeat constructor; intros []|].
  intros x Hx [<-|[]]. apply keyHas_In in Hx. congruence.
Qed.

Lemma redEdgesFrom_NoDup (fs : list (list nat)) (redSet : list nat) :
  forall s, NoDup s -> NoDup (redEdgesFrom fs redSet s).
Proof.
  unfold redEdgesFrom. induction fs as [|face rest IH]; intros s Hs; simpl; [assumption|].
  apply IH. revert s Hs. induction (faceEdges face) as [|e es IHe]; intros s Hs; simpl;
    [assumption|].
  apply IHe. unfold redEdge. destruct (JS.has (fst e) redSet && JS.has (snd e) redSet);
    [now apply keyAdd_NoDup|assumption].
Qed.

(** X22: from an empty set, [extractRedEdges] leaves in [seamEdges]
    exactly the keys of the edges of faces whose two ends are red, each key
    once. *)
Theorem red_edges_exact (faces : list (list nat)) (redSet : list nat) :
  NoDup (extractRedEdges faces redSet []) /\
  forall k, In k (extractRedEdges faces redSet []) <->
            exists face e, In face faces /\ In e (faceEdges face) /\
                           JS.has (fst e) redSet = true /\ JS.has (snd e) redSet = true /\
                           k = edgeKey (fst e) (snd e).
Proof.
  unfold extractRedEdges. split; [apply redEdgesFrom_NoDup; constructor|].
  intros k. rewrite redEdgesFrom_spec. simpl. tauto.
Qed.

End RedEdges.

(* ----------------------------------------------------------------- *)
(** ** The adjacency table has only pairs of faces across an edge *)

Section AdjacencyExact.
Import Geometry FloodSegmenter.

Lemma get_of_entry (k : EdgeKey) (v : list nat) (m : list (EdgeKey * list nat)) :
  NoDup (map fst m) -> In (k, v) m -> JS.get keyEqb k m = Some v.
Proof.
  induction m as [|[k' v'] rest IH]; intros Hnd Hin; [destruct Hin|].
  simpl in Hnd. inversion Hnd as [|? ? Hout Hnd']; subst.
  cbn [JS.get]. destruct Hin as [Heq|Hin].
  - inversion Heq; subst. now rewrite (proj2 (keyEqb_eq k k) eq_refl).
  - destruct (keyEqb k k') eqn:E; [|now apply IH].
    apply keyEqb_eq in E. subst k'. exfalso. apply Hout.
    apply in_map_iff. exists (k, v). now split.
Qed.

Lemma edgeToFacesFrom_keys (fs : list (list nat)) :
  forall base m, NoDup (map fst m) -> NoDup (map fst (edgeToFacesFrom base fs m)).
Proof.
  induction fs as [|face rest IH]; intros base m Hm; simpl; [assumption|].
  apply IH. revert m Hm. generalize (faceKeys face). intros ks.
  induction ks as [|k ks IHk]; intros m Hm; simpl; [assumption|].
  apply IHk. unfold recordFace.
  destruct (JS.get keyEqb k m); rewrite set_keys_keyAdd; now apply keyAdd_NoDup.
Qed.

Lemma pushAt_from {A : Type} (x y : A) (xs : list (list A)) :
  forall i j, In y (nth j (JS.pushAt i x xs) []) ->
    In y (nth j xs []) \/ (j = i /\ y = x).
Proof.
  induction xs as [|l rest IH]; intros i j H; [destruct i; now left|].
  destruct i as [|i], j as [|j]; simpl in *; auto.
  - apply in_app_iff in H as [H|[<-|[]]]; auto.
  - destruct (IH i j H) as [H'|[-> ->]]; auto.
Qed.

Lemma linkAll_from (table : list (EdgeKey * list nat)) :
  forall adj f nb,
    In nb (nth f (fold_left linkFaces table adj) []) ->
    In nb (nth f adj []) \/
    exists k g, neighborIdx nb = g /\
                (In (k, [f; g]) table \/ In (k, [g; f]) table).
Proof.
  induction table as [|entry table IH]; intros adj f nb H; [now left|].
  cbn [fold_left] in H. apply IH in H as [H|(k & g & Hg & Hin)].
  - destruct entry as [k [|f1 [|f2 [|f3 infos]]]]; simpl in H; auto.
    apply pushAt_from in H as [H|[-> ->]].
    + apply pushAt_from in H as [H|[-> ->]]; [now left|].
      right. exists k, f2. split; [reflexivity|]. left. now left.
    + right. exists k, f1. split; [reflexivity|]. right. now left.
  - right. exists k, g. split; [assumption|].
    destruct Hin; [left|right]; now right.
Qed.

(** The adjacency table has nothing else: an entry of face [f] names a
    face across an edge of [f] that no third corner has. *)
Lemma buildFaceAdjacency_exact (mesh : Mesh) (f : nat) (nb : Neighbor) :
  In nb (nth f (buildFaceAdjacency mesh) []) ->
  acrossEdge (faces mesh) f (neighborIdx nb).
Proof.
  intros H. unfold buildFaceAdjacency in H.
  apply linkAll_from in H as [H|(k & g & Hg & Hin)].
  - exfalso. destruct (Nat.lt_ge_cases f (length (faces mesh))) as [Hf|Hf].
    + rewrite nth_repeat_lt in H by assumption. destruct H.
    + rewrite nth_overflow in H by (rewrite repeat_length; lia). destruct H.
  - subst g.
    assert (Hnd : NoDup (map fst (edgeToFacesFrom 0 (faces mesh) [])))
      by (apply edgeToFacesFrom_keys; constructor).
    assert (Htable : tableSound (faces mesh) (edgeToFacesFrom 0 (faces mesh) [])).
    { apply edgeToFacesFrom_sound; [intros i face Hi; exact Hi|].
      intros k0 infos f0 []. }
    assert (Hkey : forall infos f0, In (k, infos) (edgeToFacesFrom 0 (faces mesh) []) ->
              In f0 infos ->
              exists a b, k = edgeKey a b /\ facesOnEdge a b 0 (faces mesh) = infos).
    { intros infos f0 Hk Hf0.
      destruct (Htable k infos f0 Hk Hf0) as [_ Hface].
      unfold faceKeys in Hface. apply in_map_iff in Hface as ([a b] & Hab & _).
      exists a, b. split; [now symmetry|].
      apply (get_of_entry _ _ _ Hnd) in Hk.
      rewrite <- Hab, get_edgeToFacesFrom in Hk. simpl in Hk, Hab.
      destruct (facesOnEdge a b 0 (faces mesh)); simpl in Hk; congruence. }
    destruct Hin as [Hin|Hin].
    + destruct (Hkey _ f Hin (or_introl eq_refl)) as (a & b & _ & Hfaces).
      exists a, b. now left.
    + destruct (Hkey _ f Hin (or_intror (or_introl eq_refl))) as (a & b & _ & Hfaces).
      exists a, b. now right.
Qed.

(** The steps of the table and the steps across edges reach the same
    faces. *)
Lemma connectedTo_edgeConnected (mesh : Mesh) (s f : nat) :
  connectedTo (buildFaceAdjacency mesh) s f -> edgeConnected (faces mesh) s f.
Proof.
  induction 1 as [|f nb _ IH Hnb]; [constructor|].
  apply (edge_step _ _ f); [assumption|]. now apply buildFaceAdjacency_exact.
Qed.

End AdjacencyExact.

(* ----------------------------------------------------------------- *)
(** ** SeamExtractor: the order of a seam path *)

Section NearestOrder.
Import Geometry SeamExtractor.

Variable vs : list Vertex.

Lemma nearestOf_some (current : nat) (remaining : list nat) :
  remaining <> [] ->
  (forall b, In b remaining -> near vs current b) ->
  exists n, nearestOf vs (nth_error vs current) remaining = JS.Ok (Some n) /\
            In n remaining.
Proof.
  intros Hne Hnear. unfold nearestOf.
  assert (H : forall l st,
            incl l remaining ->
            ((exists n, fst st = Some n /\ In n remaining) \/
             (st = (None, PrimFloat.infinity) /\ l <> [])) ->
            exists n d,
              fold_left
                (fun acc candidate =>
                   JS.bind acc (fun st =>
                   JS.bind (distanceTo vs (nth_error vs current) candidate) (fun dist =>
                   JS.Ok (if JSNum.lt dist (snd st) then (Some candidate, dist) else st))))
                l (JS.Ok st) = JS.Ok (Some n, d) /\ In n remaining).
  { induction l as [|c l IH]; intros st Hl Hst.
    - destruct Hst as [(n & Hn & Hin)|[_ []]]; [|reflexivity].
      destruct st as [o d]. simpl in Hn. subst o. exists n, d. auto.
    - cbn [fold_left JS.bind].
      assert (Hc : In c remaining) by (apply Hl; now left).
      destruct (Hnear c Hc) as (va & vb & Ha & Hb & Hd).
      assert (Hdist : distanceTo vs (nth_error vs current) c = JS.Ok (distance va vb))
        by (unfold distanceTo; now rewrite Ha, Hb).
      rewrite Hdist. cbn [JS.bind].
      apply IH; [intros x Hx; apply Hl; now right|]. left.
      destruct Hst as [(n & Hn & Hin)|[-> _]].
      + destruct (JSNum.lt (distance va vb) (snd st)); [exists c; auto|exists n; auto].
      + cbn [snd]. rewrite Hd. exists c. auto. }
  destruct (H remaining (None, PrimFloat.infinity) (incl_refl _)) as (n & d & -> & Hin);
    [right; auto|].
  exists n. auto.
Qed.

Lemma delete_spec (x y : nat) (s : list nat) : In y (delete x s) <-> In y s /\ y <> x.
Proof.
  unfold delete. rewrite filter_In, negb_true_iff, Nat.eqb_neq. tauto.
Qed.

Lemma delete_perm (x : nat) (s : list nat) :
  NoDup s -> In x s -> Permutation s (x :: delete x s).
Proof.
  intros Hnd Hin. apply NoDup_Permutation; [assumption| |].
  - constructor; [rewrite delete_spec; tauto|]. now apply NoDup_filter.
  - intros y. simpl. rewrite delete_spec.
    destruct (Nat.eq_dec y x) as [->|Hne]; [tauto|].
    split; [auto|]. intros [H|[H _]]; [congruence|assumption].
Qed.

Lemma orderLoop_perm (fuel : nat) :
  forall current remaining result,
    NoDup remaining -> length remaining <= fuel ->
    (forall a b, In a (current :: remaining) -> In b remaining -> near vs a b) ->
    exists more, orderLoop vs fuel current remaining result = JS.Ok (result ++ more) /\
                 Permutation more remaining.
Proof.
  induction fuel as [|fuel IH]; intros current remaining result Hnd Hlen Hnear.
  - destruct remaining; [|simpl in Hlen; lia]. exists []. simpl. now rewrite app_nil_r.
  - destruct remaining as [|r0 rest] eqn:E.
    { exists []. simpl. now rewrite app_nil_r. }
    rewrite <- E in *. cbn [orderLoop].
    replace (match remaining with [] => JS.Ok result | _ :: _ => _ end)
      with (JS.bind (nearestOf vs (nth_error vs current) remaining)
              (fun nearest =>
                 match nearest with
                 | Some n => orderLoop vs fuel n (delete n remaining) (result ++ [n])
                 | None => JS.Ok result
                 end)) by (rewrite E; reflexivity).
    destruct (nearestOf_some current remaining) as (n & -> & Hin).
    + rewrite E. discriminate.
    + intros b Hb. apply Hnear; [now left|assumption].
    + cbn [JS.bind].
      assert (Hperm := delete_perm n remaining Hnd Hin).
      destruct (IH n (delete n remaining) (result ++ [n])) as (more & -> & Hmore).
      * now apply NoDup_filter.
      * apply Permutation_length in Hperm. simpl in Hperm. lia.
      * intros a b Ha Hb. apply delete_spec in Hb as [Hb _].
        apply Hnear; [|assumption]. right.
        destruct Ha as [<-|Ha]; [assumption|]. now apply delete_spec in Ha as [Ha _].
      * exists (n :: more). split; [now rewrite <- app_assoc|].
        rewrite Hperm. now constructor.
Qed.

Lemma set_of_list (l : list nat) :
  forall s, NoDup s ->
    NoDup (fold_left (fun s i => JS.add i s) l s) /\
    forall x, In x (fold_left (fun s i => JS.add i s) l s) <-> In x s \/ In x l.
Proof.
  induction l as [|a l IH]; intros s Hs; simpl.
  - split; [assumption|]. intros x. tauto.
  - destruct (IH (JS.add a s) (NoDup_add a s Hs)) as [H1 H2].
    split; [assumption|]. intros x. rewrite H2, in_add. intuition.
Qed.

End NearestOrder.

Section NearestOrderClaim.
Import Geometry SeamExtractor.

(** X23: on more than two vertices of the mesh, any two of which are at a
    distance below [Infinity], [orderByNearestNeighbor] returns every one
    of them once, the first one first: a rearrangement of the set of the
    vertices it was given. *)
Theorem nearest_order_rearranges (vs : list Vertex) (vertexIndices : list nat) :
  2 < length vertexIndices ->
  (forall a b, In a vertexIndices -> In b vertexIndices -> near vs a b) ->
  exists out,
    orderByNearestNeighbor vs vertexIndices = JS.Ok out /\
    NoDup out /\
    (forall x, In x out <-> In x vertexIndices) /\
    hd_error out = hd_error vertexIndices.
Proof.
  intros Hlen Hnear. unfold orderByNearestNeighbor.
  replace (length vertexIndices <=? 2) with false by (symmetry; apply Nat.leb_gt; exact Hlen).
  destruct (set_of_list vertexIndices [] (NoDup_nil _)) as [Hnd Hset].
  set (remaining := fold_left (fun s i => JS.add i s) vertexIndices []) in *.
  destruct vertexIndices as [|current rest] eqn:E; [simpl in Hlen; lia|].
  rewrite <- E in *.
  assert (Hcur : In current remaining) by (apply Hset; right; rewrite E; now left).
  assert (Hperm := delete_perm current remaining Hnd Hcur).
  destruct (orderLoop_perm vs (length remaining) current (delete current remaining) [current])
    as (more & -> & Hmore).
  - now apply NoDup_filter.
  - apply Permutation_length in Hperm. simpl in Hperm. lia.
  - intros a b Ha Hb. apply delete_spec in Hb as [Hb _].
    apply Hnear; [|apply Hset in Hb as [[]|Hb]; exact Hb].
    destruct Ha as [<-|Ha]; [rewrite E; now left|].
    apply delete_spec in Ha as [Ha _]. apply Hset in Ha as [[]|Ha]. exact Ha.
  - exists ([current] ++ more).
    assert (Hall : Permutation ([current] ++ more) remaining).
    { simpl. rewrite Hperm. now constructor. }
    split; [reflexivity|]. split; [apply (Permutation_NoDup (Permutation_sym Hall) Hnd)|].
    split; [|rewrite E; reflexivity].
    intros x. split.
    + intros Hx. apply (Permutation_in _ Hall) in Hx. apply Hset in Hx as [[]|Hx]. exact Hx.
    + intros Hx. apply (Permutation_in _ (Permutation_sym Hall)). apply Hset. now right.
Qed.

(** X23 (witness): three vertices of the square with a fragment. *)
Lemma nearest_order_rearranges_witness :
  exists out,
    orderByNearestNeighbor (vertices Scrap.mesh) [0; 4; 1] = JS.Ok out /\
    NoDup out /\
    (forall x, In x out <-> In x [0; 4; 1]) /\
    hd_error out = hd_error [0; 4; 1].
Proof.
  apply (nearest_order_rearranges (vertices Scrap.mesh) [0; 4; 1]).
  - simpl. lia.
  - intros a b Ha Hb. unfold near.
    assert (Hv : forall i, In i [0; 4; 1] ->
              exists p, nth_error (vertices Scrap.mesh) i = Some p /\
                        In p [Scrap.vtx 0 0; Scrap.vtx 5 0; Scrap.vtx 1 0]).
    { intros i [<-|[<-|[<-|[]]]]; eexists; (split; [reflexivity|]); simpl; auto. }
    destruct (Hv a Ha) as (va & Hva & Ia). destruct (Hv b Hb) as (vb & Hvb & Ib).
    exists va, vb. split; [assumption|]. split; [assumption|].
    destruct Ia as [<-|[<-|[<-|[]]]]; destruct Ib as [<-|[<-|[<-|[]]]];
      vm_compute; reflexivity.
Defined.

End NearestOrderClaim.

(* ----------------------------------------------------------------- *)
(** ** PhysicsFlattener: pinned vertices and springs *)

Section PinnedBoundary.
Import Geometry PhysicsFlattener.

Lemma moveAll_pinned bv damp (uvs : list (float * float)) :
  forall i0 vels forces i,
    length vels = length uvs -> length forces = length uvs ->
    JS.has (i0 + i) bv = true ->
    nth_error (fst (moveAll bv true damp i0 uvs vels forces)) i = nth_error uvs i.
Proof.
  induction uvs as [|pos uvs IH]; intros i0 vels forces i Hv Hf Hb; simpl; [reflexivity|].
  destruct vels as [|vel vels]; [discriminate|].
  destruct forces as [|force forces]; [discriminate|].
  simpl in Hv, Hf.
  specialize (IH (S i0) vels forces).
  destruct i as [|i].
  - unfold moveVertex. rewrite Nat.add_0_r in Hb. rewrite Hb. cbn [andb].
    destruct (moveAll bv true damp (S i0) uvs vels forces). reflexivity.
  - specialize (IH i). rewrite <- Nat.add_succ_comm in Hb.
    destruct (moveVertex bv true damp i0 pos vel force) as [pos' vel'].
    destruct (moveAll bv true damp (S i0) uvs vels forces) as [uvs'' vels''].
    simpl in *. apply IH; [lia|lia|assumption].
Qed.

Lemma forces_length (uvs : list (float * float)) (cs : list Constraint) :
  forall forces, length (fold_left (applySpring uvs) cs forces) = length forces.
Proof.
  induction cs as [|c cs IH]; intros forces; simpl; [reflexivity|].
  now rewrite IH, applySpring_length.
Qed.

Lemma relaxLoop_pinned o cs bv n c0 (i : nat) (count : nat) :
  pinBoundary o = true -> JS.has i bv = true ->
  forall iter st,
    length (velocities st) = length (currentUVs st) ->
    nth_error (currentUVs (relaxLoop o cs bv n c0 count iter st)) i
    = nth_error (currentUVs st) i.
Proof.
  intros Hpin Hb. induction count as [|count IH]; intros iter st Hv; simpl; [reflexivity|].
  destruct (relaxIteration_lengths o cs bv n c0 iter st Hv) as [H1 H2].
  rewrite IH by congruence.
  rewrite (relaxIteration_pinned o cs bv n iter c0 st Hpin).
  unfold physicsStep. apply moveAll_pinned; [assumption| |assumption].
  now rewrite forces_length, repeat_length.
Qed.

(** X24: with [pinBoundary] set, the relaxation leaves every boundary
    vertex where the initial UVs put it: its UV in the result is the
    initial one, stored in binary32, whatever the number of iterations. *)
Theorem pinned_boundary_stays (subMesh : SubMesh) (initialUV : list UV) (o : Options)
        (i : nat) (p : UV) :
  pinBoundary o = true ->
  3 <= length (vertices subMesh) ->
  length initialUV = length (vertices subMesh) ->
  In i (fst (identifyBoundary (faces subMesh))) ->
  nth_error initialUV i = Some p ->
  nth_error (relaxDifferentiated subMesh (Some initialUV) o) i
  = Some {| u := JSNum.fround (JSNum.orElse (u p) 0%float);
            v := JSNum.fround (JSNum.orElse (v p) 0%float) |}.
Proof.
  intros Hpin H3 Hlen Hb Hp. unfold relaxDifferentiated.
  replace (length (vertices subMesh) <? 3) with false
    by (symmetry; apply Nat.ltb_ge; exact H3).
  replace (length initialUV =? length (vertices subMesh)) with true
    by (symmetry; apply Nat.eqb_eq; exact Hlen).
  cbn [orb negb]. rewrite nth_error_map. unfold relaxState.
  destruct (identifyBoundary (faces subMesh)) as [bv be]. cbn [fst] in Hb.
  rewrite (relaxLoop_pinned o _ bv _ _ i (iterations o) Hpin).
  - unfold relaxStart. cbn [currentUVs]. rewrite nth_error_map, Hp. reflexivity.
  - now apply has_true.
  - unfold relaxStart. simpl. now rewrite repeat_length, length_map.
Qed.

(** X24 (witness): vertex 1 of the fan, on its boundary. *)
Lemma pinned_boundary_stays_witness :
  nth_error (relaxDifferentiated Fan.mesh (Some Fan.initialUV) Fan.pinned) 1
  = Some {| u := JSNum.fround (JSNum.orElse 2%float 0%float);
            v := JSNum.fround (JSNum.orElse 0%float 0%float) |}.
Proof.
  apply (pinned_boundary_stays Fan.mesh Fan.initialUV Fan.pinned 1 {| u := 2; v := 0 |}).
  - reflexivity.
  - simpl. lia.
  - reflexivity.
  - vm_compute. auto.
  - reflexivity.
Defined.

End PinnedBoundary.

Section Springs.
Import Geometry PhysicsFlattener.

Variable vs : list Vertex.
Variable boundaryEdges : list EdgeKey.
Variable boundaryK internalK : float.

Lemma addConstraint_inv (es : list (nat * nat)) :
  forall st,
    (forall c, In c (fst st) -> goodSpring vs boundaryEdges boundaryK internalK c /\
                                In (edgeKey (cu c) (cv c)) (snd st)) ->
    NoDup (map (fun c => edgeKey (cu c) (cv c)) (fst st)) ->
    let r := fold_left (addConstraint vs boundaryEdges boundaryK internalK) es st in
    (forall c, In c (fst r) ->
               goodSpring vs boundaryEdges boundaryK internalK c /\
               (In c (fst st) \/ In (cu c, cv c) es)) /\
    NoDup (map (fun c => edgeKey (cu c) (cv c)) (fst r)).
Proof.
  induction es as [|e es IH]; intros st Hgood Hnd; cbn zeta; cbn [fold_left].
  - split; [|assumption]. intros c Hc. split; [now apply Hgood|now left].
  - assert (Hstep : (forall c, In c (fst (addConstraint vs boundaryEdges boundaryK internalK st e)) ->
                       (goodSpring vs boundaryEdges boundaryK internalK c /\
                        In (edgeKey (cu c) (cv c))
                           (snd (addConstraint vs boundaryEdges boundaryK internalK st e))) /\
                       (In c (fst st) \/ (cu c, cv c) = e)) /\
                    NoDup (map (fun c => edgeKey (cu c) (cv c))
                               (fst (addConstraint vs boundaryEdges boundaryK internalK st e)))).
    { unfold addConstraint.
      destruct (keyHas (edgeKey (fst e) (snd e)) (snd st)) eqn:Hseen.
      - split; [|assumption]. intros c Hc. split; [now apply Hgood|now left].
      - assert (Hold : forall c, In c (fst st) ->
                  (goodSpring vs boundaryEdges boundaryK internalK c /\
                   In (edgeKey (cu c) (cv c)) (snd st ++ [edgeKey (fst e) (snd e)])) /\
                  (In c (fst st) \/ (cu c, cv c) = e)).
        { intros c Hc. destruct (Hgood c Hc) as [Hg Hk].
          split; [split; [assumption|apply in_app_iff; now left]|now left]. }
        destruct (nth_error vs (fst e)) as [vU|] eqn:HU; [|split; assumption].
        destruct (nth_error vs (snd e)) as [vV|] eqn:HV; [|split; assumption].
        destruct (JSNum.lt (distance vU vV) 1e-10%float) eqn:Hshort; [split; assumption|].
        cbn [fst snd]. split.
        + intros c Hc. apply in_app_iff in Hc as [Hc|[<-|[]]]; [now apply Hold|].
          cbn [cu cv]. split; [|right; now destruct e]. split.
          * unfold goodSpring. cbn [cu cv restLength stiffness isBoundary].
            exists vU, vV. repeat (split; [first [assumption|reflexivity]|]).
            reflexivity.
          * apply in_app_iff. right. now left.
        + rewrite map_app. cbn [map cu cv]. apply NoDup_app_iff.
          split; [assumption|]. split; [repeat constructor; intros []|].
          intros k Hk [<-|[]]. apply in_map_iff in Hk as (c & Hck & Hc).
          destruct (Hgood c Hc) as [_ Hin]. rewrite Hck in Hin.
          apply keyHas_In in Hin. congruence. }
    destruct Hstep as [Hg1 Hnd1].
    destruct (IH (addConstraint vs boundaryEdges boundaryK internalK st e)) as [Hg2 Hnd2];
      [intros c Hc; apply (Hg1 c Hc)|assumption|].
    split; [|assumption]. intros c Hc. destruct (Hg2 c Hc) as [Hg [Hin|Hin]].
    + split; [assumption|]. destruct (Hg1 c Hin) as [_ [H|H]]; [now left|].
      right. left. now symmetry.
    + split; [assumption|]. right. now right.
Qed.

End Springs.

Section SpringsClaim.
Import Geometry PhysicsFlattener.

(** X25: [buildDifferentiatedConstraints] makes at most one spring for an
    edge, whichever way round the faces run it; a spring joins two vertices
    of the mesh along an edge of a face, its rest length is their distance
    and is not below 1e-10, and its stiffness is the boundary one exactly
    when its key is a boundary edge. *)
Theorem springs_one_per_edge (vs : list Vertex) (fs : list (list nat))
        (boundaryEdges : list EdgeKey) (boundaryK internalK : float) :
  let cs := buildDifferentiatedConstraints vs fs boundaryEdges boundaryK internalK in
  NoDup (map (fun c => edgeKey (cu c) (cv c)) cs) /\
  forall c, In c cs ->
    goodSpring vs boundaryEdges boundaryK internalK c /\
    exists face, In face fs /\ In (cu c, cv c) (faceEdges face).
Proof.
  cbn zeta. unfold buildDifferentiatedConstraints.
  destruct (addConstraint_inv vs boundaryEdges boundaryK internalK
              (flat_map faceEdges fs) ([], [])) as [Hg Hnd].
  - intros c [].
  - constructor.
  - split; [assumption|]. intros c Hc. destruct (Hg c Hc) as [Hgood [[]|Hin]].
    split; [assumption|]. apply in_flat_map in Hin as (face & Hf & He). eauto.
Qed.

End SpringsClaim.

(* ----------------------------------------------------------------- *)
(** ** ClothFlattenerApp: planar projection, and the UVs of a patch *)

Section PlanarProjection.
Import Geometry PhysicsFlattener ClothFlattenerApp.

Lemma orElse_number (a : float) : PrimFloat.is_nan (JSNum.orElse a 0%float) = false.
Proof.
  unfold JSNum.orElse, JSNum.truthy.
  destruct (PrimFloat.is_nan a) eqn:Hn; simpl; [reflexivity|].
  destruct (PrimFloat.is_zero a); simpl; [reflexivity|assumption].
Qed.

Lemma projectionAxes_differ (vs : list Vertex) :
  fst (projectionAxes vs) <> snd (projectionAxes vs).
Proof.
  unfold projectionAxes.
  repeat match goal with |- context [if ?b then _ else _] => destruct b end;
    simpl; discriminate.
Qed.

Lemma projectPlanarUV_length (subMesh : SubMesh) :
  length (projectPlanarUV subMesh) = length (vertices subMesh).
Proof.
  unfold projectPlanarUV. destruct (vertices subMesh) as [|p vs] eqn:E; [reflexivity|].
  destruct (projectionAxes (p :: vs)). now rewrite length_map.
Qed.

(** X27: [projectPlanarUV] gives one UV per vertex, in the order of the
    vertices; the UV of a vertex is its coordinates on two different axes,
    the same two for all the vertices, with 0 in place of [NaN]: no number
    of the result is [NaN]. *)
Theorem planar_projection_axes (subMesh : SubMesh) :
  length (projectPlanarUV subMesh) = length (vertices subMesh) /\
  exists axis1 axis2,
    axis1 <> axis2 /\
    forall i p, nth_error (vertices subMesh) i = Some p ->
      exists q, nth_error (projectPlanarUV subMesh) i = Some q /\
                u q = JSNum.orElse (coordinate axis1 p) 0%float /\
                v q = JSNum.orElse (coordinate axis2 p) 0%float /\
                PrimFloat.is_nan (u q) = false /\ PrimFloat.is_nan (v q) = false.
Proof.
  split; [apply projectPlanarUV_length|].
  unfold projectPlanarUV. destruct (vertices subMesh) as [|p0 vs] eqn:E.
  - exists AxisX, AxisY. split; [discriminate|]. intros [|i] p H; discriminate.
  - assert (Hd := projectionAxes_differ (p0 :: vs)).
    destruct (projectionAxes (p0 :: vs)) as [axis1 axis2]. simpl in Hd.
    exists axis1, axis2. split; [assumption|]. intros i p Hp.
    rewrite nth_error_map, Hp. simpl. eexists. split; [reflexivity|]. simpl.
    split; [reflexivity|]. split; [reflexivity|]. split; apply orElse_number.
Qed.

(** X28: whatever the unfolders and the relaxer give (an exception, no
    result, a list of any length), the UVs that [flattenMesh] hands to
    [createPatternFromSubMesh] are one per vertex of the sub-mesh. *)
Theorem flatten_one_uv_per_vertex (subMesh : SubMesh) (tubeLike : bool)
        (tube lscm fan : Attempt) (planarProjection : list UV) :
  length (patchUVs subMesh tubeLike tube lscm fan planarProjection)
  = length (vertices subMesh).
Proof.
  unfold patchUVs, relaxPhase, relaxPhaseOf.
  set (uvs := match accepted _ _ with Some l => l | None => _ end).
  destruct (length uvs =? length (vertices subMesh)) eqn:E.
  - now apply Nat.eqb_eq.
  - apply projectPlanarUV_length.
Qed.

End PlanarProjection.

(* ----------------------------------------------------------------- *)
(** ** MeshScissor.cutAlongEdges: the split of the vertices of a seam *)

Section CutProofs.
Import Geometry Scissor.

Variable vs : list Vertex.
Variable cutVertices : list nat.

Lemma set_absent_app {V : Type} (k : nat) (v : V) (m : list (nat * V)) :
  JS.get Nat.eqb k m = None -> JS.set Nat.eqb k v m = m ++ [(k, v)].
Proof.
  induction m as [|[k' v'] rest IH]; simpl; [reflexivity|].
  destruct (k =? k'); [discriminate|]. intros H. now rewrite IH.
Qed.

Lemma get_set_same {V : Type} (k : nat) (v : V) (m : list (nat * V)) :
  JS.get Nat.eqb k (JS.set Nat.eqb k v m) = Some v.
Proof.
  induction m as [|[k' v'] rest IH]; simpl; [now rewrite Nat.eqb_refl|].
  destruct (k =? k') eqn:E; simpl; rewrite E; [reflexivity|exact IH].
Qed.

Lemma get_set_other {V : Type} (k k0 : nat) (v : V) (m : list (nat * V)) :
  k0 <> k -> JS.get Nat.eqb k0 (JS.set Nat.eqb k v m) = JS.get Nat.eqb k0 m.
Proof.
  intros Hne. induction m as [|[k' v'] rest IH]; simpl.
  - replace (k0 =? k) with false by (symmetry; now apply Nat.eqb_neq). reflexivity.
  - destruct (k =? k') eqn:E; simpl.
    + apply Nat.eqb_eq in E. subst k'.
      replace (k0 =? k) with false by (symmetry; now apply Nat.eqb_neq). reflexivity.
    + destruct (k0 =? k'); [reflexivity|exact IH].
Qed.

Lemma owners_none (maps : GroupMaps) (i : nat) :
  (forall u gm g, In (u, gm) maps -> ~ In (g, i) gm) -> owners maps i = [].
Proof.
  unfold owners. induction maps as [|[u gm] rest IH]; intros H; simpl; [reflexivity|].
  rewrite IH by (intros u' gm' g' Hin; apply (H u' gm' g'); now right).
  rewrite app_nil_r.
  assert (Hgm : forall g, ~ In (g, i) gm) by (intros g; apply (H u gm g); now left).
  clear -Hgm. induction gm as [|[g j] gm IH]; simpl; [reflexivity|].
  destruct (j =? i) eqn:E.
  - apply Nat.eqb_eq in E. subst j. exfalso. apply (Hgm g). now left.
  - apply IH. intros g' Hg'. apply (Hgm g'). now right.
Qed.

Lemma owners_inner_app (u : nat) (gm gm' : list (nat * nat)) (i : nat) :
  flat_map (fun ge : nat * nat => if snd ge =? i then [u] else []) (gm ++ gm')
  = flat_map (fun ge : nat * nat => if snd ge =? i then [u] else []) gm
    ++ flat_map (fun ge : nat * nat => if snd ge =? i then [u] else []) gm'.
Proof. apply flat_map_app. Qed.

(** The owners of [i] after [x] was added to the map of [v]. *)
Lemma owners_set (maps : GroupMaps) (v g x : nat) (gm : list (nat * nat)) (i : nat) :
  JS.get Nat.eqb v maps = Some gm ->
  (i = x -> owners maps i = []) ->
  owners (JS.set Nat.eqb v (gm ++ [(g, x)]) maps) i
  = if x =? i then [v] else owners maps i.
Proof.
  unfold owners. induction maps as [|[u gm0] rest IH]; simpl; [discriminate|].
  destruct (v =? u) eqn:E.
  - apply Nat.eqb_eq in E. subst u. intros H Hx. inversion H; subst gm0. clear H.
    simpl. rewrite owners_inner_app. simpl.
    destruct (x =? i) eqn:Exi; [|now rewrite app_nil_r].
    apply Nat.eqb_eq in Exi. symmetry in Exi. specialize (Hx Exi).
    apply app_eq_nil in Hx as [H1 H2]. now rewrite H1, H2.
  - intros H Hx. simpl. rewrite IH; [|assumption|].
    + destruct (x =? i) eqn:Exi; [|reflexivity].
      apply Nat.eqb_eq in Exi. symmetry in Exi. specialize (Hx Exi).
      apply app_eq_nil in Hx as [H1 _]. now rewrite H1.
    + intros Hi. specialize (Hx Hi). now apply app_eq_nil in Hx as [_ H2].
Qed.

Lemma lookup_set_same (maps : GroupMaps) (v : nat) (gm gm' : list (nat * nat)) (g : nat) :
  lookupGroup (JS.set Nat.eqb v gm' maps) v g = JS.get Nat.eqb g gm'.
Proof. unfold lookupGroup. now rewrite get_set_same. Qed.

Lemma lookup_set_other (maps : GroupMaps) (v u : nat) (gm' : list (nat * nat)) (g : nat) :
  u <> v -> lookupGroup (JS.set Nat.eqb v gm' maps) u g = lookupGroup maps u g.
Proof. intros H. unfold lookupGroup. now rewrite get_set_other. Qed.

(** One corner keeps the invariant and what the maps hold, and its result
    is in the maps. *)
Lemma splitCorner_spec (gId : nat) (st : GroupMaps * list Vertex) (v : nat) :
  v < length vs ->
  splitInv vs cutVertices st ->
  let r := splitCorner vs cutVertices gId st v in
  splitInv vs cutVertices (fst r) /\
  (forall u g i, lookupGroup (fst st) u g = Some i -> lookupGroup (fst (fst r)) u g = Some i) /\
  cornerOf cutVertices (fst (fst r)) gId v (snd r).
Proof.
  intros Hv Hinv. cbn zeta. unfold splitCorner, cornerOf.
  destruct (JS.has v cutVertices) eqn:Hcut; [|simpl; auto].
  assert (Hkey : In v (map fst (fst st))).
  { rewrite (inv_keys _ _ _ Hinv). now apply has_true. }
  destruct (JS.get Nat.eqb v (fst st)) as [gm|] eqn:Hget.
  2:{ exfalso. apply get_none_keys in Hget. contradiction. }
  assert (Hin : In (v, gm) (fst st)) by now apply get_some_in.
  destruct (JS.get Nat.eqb gId gm) as [idx|] eqn:Hg.
  { simpl. split; [assumption|]. split; [auto|]. unfold lookupGroup. now rewrite Hget. }
  destruct Hinv as [Hkeys [more Hpre] Hent Hdis Hown].
  assert (Hkeys' : forall gm', map fst (JS.set Nat.eqb v gm' (fst st)) = cutVertices)
    by (intros gm'; now rewrite (keys_set_present v gm' gm (fst st) Hget)).
  assert (Hmono : forall gm',
            (forall g i, JS.get Nat.eqb g gm = Some i -> JS.get Nat.eqb g gm' = Some i) ->
            forall u g i, lookupGroup (fst st) u g = Some i ->
                          lookupGroup (JS.set Nat.eqb v gm' (fst st)) u g = Some i).
  { intros gm' Hgm u g i Hl. destruct (Nat.eq_dec u v) as [->|Hne].
    - rewrite (lookup_set_same _ v gm gm'). unfold lookupGroup in Hl. rewrite Hget in Hl.
      now apply Hgm.
    - now rewrite lookup_set_other. }
  destruct gm as [|e0 gm0] eqn:Egm.
  - (* the first group of the vertex keeps the vertex *)
    cbn [fst snd]. split; [|split].
    + constructor; cbn [fst snd].
      * apply Hkeys'.
      * now exists more.
      * intros u gm' g i Hu Hi. apply set_in_nat in Hu as [Hu|[-> ->]]; [now apply (Hent u gm' g i)|].
        destruct Hi as [Hi|[]]. inversion Hi; subst g i.
        split; [assumption|]. split; [rewrite Hpre, length_app; lia|].
        split; [|reflexivity]. rewrite Hpre. now apply nth_error_app1.
      * intros u gm' Hu. apply set_in_nat in Hu as [Hu|[-> ->]]; [now apply (Hdis u)|].
        repeat constructor. intros [].
      * intros i Hi1 Hi2. destruct (Hown i Hi1 Hi2) as (u & Ho & Hn).
        exists u. split; [|assumption].
        change [(gId, v)] with ([] ++ [(gId, v)]).
        rewrite (owners_set (fst st) v gId v [] i Hget); [|intros ->; lia].
        replace (v =? i) with false by (symmetry; apply Nat.eqb_neq; lia). assumption.
    + apply Hmono. intros g i H. discriminate.
    + rewrite (lookup_set_same _ v [] _). simpl. now rewrite Nat.eqb_refl.
  - (* a later group gets a copy *)
    rewrite <- Egm in *. cbn [fst snd].
    rewrite (set_absent_app gId (length (snd st)) gm Hg).
    assert (Hfresh : forall u gm' g, In (u, gm') (fst st) -> ~ In (g, length (snd st)) gm').
    { intros u gm' g Hu Hi. destruct (Hent u gm' g _ Hu Hi) as (_ & Hlt & _). lia. }
    split; [|split].
    + constructor; cbn [fst snd].
      * apply Hkeys'.
      * exists (more ++ [copyAt vs v]). now rewrite Hpre, app_assoc.
      * intros u gm' g i Hu Hi. rewrite length_app. simpl.
        apply set_in_nat in Hu as [Hu|[-> ->]].
        -- destruct (Hent u gm' g i Hu Hi) as (H1 & H2 & H3 & H4).
           split; [assumption|]. split; [lia|]. split; [|assumption].
           now rewrite nth_error_app1.
        -- apply in_app_iff in Hi as [Hi|[Hi|[]]].
           ++ destruct (Hent v gm g i Hin Hi) as (H1 & H2 & H3 & H4).
              split; [assumption|]. split; [lia|]. split; [|assumption].
              now rewrite nth_error_app1.
           ++ inversion Hi; subst g i. split; [assumption|]. split; [lia|].
              split; [|intros Hlt; rewrite Hpre, length_app in Hlt; lia].
              rewrite nth_error_app2 by lia. rewrite Nat.sub_diag. simpl.
              unfold copyAt. symmetry. now apply nth_error_nth'.
      * intros u gm' Hu. apply set_in_nat in Hu as [Hu|[-> ->]]; [now apply (Hdis u)|].
        rewrite map_app. simpl. apply NoDup_app_iff.
        split; [now apply (Hdis v)|]. split; [repeat constructor; intros []|].
        intros i Hi [Heq|[]]. subst i.
        apply in_map_iff in Hi as ([g i'] & Heq & Hi). simpl in Heq. subst i'.
        now apply (Hfresh v gm g Hin).
      * intros i Hi1 Hi2. rewrite length_app in Hi2. simpl in Hi2.
        rewrite (owners_set (fst st) v gId (length (snd st)) gm i Hget)
          by (intros ->; apply owners_none; intros u gm' g Hu; now apply (Hfresh u)).
        destruct (length (snd st) =? i) eqn:E.
        -- apply Nat.eqb_eq in E. subst i. exists v. split; [reflexivity|].
           rewrite nth_error_app2 by lia. rewrite Nat.sub_diag. simpl.
           unfold copyAt. symmetry. now apply nth_error_nth'.
        -- apply Nat.eqb_neq in E. destruct (Hown i Hi1) as (u & Ho & Hn); [lia|].
           exists u. split; [assumption|]. rewrite nth_error_app1 by lia. assumption.
    + apply Hmono. intros g i H.
      assert (Hne : g <> gId) by (intros ->; congruence).
      clear -H Hne. induction gm as [|[g' i'] gm IH]; simpl in *; [discriminate|].
      destruct (g =? g'); [assumption|]. now apply IH.
    + rewrite (lookup_set_same _ v gm _).
      clear -Hg. induction gm as [|[g' i'] gm IH]; simpl in *; [now rewrite Nat.eqb_refl|].
      destruct (gId =? g'); [discriminate|]. now apply IH.
Qed.


Lemma cornerOf_mono (maps maps' : GroupMaps) (g v v' : nat) :
  (forall u g0 i, lookupGroup maps u g0 = Some i -> lookupGroup maps' u g0 = Some i) ->
  cornerOf cutVertices maps g v v' -> cornerOf cutVertices maps' g v v'.
Proof.
  unfold cornerOf. intros Hm. destruct (JS.has v cutVertices); [apply Hm|auto].
Qed.

Lemma Forall2_snoc {A B : Type} (R : A -> B -> Prop) (l : list A) (l' : list B) a b :
  Forall2 R l l' -> R a b -> Forall2 R (l ++ [a]) (l' ++ [b]).
Proof. intros H1 H2. apply Forall2_app; [assumption|]. now constructor. Qed.

Lemma Forall2_weaken {A B : Type} (R R' : A -> B -> Prop) (l : list A) (l' : list B) :
  (forall a b, In a l -> R a b -> R' a b) -> Forall2 R l l' -> Forall2 R' l l'.
Proof.
  intros H H2. induction H2 as [|a b l l' Hab _ IH]; constructor.
  - apply H; [now left|assumption].
  - apply IH. intros a' b' Ha'. apply H. now right.
Qed.

Lemma splitFace_spec (gId : nat) (face : list nat) :
  forall st,
    (forall v, In v face -> v < length vs) ->
    splitInv vs cutVertices st ->
    let r := splitFace vs cutVertices gId st face in
    splitInv vs cutVertices (fst r) /\
    (forall u g i, lookupGroup (fst st) u g = Some i ->
                   lookupGroup (fst (fst r)) u g = Some i) /\
    Forall2 (cornerOf cutVertices (fst (fst r)) gId) face (snd r).
Proof.
  unfold splitFace. intros st.
  assert (H : forall done acc,
            (forall v, In v face -> v < length vs) ->
            splitInv vs cutVertices st ->
            Forall2 (cornerOf cutVertices (fst st) gId) done acc ->
            let r := fold_left
                       (fun acc vIdx =>
                          let r := splitCorner vs cutVertices gId (fst acc) vIdx in
                          (fst r, snd acc ++ [snd r]))
                       face (st, acc) in
            splitInv vs cutVertices (fst r) /\
            (forall u g i, lookupGroup (fst st) u g = Some i ->
                           lookupGroup (fst (fst r)) u g = Some i) /\
            Forall2 (cornerOf cutVertices (fst (fst r)) gId) (done ++ face) (snd r)).
  { revert st. induction face as [|v face IH]; intros st done acc Hr Hinv Hdone; cbn zeta.
    - simpl. rewrite app_nil_r. auto.
    - cbn [fold_left fst snd].
      destruct (splitCorner_spec gId st v (Hr v (or_introl eq_refl)) Hinv)
        as (Hinv1 & Hmono1 & Hc1).
      destruct (IH (fst (splitCorner vs cutVertices gId st v)) (done ++ [v])
                   (acc ++ [snd (splitCorner vs cutVertices gId st v)]))
        as (Hinv2 & Hmono2 & Hall).
      + intros v0 Hv0. apply Hr. now right.
      + assumption.
      + apply Forall2_snoc; [|assumption].
        apply (Forall2_weaken (cornerOf cutVertices (fst st) gId)); [|assumption].
        intros a b _. now apply cornerOf_mono.
      + split; [assumption|]. split; [auto|].
        now rewrite <- app_assoc in Hall. }
  intros Hr Hinv. apply (H [] [] Hr Hinv). constructor.
Qed.

Lemma splitFaces_spec (comps : list (list nat)) (fs : list (list nat)) :
  forall st,
    (forall face v, In face fs -> In v face -> v < length vs) ->
    splitInv vs cutVertices st ->
    let r := splitFaces vs cutVertices comps fs st in
    splitInv vs cutVertices (fst r) /\
    Forall2 (fun entry face' =>
               Forall2 (cornerOf cutVertices (fst (fst r)) (groupIndex comps (fst entry)))
                       (snd entry) face')
            (combine (seq 0 (length fs)) fs) (snd r).
Proof.
  unfold splitFaces. intros st Hr.
  assert (Hr' : forall entry v, In entry (combine (seq 0 (length fs)) fs) ->
                                In v (snd entry) -> v < length vs).
  { intros [f face] v He. apply in_combine_r in He. now apply Hr. }
  clear Hr. revert Hr'. generalize (combine (seq 0 (length fs)) fs). intros entries Hr.
  assert (H : forall done acc,
            splitInv vs cutVertices st ->
            Forall2 (fun entry face' =>
                       Forall2 (cornerOf cutVertices (fst st) (groupIndex comps (fst entry)))
                               (snd entry) face') done acc ->
            let r := fold_left
                       (fun acc entry =>
                          let r := splitFace vs cutVertices (groupIndex comps (fst entry))
                                             (fst acc) (snd entry) in
                          (fst r, snd acc ++ [snd r]))
                       entries (st, acc) in
            splitInv vs cutVertices (fst r) /\
            (forall u g i, lookupGroup (fst st) u g = Some i ->
                           lookupGroup (fst (fst r)) u g = Some i) /\
            Forall2 (fun entry face' =>
                       Forall2 (cornerOf cutVertices (fst (fst r))
                                         (groupIndex comps (fst entry)))
                               (snd entry) face')
                    (done ++ entries) (snd r)).
  { revert st. induction entries as [|e entries IH]; intros st done acc Hinv Hdone; cbn zeta.
    - simpl. rewrite app_nil_r. auto.
    - cbn [fold_left fst snd].
      destruct (splitFace_spec (groupIndex comps (fst e)) (snd e) st)
        as (Hinv1 & Hmono1 & Hc1);
        [intros v Hv; apply (Hr e); [now left|assumption]|assumption|].
      destruct (IH (fun entry v He => Hr entry v (or_intror He))
                   (fst (splitFace vs cutVertices (groupIndex comps (fst e)) st (snd e)))
                   (done ++ [e])
                   (acc ++ [snd (splitFace vs cutVertices (groupIndex comps (fst e)) st
                                           (snd e))]))
        as (Hinv2 & Hmono2 & Hall).
      + assumption.
      + apply Forall2_snoc; [|assumption].
        apply (Forall2_weaken
                 (fun entry face' =>
                    Forall2 (cornerOf cutVertices (fst st) (groupIndex comps (fst entry)))
                            (snd entry) face')); [|assumption].
        intros a b _ Hab.
        apply (Forall2_weaken (cornerOf cutVertices (fst st) (groupIndex comps (fst a))));
          [|assumption].
        intros v v' _. now apply cornerOf_mono.
      + split; [assumption|]. split; [auto|].
        now rewrite <- app_assoc in Hall. }
  intros Hinv. destruct (H [] [] Hinv (Forall2_nil _)) as (H1 & _ & H3). auto.
Qed.

End CutProofs.

Section CutClaims.
Import Geometry Scissor.

Lemma Forall2_nth_error {A B : Type} (R : A -> B -> Prop) (l : list A) (l' : list B) :
  Forall2 R l l' ->
  forall i a b, nth_error l i = Some a -> nth_error l' i = Some b -> R a b.
Proof.
  induction 1 as [|x y l l' Hxy _ IH]; intros i a b Ha Hb; [destruct i; discriminate|].
  destruct i as [|i]; simpl in *; [inversion Ha; inversion Hb; subst; assumption|].
  now apply (IH i).
Qed.

Lemma combine_seq_nth {A : Type} (l : list A) (i : nat) (a : A) :
  nth_error l i = Some a -> nth_error (combine (seq 0 (length l)) l) i = Some (i, a).
Proof.
  assert (H : forall s, nth_error l i = Some a ->
                        nth_error (combine (seq s (length l)) l) i = Some (s + i, a)).
  { revert i. induction l as [|x l IH]; intros i s Hi; [destruct i; discriminate|].
    destruct i as [|i]; simpl in *.
    - inversion Hi. now rewrite Nat.add_0_r.
    - rewrite (IH i (S s) Hi). f_equal. f_equal. lia. }
  apply H.
Qed.

Lemma map_snd_combine_seq {A : Type} (l : list A) :
  forall s, map snd (combine (seq s (length l)) l) = l.
Proof. induction l as [|a l IH]; intros s; simpl; [reflexivity|now rewrite IH]. Qed.

Lemma Forall2_map_left {A B C : Type} (P : B -> C -> Prop) (f : A -> B)
      (l : list A) (l' : list C) :
  Forall2 (fun a c => P (f a) c) l l' -> Forall2 P (map f l) l'.
Proof. induction 1; simpl; constructor; assumption. Qed.

Lemma cutVerticesOf_NoDup (seamEdges : list EdgeKey) : NoDup (cutVerticesOf seamEdges).
Proof.
  unfold cutVerticesOf.
  assert (Hs : forall s, NoDup s ->
              NoDup (fold_left (fun s k => JS.add (snd k) (JS.add (fst k) s)) seamEdges s)).
  { induction seamEdges as [|k ks IH]; intros s Hs; simpl; [assumption|].
    apply IH. now apply NoDup_add, NoDup_add. }
  apply Hs. constructor.
Qed.

Lemma owners_in (maps : GroupMaps) (u g i : nat) (gm : list (nat * nat)) :
  In (u, gm) maps -> In (g, i) gm -> In u (owners maps i).
Proof.
  intros Hu Hg. unfold owners. apply in_flat_map. exists (u, gm). split; [assumption|].
  apply in_flat_map. exists (g, i). split; [assumption|]. simpl.
  rewrite Nat.eqb_refl. now left.
Qed.

Lemma lookup_in (maps : GroupMaps) (u g i : nat) :
  lookupGroup maps u g = Some i ->
  exists gm, In (u, gm) maps /\ In (g, i) gm.
Proof.
  unfold lookupGroup. destruct (JS.get Nat.eqb u maps) as [gm|] eqn:Hu; [|discriminate].
  intros Hg. exists gm. split; now apply get_some_in.
Qed.

Lemma flat_map_singletons {A B : Type} (f : A -> list B) (P : A -> B -> Prop) (l : list A) :
  (forall a, In a l -> exists b, f a = [b] /\ P a b) ->
  exists bs, flat_map f l = bs /\ Forall2 P l bs.
Proof.
  induction l as [|a l IH]; intros H; simpl; [exists []; split; [reflexivity|constructor]|].
  destruct (H a (or_introl eq_refl)) as (b & Hb & Hp).
  destruct IH as (bs & Hbs & Hall); [intros a' Ha'; apply H; now right|].
  exists (b :: bs). rewrite Hb, Hbs. split; [reflexivity|now constructor].
Qed.

(** What [cutAlongEdges] returns, by the state its loop over the corners
    ends in. *)
Lemma cutAlongEdges_spec (mesh : Part) (seamEdges : list EdgeKey) (cut : CutPart) :
  (forall face v, In face (partFaces mesh) -> In v face -> v < length (partVertices mesh)) ->
  cutAlongEdges mesh seamEdges = Some cut ->
  exists maps,
    splitInv (partVertices mesh) (cutVerticesOf seamEdges) (maps, outVertices cut) /\
    Forall2 (fun entry face' =>
               Forall2 (cornerOf (cutVerticesOf seamEdges) maps
                                 (groupIndex (faceComponents (partFaces mesh) seamEdges)
                                             (fst entry)))
                       (snd entry) face')
            (combine (seq 0 (length (partFaces mesh))) (partFaces mesh)) (outFaces cut) /\
    outLocalToGlobal cut
    = match partLocalToGlobal mesh with
      | Some table => map Some table
      | None => map Some (seq 0 (length (partVertices mesh)))
      end
      ++ flat_map (fun i => map (origin (partLocalToGlobal mesh)) (owners maps i))
                  (seq (length (partVertices mesh))
                       (length (outVertices cut) - length (partVertices mesh))).
Proof.
  intros Hr H. unfold cutAlongEdges in H.
  destruct seamEdges as [|k0 ks] eqn:E; [discriminate|]. rewrite <- E in *. clear E k0 ks.
  cbn zeta in H.
  set (st0 := (map (fun vIdx : nat => (vIdx, @nil (nat * nat))) (cutVerticesOf seamEdges),
               partVertices mesh)) in *.
  assert (Hinv0 : splitInv (partVertices mesh) (cutVerticesOf seamEdges) st0).
  { assert (Hnil : forall u gm, In (u, gm) (fst st0) -> gm = []).
    { intros u gm Hu. apply in_map_iff in Hu as (x & Hx & _). now inversion Hx. }
    constructor; simpl.
    - rewrite map_map. apply map_id.
    - exists []. now rewrite app_nil_r.
    - intros u gm g i Hu Hi. rewrite (Hnil u gm Hu) in Hi. destruct Hi.
    - intros u gm Hu. rewrite (Hnil u gm Hu). constructor.
    - intros i H1 H2. lia. }
  destruct (splitFaces_spec (partVertices mesh) (cutVerticesOf seamEdges)
              (faceComponents (partFaces mesh) seamEdges) (partFaces mesh) st0 Hr Hinv0)
    as [Hinv Hfaces].
  inversion H; subst cut. clear H. cbn [outVertices outFaces outLocalToGlobal].
  exists (fst (fst (splitFaces (partVertices mesh) (cutVerticesOf seamEdges)
                       (faceComponents (partFaces mesh) seamEdges) (partFaces mesh) st0))).
  rewrite <- surjective_pairing. auto.
Qed.

(** X29: [cutAlongEdges], on a sub-mesh whose faces name its vertices and
    whose [localToGlobal], if any, has one entry per vertex, changes no
    shape: the old vertices stay where they are in the list, every corner of
    every face points to a vertex that is a copy of the one it pointed to,
    and [localToGlobal] gives for it what it gave for the old one. *)
Theorem cut_keeps_geometry (mesh : Part) (seamEdges : list EdgeKey) (cut : CutPart) :
  (forall face v, In face (partFaces mesh) -> In v face -> v < length (partVertices mesh)) ->
  (forall table, partLocalToGlobal mesh = Some table ->
                 length table = length (partVertices mesh)) ->
  cutAlongEdges mesh seamEdges = Some cut ->
  firstn (length (partVertices mesh)) (outVertices cut) = partVertices mesh /\
  length (outLocalToGlobal cut) = length (outVertices cut) /\
  Forall2 (Forall2 (fun v v' =>
                      nth_error (outVertices cut) v' = nth_error (partVertices mesh) v /\
                      nth_error (outLocalToGlobal cut) v'
                      = Some (origin (partLocalToGlobal mesh) v)))
          (partFaces mesh) (outFaces cut).
Proof.
  intros Hr Htable H.
  destruct (cutAlongEdges_spec mesh seamEdges cut Hr H) as (maps & Hinv & Hfaces & Hl2g).
  destruct Hinv as [Hkeys [more Hpre] Hent Hdis Hown]. cbn [fst snd] in *.
  set (n := length (partVertices mesh)) in *.
  assert (Hlen : length (outVertices cut) = n + length more)
    by (rewrite Hpre, length_app; reflexivity).
  (* the old part of the table *)
  set (base := match partLocalToGlobal mesh with
               | Some table => map Some table
               | None => map Some (seq 0 n)
               end) in *.
  assert (Hbase : length base = n /\
                  forall v, v < n -> nth_error base v = Some (origin (partLocalToGlobal mesh) v)).
  { subst base. unfold origin. destruct (partLocalToGlobal mesh) as [table|] eqn:Et.
    - specialize (Htable table eq_refl). rewrite length_map. split; [assumption|].
      intros v Hv. rewrite nth_error_map.
      destruct (nth_error table v) eqn:Ev; [reflexivity|].
      apply nth_error_None in Ev. lia.
    - rewrite length_map, length_seq. split; [reflexivity|].
      intros v Hv. rewrite nth_error_map.
      rewrite (nth_error_nth' (seq 0 n) 0) by (rewrite length_seq; exact Hv).
      now rewrite seq_nth. }
  destruct Hbase as [Hbl Hbn].
  (* the new part *)
  destruct (flat_map_singletons
              (fun i => map (origin (partLocalToGlobal mesh)) (owners maps i))
              (fun i y => exists u, owners maps i = [u] /\
                                    y = origin (partLocalToGlobal mesh) u)
              (seq n (length (outVertices cut) - n)))
    as (news & Hnews & Hall).
  { intros i Hi. apply in_seq in Hi. destruct (Hown i) as (u & Ho & _); [lia|lia|].
    exists (origin (partLocalToGlobal mesh) u). rewrite Ho. split; [reflexivity|eauto]. }
  rewrite Hnews in Hl2g.
  assert (Hnl : length news = length more).
  { apply Forall2_length in Hall. rewrite length_seq in Hall. lia. }
  split; [rewrite Hpre; subst n; now rewrite firstn_app, Nat.sub_diag, firstn_all, app_nil_r|].
  split; [rewrite Hl2g, length_app; lia|].
  (* the corners *)
  assert (Hcorner : forall g v v', v < n -> cornerOf (cutVerticesOf seamEdges) maps g v v' ->
            nth_error (outVertices cut) v' = nth_error (partVertices mesh) v /\
            nth_error (outLocalToGlobal cut) v' = Some (origin (partLocalToGlobal mesh) v)).
  { intros g v v' Hv Hc. unfold cornerOf in Hc.
    assert (Hold : nth_error (outVertices cut) v = nth_error (partVertices mesh) v /\
                   nth_error (outLocalToGlobal cut) v
                   = Some (origin (partLocalToGlobal mesh) v)).
    { split; [rewrite Hpre; now apply nth_error_app1|].
      rewrite Hl2g, nth_error_app1 by lia. now apply Hbn. }
    destruct (JS.has v (cutVerticesOf seamEdges)); [|now subst v'].
    apply lookup_in in Hc as (gm & Hu & Hg).
    destruct (Hent v gm g v' Hu Hg) as (_ & Hlt & Hnth & Hsame).
    split; [assumption|].
    destruct (Nat.lt_ge_cases v' n) as [Hlow|Hhigh].
    - rewrite (Hsame Hlow). apply Hold.
    - rewrite Hl2g, nth_error_app2 by lia. rewrite Hbl.
      assert (Hi : nth_error (seq n (length (outVertices cut) - n)) (v' - n) = Some v').
      { rewrite (nth_error_nth' _ 0) by (rewrite length_seq; lia).
        rewrite seq_nth by lia. f_equal. lia. }
      destruct (nth_error news (v' - n)) as [y|] eqn:Ey;
        [|apply nth_error_None in Ey; lia].
      destruct (Forall2_nth_error _ _ _ Hall _ _ _ Hi Ey) as (u & Ho & ->).
      assert (Hin := owners_in maps v g v' gm Hu Hg). rewrite Ho in Hin.
      destruct Hin as [->|[]]. reflexivity. }
  assert (Hsnd : map snd (combine (seq 0 (length (partFaces mesh))) (partFaces mesh))
                = partFaces mesh).
  { apply map_snd_combine_seq. }
  rewrite <- Hsnd. apply Forall2_map_left.
  apply (Forall2_weaken _ _ _ _ (fun entry face' He Hface => Hface)) in Hfaces.
  revert Hfaces. apply Forall2_weaken. intros [f face] face' He. cbn [fst snd].
  apply Forall2_weaken. intros v v' Hv. apply Hcorner.
  apply in_combine_r in He. now apply (Hr face).
Qed.

(** X29 (witness): the square cut along its diagonal. *)
Lemma cut_keeps_geometry_witness :
  firstn (length (partVertices Seamed.part)) (outVertices Seamed.cut)
  = partVertices Seamed.part /\
  length (outLocalToGlobal Seamed.cut) = length (outVertices Seamed.cut) /\
  Forall2 (Forall2 (fun v v' =>
                      nth_error (outVertices Seamed.cut) v'
                      = nth_error (partVertices Seamed.part) v /\
                      nth_error (outLocalToGlobal Seamed.cut) v'
                      = Some (origin (partLocalToGlobal Seamed.part) v)))
          (partFaces Seamed.part) (outFaces Seamed.cut).
Proof.
  apply (cut_keeps_geometry Seamed.part Seamed.seam Seamed.cut).
  - intros face v [<-|[<-|[]]] Hv; simpl in Hv; simpl; lia.
  - intros table Ht. inversion Ht. reflexivity.
  - vm_compute. reflexivity.
Defined.

(** X30: two corners on the same vertex get the same index after
    [cutAlongEdges] exactly when the vertex is on no seam edge or their
    two faces are in the same group: the faces on the two sides of a seam
    no longer share its vertices. *)
Theorem cut_separates_groups (mesh : Part) (seamEdges : list EdgeKey) (cut : CutPart)
        (f1 f2 k1 k2 v v1 v2 : nat) (face1 face2 new1 new2 : list nat) :
  (forall face u, In face (partFaces mesh) -> In u face -> u < length (partVertices mesh)) ->
  cutAlongEdges mesh seamEdges = Some cut ->
  nth_error (partFaces mesh) f1 = Some face1 -> nth_error (outFaces cut) f1 = Some new1 ->
  nth_error (partFaces mesh) f2 = Some face2 -> nth_error (outFaces cut) f2 = Some new2 ->
  nth_error face1 k1 = Some v -> nth_error new1 k1 = Some v1 ->
  nth_error face2 k2 = Some v -> nth_error new2 k2 = Some v2 ->
  (v1 = v2 <->
   JS.has v (cutVerticesOf seamEdges) = false \/
   groupIndex (faceComponents (partFaces mesh) seamEdges) f1
   = groupIndex (faceComponents (partFaces mesh) seamEdges) f2).
Proof.
  intros Hr H Hf1 Hn1 Hf2 Hn2 Hk1 Hv1 Hk2 Hv2.
  destruct (cutAlongEdges_spec mesh seamEdges cut Hr H) as (maps & Hinv & Hfaces & _).
  assert (Hc : forall f k face new v', nth_error (partFaces mesh) f = Some face ->
             nth_error (outFaces cut) f = Some new ->
             nth_error face k = Some v -> nth_error new k = Some v' ->
             cornerOf (cutVerticesOf seamEdges) maps
                      (groupIndex (faceComponents (partFaces mesh) seamEdges) f) v v').
  { intros f k face new v' Hf Hn Hk Hv.
    assert (He := combine_seq_nth _ _ _ Hf).
    assert (Hface := Forall2_nth_error _ _ _ Hfaces _ _ _ He Hn). cbn [fst snd] in Hface.
    apply (Forall2_nth_error _ _ _ Hface _ _ _ Hk Hv). }
  assert (Hc1 := Hc _ _ _ _ _ Hf1 Hn1 Hk1 Hv1).
  assert (Hc2 := Hc _ _ _ _ _ Hf2 Hn2 Hk2 Hv2).
  unfold cornerOf in Hc1, Hc2.
  destruct (JS.has v (cutVerticesOf seamEdges)); [|split; [now left|congruence]].
  split.
  - intros <-. right.
    apply lookup_in in Hc1 as (gm1 & Hu1 & Hg1). apply lookup_in in Hc2 as (gm2 & Hu2 & Hg2).
    assert (Hnd : NoDup (map fst maps)).
    { assert (Hk := inv_keys _ _ _ Hinv). cbn [fst] in Hk. rewrite Hk.
      apply cutVerticesOf_NoDup. }
    assert (gm1 = gm2).
    { clear -Hnd Hu1 Hu2. induction maps as [|[u gm] rest IH]; [destruct Hu1|].
      simpl in Hnd. inversion Hnd as [|? ? Hnotin Hnd']; subst.
      destruct Hu1 as [H1|H1], Hu2 as [H2|H2].
      - congruence.
      - inversion H1; subst. exfalso. apply Hnotin. apply in_map_iff. now exists (v, gm2).
      - inversion H2; subst. exfalso. apply Hnotin. apply in_map_iff. now exists (v, gm1).
      - now apply IH. }
    subst gm2. assert (Hd := inv_distinct _ _ _ Hinv v gm1 Hu1). cbn [fst] in Hd.
    clear -Hd Hg1 Hg2. induction gm1 as [|[g i] gm IH]; [destruct Hg1|].
    simpl in Hd. inversion Hd as [|? ? Hnotin Hd']; subst.
    destruct Hg1 as [H1|H1], Hg2 as [H2|H2].
    + congruence.
    + inversion H1; subst. exfalso. apply Hnotin. apply in_map_iff.
      now exists (groupIndex (faceComponents (partFaces mesh) seamEdges) f2, v1).
    + inversion H2; subst. exfalso. apply Hnotin. apply in_map_iff.
      now exists (groupIndex (faceComponents (partFaces mesh) seamEdges) f1, v1).
    + now apply IH.
  - intros [Hf|Hg]; [discriminate|]. rewrite Hg in Hc1. congruence.
Qed.

(** X30 (witness): the corners of the two triangles on vertex 0. *)
Lemma cut_separates_groups_witness :
  0 = 4 <->
  JS.has 0 (cutVerticesOf Seamed.seam) = false \/
  groupIndex (faceComponents (partFaces Seamed.part) Seamed.seam) 0
  = groupIndex (faceComponents (partFaces Seamed.part) Seamed.seam) 1.
Proof.
  apply (cut_separates_groups Seamed.part Seamed.seam Seamed.cut 0 1 0 0 0 0 4
           [0; 1; 2] [0; 2; 3] [0; 1; 2] [4; 5; 3]).
  - intros face v [<-|[<-|[]]] Hv; simpl in Hv; simpl; lia.
  - vm_compute. reflexivity.
  - reflexivity.
  - reflexivity.
  - reflexivity.
  - reflexivity.
  - reflexivity.
  - reflexivity.
  - reflexivity.
  - reflexivity.
Defined.

End CutClaims.
